(** * nostd: ordered containers (set / map) over a sentinel red-black tree,
      and the fixed-chunk pool allocator.

    The tree engine of [include/nostd/set.h] and [include/nostd/map.h] is
    embedded over an explicit store of nodes addressed by pointers: every
    method is a state-passing function on that store, every loop carries a
    fuel argument that the method derives from the size of the store. *)

From Stdlib Require Import ZArith Lia String.
From stdpp Require Import base tactics option list gmap fin_maps sets.

Open Scope Z_scope.
Set Warnings "-clear-no-such-hyp".
Set Default Proof Using "Type".

(** ** Results of running a method *)

Inductive error : Type :=
| InvalidAccess              (* access outside live storage: null or freed *)
| RuntimeError (msg : string) (* a thrown std::runtime_error *)
| OutOfFuel.                 (* the loop budget was too small *)

Inductive result (A : Type) : Type :=
| Ok (a : A)
| Err (e : error).
Arguments Ok {A} a.
Arguments Err {A} e.

(** Pointers are block addresses; [nullptr] is address 0. *)
Definition ptr : Type := nat.
Definition nullptr : ptr := 0%nat.

(** [allocator::size_type] is [unsigned int]. *)
Definition size_type_modulus : Z := 2 ^ 32.
Definition wrap (z : Z) : Z := z mod size_type_modulus.

Module RBTree.
Section Engine.

(** [T] is the payload, [K] the key it is ordered by: for [set<T>] the key is
    the payload itself, for [map<Key,T>] the payload is a pair and the key is
    its first component. [T0] is the value-initialised payload [T()]. *)
Context {T K : Type}.
Variable key_of : T -> K.
Variable eqb ltb : K -> K -> bool.
Variable T0 : T.
(** contents of storage handed out by the allocator before it is written *)
Variable junk : T.

Record node_t : Type := mk_node {
  parent : ptr;
  left : ptr;
  right : ptr;
  red : bool;   (* if red = false then the node is black *)
  data : T
}.

Abbreviation mem := (gmap ptr node_t).

Definition M (A : Type) : Type := mem -> result (A * mem).

Definition ret {A} (a : A) : M A := fun m => Ok (a, m).
Definition fail {A} (e : error) : M A := fun _ => Err e.
Definition bind {A B} (c : M A) (k : A -> M B) : M B :=
  fun m => match c m with
           | Ok (a, m') => k a m'
           | Err e => Err e
           end.

Notation "x <- c ;; k" := (bind c (fun x => k))
  (at level 100, c at next level, right associativity).
Notation "c ;;; k" := (bind c (fun _ => k))
  (at level 100, right associativity).

(** *** Field access: [p->f] and [p->f = v] *)

Definition load (p : ptr) : M node_t :=
  fun m => match m !! p with
           | Some n => Ok (n, m)
           | None => Err InvalidAccess
           end.

Definition store (p : ptr) (f : node_t -> node_t) : M unit :=
  fun m => match m !! p with
           | Some n => Ok (tt, <[p := f n]> m)
           | None => Err InvalidAccess
           end.

Definition get_parent (p : ptr) : M ptr := n <- load p ;; ret (parent n).
Definition get_left (p : ptr) : M ptr := n <- load p ;; ret (left n).
Definition get_right (p : ptr) : M ptr := n <- load p ;; ret (right n).
Definition get_red (p : ptr) : M bool := n <- load p ;; ret (red n).
Definition get_data (p : ptr) : M T := n <- load p ;; ret (data n).

Definition with_parent (v : ptr) (n : node_t) : node_t :=
  mk_node v (left n) (right n) (red n) (data n).
Definition with_left (v : ptr) (n : node_t) : node_t :=
  mk_node (parent n) v (right n) (red n) (data n).
Definition with_right (v : ptr) (n : node_t) : node_t :=
  mk_node (parent n) (left n) v (red n) (data n).
Definition with_red (v : bool) (n : node_t) : node_t :=
  mk_node (parent n) (left n) (right n) v (data n).
Definition with_data (v : T) (n : node_t) : node_t :=
  mk_node (parent n) (left n) (right n) (red n) v.

Definition set_parent (p v : ptr) : M unit := store p (with_parent v).
Definition set_left (p v : ptr) : M unit := store p (with_left v).
Definition set_right (p v : ptr) : M unit := store p (with_right v).
Definition set_red (p : ptr) (v : bool) : M unit := store p (with_red v).
Definition set_data (p : ptr) (v : T) : M unit := store p (with_data v).

(** The loop budget of a method: one more than the number of live nodes. *)
Definition with_fuel {A} (f : nat -> M A) : M A :=
  fun m => f (S (size m)) m.

(** *** The container object *)

Record set : Type := mk_set {
  this : ptr;        (* identity of the container object *)
  nil_ : ptr;
  root_ : ptr;
  allocator_ : ptr;  (* the allocator reference; nullptr when unset *)
  size_ : Z
}.

Definition with_size (v : Z) (s : set) : set :=
  mk_set (this s) (nil_ s) (root_ s) (allocator_ s) v.

(** [allocator_->allocate(sizeof(node_t))]: dereferences the allocator
    reference and returns storage that is not live, with unspecified
    contents. *)
Definition _allocate_node (s : set) : M ptr :=
  fun m =>
    if decide (allocator_ s = nullptr) then Err InvalidAccess
    else let p := fresh ({[nullptr]} ∪ dom m) in
         Ok (p, <[p := mk_node nullptr nullptr nullptr false junk]> m).

(** [allocator_->free(node)] *)
Definition _free_node (s : set) (p : ptr) : M unit :=
  fun m =>
    if decide (allocator_ s = nullptr) then Err InvalidAccess
    else match m !! p with
         | Some _ => Ok (tt, delete p m)
         | None => Err InvalidAccess
         end.

(** [new (node) node_t(node)] *)
Definition _make_nil_node (s : set) : M ptr :=
  node <- _allocate_node s ;;
  store node (fun _ => mk_node node node node false T0) ;;;
  ret node.

(** [new (node) node_t(nil_)]: the NIL node is initialised first. *)
Definition _make_root_node (s : set) : M ptr :=
  node <- _allocate_node s ;;
  store node (fun _ => mk_node (nil_ s) (nil_ s) (nil_ s) false T0) ;;;
  ret node.

(** *** Rotations *)

Definition _left_rotate (s : set) (x : ptr) : M unit :=
  y <- get_right x ;;
  yl <- get_left y ;;
  set_right x yl ;;;
  yl <- get_left y ;;
  (if decide (yl ≠ nil_ s) then set_parent yl x else ret tt) ;;;
  xp <- get_parent x ;;
  set_parent y xp ;;;
  xp <- get_parent x ;;
  xpl <- get_left xp ;;
  (if decide (x = xpl) then set_left xp y else set_right xp y) ;;;
  set_left y x ;;;
  set_parent x y.

Definition _right_rotate (s : set) (y : ptr) : M unit :=
  x <- get_left y ;;
  xr <- get_right x ;;
  set_left y xr ;;;
  xr <- get_right x ;;
  (if decide (nil_ s ≠ xr) then set_parent xr y else ret tt) ;;;
  yp <- get_parent y ;;
  set_parent x yp ;;;
  yp <- get_parent y ;;
  ypl <- get_left yp ;;
  (if decide (y = ypl) then set_left yp x else set_right yp x) ;;;
  set_right x y ;;;
  set_parent y x.

(** *** Search and insertion *)

(** The body of the [while (!(data == x->data))] loop of [_search]. *)
Fixpoint _search_loop (fuel : nat) (s : set) (k : K) (x : ptr) : M ptr :=
  match fuel with
  | O => fail OutOfFuel
  | S fuel =>
    xd <- get_data x ;;
    if negb (eqb k (key_of xd)) then
      xd <- get_data x ;;
      x <- (if ltb k (key_of xd) then get_left x else get_right x) ;;
      if decide (x = nil_ s) then ret (nil_ s)
      else _search_loop fuel s k x
    else ret x
  end.

Definition _search (s : set) (k : K) : M ptr :=
  r <- get_left (root_ s) ;;
  if decide (r = nil_ s) then ret (nil_ s)
  else with_fuel (fun fuel => _search_loop fuel s k r).

(** The [while (x != nil_)] descent of [_insert_help]; returns the last [y]. *)
Fixpoint _insert_help_loop (fuel : nat) (s : set) (z y x : ptr) : M ptr :=
  match fuel with
  | O => fail OutOfFuel
  | S fuel =>
    if decide (x ≠ nil_ s) then
      let y := x in
      zd <- get_data z ;;
      xd <- get_data x ;;
      x <- (if ltb (key_of zd) (key_of xd) then get_left x else get_right x) ;;
      _insert_help_loop fuel s z y x
    else ret y
  end.

Definition _insert_help (s : set) (z : ptr) : M unit :=
  set_right z (nil_ s) ;;;
  zr <- get_right z ;;
  set_left z zr ;;;
  let y := root_ s in
  x <- get_left (root_ s) ;;
  y <- with_fuel (fun fuel => _insert_help_loop fuel s z y x) ;;
  set_parent z y ;;;
  lt <- (if decide (y = root_ s) then ret true
         else zd <- get_data z ;; yd <- get_data y ;;
              ret (ltb (key_of zd) (key_of yd))) ;;
  if lt : bool then set_left y z else set_right y z.

(** [x->parent->parent] *)
Definition get_grandparent (x : ptr) : M ptr :=
  xp <- get_parent x ;; get_parent xp.

(** The [while (x->parent->red)] loop of [_insert]. *)
Fixpoint _insert_loop (fuel : nat) (s : set) (x : ptr) : M unit :=
  match fuel with
  | O => fail OutOfFuel
  | S fuel =>
    xp <- get_parent x ;;
    xp_red <- get_red xp ;;
    if xp_red : bool then
      xp <- get_parent x ;;
      xpp <- get_grandparent x ;;
      xppl <- get_left xpp ;;
      if decide (xp = xppl) then
        xpp <- get_grandparent x ;;
        y <- get_right xpp ;;
        y_red <- get_red y ;;
        if y_red : bool then
          xp <- get_parent x ;;
          set_red xp false ;;;
          set_red y false ;;;
          xpp <- get_grandparent x ;;
          set_red xpp true ;;;
          x <- get_grandparent x ;;
          _insert_loop fuel s x
        else
          xp <- get_parent x ;;
          xpr <- get_right xp ;;
          x <- (if decide (x = xpr)
                then x <- get_parent x ;; _left_rotate s x ;;; ret x
                else ret x) ;;
          xp <- get_parent x ;;
          set_red xp false ;;;
          xpp <- get_grandparent x ;;
          set_red xpp true ;;;
          xpp <- get_grandparent x ;;
          _right_rotate s xpp ;;;
          _insert_loop fuel s x
      else
        xpp <- get_grandparent x ;;
        y <- get_left xpp ;;
        y_red <- get_red y ;;
        if y_red : bool then
          xp <- get_parent x ;;
          set_red xp false ;;;
          set_red y false ;;;
          xpp <- get_grandparent x ;;
          set_red xpp true ;;;
          x <- get_grandparent x ;;
          _insert_loop fuel s x
        else
          xp <- get_parent x ;;
          xpl <- get_left xp ;;
          x <- (if decide (x = xpl)
                then x <- get_parent x ;; _right_rotate s x ;;; ret x
                else ret x) ;;
          xp <- get_parent x ;;
          set_red xp false ;;;
          xpp <- get_grandparent x ;;
          set_red xpp true ;;;
          xpp <- get_grandparent x ;;
          _left_rotate s xpp ;;;
          _insert_loop fuel s x
    else ret tt
  end.

Definition _insert (s : set) (x : ptr) : M (ptr * set) :=
  _insert_help s x ;;;
  let new_node := x in
  set_red x true ;;;
  with_fuel (fun fuel => _insert_loop fuel s x) ;;;
  r <- get_left (root_ s) ;;
  set_red r false ;;;
  ret (new_node, with_size (wrap (size_ s + 1)) s).

(** *** Destruction and deletion *)

Fixpoint _destroy_helper (fuel : nat) (s : set) (x : ptr) : M unit :=
  match fuel with
  | O => fail OutOfFuel
  | S fuel =>
    if decide (x ≠ nil_ s) then
      xl <- get_left x ;;
      _destroy_helper fuel s xl ;;;
      xr <- get_right x ;;
      _destroy_helper fuel s xr ;;;
      (* x->data.~T() *)
      _free_node s x
    else ret tt
  end.

(** [w->right->red] and [w->left->red] *)
Definition get_right_red (w : ptr) : M bool :=
  wr <- get_right w ;; get_red wr.
Definition get_left_red (w : ptr) : M bool :=
  wl <- get_left w ;; get_red wl.

(** The [while ((!x->red) && (root != x))] loop of [_delete_fix_up];
    returns the final [x]. *)
Fixpoint _delete_fix_up_loop (fuel : nat) (s : set) (root x : ptr) : M ptr :=
  match fuel with
  | O => fail OutOfFuel
  | S fuel =>
    x_red <- get_red x ;;
    if negb x_red && bool_decide (root ≠ x) then
      xp <- get_parent x ;;
      xpl <- get_left xp ;;
      if decide (x = xpl) then
        xp <- get_parent x ;;
        w <- get_right xp ;;
        w_red <- get_red w ;;
        w <- (if w_red : bool then
                set_red w false ;;;
                xp <- get_parent x ;;
                set_red xp true ;;;
                xp <- get_parent x ;;
                _left_rotate s xp ;;;
                xp <- get_parent x ;;
                get_right xp
              else ret w) ;;
        wr_red <- get_right_red w ;;
        wl_red <- (if negb wr_red then get_left_red w else ret true) ;;
        if negb wr_red && negb wl_red then
          set_red w true ;;;
          x <- get_parent x ;;
          _delete_fix_up_loop fuel s root x
        else
          wr_red <- get_right_red w ;;
          w <- (if negb wr_red then
                  wl <- get_left w ;;
                  set_red wl false ;;;
                  set_red w true ;;;
                  _right_rotate s w ;;;
                  xp <- get_parent x ;;
                  get_right xp
                else ret w) ;;
          xp <- get_parent x ;;
          xp_red <- get_red xp ;;
          set_red w xp_red ;;;
          xp <- get_parent x ;;
          set_red xp false ;;;
          wr <- get_right w ;;
          set_red wr false ;;;
          xp <- get_parent x ;;
          _left_rotate s xp ;;;
          let x := root in (* this is to exit while loop *)
          _delete_fix_up_loop fuel s root x
      else (* the code below is has left and right switched from above *)
        xp <- get_parent x ;;
        w <- get_left xp ;;
        w_red <- get_red w ;;
        w <- (if w_red : bool then
                set_red w false ;;;
                xp <- get_parent x ;;
                set_red xp true ;;;
                xp <- get_parent x ;;
                _right_rotate s xp ;;;
                xp <- get_parent x ;;
                get_left xp
              else ret w) ;;
        wr_red <- get_right_red w ;;
        wl_red <- (if negb wr_red then get_left_red w else ret true) ;;
        if negb wr_red && negb wl_red then
          set_red w true ;;;
          x <- get_parent x ;;
          _delete_fix_up_loop fuel s root x
        else
          wl_red <- get_left_red w ;;
          w <- (if negb wl_red then
                  wr <- get_right w ;;
                  set_red wr false ;;;
                  set_red w true ;;;
                  _left_rotate s w ;;;
                  xp <- get_parent x ;;
                  get_left xp
                else ret w) ;;
          xp <- get_parent x ;;
          xp_red <- get_red xp ;;
          set_red w xp_red ;;;
          xp <- get_parent x ;;
          set_red xp false ;;;
          wl <- get_left w ;;
          set_red wl false ;;;
          xp <- get_parent x ;;
          _right_rotate s xp ;;;
          let x := root in (* this is to exit while loop *)
          _delete_fix_up_loop fuel s root x
    else ret x
  end.

(** Performs rotations and changes colors to restore red-black properties
    after a node is deleted. *)
Definition _delete_fix_up (s : set) (x : ptr) : M unit :=
  root <- get_left (root_ s) ;;
  x <- with_fuel (fun fuel => _delete_fix_up_loop fuel s root x) ;;
  set_red x false.

(** [while (y->left != nil_) y = y->left;] *)
Fixpoint _leftmost_loop (fuel : nat) (nil : ptr) (y : ptr) : M ptr :=
  match fuel with
  | O => fail OutOfFuel
  | S fuel =>
    yl <- get_left y ;;
    if decide (yl ≠ nil) then _leftmost_loop fuel nil yl
    else ret y
  end.

(** [while (x == y->right) { x = y; y = y->parent; }] *)
Fixpoint _successor_climb (fuel : nat) (x y : ptr) : M ptr :=
  match fuel with
  | O => fail OutOfFuel
  | S fuel =>
    yr <- get_right y ;;
    if decide (x = yr) then
      let x := y in
      y <- get_parent y ;;
      _successor_climb fuel x y
    else ret y
  end.

Definition _tree_successor (s : set) (x : ptr) : M ptr :=
  y <- get_right x ;;
  if decide (nil_ s ≠ y) then
    with_fuel (fun fuel => _leftmost_loop fuel (nil_ s) y)
  else
    y <- get_parent x ;;
    y <- with_fuel (fun fuel => _successor_climb fuel x y) ;;
    if decide (y = root_ s) then ret (nil_ s) else ret y.

Definition _delete (s : set) (z : ptr) : M set :=
  let root := root_ s in
  zl <- get_left z ;;
  one_child <- (if decide (zl = nil_ s) then ret true
                else zr <- get_right z ;; ret (bool_decide (zr = nil_ s))) ;;
  y <- (if one_child : bool then ret z else _tree_successor s z) ;;
  yl <- get_left y ;;
  x <- (if decide (yl = nil_ s) then get_right y else get_left y) ;;
  yp <- get_parent y ;;
  set_parent x yp ;;;
  xp <- get_parent x ;;
  (if decide (root = xp) then set_left root x
   else
     yp <- get_parent y ;;
     ypl <- get_left yp ;;
     if decide (y = ypl) then yp <- get_parent y ;; set_left yp x
     else yp <- get_parent y ;; set_right yp x) ;;;
  (if decide (y ≠ z) then
     (* y is the node to splice out and x is its child *)
     y_red <- get_red y ;;
     (if negb y_red then _delete_fix_up s x else ret tt) ;;;
     (* z->data.~T() *)
     zl <- get_left z ;;
     set_left y zl ;;;
     zr <- get_right z ;;
     set_right y zr ;;;
     zp <- get_parent z ;;
     set_parent y zp ;;;
     z_red <- get_red z ;;
     set_red y z_red ;;;
     zr <- get_right z ;;
     set_parent zr y ;;;
     zl <- get_left z ;;
     set_parent zl y ;;;
     zp <- get_parent z ;;
     zpl <- get_left zp ;;
     (if decide (z = zpl) then zp <- get_parent z ;; set_left zp y
      else zp <- get_parent z ;; set_right zp y) ;;;
     _free_node s z
   else
     (* y->data.~T() *)
     y_red <- get_red y ;;
     (if negb y_red then _delete_fix_up s x else ret tt) ;;;
     _free_node s y) ;;;
  ret (with_size (wrap (size_ s - 1)) s).

(** *** Iterators *)

Record iterator : Type := mk_iterator {
  set_ : ptr;   (* the container the iterator is bound to *)
  node_ : ptr
}.

Definition iterator_eq (a b : iterator) : bool :=
  bool_decide (set_ a = set_ b) && bool_decide (node_ a = node_ b).
Definition iterator_ne (a b : iterator) : bool :=
  bool_decide (set_ a ≠ set_ b) || bool_decide (node_ a ≠ node_ b).

(** [while (y != set_->nil_ && x == y->right) { x = y; y = y->parent; }] *)
Fixpoint _next_climb (fuel : nat) (s : set) (x y : ptr) : M ptr :=
  match fuel with
  | O => fail OutOfFuel
  | S fuel =>
    if decide (y ≠ nil_ s) then
      yr <- get_right y ;;
      if decide (x = yr) then
        let x := y in
        y <- get_parent y ;;
        _next_climb fuel s x y
      else ret y
    else ret y
  end.

Definition _next (s : set) (prev : ptr) : M ptr :=
  let x := prev in
  y <- get_right x ;;
  if decide (nil_ s ≠ y) then
    with_fuel (fun fuel => _leftmost_loop fuel (nil_ s) y)
  else
    y <- get_parent x ;;
    y <- with_fuel (fun fuel => _next_climb fuel s x y) ;;
    if decide (y = root_ s) then ret (nil_ s) else ret y.

Definition _check_node (it : iterator) : M unit :=
  if decide (node_ it = nullptr)
  then fail (RuntimeError "invalid iterator operation")
  else ret tt.

(** prefix [operator ++] *)
Definition iterator_incr (s : set) (it : iterator) : M iterator :=
  _check_node it ;;;
  n <- _next s (node_ it) ;;
  ret (mk_iterator (set_ it) n).

(** [operator *] *)
Definition iterator_deref (it : iterator) : M T :=
  _check_node it ;;;
  get_data (node_ it).

(** *** The public methods *)

(** [set(allocator * alloc)] *)
Definition construct (self alloc : ptr) : M set :=
  let s := mk_set self nullptr nullptr alloc 0 in
  n <- _make_nil_node s ;;
  let s := mk_set self n nullptr alloc 0 in
  r <- _make_root_node s ;;
  ret (mk_set self n r alloc 0).

Definition empty (s : set) : bool := bool_decide (size_ s = 0).
Definition size (s : set) : Z := size_ s.

Definition clear (s : set) : M set :=
  r <- get_left (root_ s) ;;
  with_fuel (fun fuel => _destroy_helper fuel s r) ;;;
  set_left (root_ s) (nil_ s) ;;;
  ret (with_size 0 s).

Definition end_ (s : set) : iterator := mk_iterator (this s) (nil_ s).

Definition begin (s : set) : M iterator :=
  x <- get_left (root_ s) ;;
  if decide (x ≠ nil_ s) then
    x <- with_fuel (fun fuel => _leftmost_loop fuel (nil_ s) x) ;;
    ret (mk_iterator (this s) x)
  else ret (end_ s).

Definition insert (s : set) (value : T) : M (iterator * bool * set) :=
  existing <- _search s (key_of value) ;;
  if decide (existing ≠ nil_ s) then
    ret (mk_iterator (this s) existing, false, s)
  else
    x <- _allocate_node s ;;
    set_data x value ;;;
    r <- _insert s x ;;
    let '(new_node, s) := r in
    ret (mk_iterator (this s) new_node, true, s).

Definition trusted_insert (s : set) (value : T) : M (iterator * set) :=
  x <- _allocate_node s ;;
  set_data x value ;;;
  r <- _insert s x ;;
  let '(new_node, s) := r in
  ret (mk_iterator (this s) new_node, s).

Definition find (s : set) (k : K) : M iterator :=
  node <- _search s k ;;
  if decide (node ≠ nil_ s) then ret (mk_iterator (this s) node)
  else ret (end_ s).

(** [erase(iterator pos)] *)
Definition erase (s : set) (pos : iterator) : M set :=
  if decide (node_ pos = nil_ s)
  then fail (RuntimeError "trying to erase nil node")
  else _delete s (node_ pos).

(** The [for (iterator it = begin(); it != end(); ++it)] loop of
    [erase(const T& value)]. *)
Fixpoint _erase_value_loop (fuel : nat) (s : set) (k : K) (it : iterator)
    (count : Z) : M (Z * set) :=
  match fuel with
  | O => fail OutOfFuel
  | S fuel =>
    if iterator_ne it (end_ s) then
      let node := node_ it in
      d <- get_data node ;;
      r <- (if eqb (key_of d) k
            then s <- _delete s node ;; ret (wrap (count + 1), s)
            else ret (count, s)) ;;
      let '(count, s) := r in
      it <- iterator_incr s it ;;
      _erase_value_loop fuel s k it count
    else ret (count, s)
  end.

(** [erase(const T& value)] *)
Definition erase_value (s : set) (k : K) : M (Z * set) :=
  it <- begin s ;;
  with_fuel (fun fuel => _erase_value_loop fuel s k it 0).

(** *** Copy and move *)

Definition _clean (s : set) : M set :=
  s <- (if decide (root_ s ≠ nullptr) then
          r <- get_left (root_ s) ;;
          with_fuel (fun fuel => _destroy_helper fuel s r) ;;;
          _free_node s (root_ s) ;;;
          ret (mk_set (this s) (nil_ s) nullptr (allocator_ s) (size_ s))
        else ret s) ;;
  if decide (nil_ s ≠ nullptr) then
    _free_node s (nil_ s) ;;;
    ret (mk_set (this s) nullptr (root_ s) (allocator_ s) (size_ s))
  else ret s.

(** The copying loop of [_set_by_copy]. *)
Fixpoint _copy_loop (fuel : nat) (s other : set) (it : iterator) : M set :=
  match fuel with
  | O => fail OutOfFuel
  | S fuel =>
    if iterator_ne it (end_ other) then
      x <- _allocate_node s ;;
      d <- get_data (node_ it) ;;
      set_data x d ;;;
      r <- _insert s x ;;
      it <- iterator_incr other it ;;
      _copy_loop fuel (snd r) other it
    else ret s
  end.

Definition _set_by_copy (s other : set) : M set :=
  (* Clean old data *)
  s <- _clean s ;;
  (* set values *)
  n <- _make_nil_node s ;;
  let s := mk_set (this s) n (root_ s) (allocator_ s) (size_ s) in
  r <- _make_root_node s ;;
  let s := mk_set (this s) (nil_ s) r (allocator_ s) (size_ s) in
  let s := mk_set (this s) (nil_ s) (root_ s) (allocator_ other) (size_ s) in
  let s := with_size 0 s in
  (* Copy other set nodes *)
  it <- begin other ;;
  with_fuel (fun fuel => _copy_loop fuel s other it).

(** [set(const set& other)] *)
Definition copy_construct (self : ptr) (other : set) : M set :=
  _set_by_copy (mk_set self nullptr nullptr nullptr 0) other.

(** [_set_by_move]: returns the new state of this container and of [other]. *)
Definition _set_by_move (s other : set) : M (set * set) :=
  s <- _clean s ;;
  ret (mk_set (this s) (nil_ other) (root_ other) (allocator_ other)
         (size_ other),
       mk_set (this other) nullptr nullptr nullptr 0).

(** [set(set && other)] *)
Definition move_construct (self : ptr) (other : set) : M (set * set) :=
  _set_by_move (mk_set self nullptr nullptr nullptr 0) other.

(** *** In-order traversal by a client: [begin()], then [*it] and [++it]
    until [end()] *)

Fixpoint _traverse_loop (fuel : nat) (s : set) (it : iterator)
    (acc : list T) : M (list T) :=
  match fuel with
  | O => fail OutOfFuel
  | S fuel =>
    if iterator_ne it (end_ s) then
      d <- iterator_deref it ;;
      it <- iterator_incr s it ;;
      _traverse_loop fuel s it (acc ++ [d])
    else ret acc
  end.

Definition traverse (s : set) : M (list T) :=
  it <- begin s ;;
  with_fuel (fun fuel => _traverse_loop fuel s it []).

End Engine.

Notation "x <- c ;; k" := (bind c (fun x => k))
  (at level 100, c at next level, right associativity).
Notation "c ;;; k" := (bind c (fun _ => k))
  (at level 100, right associativity).

(** *** [map<Key,T>]: the payload is the pair [(key, value)], ordered by its
    first component *)

Section MapOps.
Context {Key V : Type} (eqb ltb : Key -> Key -> bool) (V0 : V)
  (junk : Key * V).

(** [T& operator [](const Key& key)]: the result is the node whose
    [data.second] the returned reference designates. *)
Definition operator_index (s : set) (key : Key) : M (ptr * set) :=
  existing <- _search fst eqb ltb s key ;;
  if decide (existing ≠ nil_ s) then ret (existing, s)
  else
    x <- _allocate_node junk s ;;
    set_data x (key, V0) ;;;
    r <- _insert fst ltb s x ;;
    let '(new_node, s) := r in
    ret (new_node, s).

End MapOps.

End RBTree.

(** * The array container [vector] of [vector.h] *)

Module Vector.

Inductive failure : Type :=
| BadAccess                 (* access outside a live buffer *)
| RangeError (msg : string) (* a thrown std::range_error *)
| BadAlloc.                 (* a thrown std::bad_alloc *)

Inductive outcome (A : Type) : Type :=
| Val (a : A)
| Exn (e : failure).
Arguments Val {A} a.
Arguments Exn {A} e.

Section Impl.
Context {T : Type}.
(** [T()], the value-initialised payload *)
Variable T0 : T.
(** contents of storage handed out by the allocator before it is written *)
Variable junk : T.
(** [sizeof(T)] *)
Variable sizeof_T : Z.

(** The store: every live buffer with the objects of type [T] it has room
    for.  The model checks that each access stays inside a live buffer; an
    element that was never constructed reads as the unspecified [junk]. *)
Abbreviation mem := (gmap ptr (list T)).

Definition M (A : Type) : Type := mem -> outcome (A * mem).

Definition ret {A} (a : A) : M A := fun m => Val (a, m).
Definition fail {A} (e : failure) : M A := fun _ => Exn e.
Definition bind {A B} (c : M A) (k : A -> M B) : M B :=
  fun m => match c m with
           | Val (a, m') => k a m'
           | Exn e => Exn e
           end.

Notation "x <- c ;; k" := (bind c (fun x => k))
  (at level 100, c at next level, right associativity).
Notation "c ;;; k" := (bind c (fun _ => k))
  (at level 100, right associativity).

(** [size_type] is [unsigned int] *)
Definition wrap (z : Z) : Z := z mod 2 ^ 32.

(** reading [buffer[i]] *)
Definition read (buffer : ptr) (i : Z) : M T :=
  fun m => match m !! buffer with
           | Some blk =>
               match blk !! Z.to_nat i with
               | Some x => Val (x, m)
               | None => Exn BadAccess
               end
           | None => Exn BadAccess
           end.

(** writing [buffer[i]], by assignment or by placement [new] *)
Definition write (buffer : ptr) (i : Z) (x : T) : M unit :=
  fun m => match m !! buffer with
           | Some blk =>
               if decide (Z.to_nat i < length blk)%nat
               then Val (tt, <[buffer := <[Z.to_nat i := x]> blk]> m)
               else Exn BadAccess
           | None => Exn BadAccess
           end.

(** [(buffer + i)->~T()]: payloads are plain values, their destructor has no
    effect on the store *)
Definition destroy_at (buffer : ptr) (i : Z) : M unit := ret tt.

(** [for (size_type i = a; i < b; ++i) body(i)] *)
Fixpoint for_range (n : nat) (i : Z) (body : Z -> M unit) : M unit :=
  match n with
  | O => ret tt
  | S n => body i ;;; for_range n (i + 1) body
  end.

Definition for_loop (a b : Z) (body : Z -> M unit) : M unit :=
  for_range (Z.to_nat (b - a)) a body.

Record vector : Type := mk_vector {
  buffer_ : ptr;
  allocator_ : ptr;  (* the allocator reference; nullptr when unset *)
  buffer_size_ : Z;
  size_ : Z
}.

Definition with_buffer (b : ptr) (v : vector) : vector :=
  mk_vector b (allocator_ v) (buffer_size_ v) (size_ v).
Definition with_buffer_size (n : Z) (v : vector) : vector :=
  mk_vector (buffer_ v) (allocator_ v) n (size_ v).
Definition with_size (n : Z) (v : vector) : vector :=
  mk_vector (buffer_ v) (allocator_ v) (buffer_size_ v) n.

(** [vector(allocator * alloc)] *)
Definition construct (alloc : ptr) : vector := mk_vector nullptr alloc 0 0.

(** [default_allocator::get_instance()]: the address of a static object,
    which is not null *)
Definition get_instance : ptr := 1%nat.

(** [vector()] *)
Definition construct_default : vector := construct get_instance.

(** [allocator_->allocate(sizeof(T) * size)]: dereferences the allocator
    reference; the byte count is passed as a [size_type]; the result is a
    buffer that was not live, with room for as many objects as fit in that
    many bytes. *)
Definition _allocate_buffer (v : vector) (size : Z) : M ptr :=
  fun m =>
    if decide (allocator_ v = nullptr) then Exn BadAccess
    else let p := fresh ({[nullptr]} ∪ dom m) in
         Val (p, <[p := replicate (Z.to_nat (wrap (sizeof_T * size) / sizeof_T))
                          junk]> m).

(** [allocator_->free(buffer)] *)
Definition _free_buffer (v : vector) (buffer : ptr) : M unit :=
  fun m =>
    if decide (allocator_ v = nullptr) then Exn BadAccess
    else match m !! buffer with
         | Some _ => Val (tt, delete buffer m)
         | None => Exn BadAccess
         end.

(** [vector::iterator]: a pointer into a buffer, the buffer and the index
    of the element *)
Definition iterator : Type := (ptr * Z)%type.

Definition begin (v : vector) : iterator := (buffer_ v, 0).
Definition end_ (v : vector) : iterator := (buffer_ v, size_ v).
Definition iterator_ne (a b : iterator) : bool :=
  bool_decide (fst a ≠ fst b) || bool_decide (snd a ≠ snd b).
Definition iterator_incr (it : iterator) : iterator := (fst it, snd it + 1).
Definition iterator_deref (it : iterator) : M T := read (fst it) (snd it).

(** [operator[]], read and written through the returned reference *)
Definition operator_index (v : vector) (index : Z) : M T :=
  read (buffer_ v) index.
Definition assign_index (v : vector) (index : Z) (x : T) : M unit :=
  write (buffer_ v) index x.

Definition at_ (v : vector) (index : Z) : M T :=
  if negb ((0 <=? index) && (index <? size_ v))
  then fail (RangeError "index out of range")
  else read (buffer_ v) index.

Definition empty (v : vector) : bool := bool_decide (size_ v = 0).
Definition size (v : vector) : Z := size_ v.
Definition capacity (v : vector) : Z := buffer_size_ v.
Definition data (v : vector) : ptr := buffer_ v.

Definition front (v : vector) : M T :=
  if decide (0 = size_ v) then fail (RangeError "container is empty")
  else read (buffer_ v) 0.

Definition back (v : vector) : M T :=
  if decide (0 = size_ v) then fail (RangeError "container is empty")
  else read (buffer_ v) (wrap (size_ v - 1)).

Definition clear (v : vector) : M vector :=
  for_loop 0 (size_ v) (destroy_at (buffer_ v)) ;;;
  ret (with_size 0 v).

Definition reserve (v : vector) (size : Z) : M vector :=
  v <- (if decide (size = 0) then
          if decide (buffer_ v ≠ nullptr) then
            _free_buffer v (buffer_ v) ;;;
            ret (with_buffer nullptr v)
          else ret v
        else if decide (buffer_size_ v < size) then
          (* Allocate a new buffer *)
          new_buffer <- _allocate_buffer v size ;;
          if decide (new_buffer = nullptr) then fail BadAlloc
          else
            (if decide (buffer_ v ≠ nullptr) then
               (* Call move constructor on old elements *)
               for_loop 0 (size_ v)
                 (fun i => x <- read (buffer_ v) i ;; write new_buffer i x) ;;;
               (* Free old buffer *)
               _free_buffer v (buffer_ v)
             else ret tt) ;;;
            (* Replace buffers *)
            ret (with_buffer new_buffer v)
        else ret v) ;;
  ret (with_buffer_size size v).

Definition resize (v : vector) (new_size : Z) : M vector :=
  let old_size := size_ v in
  let v := with_size new_size v in
  if decide (new_size <= old_size) then
    (* Destruct old elements *)
    for_loop new_size old_size (destroy_at (buffer_ v)) ;;;
    ret v
  else
    (* New size is greater than old one *)
    v <- reserve v (wrap (new_size + Z.shiftr new_size 2)) ;;
    (* Copy default T into new elements. *)
    for_loop old_size new_size (fun i => write (buffer_ v) i T0) ;;;
    ret v.

Definition push_back (v : vector) (value : T) : M vector :=
  v <- resize v (wrap (size_ v + 1)) ;;
  write (buffer_ v) (wrap (size_ v - 1)) value ;;;
  ret v.

Definition pop_back (v : vector) : M vector :=
  if decide (size_ v ≠ 0) then resize v (wrap (size_ v - 1))
  else fail (RangeError "pop_back on empty container").

Definition swap (v other : vector) : vector * vector := (other, v).

Definition _clean (v : vector) : M vector :=
  v <- clear v ;;
  v <- (if decide (buffer_ v ≠ nullptr) then
          _free_buffer v (buffer_ v) ;;;
          ret (with_buffer nullptr v)
        else ret v) ;;
  ret (with_buffer_size 0 v).

Definition _set_by_copy (v other : vector) : M vector :=
  v <- _clean v ;;
  let v := mk_vector (buffer_ v) (allocator_ other) (buffer_size_ other)
             (size_ v) in
  v <- (if decide (buffer_size_ other > 0) then
          b <- _allocate_buffer v (buffer_size_ other) ;;
          if decide (b = nullptr) then fail BadAlloc
          else ret (with_buffer b v)
        else ret (with_buffer nullptr v)) ;;
  let v := with_size (size_ other) v in
  (* Copy data *)
  for_loop 0 (size_ v)
    (fun i => x <- read (buffer_ other) i ;; write (buffer_ v) i x) ;;;
  ret v.

(** [_set_by_move]: returns the new state of this vector and of [other] *)
Definition _set_by_move (v other : vector) : M (vector * vector) :=
  v <- _clean v ;;
  ret (mk_vector (buffer_ other) (allocator_ other) (buffer_size_ other)
         (size_ other),
       mk_vector nullptr nullptr 0 0).

(** [vector(const vector& other)] *)
Definition copy_construct (other : vector) : M vector :=
  _set_by_copy (mk_vector nullptr nullptr 0 0) other.

(** [vector(vector && other)] *)
Definition move_construct (other : vector) : M (vector * vector) :=
  _set_by_move (mk_vector nullptr nullptr 0 0) other.

(** [operator =(const vector& other)] *)
Definition copy_assign (v other : vector) : M vector := _set_by_copy v other.

(** [operator =(vector && other)] *)
Definition move_assign (v other : vector) : M (vector * vector) :=
  _set_by_move v other.

(** [~vector()] *)
Definition destruct_ (v : vector) : M vector := _clean v.

(** a client that pushes the payloads [ds] one after the other *)
Fixpoint push_all (v : vector) (ds : list T) : M vector :=
  match ds with
  | [] => ret v
  | d :: ds => v <- push_back v d ;; push_all v ds
  end.

End Impl.

End Vector.

(** * The pool allocator of [src/pool_allocator.cpp] over the intrusive
      free list of [stack_linked_list.h] *)

Module Pool.

Inductive fault : Type :=
| BadAlloc                  (* std::bad_alloc from the system allocator *)
| BadAccess                 (* a read or write outside every live buffer *)
| RangeError (msg : string) (* a thrown std::range_error *)
| NoFuel.                   (* the loop budget was too small *)

Inductive outcome (A : Type) : Type :=
| Done (a : A)
| Fault (e : fault).
Arguments Done {A} a.
Arguments Fault {A} e.

(** The system heap under the allocator: [new byte_type[n]] hands out the
    bytes from [brk] on, up to [limit]; [cells] holds the [next] field
    written at the start of a chunk. Addresses are byte addresses, the null
    pointer is 0.  [vstore] is the store of the default allocator, from
    which the vector [buffers_] takes the buffer for its elements (the
    store of [Vector], which is not counted against [limit]). *)
Record sys : Type := mk_sys {
  brk : Z;
  limit : Z;
  blocks : list (Z * Z);     (* base address and length of each live buffer *)
  cells : gmap Z Z;
  vstore : gmap ptr (list Z)
}.

Definition PM (A : Type) : Type := sys -> outcome (A * sys).

Definition pret {A} (a : A) : PM A := fun w => Done (a, w).
Definition pbind {A B} (c : PM A) (k : A -> PM B) : PM B :=
  fun w => match c w with
           | Done (a, w') => k a w'
           | Fault e => Fault e
           end.

Definition pfail {A} (e : fault) : PM A := fun _ => Fault e.

Definition fault_of (e : Vector.failure) : fault :=
  match e with
  | Vector.BadAccess => BadAccess
  | Vector.RangeError msg => RangeError msg
  | Vector.BadAlloc => BadAlloc
  end.

(** a call on a vector, run on the store of the default allocator *)
Definition vlift {A} (c : Vector.M (T:=Z) A) : PM A :=
  fun w => match c (vstore w) with
           | Vector.Val (a, h) =>
               Done (a, mk_sys (brk w) (limit w) (blocks w) (cells w) h)
           | Vector.Exn e => Fault (fault_of e)
           end.

Notation "x <~ c ;; k" := (pbind c (fun x => k))
  (at level 100, c at next level, right associativity).
Notation "c ;;~ k" := (pbind c (fun _ => k))
  (at level 100, right associativity).

Section PoolAllocator.

(** [sizeof(stack_linked_list::node_t)]: a struct of one pointer; it is
    also taken as the size of a pointer to [byte_type], the element size
    of [buffers_] *)
Variable sizeof_node : Z.
(** contents of storage handed out by the default allocator before it is
    written *)
Variable junk : Z.

(** [new byte_type[n]] *)
Definition sys_new (n : Z) : PM Z :=
  fun w =>
    if decide (brk w + Z.max n 1 <= limit w) then
      Done (brk w, mk_sys (brk w + Z.max n 1) (limit w)
                          ((brk w, n) :: blocks w) (cells w) (vstore w))
    else Fault BadAlloc.

(** a [node_t] at address [a] lies inside a live buffer *)
Definition in_block (w : sys) (a : Z) : bool :=
  existsb (fun b => (fst b <=? a) && (a + sizeof_node <=? fst b + snd b))
          (blocks w).

(** [a->next = v] *)
Definition set_next (a v : Z) : PM unit :=
  fun w =>
    if in_block w a then
      Done (tt, mk_sys (brk w) (limit w) (blocks w) (<[a := v]> (cells w))
                       (vstore w))
    else Fault BadAccess.

(** [a->next] *)
Definition get_next (a : Z) : PM Z :=
  fun w =>
    if in_block w a then
      match cells w !! a with
      | Some v => Done (v, w)
      | None => Fault BadAccess
      end
    else Fault BadAccess.

(** *** [stack_linked_list] *)

Record stack_linked_list : Type := mk_stack { head_ : Z }.

Definition push (l : stack_linked_list) (new_node : Z) : PM stack_linked_list :=
  set_next new_node (head_ l) ;;~
  pret (mk_stack new_node).

Definition pop (l : stack_linked_list) : PM (Z * stack_linked_list) :=
  let top := head_ l in
  if decide (head_ l <> 0) then
    nx <~ get_next (head_ l) ;;
    pret (top, mk_stack nx)
  else pret (top, l).

(** *** [pool_allocator] *)

Record pool_allocator : Type := mk_pool {
  num_chunks_ : Z;
  chunk_size_ : Z;
  free_list_ : stack_linked_list;
  buffers_ : Vector.vector   (* [vector<byte_type*>]; a null pointer, the
                                value-initialised element, is 0 *)
}.

Definition with_free_list (fl : stack_linked_list) (p : pool_allocator) :=
  mk_pool (num_chunks_ p) (chunk_size_ p) fl (buffers_ p).
Definition with_chunk_size (c : Z) (p : pool_allocator) :=
  mk_pool (num_chunks_ p) c (free_list_ p) (buffers_ p).

(** [pool_allocator(size_type num_chunks)] *)
Definition construct (num_chunks : Z) : pool_allocator :=
  mk_pool num_chunks 0 (mk_stack 0) Vector.construct_default.

(** [buffers_.push_back(buffer)] is the [push_back] of [Vector] *)
Definition _allocate_buffer (p : pool_allocator) : PM (Z * pool_allocator) :=
  let size_to_allocate := wrap (num_chunks_ p * chunk_size_ p) in
  buffer <~ sys_new size_to_allocate ;;
  if decide (buffer = 0) then pfail BadAlloc
  else
    bufs <~ vlift (Vector.push_back 0 junk sizeof_node (buffers_ p) buffer) ;;
    pret (buffer, mk_pool (num_chunks_ p) (chunk_size_ p) (free_list_ p) bufs).

(** [for (size_type i = 0; i < num_chunks_; ++i)
       free_list_.push(buffer + i * chunk_size_)]: [count] is the number of
    rounds left *)
Fixpoint _push_chunks (count : nat) (i : Z) (buffer : Z) (p : pool_allocator)
    : PM pool_allocator :=
  match count with
  | O => pret p
  | S count =>
    let node_ptr := buffer + wrap (i * chunk_size_ p) in
    fl <~ push (free_list_ p) node_ptr ;;
    _push_chunks count (wrap (i + 1)) buffer (with_free_list fl p)
  end.

Definition allocate (p : pool_allocator) (size : Z) : PM (Z * pool_allocator) :=
  r <~ pop (free_list_ p) ;;
  let p := with_free_list (snd r) p in
  if decide (fst r = 0) then
    let p := if Vector.empty (buffers_ p)
             then (* First time buffer allocation *)
                  with_chunk_size (wrap (sizeof_node + size)) p
             else p in
    r <~ _allocate_buffer p ;;
    p <~ _push_chunks (Z.to_nat (num_chunks_ (snd r))) 0 (fst r) (snd r) ;;
    r <~ pop (free_list_ p) ;;
    pret (fst r + sizeof_node, with_free_list (snd r) p)
  else pret (fst r + sizeof_node, p).

Definition free (p : pool_allocator) (ptr : Z) : PM pool_allocator :=
  let node_ptr := ptr - sizeof_node in
  fl <~ push (free_list_ p) node_ptr ;;
  pret (with_free_list fl p).

(** *** A client: a sequence of requests of one size; [Free i] releases the
    [i]-th block the client still holds. *)

Inductive request : Type :=
| Alloc
| Free (i : nat).

Definition client : Type := (pool_allocator * list Z)%type.

Definition serve (size : Z) (c : client) (r : request) : PM client :=
  match r with
  | Alloc =>
      a <~ allocate (fst c) size ;;
      pret (snd a, fst a :: snd c)
  | Free i =>
      match snd c !! i with
      | Some q =>
          p <~ free (fst c) q ;;
          pret (p, delete i (snd c))
      | None => pret c
      end
  end.

Fixpoint serve_all (size : Z) (c : client) (rs : list request) : PM client :=
  match rs with
  | [] => pret c
  | r :: rs => c <~ serve size c r ;; serve_all size c rs
  end.

End PoolAllocator.
End Pool.

(** * The destructor of the pool allocator *)

Module PoolDestroy.
Import Pool.

(** [delete[] buffer]: [buffer] has to be the base of a live buffer, which
    then is live no longer. *)
Definition sys_delete (buffer : Z) : PM unit :=
  fun w =>
    if decide (buffer ∈ (blocks w).*1) then
      Done (tt, mk_sys (brk w) (limit w)
                       (filter (fun b => fst b <> buffer) (blocks w))
                       (cells w) (vstore w))
    else Fault BadAccess.

(** [for (auto buffer : buffers_) delete[] buffer;], that is
    [for (it = begin(); it != end(); ++it) { buffer = *it; delete[] buffer; }] *)
Fixpoint _delete_buffers (fuel : nat) (it last : Vector.iterator) : PM unit :=
  match fuel with
  | O => pfail NoFuel
  | S fuel =>
    if Vector.iterator_ne it last then
      buffer <~ vlift (Vector.iterator_deref it) ;;
      sys_delete buffer ;;~
      _delete_buffers fuel (Vector.iterator_incr it) last
    else pret tt
  end.

(** [~pool_allocator()]: the body, then the destructor of the member
    [buffers_]; the loop makes [buffers_.size()] rounds *)
Definition destruct_ (p : pool_allocator) : PM unit :=
  _delete_buffers (S (Z.to_nat (Vector.size (buffers_ p))))
    (Vector.begin (buffers_ p)) (Vector.end_ (buffers_ p)) ;;~
  vlift (Vector.destruct_ (buffers_ p)) ;;~
  pret tt.

End PoolDestroy.

(** * The singly linked [forward_list] of [forward_list.h] *)

Module FwdList.

Inductive failure : Type :=
| BadAccess                 (* access outside live storage, or an
                               indeterminate array element *)
| RangeError (msg : string) (* a thrown std::range_error *)
| BadAlloc                  (* a thrown std::bad_alloc *)
| NoFuel                    (* the loop budget was too small *)
| Terminated.               (* std::terminate: an exception was about to
                               leave a noexcept function *)

Inductive outcome (A : Type) : Type :=
| Val (a : A)
| Exn (e : failure).
Arguments Val {A} a.
Arguments Exn {A} e.

Section Impl.
Context {T : Type}.
(** contents of storage handed out by the allocator before it is written *)
Variable junk : T.

Record node_t : Type := mk_node {
  next : ptr;
  data : T
}.

Abbreviation mem := (gmap ptr node_t).

Definition M (A : Type) : Type := mem -> outcome (A * mem).

Definition ret {A} (a : A) : M A := fun m => Val (a, m).
Definition fail {A} (e : failure) : M A := fun _ => Exn e.
Definition bind {A B} (c : M A) (k : A -> M B) : M B :=
  fun m => match c m with
           | Val (a, m') => k a m'
           | Exn e => Exn e
           end.

Notation "x <- c ;; k" := (bind c (fun x => k))
  (at level 100, c at next level, right associativity).
Notation "c ;;; k" := (bind c (fun _ => k))
  (at level 100, right associativity).

(** the body of a function declared [noexcept]: an exception thrown inside
    does not reach the caller, the program is terminated *)
Definition noexcept_ {A} (c : M A) : M A :=
  fun m => match c m with
           | Exn (RangeError _) => Exn Terminated
           | Exn BadAlloc => Exn Terminated
           | r => r
           end.

Definition load (p : ptr) : M node_t :=
  fun m => match m !! p with
           | Some n => Val (n, m)
           | None => Exn BadAccess
           end.

Definition store (p : ptr) (f : node_t -> node_t) : M unit :=
  fun m => match m !! p with
           | Some n => Val (tt, <[p := f n]> m)
           | None => Exn BadAccess
           end.

Definition get_next (p : ptr) : M ptr := n <- load p ;; ret (next n).
Definition get_data (p : ptr) : M T := n <- load p ;; ret (data n).
Definition set_next (p v : ptr) : M unit :=
  store p (fun n => mk_node v (data n)).
Definition set_data (p : ptr) (v : T) : M unit :=
  store p (fun n => mk_node (next n) v).

Record forward_list : Type := mk_list {
  head_ : ptr;
  allocator_ : ptr;  (* the allocator reference; nullptr when unset *)
  size_ : Z
}.

(** [forward_list(allocator * alloc)] *)
Definition construct (alloc : ptr) : forward_list := mk_list nullptr alloc 0.

(** [allocator_->allocate(sizeof(node_t))]: dereferences the allocator
    reference and returns storage that is not live, with unspecified
    contents. *)
Definition _allocate_node (l : forward_list) : M ptr :=
  fun m =>
    if decide (allocator_ l = nullptr) then Exn BadAccess
    else let p := fresh ({[nullptr]} ∪ dom m) in
         Val (p, <[p := mk_node nullptr junk]> m).

(** [allocator_->free(node)] *)
Definition _free_node (l : forward_list) (p : ptr) : M unit :=
  fun m =>
    if decide (allocator_ l = nullptr) then Exn BadAccess
    else match m !! p with
         | Some _ => Val (tt, delete p m)
         | None => Exn BadAccess
         end.

Definition front (l : forward_list) : M T :=
  if decide (head_ l = nullptr)
  then fail (RangeError "Calling front() on an empty container.")
  else get_data (head_ l).

Definition empty (l : forward_list) : bool := bool_decide (size_ l = 0).
Definition size (l : forward_list) : Z := size_ l.
Definition length (l : forward_list) : Z := size_ l.

Definition push_front (l : forward_list) (d : T) : M forward_list :=
  node <- _allocate_node l ;;
  if decide (node = nullptr) then fail BadAlloc
  else
    set_data node d ;;;
    set_next node (head_ l) ;;;
    ret (mk_list node (allocator_ l) (wrap (size_ l + 1))).

Definition pop_front (l : forward_list) : M forward_list :=
  noexcept_
    (let node := head_ l in
     if decide (node ≠ nullptr) then
       nx <- get_next node ;;
       let l := mk_list nx (allocator_ l) (wrap (size_ l - 1)) in
       _free_node l node ;;;
       ret l
     else ret l).

(** [while (size_ != 0U) { T data(utility::move(front())); pop_front(); }] *)
Fixpoint _clear_loop (fuel : nat) (l : forward_list) : M forward_list :=
  match fuel with
  | O => fail NoFuel
  | S fuel =>
    if decide (size_ l ≠ 0) then
      front l ;;;
      l <- pop_front l ;;
      _clear_loop fuel l
    else ret l
  end.

(** [clear() noexcept]: every round that does not throw releases a node, the
    budget is one more than the number of live nodes; the [range_error] of
    [front()] cannot leave [clear] *)
Definition clear (l : forward_list) : M forward_list :=
  noexcept_ (fun m => _clear_loop (S (stdpp.base.size m)) l m).

Definition _clean (l : forward_list) : M forward_list :=
  noexcept_ (clear l).

Definition swap (l other : forward_list) : forward_list * forward_list :=
  (mk_list (head_ other) (allocator_ other) (size_ other),
   mk_list (head_ l) (allocator_ l) (size_ l)).

(** conversion of a [size_type] to [int] *)
Definition to_int (z : Z) : Z := if decide (z < 2 ^ 31) then z else z - 2 ^ 32.

(** [while (other_node != nullptr)
       { nodes[i++] = other_node; other_node = other_node->next; }]:
    [nodes] is the array of [other_size] pointers, [None] where it has not
    been written. *)
Fixpoint _collect (fuel : nat) (nodes : list (option ptr)) (i : Z)
    (other_node : ptr) : M (list (option ptr)) :=
  match fuel with
  | O => fail NoFuel
  | S fuel =>
    if decide (other_node ≠ nullptr) then
      if decide (0 <= i < Z.of_nat (Datatypes.length nodes)) then
        let nodes := <[Z.to_nat i := Some other_node]> nodes in
        other_node <- get_next other_node ;;
        _collect fuel nodes (i + 1) other_node
      else fail BadAccess
    else ret nodes
  end.

(** [for (i = other_size - 1; i >= 0; --i) push_front(nodes[i]->data);] *)
Fixpoint _push_back_to_front (fuel : nat) (l : forward_list)
    (nodes : list (option ptr)) (i : Z) : M forward_list :=
  match fuel with
  | O => fail NoFuel
  | S fuel =>
    if decide (0 <= i) then
      match nodes !! Z.to_nat i with
      | Some (Some p) =>
          d <- get_data p ;;
          l <- push_front l d ;;
          _push_back_to_front fuel l nodes (i - 1)
      | _ => fail BadAccess
      end
    else ret l
  end.

(** Both loops make at most [other_size] rounds. *)
Definition _set_by_copy (l other : forward_list) : M forward_list :=
  _clean l ;;;
  let l := mk_list nullptr (allocator_ other) 0 in
  let other_size := size other in
  if decide (other_size > 0) then
    let fuel := S (Z.to_nat other_size) in
    nodes <- _collect fuel (replicate (Z.to_nat other_size) None) 0
               (head_ other) ;;
    _push_back_to_front fuel l nodes (to_int (wrap (other_size - 1)))
  else ret l.

(** [forward_list(const forward_list& other)]: no member is initialised
    before [_set_by_copy] runs; [h], [a] and [sz] are the indeterminate
    values of [head_], [allocator_] and [size_]. *)
Definition copy_construct (h a : ptr) (sz : Z) (other : forward_list)
    : M forward_list :=
  _set_by_copy (mk_list h a sz) other.

(** [operator =(const forward_list& other) noexcept] *)
Definition copy_assign (l other : forward_list) : M forward_list :=
  noexcept_ (_set_by_copy l other).

(** [_set_by_move]: returns the new state of this list and of [other]. *)
Definition _set_by_move (l other : forward_list)
    : M (forward_list * forward_list) :=
  noexcept_
    (_clean l ;;;
     ret (mk_list (head_ other) (allocator_ other) (size_ other),
          mk_list nullptr nullptr 0)).

(** [forward_list(forward_list && other) noexcept] *)
Definition move_construct (other : forward_list)
    : M (forward_list * forward_list) :=
  noexcept_ (_set_by_move (mk_list nullptr nullptr 0) other).

(** *** A client: calls on one list *)

Inductive op : Type :=
| Push (d : T)
| Pop
| Clear.

Definition run_op (l : forward_list) (o : op) : M forward_list :=
  match o with
  | Push d => push_front l d
  | Pop => pop_front l
  | Clear => clear l
  end.

Fixpoint run_ops (l : forward_list) (os : list op) : M forward_list :=
  match os with
  | [] => ret l
  | o :: os => l <- run_op l o ;; run_ops l os
  end.

(** the payloads a list holds after these calls, front first *)
Definition op_model (o : op) (ds : list T) : list T :=
  match o with
  | Push d => d :: ds
  | Pop => tail ds
  | Clear => []
  end.

Fixpoint ops_model (os : list op) (ds : list T) : list T :=
  match os with
  | [] => ds
  | o :: os => ops_model os (op_model o ds)
  end.

End Impl.

Notation "x <- c ;; k" := (bind c (fun x => k))
  (at level 100, c at next level, right associativity).
Notation "c ;;; k" := (bind c (fun _ => k))
  (at level 100, right associativity).

End FwdList.

(** * Containers driven by a client *)

Module Container.
Import RBTree.
Section Client.
Context {T K : Type} (key_of : T -> K) (eqb ltb : K -> K -> bool) (T0 junk : T).
Local Abbreviation insert := (RBTree.insert key_of eqb ltb junk).
Local Abbreviation find := (RBTree.find key_of eqb ltb).

(** The calls a client makes on a container. *)
Inductive op : Type :=
| OpInsert (v : T)
| OpErase (k : K)
| OpClear.

(** [it = find(k); if (it != end()) erase(it);] *)
Definition erase_found (s : set) (k : K) : M set :=
  it <- find s k ;;
  if iterator_ne it (end_ s) then erase s it else ret s.

Definition run_op (s : set) (o : op) : M set :=
  match o with
  | OpInsert v => r <- insert s v ;; ret (snd r)
  | OpErase k => erase_found s k
  | OpClear => clear s
  end.

Fixpoint run_ops (s : set) (os : list op) : M set :=
  match os with
  | [] => ret s
  | o :: os => s <- run_op s o ;; run_ops s os
  end.

(** a container constructed on allocator [alloc], then used *)
Definition from_empty (self alloc : ptr) (os : list op) : M set :=
  s <- construct T0 junk self alloc ;;
  run_ops s os.

(** The keys a container holds after these calls, given the keys [P] held
    before. *)
Definition op_keys (o : op) (P : K -> Prop) : K -> Prop :=
  match o with
  | OpInsert v => fun k => k = key_of v \/ P k
  | OpErase k0 => fun k => P k /\ k <> k0
  | OpClear => fun _ => False
  end.

Fixpoint ops_keys (os : list op) (P : K -> Prop) : K -> Prop :=
  match os with
  | [] => P
  | o :: os => ops_keys os (op_keys o P)
  end.

Definition stored (os : list op) : K -> Prop := ops_keys os (fun _ => False).

End Client.
End Container.

(** * The tree engine: shapes in the store *)

Module RBShape.
Import RBTree.
Section Shape.
Context {T : Type} (T0 : T).
Local Abbreviation mem := (gmap ptr (@node_t T)).

(** ** The shape laid out in the store

    A [tree] records, for every node reachable from the root sentinel, its
    colour, address and payload. [rep] says that the store holds exactly
    this shape, parent links included. *)

Inductive tree : Type :=
| Leaf
| Node (c : bool) (l : tree) (a : ptr) (d : T) (r : tree).

(** One step of the path from a subtree up to the root: the parent node and
    the sibling subtree. *)
Inductive frame : Type :=
| FL (c : bool) (a : ptr) (d : T) (r : tree)   (* the hole is the left child *)
| FR (c : bool) (l : tree) (a : ptr) (d : T).  (* the hole is the right child *)

Definition plug1 (f : frame) (t : tree) : tree :=
  match f with
  | FL c a d r => Node c t a d r
  | FR c l a d => Node c l a d t
  end.

Fixpoint plug (t : tree) (k : list frame) : tree :=
  match k with
  | [] => t
  | f :: k => plug (plug1 f t) k
  end.

Definition addr (s : set) (t : tree) : ptr :=
  match t with
  | Leaf => nil_ s
  | Node _ _ a _ _ => a
  end.

Definition color (t : tree) : bool :=
  match t with
  | Leaf => false
  | Node c _ _ _ _ => c
  end.

Fixpoint addrs (t : tree) : list ptr :=
  match t with
  | Leaf => []
  | Node _ l a _ r => addrs l ++ a :: addrs r
  end.

Fixpoint elems (t : tree) : list T :=
  match t with
  | Leaf => []
  | Node _ l _ d r => elems l ++ d :: elems r
  end.

Fixpoint height (t : tree) : nat :=
  match t with
  | Leaf => 0
  | Node _ l _ _ r => S (Nat.max (height l) (height r))
  end.

Definition faddr (f : frame) : ptr :=
  match f with
  | FL _ a _ _ => a
  | FR _ _ a _ => a
  end.

Definition fcolor (f : frame) : bool :=
  match f with
  | FL c _ _ _ => c
  | FR c _ _ _ => c
  end.

Definition faddrs (f : frame) : list ptr :=
  match f with
  | FL _ a _ r => a :: addrs r
  | FR _ l a _ => a :: addrs l
  end.

Fixpoint kaddrs (k : list frame) : list ptr :=
  match k with
  | [] => []
  | f :: k => faddrs f ++ kaddrs k
  end.

(** address of the parent of the hole: the root sentinel at the top *)
Definition paddr (s : set) (k : list frame) : ptr :=
  match k with
  | [] => root_ s
  | f :: _ => faddr f
  end.

Fixpoint rep (s : set) (m : mem) (t : tree) (par : ptr) : Prop :=
  match t with
  | Leaf => True
  | Node c l a d r =>
      m !! a = Some (mk_node par (addr s l) (addr s r) c d) ∧
      rep s m l a ∧ rep s m r a
  end.

(** the path above a hole whose slot holds pointer [h] *)
Fixpoint rep_ctx (s : set) (m : mem) (k : list frame) (h : ptr) : Prop :=
  match k with
  | [] => m !! root_ s = Some (mk_node (nil_ s) h (nil_ s) false T0)
  | FL c a d r :: k =>
      m !! a = Some (mk_node (paddr s k) h (addr s r) c d) ∧
      rep s m r a ∧ rep_ctx s m k a
  | FR c l a d :: k =>
      m !! a = Some (mk_node (paddr s k) (addr s l) h c d) ∧
      rep s m l a ∧ rep_ctx s m k a
  end.

(** The store holds subtree [t] under path [k]; the two sentinels and all
    nodes are pairwise distinct; the nil sentinel is black, its children are
    itself and its parent link is [np]. *)
Definition Zrep (s : set) (m : mem) (np : ptr) (k : list frame) (t : tree)
    : Prop :=
  NoDup (nil_ s :: root_ s :: kaddrs k ++ addrs t) ∧
  m !! nil_ s = Some (mk_node np (nil_ s) (nil_ s) false T0) ∧
  rep_ctx s m k (addr s t) ∧
  rep s m t (paddr s k).

Definition Rep (s : set) (m : mem) (t : tree) : Prop :=
  ∃ np, Zrep s m np [] t.

(** *** Weakest preconditions of the state-passing code *)

Definition wp {A} (c : M A) (m : mem) (Q : A -> mem -> Prop) : Prop :=
  match c m with
  | Ok (a, m') => Q a m'
  | Err _ => False
  end.

Lemma wp_ret {A} (a : A) m Q : Q a m -> wp (ret a) m Q.
Proof. done. Qed.

Lemma wp_bind {A B} (c : M A) (k : A -> M B) m Q :
  wp c m (fun a m' => wp (k a) m' Q) -> wp (bind c k) m Q.
Proof.
  unfold wp, bind. destruct (c m) as [[a m']|e]; done.
Qed.

Lemma wp_mono {A} (c : M A) m (Q Q' : A -> mem -> Prop) :
  wp c m Q -> (forall a m', Q a m' -> Q' a m') -> wp c m Q'.
Proof.
  unfold wp. destruct (c m) as [[a m']|e]; [|done]. intros H HQ. by apply HQ.
Qed.

Lemma wp_run {A} (c : M A) m Q :
  wp c m Q -> exists a m', c m = Ok (a, m') /\ Q a m'.
Proof.
  unfold wp. destruct (c m) as [[a m']|e]; [|done]. eauto.
Qed.

Lemma wp_of_run {A} (c : M A) m a m' (Q : A -> mem -> Prop) :
  c m = Ok (a, m') -> Q a m' -> wp c m Q.
Proof. unfold wp. by intros ->. Qed.

Lemma wp_load p n m Q : m !! p = Some n -> Q n m -> wp (load p) m Q.
Proof. unfold wp, load. by intros ->. Qed.

Lemma wp_store p f n m (Q : unit -> mem -> Prop) :
  m !! p = Some n -> Q tt (<[p := f n]> m) -> wp (store p f) m Q.
Proof. unfold wp, store. by intros ->. Qed.

Lemma wp_get_parent p n m Q :
  m !! p = Some n -> Q (parent n) m -> wp (get_parent p) m Q.
Proof. intros. apply wp_bind. eapply wp_load; [done|]. by apply wp_ret. Qed.

Lemma wp_get_left p n m Q :
  m !! p = Some n -> Q (left n) m -> wp (get_left p) m Q.
Proof. intros. apply wp_bind. eapply wp_load; [done|]. by apply wp_ret. Qed.

Lemma wp_get_right p n m Q :
  m !! p = Some n -> Q (right n) m -> wp (get_right p) m Q.
Proof. intros. apply wp_bind. eapply wp_load; [done|]. by apply wp_ret. Qed.

Lemma wp_get_red p n m Q :
  m !! p = Some n -> Q (red n) m -> wp (get_red p) m Q.
Proof. intros. apply wp_bind. eapply wp_load; [done|]. by apply wp_ret. Qed.

Lemma wp_get_data p n m Q :
  m !! p = Some n -> Q (data n) m -> wp (get_data p) m Q.
Proof. intros. apply wp_bind. eapply wp_load; [done|]. by apply wp_ret. Qed.

Lemma wp_with_fuel {A} (f : nat -> M A) m Q :
  wp (f (S (stdpp.base.size m))) m Q -> wp (with_fuel f) m Q.
Proof. done. Qed.

(** *** Framing: a representation only depends on the cells it names *)

Lemma rep_ext s m m' t par :
  (forall p, p ∈ addrs t -> m' !! p = m !! p) ->
  rep s m t par -> rep s m' t par.
Proof.
  revert par. induction t as [|c l IHl a d r IHr]; intros par Hext; [done|].
  simpl. intros (Ha & Hl & Hr). split_and!.
  - rewrite Hext; [done|]. simpl. set_solver.
  - apply IHl; [|done]. intros p Hp. apply Hext. simpl. set_solver.
  - apply IHr; [|done]. intros p Hp. apply Hext. simpl. set_solver.
Qed.

Lemma rep_ctx_ext s m m' k h :
  (forall p, p ∈ root_ s :: kaddrs k -> m' !! p = m !! p) ->
  rep_ctx s m k h -> rep_ctx s m' k h.
Proof.
  revert h. induction k as [|f k IH]; intros h Hext; simpl.
  - rewrite Hext; [done|]. set_solver.
  - destruct f as [c a d r|c l a d]; intros (Ha & Hs & Hk); split_and!.
    + rewrite Hext; [done|]. simpl. set_solver.
    + eapply rep_ext; [|done]. intros p Hp. apply Hext. simpl. set_solver.
    + apply IH; [|done]. intros p Hp. apply Hext. simpl. set_solver.
    + rewrite Hext; [done|]. simpl. set_solver.
    + eapply rep_ext; [|done]. intros p Hp. apply Hext. simpl. set_solver.
    + apply IH; [|done]. intros p Hp. apply Hext. simpl. set_solver.
Qed.

Lemma NoDup_perm (l l' : list ptr) : l ≡ₚ l' -> NoDup l -> NoDup l'.
Proof. by intros ->. Qed.

Lemma addr_ne s t x : x ≠ nil_ s -> x ∉ addrs t -> x ≠ addr s t.
Proof.
  destruct t as [|c l a d r]; simpl; [done|].
  intros _ Hx ->. apply Hx. set_solver.
Qed.

End Shape.

(** *** Symbolic execution *)

(** Split a [NoDup] fact on a list of named addresses and subtree address
    lists into its atomic consequences. *)
Ltac nodup_atoms H :=
  cbn [addrs kaddrs faddrs] in H;
  repeat first [ rewrite <- app_assoc in H | rewrite <- app_comm_cons in H ];
  repeat rewrite <- Permutation_middle in H;
  repeat (let Hx := fresh "Hne" in
          apply NoDup_cons in H as [Hx H];
          rewrite ?not_elem_of_cons, ?not_elem_of_app in Hx;
          destruct_and? Hx).

Ltac ne0 := solve [ assumption | apply not_eq_sym; assumption ].
Ltac ne :=
  solve [ ne0
        | apply addr_ne; [ne0|assumption]
        | apply not_eq_sym, addr_ne; [ne0|assumption] ].

Ltac heap_lookup :=
  lazymatch goal with
  | |- <[?a := _]> _ !! ?p = _ =>
      first [ constr_eq a p; apply lookup_insert_eq
            | rewrite (lookup_insert_ne _ a p) by ne; heap_lookup ]
  | |- _ => first [ eassumption | reflexivity ]
  end.

Ltac wp_step :=
  lazymatch goal with
  | |- wp (bind _ _) _ _ => apply wp_bind
  | |- wp (ret _) _ _ => apply wp_ret
  | |- wp (get_parent _) _ _ => eapply wp_get_parent; [heap_lookup|]
  | |- wp (get_left _) _ _ => eapply wp_get_left; [heap_lookup|]
  | |- wp (get_right _) _ _ => eapply wp_get_right; [heap_lookup|]
  | |- wp (get_red _) _ _ => eapply wp_get_red; [heap_lookup|]
  | |- wp (get_data _) _ _ => eapply wp_get_data; [heap_lookup|]
  | |- wp (set_parent _ _) _ _ => eapply wp_store; [heap_lookup|]
  | |- wp (set_left _ _) _ _ => eapply wp_store; [heap_lookup|]
  | |- wp (set_right _ _) _ _ => eapply wp_store; [heap_lookup|]
  | |- wp (set_red _ _) _ _ => eapply wp_store; [heap_lookup|]
  | |- wp (set_data _ _) _ _ => eapply wp_store; [heap_lookup|]
  | |- wp (store _ _) _ _ => eapply wp_store; [heap_lookup|]
  | |- wp (with_fuel _) _ _ => apply wp_with_fuel
  | |- wp (if decide (?a = ?a) then _ else _) _ _ =>
      rewrite (decide_True (P := a = a)) by reflexivity
  | |- wp (if decide (?a ≠ ?a) then _ else _) _ _ =>
      rewrite (decide_False (P := a ≠ a)) by (intros ?; congruence)
  | |- wp (if decide (?a ≠ ?b) then _ else _) _ _ =>
      rewrite (decide_True (P := a ≠ b)) by ne
  | |- wp (if decide (?a = ?b) then _ else _) _ _ =>
      rewrite (decide_False (P := a = b)) by ne
  end; cbn beta;
  unfold with_parent, with_left, with_right, with_red, with_data;
  cbn [parent left right red data].

Ltac wp_steps := repeat wp_step.

(** reduce a framed representation goal to the one at hand *)
Ltac frame_ne :=
  let p := fresh "p" in let Hp := fresh "Hp" in
  intros p Hp;
  repeat (rewrite lookup_insert_ne;
          [|first [ by intros <-
                  | by (apply elem_of_cons in Hp as [->|Hp]; [ne|intros <-]) ]]);
  reflexivity.

Ltac frame :=
  lazymatch goal with
  | |- rep _ _ _ _ => eapply rep_ext; [|eassumption]; frame_ne
  | |- rep_ctx _ _ _ _ _ => eapply rep_ctx_ext; [|eassumption]; frame_ne
  end.

Ltac zrep_open Z :=
  let Hnd := fresh "Hnd" in
  let Hnil := fresh "Hnil" in
  let Hk := fresh "Hk" in
  let Ht := fresh "Ht" in
  destruct Z as (Hnd & Hnil & Hk & Ht);
  cbn [addr paddr faddr rep rep_ctx plug1] in Hnil, Hk, Ht;
  destruct_and?; nodup_atoms Hnd.

Ltac zrep_close Hnd :=
  split_and!;
  [ eapply NoDup_perm; [|exact Hnd]; cbn [addrs kaddrs faddrs plug1];
    solve_Permutation
  | heap_lookup
  | cbn [addr paddr faddr rep rep_ctx plug1]; split_and?;
    first [heap_lookup|frame]
  | cbn [addr paddr faddr rep rep_ctx plug1]; split_and?;
    first [heap_lookup|frame] ].


End RBShape.

(** ** Local specifications: rotations and recolouring on a focused shape *)

Module RBSpec.
Import RBTree RBShape.
Section Spec.
Context {T : Type} (T0 : T).
Implicit Types (s : set) (m : gmap ptr (@node_t T)) (t l r : @tree T)
  (k : list (@frame T)).
Local Abbreviation Zrep := (RBShape.Zrep T0).
Local Abbreviation rep_ctx := (RBShape.rep_ctx T0).

(** Moving the focus of a representation. *)
Lemma Zrep_up s m np f k t :
  Zrep s m np (f :: k) t <-> Zrep s m np k (plug1 f t).
Proof.
  unfold Zrep. destruct f as [c a d r|c l a d]; cbn [plug1 rep rep_ctx addr paddr faddr].
  - split; intros (Hnd & Hnil & H1 & H2); (split_and!; [|tauto..]);
      (eapply NoDup_perm; [|exact Hnd]); cbn [addrs kaddrs faddrs];
      solve_Permutation.
  - split; intros (Hnd & Hnil & H1 & H2); (split_and!; [|tauto..]);
      (eapply NoDup_perm; [|exact Hnd]); cbn [addrs kaddrs faddrs];
      solve_Permutation.
Qed.

Lemma Zrep_plug s m np k t :
  Zrep s m np k t <-> Zrep s m np [] (plug t k).
Proof.
  revert t. induction k as [|f k IH]; intros t; [done|].
  rewrite Zrep_up. apply IH.
Qed.

Lemma Zrep_up_L s m np c a d r k t :
  Zrep s m np (FL c a d r :: k) t -> Zrep s m np k (Node c t a d r).
Proof. apply Zrep_up. Qed.
Lemma Zrep_up_R s m np c l a d k t :
  Zrep s m np (FR c l a d :: k) t -> Zrep s m np k (Node c l a d t).
Proof. apply Zrep_up. Qed.
Lemma Zrep_down_L s m np c l a d r k :
  Zrep s m np k (Node c l a d r) -> Zrep s m np (FL c a d r :: k) l.
Proof. apply (Zrep_up s m np (FL c a d r)). Qed.
Lemma Zrep_down_R s m np c l a d r k :
  Zrep s m np k (Node c l a d r) -> Zrep s m np (FR c l a d :: k) r.
Proof. apply (Zrep_up s m np (FR c l a d)). Qed.

Lemma Zrep_focus s m np k c l a d r :
  Zrep s m np k (Node c l a d r) ->
  m !! a = Some (mk_node (paddr s k) (addr s l) (addr s r) c d).
Proof. by intros (_ & _ & _ & ? & _). Qed.

Lemma Zrep_nil s m np k t :
  Zrep s m np k t ->
  m !! nil_ s = Some (mk_node np (nil_ s) (nil_ s) false T0).
Proof. by intros (_ & ? & _). Qed.

Lemma Zrep_root s m np k t :
  Zrep s m np k t ->
  m !! root_ s =
    Some (mk_node (nil_ s) (addr s (plug t k)) (nil_ s) false T0).
Proof. rewrite Zrep_plug. by intros (_ & _ & ? & _). Qed.

(** a representation only depends on the two sentinel pointers of the
    container object *)
Lemma addr_sentinels s s' t : nil_ s' = nil_ s -> addr s' t = addr s t.
Proof. intros E. destruct t; simpl; done. Qed.

Lemma rep_sentinels s s' m t par :
  nil_ s' = nil_ s -> rep s m t par -> rep s' m t par.
Proof.
  intros E. revert par. induction t as [|c l IHl a d r IHr]; intros par;
    [done|].
  simpl. rewrite !(addr_sentinels s s') by done.
  intros (? & ? & ?). split_and!; [done|by apply IHl|by apply IHr].
Qed.

Lemma rep_ctx_sentinels s s' m k h :
  nil_ s' = nil_ s -> root_ s' = root_ s ->
  rep_ctx s m k h -> rep_ctx s' m k h.
Proof.
  intros E1 E2. revert h. induction k as [|f k IH]; intros h; simpl.
  - by rewrite E1, E2.
  - assert (paddr s' k = paddr s k) as -> by (by destruct k).
    destruct f as [c a d r|c l a d]; rewrite !(addr_sentinels s s') by done;
      intros (? & ? & ?);
      (split_and!; [done|by apply (rep_sentinels s)|by apply IH]).
Qed.

Lemma Zrep_sentinels s s' m np k t :
  nil_ s' = nil_ s -> root_ s' = root_ s ->
  Zrep s m np k t -> Zrep s' m np k t.
Proof.
  intros E1 E2 (Hnd & Hnil & Hk & Ht). unfold RBShape.Zrep.
  rewrite E1, E2, (addr_sentinels s s') by done.
  assert (paddr s' k = paddr s k) as -> by (by destruct k).
  split_and!; [done|done|by apply (rep_ctx_sentinels s)
              |by apply (rep_sentinels s)].
Qed.

Lemma Zrep_ext s m m' np k t :
  (forall p, p ∈ nil_ s :: root_ s :: kaddrs k ++ addrs t ->
             m' !! p = m !! p) ->
  Zrep s m np k t -> Zrep s m' np k t.
Proof.
  intros Hext (Hnd & Hnil & Hk & Ht). split_and!; [done|..].
  - rewrite Hext; [done|]. set_solver.
  - eapply rep_ctx_ext; [|done]. intros p Hp. apply Hext. set_solver.
  - eapply rep_ext; [|done]. intros p Hp. apply Hext. set_solver.
Qed.

Lemma rep_dom s m t par p : rep s m t par -> p ∈ addrs t -> p ∈ dom m.
Proof.
  revert par. induction t as [|c l IHl a d r IHr]; intros par; simpl.
  - set_solver.
  - intros (Ha & Hl & Hr) Hp.
    apply elem_of_app in Hp as [Hp|Hp]; [by eapply IHl|].
    apply elem_of_cons in Hp as [->|Hp]; [|by eapply IHr].
    by apply elem_of_dom.
Qed.

Lemma rep_ctx_dom s m k h p :
  rep_ctx s m k h -> p ∈ root_ s :: kaddrs k -> p ∈ dom m.
Proof.
  revert h. induction k as [|f k IH]; intros h; simpl.
  - intros Hr Hp. assert (p = root_ s) as -> by set_solver.
    by apply elem_of_dom.
  - destruct f as [c a d r|c l a d]; intros (Ha & Hs & Hk) Hp; simpl in Hp;
      apply elem_of_cons in Hp as [->|Hp]; try (eapply IH; [done|set_solver]).
    all: apply elem_of_cons in Hp as [->|Hp]; [by apply elem_of_dom|].
    all: apply elem_of_app in Hp as [Hp|Hp]; [by eapply rep_dom|].
    all: eapply IH; [done|set_solver].
Qed.

Lemma Zrep_dom s m np k t p :
  Zrep s m np k t -> p ∈ nil_ s :: root_ s :: kaddrs k ++ addrs t ->
  p ∈ dom m.
Proof.
  intros (Hnd & Hnil & Hk & Ht) Hp.
  apply elem_of_cons in Hp as [->|Hp]; [by apply elem_of_dom|].
  rewrite app_comm_cons in Hp.
  apply elem_of_app in Hp as [Hp|Hp]; [by eapply rep_ctx_dom|by eapply rep_dom].
Qed.

Lemma Zrep_size s m np k t :
  Zrep s m np k t ->
  (length (kaddrs k) + length (addrs t) + 2 <= stdpp.base.size m)%nat.
Proof.
  intros Z. pose proof Z as (Hnd & _).
  rewrite <- size_dom.
  transitivity (stdpp.base.size
    (list_to_set (C := gset ptr) (nil_ s :: root_ s :: kaddrs k ++ addrs t))).
  - rewrite size_list_to_set by done. simpl. rewrite length_app. lia.
  - apply subseteq_size. intros p Hp. apply elem_of_list_to_set in Hp.
    by eapply Zrep_dom.
Qed.

Lemma height_addrs t : (height t <= length (addrs t))%nat.
Proof.
  induction t as [|c l IHl a d r IHr]; simpl; [lia|].
  rewrite length_app. simpl. lia.
Qed.

Lemma length_addrs_Node c l a d r :
  length (addrs (Node c l a d r)) =
  (length (addrs l) + S (length (addrs r)))%nat.
Proof. simpl. by rewrite length_app. Qed.

Lemma length_kaddrs k : (length k <= length (kaddrs k))%nat.
Proof.
  induction k as [|f k IH]; simpl; [lia|].
  rewrite length_app. destruct f; simpl; lia.
Qed.

Lemma addrs_plug k : forall t, addrs (plug t k) ≡ₚ kaddrs k ++ addrs t.
Proof.
  induction k as [|f k IH]; intros t; [done|].
  simpl. rewrite IH. destruct f; simpl; solve_Permutation.
Qed.

End Spec.

Arguments Zrep_up_L {T T0 s m np c a d r k t} _.
Arguments Zrep_up_R {T T0 s m np c l a d k t} _.
Arguments Zrep_down_L {T T0 s m np c l a d r k} _.
Arguments Zrep_down_R {T T0 s m np c l a d r k} _.

End RBSpec.

(** ** Rotations and recolouring on a focused shape *)

Module RBRotate.
Import RBTree RBShape RBSpec.
Section Rotate.
Context {T : Type} (T0 : T).
Implicit Types (s : set) (m : gmap ptr (@node_t T)) (t l r : @tree T)
  (k : list (@frame T)).
Local Abbreviation Zrep := (RBShape.Zrep T0).

Lemma left_rotate_spec s m np k cx a x dx cy b y dy c Q :
  Zrep s m np k (Node cx a x dx (Node cy b y dy c)) ->
  (forall m', Zrep s m' np k (Node cy (Node cx a x dx b) y dy c) -> Q tt m') ->
  wp (_left_rotate s x) m Q.
Proof.
  intros Z HQ. pose proof Z as [Hnd' _].
  destruct b as [|cb bl ab db br]; destruct k as [|[cp p dp sr|cp sl p dp] k];
    zrep_open Z.
  all: unfold _left_rotate; wp_steps.
  all: apply HQ; zrep_close Hnd'.
Qed.

Lemma right_rotate_spec s m np k cy a x dx cx b y dy c Q :
  Zrep s m np k (Node cy (Node cx a x dx b) y dy c) ->
  (forall m', Zrep s m' np k (Node cx a x dx (Node cy b y dy c)) -> Q tt m') ->
  wp (_right_rotate s y) m Q.
Proof.
  intros Z HQ. pose proof Z as [Hnd' _].
  destruct b as [|cb bl ab db br]; destruct k as [|[cp p dp sr|cp sl p dp] k];
    zrep_open Z.
  all: unfold _right_rotate; wp_steps.
  all: apply HQ; zrep_close Hnd'.
Qed.

Lemma set_red_spec s m np k c l a d r c' Q :
  Zrep s m np k (Node c l a d r) ->
  (forall m', Zrep s m' np k (Node c' l a d r) -> Q tt m') ->
  wp (set_red a c') m Q.
Proof.
  intros Z HQ. pose proof Z as [Hnd' _]. zrep_open Z.
  wp_steps. apply HQ. zrep_close Hnd'.
Qed.


End Rotate.



(** Bring the node at address [a] into focus, searching the explicit part of
    the shape. *)
Ltac zfocus_down Z a :=
  lazymatch type of Z with
  | RBShape.Zrep _ _ _ _ _ (Node _ _ a _ _) => exact Z
  | RBShape.Zrep _ _ _ _ _ (Node _ _ _ _ _) =>
      first [ zfocus_down (Zrep_down_L Z) a | zfocus_down (Zrep_down_R Z) a ]
  end.

Ltac zfocus Z a :=
  first [ zfocus_down Z a
        | lazymatch type of Z with
          | RBShape.Zrep _ _ _ _ (FL _ _ _ _ :: _) _ => zfocus (Zrep_up_L Z) a
          | RBShape.Zrep _ _ _ _ (FR _ _ _ _ :: _) _ => zfocus (Zrep_up_R Z) a
          end ].

Ltac zlookup Z :=
  lazymatch goal with
  | |- _ !! nil_ _ = Some _ => eapply Zrep_nil; exact Z
  | |- _ !! root_ _ = Some _ => eapply Zrep_root; exact Z
  | |- _ !! ?a = Some _ =>
      first [ eassumption | eapply Zrep_focus; zfocus Z a ]
  end.

(** One step of symbolic execution against the representation [Z] of the
    current store. *)
Ltac zstep Z :=
  lazymatch goal with
  | |- wp (bind _ _) _ _ => apply wp_bind
  | |- wp (ret _) _ _ => apply wp_ret
  | |- wp (get_parent _) _ _ => eapply wp_get_parent; [zlookup Z|]
  | |- wp (get_left _) _ _ => eapply wp_get_left; [zlookup Z|]
  | |- wp (get_right _) _ _ => eapply wp_get_right; [zlookup Z|]
  | |- wp (get_red _) _ _ => eapply wp_get_red; [zlookup Z|]
  | |- wp (get_data _) _ _ => eapply wp_get_data; [zlookup Z|]
  | |- wp (get_grandparent _) _ _ => unfold get_grandparent
  | |- wp (get_left_red _) _ _ => unfold get_left_red
  | |- wp (get_right_red _) _ _ => unfold get_right_red
  | |- wp (set_red ?a _) _ _ =>
      eapply set_red_spec; [zfocus Z a|];
      let m' := fresh "m" in clear Z; intros m' Z
  | |- wp (_left_rotate _ ?a) _ _ =>
      eapply left_rotate_spec; [zfocus Z a|];
      let m' := fresh "m" in clear Z; intros m' Z
  | |- wp (_right_rotate _ ?a) _ _ =>
      eapply right_rotate_spec; [zfocus Z a|];
      let m' := fresh "m" in clear Z; intros m' Z
  | |- wp (with_fuel _) _ _ => apply wp_with_fuel
  | |- wp (if decide (?a = ?a) then _ else _) _ _ =>
      rewrite (decide_True (P := a = a)) by reflexivity
  | |- wp (if decide (?a ≠ ?a) then _ else _) _ _ =>
      rewrite (decide_False (P := a ≠ a)) by (intros ?; congruence)
  | |- wp (if decide (?a ≠ ?b) then _ else _) _ _ =>
      rewrite (decide_True (P := a ≠ b)) by ne
  | |- wp (if decide (?a = ?b) then _ else _) _ _ =>
      rewrite (decide_False (P := a = b)) by ne
  end; cbn beta iota;
  cbn [parent left right red data addr paddr faddr plug plug1].

Ltac zsteps Z := repeat zstep Z.

(** close a goal by the representation at hand, up to refocusing *)
Ltac zdone Z :=
  apply Zrep_plug in Z; apply Zrep_plug; cbn [plug plug1] in Z |- *; exact Z.


End RBRotate.

(** ** Insertion on shapes

    [ins_path] is the descent of [_insert_help], [ins_fix] the
    [while (x->parent->red)] loop of [_insert], both on shapes. *)

Module RBInsert.
Import RBTree RBShape.
Section Insert.
Context {T K : Type} (key_of : T -> K) (ltb : K -> K -> bool).
Implicit Types (t l r u : @tree T) (k : list (@frame T)) (f : @frame T).

Fixpoint ins_path (kz : K) (t : tree) (k : list frame) : list frame :=
  match t with
  | Leaf => k
  | Node c l a d r =>
      if ltb kz (key_of d) then ins_path kz l (FL c a d r :: k)
      else ins_path kz r (FR c l a d :: k)
  end.

Definition blacken (t : @tree T) : tree :=
  match t with
  | Leaf => Leaf
  | Node _ l a d r => Node false l a d r
  end.

(** [t] is the subtree rooted at the red node [x] of the loop. *)
Fixpoint ins_fix k t : @tree T :=
  match k with
  | [] => t
  | FL true p dp sr :: k1 =>
      match k1 with
      | [] => plug t k
      | FL cg g dg u :: k2 =>
          (* x->parent == x->parent->parent->left *)
          match u with
          | Node true ul ua ud ur =>
              ins_fix k2 (Node true (Node false t p dp sr) g dg
                                    (Node false ul ua ud ur))
          | _ => plug (Node false t p dp (Node true sr g dg u)) k2
          end
      | FR cg u g dg :: k2 =>
          match u with
          | Node true ul ua ud ur =>
              ins_fix k2 (Node true (Node false ul ua ud ur) g dg
                                    (Node false t p dp sr))
          | _ =>
              (* x == x->parent->left: rotate right at the parent first *)
              match t with
              | Node cx l x d r =>
                  plug (Node false (Node true u g dg l) x d
                                   (Node true r p dp sr)) k2
              | Leaf => plug t k
              end
          end
      end
  | FR true sl p dp :: k1 =>
      match k1 with
      | [] => plug t k
      | FL cg g dg u :: k2 =>
          match u with
          | Node true ul ua ud ur =>
              ins_fix k2 (Node true (Node false sl p dp t) g dg
                                    (Node false ul ua ud ur))
          | _ =>
              (* x == x->parent->right: rotate left at the parent first *)
              match t with
              | Node cx l x d r =>
                  plug (Node false (Node true sl p dp l) x d
                                   (Node true r g dg u)) k2
              | Leaf => plug t k
              end
          end
      | FR cg u g dg :: k2 =>
          match u with
          | Node true ul ua ud ur =>
              ins_fix k2 (Node true (Node false ul ua ud ur) g dg
                                    (Node false sl p dp t))
          | _ => plug (Node false (Node true u g dg sl) p dp t) k2
          end
      end
  | _ :: _ => plug t k
  end.

(** The shape after [_insert] of a node at address [z] with payload [dz]. *)
Definition ins_tree (t : tree) (z : ptr) (dz : T) : tree :=
  blacken (ins_fix (ins_path (key_of dz) t []) (Node true Leaf z dz Leaf)).

(** *** Red-black invariants *)

(** [rbt t n]: no red node of [t] has a red child and every path from the
    root of [t] to a leaf passes [n] black nodes. *)
Inductive rbt : @tree T -> nat -> Prop :=
| rbt_leaf : rbt Leaf 0
| rbt_red l a d r n :
    color l = false -> color r = false -> rbt l n -> rbt r n ->
    rbt (Node true l a d r) n
| rbt_black l a d r n :
    rbt l n -> rbt r n -> rbt (Node false l a d r) (S n).

(** [rbk k n hc N]: plugging into [k] a valid subtree of black height [n]
    whose root has colour [hc] gives a valid tree of black height [N]. *)
Inductive rbk : list (@frame T) -> nat -> bool -> nat -> Prop :=
| rbk_nil n hc : rbk [] n hc n
| rbk_FL_red a d r k n N :
    color r = false -> rbt r n -> rbk k n true N ->
    rbk (FL true a d r :: k) n false N
| rbk_FL_black a d r k n N hc :
    rbt r n -> rbk k (S n) false N ->
    rbk (FL false a d r :: k) n hc N
| rbk_FR_red l a d k n N :
    color l = false -> rbt l n -> rbk k n true N ->
    rbk (FR true l a d :: k) n false N
| rbk_FR_black l a d k n N hc :
    rbt l n -> rbk k (S n) false N ->
    rbk (FR false l a d :: k) n hc N.

Lemma rbk_weaken k n hc N : rbk k n hc N -> rbk k n false N.
Proof. intros H. inversion H; subst; by constructor. Qed.

Lemma rbt_plug k : forall t n N,
  rbt t n -> rbk k n (color t) N -> rbt (plug t k) N.
Proof.
  induction k as [|f k IH]; intros t n N Ht Hk.
  - inversion Hk; subst. done.
  - simpl. inversion Hk; subst; cbn [plug1].
    + eapply IH; [|done]. by constructor.
    + eapply IH; [|done]. by constructor.
    + eapply IH; [|done]. by constructor.
    + eapply IH; [|done]. by constructor.
Qed.

Lemma rbt_unplug k : forall t N,
  rbt (plug t k) N -> exists n, rbt t n /\ rbk k n (color t) N.
Proof.
  induction k as [|f k IH]; intros t N H.
  - exists N. split; [done|constructor].
  - simpl in H. apply IH in H as (n & Hn & Hk).
    destruct f as [c a d r|c l a d]; destruct c; inversion Hn; subst;
      cbn [color] in *; eexists; (split; [eassumption|]).
    + destruct (color t) eqn:E; [congruence|]. by constructor.
    + constructor; [done|]. by eapply rbk_weaken.
    + destruct (color t) eqn:E; [congruence|]. by constructor.
    + constructor; [done|]. by eapply rbk_weaken.
Qed.

(** the topmost real node, when there is one above the hole, is black *)
Definition top_black k : Prop :=
  match last k with
  | Some f => fcolor f = false
  | None => True
  end.

Lemma top_black_tail f g k : top_black (f :: g :: k) -> top_black (g :: k).
Proof. unfold top_black. by rewrite last_cons_cons. Qed.

Lemma top_black_tail2 f g k : top_black (f :: g :: k) -> top_black k.
Proof.
  intros H%top_black_tail. destruct k as [|h k]; [done|].
  by apply top_black_tail in H.
Qed.

Lemma rbt_blacken t n : rbt t n -> exists n', rbt (blacken t) n'.
Proof.
  intros H. inversion H; subst; simpl.
  - exists 0%nat. constructor.
  - exists (S n). by constructor.
  - exists (S n0). by constructor.
Qed.

Lemma ins_fix_rbt : forall j k t n N,
  (length k <= j)%nat ->
  color t = true -> rbt t n -> rbk k n false N -> top_black k ->
  rbt (ins_fix k t) N.
Proof.
  induction j as [|j IH]; intros k t n N Hlen Hc Ht Hk Htop.
  { destruct k; [|simpl in Hlen; lia]. by inversion Hk; subst. }
  destruct k as [|P k1]; [by inversion Hk; subst|].
  assert (Hplug : fcolor P = false -> rbt (plug t (P :: k1)) N).
  { intros HP. eapply rbt_plug; [done|]. rewrite Hc.
    destruct P; simpl in HP; subst; inversion Hk; subst; by constructor. }
  destruct P as [[] p dp sr|[] sl p dp]; cbn [ins_fix]; try by apply Hplug.
  - inversion Hk as [| ? ? ? ? ? ? Hsr Hsrn Hk1 | | |]; subst.
    destruct k1 as [|G k2]; [done|].
    pose proof (top_black_tail2 _ _ _ Htop) as Htop2.
    simpl in Hlen.
    inversion Hk1; subst.
    + destruct r as [|[] ul ua ud ur].
      * eapply rbt_plug; [|done]. by repeat constructor.
      * inversion H1; subst.
        eapply (IH _ _ (S n)); [lia|done| |done|done].
        by repeat constructor.
      * eapply rbt_plug; [|done]. by repeat constructor.
    + inversion Ht; subst; [done| |done].
      destruct l as [|[] ul ua ud ur].
      * eapply rbt_plug; [|done]. by repeat constructor.
      * inversion H1; subst.
        eapply (IH _ _ (S n)); [lia|done| |done|done].
        by repeat constructor.
      * eapply rbt_plug; [|done]. by repeat constructor.
  - inversion Hk as [| | | ? ? ? ? ? ? Hsr Hsrn Hk1 |]; subst.
    destruct k1 as [|G k2]; [done|].
    pose proof (top_black_tail2 _ _ _ Htop) as Htop2.
    simpl in Hlen.
    inversion Hk1; subst.
    + inversion Ht; subst; [done| |done].
      destruct r as [|[] ul ua ud ur].
      * eapply rbt_plug; [|done]. by repeat constructor.
      * inversion H1; subst.
        eapply (IH _ _ (S n)); [lia|done| |done|done].
        by repeat constructor.
      * eapply rbt_plug; [|done]. by repeat constructor.
    + destruct l as [|[] ul ua ud ur].
      * eapply rbt_plug; [|done]. by repeat constructor.
      * inversion H1; subst.
        eapply (IH _ _ (S n)); [lia|done| |done|done].
        by repeat constructor.
      * eapply rbt_plug; [|done]. by repeat constructor.
Qed.

(** *** The red-black property of a whole shape *)

Definition is_rb (t : @tree T) : Prop :=
  color t = false /\ exists n, rbt t n.

Lemma plug_ins_path kz : forall t k, plug Leaf (ins_path kz t k) = plug t k.
Proof.
  induction t as [|c l IHl a d r IHr]; intros k; simpl; [done|].
  destruct (ltb kz (key_of d)); [by rewrite IHl|by rewrite IHr].
Qed.

Lemma top_black_ins_path kz : forall t k,
  match last k with
  | Some f => fcolor f = false
  | None => color t = false
  end ->
  top_black (ins_path kz t k).
Proof.
  induction t as [|c l IHl a d r IHr]; intros k H; simpl.
  - unfold top_black. by destruct (last k).
  - destruct (ltb kz (key_of d)); [apply IHl|apply IHr].
    all: destruct k as [|f k]; [done|]; rewrite last_cons_cons.
    all: destruct (last (f :: k)) eqn:E; [done|by apply last_None in E].
Qed.

Lemma blacken_color t : color (blacken t) = false.
Proof. by destruct t. Qed.

Lemma ins_tree_rb t z dz : is_rb t -> is_rb (ins_tree t z dz).
Proof.
  intros (Hc & N & Ht). split; [apply blacken_color|].
  unfold ins_tree. eapply rbt_blacken.
  pose proof (plug_ins_path (key_of dz) t []) as E. simpl in E.
  rewrite <- E in Ht.
  apply rbt_unplug in Ht as (n & Hn & Hk). inversion Hn; subst.
  eapply (ins_fix_rbt _ _ _ 0%nat N).
  - reflexivity.
  - done.
  - by repeat constructor.
  - exact Hk.
  - by apply top_black_ins_path.
Qed.

(** *** In-order contents *)

Lemma elems_plug_congr k : forall t t',
  elems t = elems t' -> elems (plug t k) = elems (plug t' k).
Proof.
  induction k as [|f k IH]; intros t t' E; [done|].
  simpl. apply IH. destruct f; simpl; by rewrite E.
Qed.

Lemma addrs_plug_congr k : forall t t',
  addrs t = addrs t' -> addrs (plug t k) = addrs (plug t' k).
Proof.
  induction k as [|f k IH]; intros t t' E; [done|].
  simpl. apply IH. destruct f; simpl; by rewrite E.
Qed.

Lemma ins_fix_elems : forall j k t,
  (length k <= j)%nat -> elems (ins_fix k t) = elems (plug t k).
Proof.
  induction j as [|j IH]; intros k t Hlen.
  { destruct k; [done|simpl in Hlen; lia]. }
  destruct k as [|[[] p dp sr|[] sl p dp] k1]; try done.
  all: destruct k1 as [|[cg g dg u|cg u g dg] k2]; [done|..];
    simpl in Hlen; cbn [ins_fix].
  all: destruct u as [|[] ul ua ud ur];
    try (destruct t as [|cx l x d r]; [done|]).
  all: rewrite ?IH by lia; cbn [plug plug1]; apply elems_plug_congr; simpl.
  all: repeat first [rewrite <- app_assoc | rewrite <- app_comm_cons]; done.
Qed.

Lemma ins_fix_addrs : forall j k t,
  (length k <= j)%nat -> addrs (ins_fix k t) = addrs (plug t k).
Proof.
  induction j as [|j IH]; intros k t Hlen.
  { destruct k; [done|simpl in Hlen; lia]. }
  destruct k as [|[[] p dp sr|[] sl p dp] k1]; try done.
  all: destruct k1 as [|[cg g dg u|cg u g dg] k2]; [done|..];
    simpl in Hlen; cbn [ins_fix].
  all: destruct u as [|[] ul ua ud ur];
    try (destruct t as [|cx l x d r]; [done|]).
  all: rewrite ?IH by lia; cbn [plug plug1]; apply addrs_plug_congr; simpl.
  all: repeat first [rewrite <- app_assoc | rewrite <- app_comm_cons]; done.
Qed.

Lemma elems_blacken t : elems (blacken t) = elems t.
Proof. by destruct t. Qed.
Lemma addrs_blacken t : addrs (blacken t) = addrs t.
Proof. by destruct t. Qed.

(** contents to the left and to the right of the hole of a path *)
Fixpoint kleft k : list T :=
  match k with
  | [] => []
  | FL _ _ _ _ :: k => kleft k
  | FR _ l _ d :: k => kleft k ++ elems l ++ [d]
  end.

Fixpoint kright k : list T :=
  match k with
  | [] => []
  | FL _ _ d r :: k => d :: elems r ++ kright k
  | FR _ _ _ _ :: k => kright k
  end.

Lemma elems_plug k : forall t,
  elems (plug t k) = kleft k ++ elems t ++ kright k.
Proof.
  induction k as [|f k IH]; intros t; simpl.
  - by rewrite app_nil_r.
  - rewrite IH. destruct f; simpl; by rewrite <- ?app_assoc.
Qed.

Lemma ins_tree_elems t z dz :
  elems (ins_tree t z dz) =
  kleft (ins_path (key_of dz) t []) ++ dz :: kright (ins_path (key_of dz) t []).
Proof.
  unfold ins_tree. rewrite elems_blacken.
  rewrite (ins_fix_elems _ _ _ (Nat.le_refl _)). by rewrite elems_plug.
Qed.

Lemma elems_ins_path t kz :
  elems t = kleft (ins_path kz t []) ++ kright (ins_path kz t []).
Proof.
  pose proof (plug_ins_path kz t []) as E. simpl in E.
  rewrite <- E at 1. by rewrite elems_plug.
Qed.

Lemma length_addrs_elems t : length (addrs t) = length (elems t).
Proof.
  induction t as [|c l IHl a d r IHr]; [done|].
  simpl. rewrite !length_app. simpl. lia.
Qed.

Lemma ins_tree_addrs t z dz : addrs (ins_tree t z dz) ≡ₚ z :: addrs t.
Proof.
  unfold ins_tree. rewrite addrs_blacken.
  rewrite (ins_fix_addrs _ _ _ (Nat.le_refl _)).
  pose proof (plug_ins_path (key_of dz) t []) as E. simpl in E.
  rewrite <- E at 2. clear E.
  generalize (ins_path (key_of dz) t []). intros k.
  assert (forall k t t', addrs t ≡ₚ z :: addrs t' ->
            addrs (plug t k) ≡ₚ z :: addrs (plug t' k)) as H.
  { clear. induction k as [|f k IH]; intros t t' E; [done|].
    simpl. apply IH. destruct f; simpl; rewrite E; solve_Permutation. }
  apply H. done.
Qed.

Lemma ins_fix_node k c l a d r :
  exists c' l' a' d' r', ins_fix k (Node c l a d r) = Node c' l' a' d' r'.
Proof.
  pose proof (ins_fix_elems _ k (Node c l a d r) (Nat.le_refl _)) as E.
  rewrite elems_plug in E.
  destruct (ins_fix k (Node c l a d r)) as [|c' l' a' d' r']; [|by eauto 6].
  simpl in E. destruct (kleft k), (elems l); done.
Qed.

End Insert.
End RBInsert.

(** ** [_insert] on the store follows insertion on shapes *)

Module RBInsertSpec.
Import RBTree RBShape RBSpec RBRotate RBInsert.
Section InsertSpec.
Context {T K : Type} (key_of : T -> K) (ltb : K -> K -> bool) (T0 : T).
Implicit Types (s : set) (m : gmap ptr (@node_t T)) (t l r : @tree T)
  (k : list (@frame T)).
Local Abbreviation Zrep := (RBShape.Zrep T0).

Lemma insert_loop_spec : forall fuel s m np k l x d r,
  Zrep s m np k (Node true l x d r) ->
  top_black k ->
  (length k < fuel)%nat ->
  wp (_insert_loop fuel s x) m
     (fun _ m' => Zrep s m' np [] (ins_fix k (Node true l x d r))).
Proof.
  induction fuel as [|fuel IH]; intros s m np k l x d r Z Htop Hlen; [lia|].
  cbn [_insert_loop].
  destruct k as [|P k1].
  { zsteps Z. done. }
  destruct P as [[] p dp sr|[] sl p dp].
  - destruct k1 as [|G k2]; [done|].
    pose proof (top_black_tail2 _ _ _ Htop) as Htop2. simpl in Hlen.
    destruct G as [cg g dg u|cg u g dg];
      destruct u as [|[] ul ua ud ur];
      pose proof Z as Z0; zrep_open Z0; zsteps Z; cbn [ins_fix].
    all: try (apply IH; [zfocus Z g|done|lia]).
    all: destruct fuel as [|fuel]; [lia|]; cbn [_insert_loop]; zsteps Z.
    all: zdone Z.
  - zsteps Z. zdone Z.
  - destruct k1 as [|G k2]; [done|].
    pose proof (top_black_tail2 _ _ _ Htop) as Htop2. simpl in Hlen.
    destruct G as [cg g dg u|cg u g dg];
      destruct u as [|[] ul ua ud ur];
      pose proof Z as Z0; zrep_open Z0; zsteps Z; cbn [ins_fix].
    all: try (apply IH; [zfocus Z g|done|lia]).
    all: destruct fuel as [|fuel]; [lia|]; cbn [_insert_loop]; zsteps Z.
    all: zdone Z.
  - zsteps Z. zdone Z.
Qed.

End InsertSpec.
End RBInsertSpec.

(** ** [_insert_help], [_insert] and [_search] on the store *)

Module RBInsertHelp.
Import RBTree RBShape RBSpec RBRotate RBInsert RBInsertSpec.
Section InsertHelp.
Context {T K : Type} (key_of : T -> K) (eqb ltb : K -> K -> bool) (T0 junk : T).
Implicit Types (s : set) (m : gmap ptr (@node_t T)) (t l r : @tree T)
  (k : list (@frame T)).
Local Abbreviation Zrep := (RBShape.Zrep T0).
Local Abbreviation ins_path := (RBInsert.ins_path key_of ltb).
Local Abbreviation ins_tree := (RBInsert.ins_tree key_of ltb).

(** the last turn of the descent agrees with the comparison made when the
    new node is linked *)
Lemma ins_path_top kz : forall t k,
  ins_path kz t k = k \/
  match ins_path kz t k with
  | FL _ _ d _ :: _ => ltb kz (key_of d) = true
  | FR _ _ _ d :: _ => ltb kz (key_of d) = false
  | [] => False
  end.
Proof.
  induction t as [|c l IHl a d r IHr]; intros k; simpl; [by left|]. right.
  destruct (ltb kz (key_of d)) eqn:E.
  - destruct (IHl (FL c a d r :: k)) as [->|H]; done.
  - destruct (IHr (FR c l a d :: k)) as [->|H]; done.
Qed.

Lemma insert_help_loop_spec : forall t k fuel s m np z nz,
  Zrep s m np k t ->
  m !! z = Some nz ->
  (height t < fuel)%nat ->
  wp (_insert_help_loop key_of ltb fuel s z (paddr s k) (addr s t)) m
     (fun y m' => m' = m /\ y = paddr s (ins_path (key_of (data nz)) t k)).
Proof.
  induction t as [|c l IHl a d r IHr]; intros k fuel s m np z nz Z Hz Hlt;
    (destruct fuel as [|fuel]; [lia|]); cbn [_insert_help_loop addr].
  - zsteps Z. done.
  - pose proof Z as Z0. zrep_open Z0. simpl in Hlt.
    zsteps Z. cbn [RBInsert.ins_path].
    destruct (ltb (key_of (data nz)) (key_of d)); zsteps Z.
    + apply (IHl (FL c a d r :: k) _ _ _ np); [exact (Zrep_down_L Z)|done|lia].
    + apply (IHr (FR c l a d :: k) _ _ _ np); [exact (Zrep_down_R Z)|done|lia].
Qed.

Lemma insert_help_spec s m np t z nz Q :
  Zrep s m np [] t ->
  m !! z = Some nz ->
  z ∉ nil_ s :: root_ s :: addrs t ->
  (forall m',
     Zrep s m' np (ins_path (key_of (data nz)) t [])
          (Node (red nz) Leaf z (data nz) Leaf) ->
     dom m' = dom m ->
     Q tt m') ->
  wp (_insert_help key_of ltb s z) m Q.
Proof.
  intros Z Hz Hfresh HQ.
  assert (Hne : nil_ s ≠ z /\ root_ s ≠ z) by set_solver.
  destruct Hne as [Hne1 Hne2].
  unfold _insert_help.
  wp_steps.
  set (m1 := <[z:=_]> (<[z:=_]> m)).
  assert (Z1 : Zrep s m1 np [] t).
  { eapply Zrep_ext; [|exact Z]. intros p Hp. unfold m1.
    rewrite !lookup_insert_ne; [done|set_solver..]. }
  assert (Hz1 : m1 !! z =
    Some (mk_node (parent nz) (nil_ s) (nil_ s) (red nz) (data nz))).
  { unfold m1. by rewrite lookup_insert_eq. }
  assert (Hdom : dom m1 = dom m).
  { unfold m1. rewrite !dom_insert_L.
    assert (z ∈ dom m) by (by apply elem_of_dom). set_solver. }
  clearbody m1.
  eapply wp_get_left; [eapply Zrep_root, Z1|]. cbn [left plug].
  apply wp_bind, wp_with_fuel.
  eapply wp_mono.
  { apply (insert_help_loop_spec t [] _ s m1 np z _ Z1 Hz1).
    pose proof (Zrep_size _ _ _ _ _ _ Z1). pose proof (height_addrs t). lia. }
  cbn beta. intros y m' [-> ->]. cbn [data].
  pose proof (ins_path_top (key_of (data nz)) t []) as Htopf.
  assert (ZK : Zrep s m1 np (ins_path (key_of (data nz)) t []) Leaf).
  { apply Zrep_plug. by rewrite plug_ins_path. }
  assert (Hnd' : NoDup (nil_ s :: root_ s ::
            kaddrs (ins_path (key_of (data nz)) t []) ++ [z])).
  { destruct Z1 as (Hnd1 & _). simpl in Hnd1.
    pose proof (addrs_plug (ins_path (key_of (data nz)) t []) Leaf) as Hp.
    rewrite plug_ins_path in Hp. simpl in Hp. rewrite app_nil_r in Hp.
    rewrite <- Hp.
    eapply (NoDup_perm (z :: nil_ s :: root_ s :: addrs t));
      [solve_Permutation|].
    by apply NoDup_cons_2. }
  revert HQ Htopf ZK Hnd'.
  generalize (ins_path (key_of (data nz)) t []). intros k HQ Htopf ZK Hnd'.
  pose proof Hnd' as Hat.
  destruct k as [|[c a d r|c l a d] k]; destruct ZK as (_ & Hnil & Hk & _);
    cbn [addr paddr faddr rep rep_ctx plug1] in Hnil, Hk;
    destruct_and?; nodup_atoms Hat; cbn [paddr faddr].
  all: wp_steps.
  all: try (destruct Htopf as [?|Htopf]; [done|rewrite Htopf]).
  all: wp_steps.
  all: apply HQ; [zrep_close Hnd'|].
  all: rewrite <- Hdom.
  all: repeat (rewrite dom_insert_lookup_L; [|eexists; heap_lookup]); done.
Qed.

Lemma _insert_spec s m np t z nz Q :
  Zrep s m np [] t ->
  color t = false ->
  m !! z = Some nz ->
  z ∉ nil_ s :: root_ s :: addrs t ->
  (forall m',
     Zrep s m' np [] (ins_tree t z (data nz)) ->
     Q (z, with_size (wrap (size_ s + 1)) s) m') ->
  wp (_insert key_of ltb s z) m Q.
Proof.
  intros Z Hc Hz Hfresh HQ. unfold _insert.
  apply wp_bind. eapply insert_help_spec; [done..|]. intros m1 Z1 _.
  apply wp_bind. eapply set_red_spec; [exact Z1|]. clear Z1. intros m2 Z2.
  apply wp_bind, wp_with_fuel. eapply wp_mono.
  { apply insert_loop_spec; [exact Z2| |].
    - by apply top_black_ins_path.
    - pose proof (Zrep_size _ _ _ _ _ _ Z2).
      pose proof (length_kaddrs (ins_path (key_of (data nz)) t [])). lia. }
  cbn beta. intros _ m3 Z3. unfold RBInsert.ins_tree in HQ.
  destruct (ins_fix_node (ins_path (key_of (data nz)) t [])
              true Leaf z (data nz) Leaf) as (c' & l' & a' & d' & r' & E).
  rewrite E in Z3, HQ. cbn [blacken] in HQ.
  zsteps Z3. apply HQ. exact Z3.
Qed.

(** *** Search *)

Fixpoint search_tree (kk : K) (t : @tree T) : @tree T :=
  match t with
  | Leaf => Leaf
  | Node c l a d r =>
      if eqb kk (key_of d) then t
      else if ltb kk (key_of d) then search_tree kk l
      else search_tree kk r
  end.

Lemma search_loop_spec kk : forall t k fuel s m np,
  t <> Leaf ->
  Zrep s m np k t ->
  (height t <= fuel)%nat ->
  wp (_search_loop key_of eqb ltb fuel s kk (addr s t)) m
     (fun p m' => m' = m /\ p = addr s (search_tree kk t)).
Proof.
  induction t as [|c l IHl a d r IHr]; intros k fuel s m np Hne Z Hlt;
    [done|].
  destruct fuel as [|fuel]; [simpl in Hlt; lia|]. simpl in Hlt.
  cbn [_search_loop addr search_tree].
  zsteps Z. destruct (eqb kk (key_of d)); cbn [negb]; [by zsteps Z|].
  zsteps Z. destruct (ltb kk (key_of d)).
  - destruct l as [|cl ll al dl rl]; pose proof Z as Z0; zrep_open Z0;
      zsteps Z; [done|].
    apply (IHl (FL c a d r :: k) _ _ _ np); [done|exact (Zrep_down_L Z)|lia].
  - destruct r as [|cr lr ar dr rr]; pose proof Z as Z0; zrep_open Z0;
      zsteps Z; [done|].
    apply (IHr (FR c l a d :: k) _ _ _ np); [done|exact (Zrep_down_R Z)|lia].
Qed.

Lemma search_spec s m np t kk Q :
  Zrep s m np [] t ->
  Q (addr s (search_tree kk t)) m ->
  wp (_search key_of eqb ltb s kk) m Q.
Proof.
  intros Z HQ. unfold _search.
  destruct t as [|c l a d r].
  - zsteps Z. done.
  - pose proof Z as Z0. zrep_open Z0. zsteps Z.
    eapply wp_mono.
    { apply (search_loop_spec kk (Node c l a d r) [] _ s m np); [done|done|].
      pose proof (Zrep_size _ _ _ _ _ _ Z).
      pose proof (height_addrs (Node c l a d r)). lia. }
    cbn beta. by intros p m' [-> ->].
Qed.

(** *** Allocation *)

Lemma allocate_node_spec s m Q :
  allocator_ s <> nullptr ->
  (forall p, p ∉ dom m -> p <> nullptr ->
     Q p (<[p := mk_node nullptr nullptr nullptr false junk]> m)) ->
  wp (_allocate_node junk s) m Q.
Proof.
  intros Ha HQ. unfold wp, _allocate_node.
  rewrite decide_False by done.
  pose proof (is_fresh ({[nullptr]} ∪ dom m)) as Hf.
  apply HQ.
  - intros Hin. apply Hf. by apply elem_of_union_r.
  - intros Heq. apply Hf. rewrite Heq. by apply elem_of_union_l, elem_of_singleton.
Qed.

End InsertHelp.
End RBInsertHelp.

(** ** Iteration: [begin], [_next] and the in-order sequence of nodes *)

Module RBIter.
Import RBTree RBShape RBSpec RBRotate.
Section Iter.
Context {T : Type} (T0 : T).
Implicit Types (s : set) (m : gmap ptr (@node_t T)) (t l r : @tree T)
  (k : list (@frame T)).
Local Abbreviation Zrep := (RBShape.Zrep T0).

(** the nodes of a shape in order: address and payload *)
Fixpoint entries t : list (ptr * T) :=
  match t with
  | Leaf => []
  | Node _ l a d r => entries l ++ (a, d) :: entries r
  end.

Fixpoint eleft k : list (ptr * T) :=
  match k with
  | [] => []
  | FL _ _ _ _ :: k => eleft k
  | FR _ l a d :: k => eleft k ++ entries l ++ [(a, d)]
  end.

Fixpoint eright k : list (ptr * T) :=
  match k with
  | [] => []
  | FL _ a d r :: k => (a, d) :: entries r ++ eright k
  | FR _ _ _ _ :: k => eright k
  end.

Lemma entries_plug k : forall t,
  entries (plug t k) = eleft k ++ entries t ++ eright k.
Proof.
  induction k as [|f k IH]; intros t; simpl.
  - by rewrite app_nil_r.
  - rewrite IH. destruct f; simpl;
      repeat first [rewrite <- app_assoc | rewrite <- app_comm_cons]; done.
Qed.

Lemma addrs_entries t : addrs t = (entries t).*1.
Proof.
  induction t as [|c l IHl a d r IHr]; [done|].
  simpl. by rewrite fmap_app, IHl, IHr.
Qed.

Lemma elems_entries t : elems t = (entries t).*2.
Proof.
  induction t as [|c l IHl a d r IHr]; [done|].
  simpl. by rewrite fmap_app, IHl, IHr.
Qed.

Lemma plug_app k k' : forall t, plug t (k ++ k') = plug (plug t k) k'.
Proof. induction k as [|f k IH]; intros t; [done|]. simpl. apply IH. Qed.

(** every node of a shape can be brought into focus *)
Lemma in_addrs_plug t : forall a,
  a ∈ addrs t -> exists k c l d r, t = plug (Node c l a d r) k.
Proof.
  induction t as [|c l IHl x d r IHr]; intros a Ha; simpl in Ha.
  - by apply elem_of_nil in Ha.
  - apply elem_of_app in Ha as [Ha|Ha].
    { destruct (IHl a Ha) as (k & c' & l' & d' & r' & ->).
      exists (k ++ [FL c x d r]), c', l', d', r'. by rewrite plug_app. }
    apply elem_of_cons in Ha as [->|Ha].
    { by exists [], c, l, d, r. }
    destruct (IHr a Ha) as (k & c' & l' & d' & r' & ->).
    exists (k ++ [FR c l x d]), c', l', d', r'. by rewrite plug_app.
Qed.

(** *** The loops of [_next] and [begin] *)

Lemma leftmost_loop_spec : forall t k fuel s m np,
  t <> Leaf ->
  Zrep s m np k t ->
  (height t <= fuel)%nat ->
  wp (_leftmost_loop fuel (nil_ s) (addr s t)) m
     (fun y m' => m' = m /\ head (addrs t) = Some y).
Proof.
  induction t as [|c l IHl a d r IHr]; intros k fuel s m np Hne Z Hlt;
    [done|].
  destruct fuel as [|fuel]; [simpl in Hlt; lia|]. simpl in Hlt.
  cbn [_leftmost_loop addr addrs].
  destruct l as [|cl ll al dl rl]; pose proof Z as Z0; zrep_open Z0;
    zsteps Z; [done|].
  eapply wp_mono.
  { apply (IHl (FL c a d r :: k) _ _ _ np); [done|exact (Zrep_down_L Z)|lia]. }
  cbn beta. intros y m' [-> Hy]. split; [done|].
  simpl in Hy |- *. destruct (addrs ll); simpl in *; done.
Qed.

Lemma next_climb_spec : forall k t fuel s m np,
  t <> Leaf ->
  Zrep s m np k t ->
  (length k < fuel)%nat ->
  wp (_next_climb fuel s (addr s t) (paddr s k)) m
     (fun y m' => m' = m /\
        y = match eright k with
            | [] => root_ s
            | (a, _) :: _ => a
            end).
Proof.
  induction k as [|f k IH]; intros t fuel s m np Hne Z Hlt;
    (destruct fuel as [|fuel]; [simpl in Hlt; lia|]); simpl in Hlt;
    cbn [_next_climb paddr faddr eright];
    destruct t as [|c l x d r]; try done;
    pose proof Z as Z0; zrep_open Z0; zsteps Z.
  - done.
  - destruct f as [cf a df sr|cf sl a df]; 
      pose proof Z as Z1; zrep_open Z1; zsteps Z.
    + done.
    + apply (IH (Node cf sl a df (Node c l x d r)) _ _ _ np);
        [done|exact (Zrep_up_R Z)|lia].
Qed.

Lemma eright_kaddrs k a d : (a, d) ∈ eright k -> a ∈ kaddrs k.
Proof.
  induction k as [|f k IH]; simpl; [by intros ?%elem_of_nil|].
  destruct f as [c x dx r|c l x dx]; simpl.
  - intros [Heq|[H|H]%elem_of_app]%elem_of_cons.
    + injection Heq as -> ->. set_solver.
    + assert (a ∈ addrs r).
      { rewrite addrs_entries. apply list_elem_of_fmap. by exists (a, d). }
      set_solver.
    + set_solver.
  - set_solver.
Qed.

(** the address at the head of a sequence of nodes, [nil_] when empty *)
Definition hd_addr s (L : list (ptr * T)) : ptr :=
  match L with
  | [] => nil_ s
  | (a, _) :: _ => a
  end.

Lemma next_spec s m np k c l x d r Q :
  Zrep s m np k (Node c l x d r) ->
  Q (hd_addr s (entries r ++ eright k)) m ->
  wp (_next s x) m Q.
Proof.
  intros Z HQ. unfold _next.
  destruct r as [|cr lr ar dr rr]; pose proof Z as Z0; zrep_open Z0;
    zsteps Z.
  - eapply wp_mono.
    { apply (next_climb_spec k (Node c l x d Leaf) _ s m np); [done|done|].
      pose proof (Zrep_size _ _ _ _ _ _ Z). pose proof (length_kaddrs k).
      lia. }
    cbn beta. intros y m' [-> ->]. simpl in HQ.
    destruct (eright k) as [|[a da] L] eqn:E; zsteps Z; [done|].
    assert (a ∈ kaddrs k).
    { apply (eright_kaddrs k a da). rewrite E. set_solver. }
    rewrite decide_False by (intros ->; done).
    by zsteps Z.
  - eapply wp_mono.
    { apply (leftmost_loop_spec (Node cr lr ar dr rr) (FR c l x d :: k)
               _ s m np); [done|exact (Zrep_down_R Z)|].
      pose proof (Zrep_size _ _ _ _ _ _ Z) as Hsz.
      pose proof (height_addrs (Node cr lr ar dr rr)) as Hh.
      rewrite (length_addrs_Node c l x d) in Hsz. lia. }
    cbn beta. intros y m' [-> Hy]. rewrite addrs_entries in Hy.
    destruct (entries (Node cr lr ar dr rr)) as [|[a da] L]; [done|].
    simpl in Hy. by injection Hy as ->.
Qed.

Lemma entries_split_unique (L0 L0' L L' : list (ptr * T)) x d d' :
  NoDup ((L0 ++ (x, d) :: L).*1) ->
  L0 ++ (x, d) :: L = L0' ++ (x, d') :: L' ->
  L0 = L0' /\ d = d' /\ L = L'.
Proof.
  revert L0'. induction L0 as [|[a da] L0 IH]; intros L0' Hnd E.
  - destruct L0' as [|[a' da'] L0']; simpl in *.
    + by injection E as -> ->.
    + injection E as -> -> ->. apply NoDup_cons in Hnd as [Hnd _].
      exfalso. apply Hnd. rewrite fmap_app. set_solver.
  - destruct L0' as [|[a' da'] L0']; simpl in *.
    + injection E as -> -> E. apply NoDup_cons in Hnd as [Hnd _].
      exfalso. apply Hnd. rewrite fmap_app. set_solver.
    + injection E as -> -> E. apply NoDup_cons in Hnd as [_ Hnd].
      destruct (IH _ Hnd E) as (-> & -> & ->). done.
Qed.

(** a step of the iteration from a node in the in-order sequence *)
Lemma iter_step_spec s m np t L0 x d L :
  Zrep s m np [] t ->
  entries t = L0 ++ (x, d) :: L ->
  (exists n, m !! x = Some n /\ data n = d) /\
  wp (_next s x) m (fun y m' => m' = m /\ y = hd_addr s L).
Proof.
  intros Z E.
  assert (Hx : x ∈ addrs t).
  { rewrite addrs_entries, E, fmap_app. set_solver. }
  destruct (in_addrs_plug t x Hx) as (k & c & l & d' & r & ->).
  assert (Hnd : NoDup ((L0 ++ (x, d) :: L).*1)).
  { rewrite <- E, <- addrs_entries. destruct Z as (Hnd & _).
    by apply NoDup_cons in Hnd as [_ [_ Hnd]%NoDup_cons]. }
  rewrite entries_plug in E. simpl in E.
  rewrite <- app_assoc, <- app_comm_cons in E. rewrite app_assoc in E.
  symmetry in E.
  destruct (entries_split_unique _ _ _ _ _ _ _ Hnd E) as (-> & -> & ->).
  apply Zrep_plug in Z. split.
  - eexists. split; [by eapply Zrep_focus|done].
  - eapply next_spec; [exact Z|done].
Qed.

Lemma begin_spec s m np t Q :
  Zrep s m np [] t ->
  Q (mk_iterator (this s) (hd_addr s (entries t))) m ->
  wp (begin s) m Q.
Proof.
  intros Z HQ. unfold begin.
  destruct t as [|c l a d r]; pose proof Z as Z0; zrep_open Z0; zsteps Z.
  - done.
  - eapply wp_mono.
    { apply (leftmost_loop_spec (Node c l a d r) [] _ s m np); [done|done|].
      pose proof (Zrep_size _ _ _ _ _ _ Z).
      pose proof (height_addrs (Node c l a d r)). lia. }
    cbn beta. intros y m' [-> Hy]. zsteps Z.
    rewrite addrs_entries in Hy.
    destruct (entries (Node c l a d r)) as [|[a' da] L]; [done|].
    simpl in Hy. injection Hy as ->. done.
Qed.

Lemma hd_addr_ne_nil s np m t L0 x d L :
  Zrep s m np [] t -> entries t = L0 ++ (x, d) :: L -> x <> nil_ s.
Proof.
  intros (Hnd & _) E.
  assert (Hx : x ∈ addrs t).
  { rewrite addrs_entries, E, fmap_app. set_solver. }
  apply NoDup_cons in Hnd as [Hnil _]. intros ->. apply Hnil. set_solver.
Qed.

Lemma traverse_loop_spec s m np t : forall L L0 fuel acc,
  Zrep s m np [] t ->
  nullptr ∉ addrs t ->
  entries t = L0 ++ L ->
  (length L < fuel)%nat ->
  wp (_traverse_loop fuel s (mk_iterator (this s) (hd_addr s L)) acc) m
     (fun res m' => m' = m /\ res = acc ++ L.*2).
Proof.
  induction L as [|[x d] L IH]; intros L0 fuel acc Z Hnull E Hlen;
    (destruct fuel as [|fuel]; [simpl in Hlen; lia|]); simpl in Hlen;
    cbn [_traverse_loop hd_addr].
  - unfold iterator_ne, end_. cbn [set_ node_].
    rewrite !bool_decide_eq_false_2 by (intros H; by apply H).
    cbn [orb]. apply wp_ret. by rewrite app_nil_r.
  - pose proof (hd_addr_ne_nil _ _ _ _ _ _ _ _ Z E) as Hxnil.
    assert (Hx0 : x <> nullptr).
    { intros ->. apply Hnull. rewrite addrs_entries, E, fmap_app. set_solver. }
    destruct (iter_step_spec _ _ _ _ _ _ _ _ Z E) as [(n & Hn & Hd) Hnext].
    unfold iterator_ne, end_. cbn [set_ node_].
    rewrite (bool_decide_eq_true_2 (x <> nil_ s)) by done.
    rewrite orb_true_r.
    unfold iterator_deref, iterator_incr, _check_node. cbn [set_ node_].
    wp_steps.
    eapply wp_mono; [exact Hnext|]. cbn beta. intros y m' [-> ->].
    wp_steps. eapply wp_mono.
    { apply (IH (L0 ++ [(x, d)])); [done|done| |lia].
      by rewrite <- app_assoc. }
    cbn beta. intros res m' [-> ->]. split; [done|].
    rewrite Hd. by rewrite <- app_assoc.
Qed.

Lemma traverse_spec s m np t Q :
  Zrep s m np [] t ->
  nullptr ∉ addrs t ->
  Q (elems t) m ->
  wp (traverse s) m Q.
Proof.
  intros Z Hnull HQ. unfold traverse.
  apply wp_bind. eapply begin_spec; [done|].
  apply wp_with_fuel. eapply wp_mono.
  { apply (traverse_loop_spec s m np t (entries t) []); [done|done|done|].
    pose proof (Zrep_size _ _ _ _ _ _ Z) as Hsz.
    rewrite addrs_entries, length_fmap in Hsz. lia. }
  cbn beta. intros res m' [-> ->]. simpl. by rewrite <- elems_entries.
Qed.

End Iter.
End RBIter.

(** ** Ordering: search trees and strictly ascending keys *)

Module RBOrder.
Import RBTree RBShape RBSpec RBInsert RBInsertHelp RBIter.

(** What the containers expect of the supplied [==] and [<]: [==] decides
    equality of keys and [<] is a strict total order on them. *)
Record order_ok {K : Type} (eqb ltb : K -> K -> bool) : Prop := {
  eqb_eq : forall a b, eqb a b = true <-> a = b;
  ltb_irrefl : forall a, ltb a a = false;
  ltb_trans : forall a b c, ltb a b = true -> ltb b c = true -> ltb a c = true;
  ltb_total : forall a b, ltb a b = false -> eqb a b = false -> ltb b a = true
}.

Section Ascending.
Context {K : Type} (ltb : K -> K -> bool).

Definition lt (a b : K) : Prop := ltb a b = true.

(** strictly ascending *)
Inductive ascending : list K -> Prop :=
| asc_nil : ascending []
| asc_cons a l : Forall (lt a) l -> ascending l -> ascending (a :: l).

Lemma ascending_app l1 l2 :
  ascending (l1 ++ l2) <->
  ascending l1 /\ ascending l2 /\
  (forall a b, a ∈ l1 -> b ∈ l2 -> lt a b).
Proof.
  induction l1 as [|x l1 IH]; simpl.
  - split; [intros H; split_and!; [constructor|done|]|tauto].
    intros a b Ha. by apply elem_of_nil in Ha.
  - split.
    + intros H. inversion H as [|? ? Hx Hl]; subst.
      apply IH in Hl as (H1 & H2 & H3).
      apply Forall_app in Hx as [Hx1 Hx2]. split_and!; [by constructor|done|].
      intros a b [->|Ha]%elem_of_cons Hb; [|by apply H3].
      by eapply Forall_forall in Hx2.
    + intros (H1 & H2 & H3). inversion H1 as [|? ? Hx Hl]; subst.
      constructor.
      * apply Forall_app. split; [done|]. apply Forall_forall.
        intros b Hb. apply H3; [set_solver|done].
      * apply IH. split_and!; [done..|]. intros a b Ha Hb.
        apply H3; [set_solver|done].
Qed.

Lemma ascending_insert l1 l2 x :
  ascending (l1 ++ l2) ->
  (forall a, a ∈ l1 -> lt a x) -> (forall b, b ∈ l2 -> lt x b) ->
  ascending (l1 ++ x :: l2).
Proof.
  intros (H1 & H2 & H3)%ascending_app Hl Hr.
  apply ascending_app. split_and!; [done| |].
  - constructor; [by apply Forall_forall|done].
  - intros a b Ha [->|Hb]%elem_of_cons; [by apply Hl|by apply H3].
Qed.

End Ascending.

Section Order.
Context {T K : Type} (key_of : T -> K) (eqb ltb : K -> K -> bool).
Context (Hord : order_ok eqb ltb).
Implicit Types (t : @tree T) (k : list (@frame T)).
Local Abbreviation ins_path := (RBInsert.ins_path key_of ltb).
Local Abbreviation ins_tree := (RBInsert.ins_tree key_of ltb).
Local Abbreviation search_tree := (RBInsertHelp.search_tree key_of eqb ltb).

Local Abbreviation lt := (lt ltb).
Local Abbreviation ascending := (ascending ltb).

Definition keys t : list K := key_of <$> elems t.

Lemma ascending_NoDup l : ascending l -> NoDup l.
Proof using Hord.
  induction 1 as [|a l Ha Hl IH]; constructor; [|done].
  intros Hin. eapply Forall_forall in Ha; [|done].
  unfold lt in Ha. by rewrite (ltb_irrefl _ _ Hord) in Ha.
Qed.

Lemma keys_plug k t :
  keys (plug t k) = (key_of <$> kleft k) ++ keys t ++ (key_of <$> kright k).
Proof. unfold keys. by rewrite elems_plug, !fmap_app. Qed.

(** the descent of an unsuccessful search passes between its neighbours *)
Lemma ins_path_bounds kz : forall t k,
  ascending (keys (plug t k)) ->
  search_tree kz t = Leaf ->
  (forall a, a ∈ kleft k -> lt (key_of a) kz) ->
  (forall b, b ∈ kright k -> lt kz (key_of b)) ->
  (forall a, a ∈ kleft (ins_path kz t k) -> lt (key_of a) kz) /\
  (forall b, b ∈ kright (ins_path kz t k) -> lt kz (key_of b)).
Proof using Hord.
  induction t as [|c l IHl x d r IHr]; intros k Hasc Hs Hl Hr; [done|].
  simpl in Hs |- *.
  destruct (eqb kz (key_of d)) eqn:Heq; [done|].
  pose proof Hasc as Hasc'.
  rewrite keys_plug in Hasc'. unfold keys in Hasc'. simpl in Hasc'.
  rewrite fmap_app, fmap_cons in Hasc'.
  apply ascending_app in Hasc' as (_ & Hmid & _).
  apply ascending_app in Hmid as (Hmid & _ & _).
  apply ascending_app in Hmid as (_ & Hdr & Hld).
  inversion Hdr as [|? ? Hdr' _]; subst.
  destruct (ltb kz (key_of d)) eqn:Hlt.
  - apply IHl; [done|done|done|]. simpl.
    intros b [->|[Hb|Hb]%elem_of_app]%elem_of_cons; [done| |by apply Hr].
    eapply (ltb_trans _ _ Hord); [exact Hlt|].
    eapply Forall_forall in Hdr'; [exact Hdr'|].
    apply list_elem_of_fmap. by exists b.
  - assert (Hd : lt (key_of d) kz) by (by apply (ltb_total _ _ Hord)).
    apply IHr; [done|done| |done]. simpl.
    intros a [Ha|[Ha|Ha]%elem_of_app]%elem_of_app; [by apply Hl| |].
    + eapply (ltb_trans _ _ Hord); [|exact Hd].
      apply Hld; [|set_solver]. apply list_elem_of_fmap. by exists a.
    + by apply list_elem_of_singleton in Ha as ->.
Qed.

Lemma ins_tree_ascending t z dz :
  ascending (keys t) ->
  search_tree (key_of dz) t = Leaf ->
  ascending (keys (ins_tree t z dz)).
Proof using Hord.
  intros Hasc Hs. unfold keys. rewrite ins_tree_elems.
  rewrite fmap_app, fmap_cons.
  destruct (ins_path_bounds (key_of dz) t [] Hasc Hs) as [Hl Hr].
  { intros a Ha. by apply elem_of_nil in Ha. }
  { intros a Ha. by apply elem_of_nil in Ha. }
  apply ascending_insert.
  - rewrite <- fmap_app, <- elems_ins_path. exact Hasc.
  - intros a (a' & -> & Ha)%list_elem_of_fmap. by apply Hl.
  - intros a (a' & -> & Ha)%list_elem_of_fmap. by apply Hr.
Qed.

(** *** What a search returns *)

Lemma search_tree_sound kk : forall t c l a d r,
  search_tree kk t = Node c l a d r ->
  eqb kk (key_of d) = true /\ (a, d) ∈ entries t.
Proof.
  induction t as [|c0 l0 IHl a0 d0 r0 IHr]; intros c l a d r Hs; [done|].
  simpl in Hs |- *. destruct (eqb kk (key_of d0)) eqn:Heq.
  - injection Hs as -> -> -> -> ->. split; [done|].
    apply elem_of_app. right. by apply elem_of_cons; left.
  - destruct (ltb kk (key_of d0)).
    + destruct (IHl _ _ _ _ _ Hs). split; [done|].
      apply elem_of_app. by left.
    + destruct (IHr _ _ _ _ _ Hs). split; [done|].
      apply elem_of_app. right. by apply elem_of_cons; right.
Qed.

Lemma entries_key a d t : (a, d) ∈ entries t -> key_of d ∈ keys t.
Proof.
  intros H. unfold keys. rewrite elems_entries.
  apply list_elem_of_fmap. exists d. split; [done|].
  apply list_elem_of_fmap. by exists (a, d).
Qed.

Lemma search_tree_found : forall t a d,
  ascending (keys t) -> (a, d) ∈ entries t ->
  exists c l r, search_tree (key_of d) t = Node c l a d r.
Proof using Hord.
  induction t as [|c0 l0 IHl a0 d0 r0 IHr]; intros a d Hasc Hin.
  { by apply elem_of_nil in Hin. }
  simpl in Hin |- *.
  unfold keys in Hasc. simpl in Hasc. rewrite fmap_app, fmap_cons in Hasc.
  apply ascending_app in Hasc as (Hl & Hr & Hlr).
  inversion Hr as [|? ? Hr0 Hr']; subst.
  assert (Hl0 : forall x, x ∈ keys l0 -> lt x (key_of d0)).
  { intros x Hx. apply Hlr; [done|]. by apply elem_of_cons; left. }
  apply elem_of_app in Hin as [Hin|Hin].
  - pose proof (Hl0 _ (entries_key _ _ _ Hin)) as Hlt. unfold RBOrder.lt in Hlt.
    destruct (eqb (key_of d) (key_of d0)) eqn:Heq.
    { apply (eqb_eq _ _ Hord) in Heq. rewrite Heq in Hlt.
      by rewrite (ltb_irrefl _ _ Hord) in Hlt. }
    rewrite Hlt. by apply IHl.
  - apply elem_of_cons in Hin as [Hin|Hin].
    { injection Hin as -> ->.
      rewrite (proj2 (eqb_eq _ _ Hord (key_of d0) (key_of d0)) eq_refl).
      by eauto. }
    assert (Hlt : lt (key_of d0) (key_of d)).
    { eapply Forall_forall in Hr0; [exact Hr0|]. by eapply entries_key. }
    unfold RBOrder.lt in Hlt.
    destruct (eqb (key_of d) (key_of d0)) eqn:Heq.
    { apply (eqb_eq _ _ Hord) in Heq. rewrite Heq in Hlt.
      by rewrite (ltb_irrefl _ _ Hord) in Hlt. }
    destruct (ltb (key_of d) (key_of d0)) eqn:Hgt.
    { pose proof (ltb_trans _ _ Hord _ _ _ Hlt Hgt) as Habs.
      by rewrite (ltb_irrefl _ _ Hord) in Habs. }
    by apply IHr.
Qed.

Lemma search_tree_absent kk t :
  kk ∉ keys t -> search_tree kk t = Leaf.
Proof using Hord.
  intros Hn. destruct (search_tree kk t) as [|c l a d r] eqn:E; [done|].
  apply search_tree_sound in E as [Heq Hin].
  apply (eqb_eq _ _ Hord) in Heq. subst. exfalso. apply Hn.
  by eapply entries_key.
Qed.

Lemma search_tree_present kk t :
  ascending (keys t) -> kk ∈ keys t ->
  exists c l a d r, search_tree kk t = Node c l a d r /\ key_of d = kk.
Proof using Hord.
  intros Hasc Hin. unfold keys in Hin. rewrite elems_entries in Hin.
  apply list_elem_of_fmap in Hin as (d & -> & Hin).
  apply list_elem_of_fmap in Hin as ([a d'] & -> & Hin). simpl.
  destruct (search_tree_found t a d' Hasc Hin) as (c & l & r & E).
  by eauto 10.
Qed.

End Order.
End RBOrder.

(** ** The container invariant and the public methods *)

Module RBMethods.
Import RBTree RBShape RBSpec RBRotate RBInsert RBInsertSpec RBInsertHelp RBIter RBOrder.
Section Methods.
Context {T K : Type} (key_of : T -> K) (eqb ltb : K -> K -> bool) (T0 junk : T).
Implicit Types (s : set) (m : gmap ptr (@node_t T)) (t : @tree T).
Local Abbreviation Zrep := (RBShape.Zrep T0).
Local Abbreviation Rep := (RBShape.Rep T0).
Local Abbreviation ins_tree := (RBInsert.ins_tree key_of ltb).
Local Abbreviation search_tree := (RBInsertHelp.search_tree key_of eqb ltb).

(** The store holds the red-black shape [t] for container [s]; no node sits
    at the null address; the allocator reference is set; [size_] counts the
    nodes (as an [unsigned int]). *)
Record Inv s m t : Prop := {
  inv_rep : Rep s m t;
  inv_null : nullptr ∉ nil_ s :: root_ s :: addrs t;
  inv_rb : is_rb t;
  inv_alloc : allocator_ s <> nullptr;
  inv_size : size_ s = wrap (Z.of_nat (length (elems t)))
}.

Lemma wrap_succ n : wrap (wrap (Z.of_nat n) + 1) = wrap (Z.of_nat (S n)).
Proof.
  unfold wrap. rewrite Zplus_mod_idemp_l. f_equal. lia.
Qed.

Lemma construct_spec self alloc m Q :
  alloc <> nullptr ->
  (forall s m', Inv s m' Leaf -> this s = self -> allocator_ s = alloc ->
                Q s m') ->
  wp (construct (T:=T) T0 junk self alloc) m Q.
Proof.
  clear K key_of eqb ltb.
  intros Ha HQ. unfold construct, _make_nil_node, _make_root_node.
  apply wp_bind, wp_bind. apply allocate_node_spec; [done|].
  intros p Hp Hp0. wp_steps.
  apply allocate_node_spec; [done|].
  intros q Hq Hq0. cbn [nil_].
  assert (p <> q).
  { intros ->. apply Hq. rewrite !dom_insert_L. set_solver. }
  wp_steps. apply HQ; [|done..].
  split; cbn [nil_ root_ allocator_ size_ addrs elems length]; try done.
  - exists p. split_and!; cbn [nil_ root_ kaddrs addrs app addr paddr rep_ctx rep].
    + repeat constructor; set_solver.
    + heap_lookup.
    + heap_lookup.
    + done.
  - set_solver.
  - split; [done|]. exists 0%nat. constructor.
Qed.

Lemma Zrep_fresh s m np k t p :
  Zrep s m np k t -> p ∉ dom m ->
  p ∉ nil_ s :: root_ s :: kaddrs k ++ addrs t.
Proof. intros Z Hp Hin. apply Hp. by eapply Zrep_dom. Qed.

Lemma insert_spec s m t v Q :
  Inv s m t ->
  match search_tree (key_of v) t with
  | Node c l a d r => Q (mk_iterator (this s) a, false, s) m
  | Leaf =>
      forall z m',
        z ∉ nullptr :: nil_ s :: root_ s :: addrs t ->
        Inv (with_size (wrap (size_ s + 1)) s) m' (ins_tree t z v) ->
        Q (mk_iterator (this s) z, true, with_size (wrap (size_ s + 1)) s) m'
  end ->
  wp (insert key_of eqb ltb junk s v) m Q.
Proof.
  intros [[np Z] Hnull Hrb Halloc Hsize] HQ. unfold insert.
  apply wp_bind. eapply search_spec; [exact Z|].
  destruct (search_tree (key_of v) t) as [|c l a d r] eqn:E; cbn [addr].
  - wp_steps. apply allocate_node_spec; [done|].
    intros z Hz Hz0. wp_steps.
    set (m1 := <[z:=_]> (<[z:=_]> m)).
    pose proof (Zrep_fresh _ _ _ _ _ _ Z Hz) as Hfresh.
    assert (Z1 : Zrep s m1 np [] t).
    { eapply Zrep_ext; [|exact Z]. intros p Hp. unfold m1.
      rewrite !lookup_insert_ne; [done|by intros <-..]. }
    assert (Hz1 : m1 !! z = Some (mk_node nullptr nullptr nullptr false v)).
    { unfold m1. by rewrite lookup_insert_eq. }
    clearbody m1.
    destruct Hrb as [Hc Hn].
    eapply _insert_spec; [exact Z1|done|exact Hz1|exact Hfresh|].
    cbn [data]. intros m' Z'. apply wp_ret. cbn [this with_size].
    apply HQ.
    + simpl in Hfresh. set_solver.
    + split; cbn [nil_ root_ allocator_ size_ with_size].
      * exists np. by eapply Zrep_sentinels; [..|exact Z'].
      * rewrite (ins_tree_addrs key_of ltb). simpl in Hfresh. set_solver.
      * by apply ins_tree_rb.
      * done.
      * rewrite Hsize, wrap_succ. f_equal. f_equal.
        rewrite <- !length_addrs_elems.
        by rewrite (ins_tree_addrs key_of ltb).
  - apply search_tree_sound in E as [_ Hin].
    assert (a ∈ addrs t).
    { rewrite addrs_entries. apply list_elem_of_fmap. by exists (a, d). }
    destruct Z as (Hnd & _). apply NoDup_cons in Hnd as [Hnil _].
    rewrite decide_True by (intros ->; set_solver).
    by apply wp_ret.
Qed.

Lemma find_spec s m t kk Q :
  Inv s m t ->
  Q (mk_iterator (this s) (addr s (search_tree kk t))) m ->
  wp (find key_of eqb ltb s kk) m Q.
Proof.
  intros [[np Z] Hnull Hrb Halloc Hsize] HQ. unfold find.
  apply wp_bind. eapply search_spec; [exact Z|].
  destruct (decide _) as [|Hn]; apply wp_ret; [done|].
  apply dec_stable in Hn. unfold end_. by rewrite <- Hn.
Qed.

End Methods.
End RBMethods.

(** ** Deletion on shapes

    [del_fix] is the loop of [_delete_fix_up] followed by its final
    [x->red = false], on shapes: [t] is the subtree at [x], [k] the path
    above it. *)

Module RBDelete.
Import RBTree RBShape RBSpec RBInsert RBIter.
Section Delete.
Context {T : Type}.
Implicit Types (t l r w : @tree T) (k : list (@frame T)) (f : @frame T).

(** the last two cases of the loop when [x] is a left child: the sibling
    [w] is black and one of its children is red *)
Definition del_sib34_L t (cp : bool) (p : ptr) (dp : T) w k : @tree T :=
  match w with
  | Node _ wl wa wd wr =>
      if color wr then
        plug (Node cp (Node false t p dp wl) wa wd (blacken wr)) k
      else
        match wl with
        | Node _ wll wla wld wlr =>
            plug (Node cp (Node false t p dp wll) wla wld
                          (Node false wlr wa wd wr)) k
        | Leaf => plug t (FL cp p dp w :: k)
        end
  | Leaf => plug t (FL cp p dp w :: k)
  end.

Definition del_sib34_R t (cp : bool) (p : ptr) (dp : T) w k : @tree T :=
  match w with
  | Node _ wl wa wd wr =>
      if color wl then
        plug (Node cp (blacken wl) wa wd (Node false wr p dp t)) k
      else
        match wr with
        | Node _ wrl wra wrd wrr =>
            plug (Node cp (Node false wl wa wd wrl) wra wrd
                          (Node false wrr p dp t)) k
        | Leaf => plug t (FR cp w p dp :: k)
        end
  | Leaf => plug t (FR cp w p dp :: k)
  end.

Fixpoint del_fix k t : @tree T :=
  if color t then plug (blacken t) k
  else
    match k with
    | [] => t
    | FL cp p dp w :: k1 =>
        match w with
        | Node true wl wa wd wr =>
            (* red sibling: rotate left at the parent; the new sibling is wl *)
            match wl with
            | Node _ wll wla wld wlr =>
                if negb (color wlr) && negb (color wll) then
                  plug (Node false t p dp (Node true wll wla wld wlr))
                       (FL false wa wd wr :: k1)
                else del_sib34_L t true p dp wl (FL false wa wd wr :: k1)
            | Leaf => plug t k
            end
        | Node false wl wa wd wr =>
            if negb (color wr) && negb (color wl) then
              del_fix k1 (Node cp t p dp (Node true wl wa wd wr))
            else del_sib34_L t cp p dp w k1
        | Leaf => plug t k
        end
    | FR cp w p dp :: k1 =>
        match w with
        | Node true wl wa wd wr =>
            (* red sibling: rotate right at the parent; the new sibling is wr *)
            match wr with
            | Node _ wrl wra wrd wrr =>
                if negb (color wrr) && negb (color wrl) then
                  plug (Node false (Node true wrl wra wrd wrr) p dp t)
                       (FR false wl wa wd :: k1)
                else del_sib34_R t true p dp wr (FR false wl wa wd :: k1)
            | Leaf => plug t k
            end
        | Node false wl wa wd wr =>
            if negb (color wr) && negb (color wl) then
              del_fix k1 (Node cp (Node true wl wa wd wr) p dp t)
            else del_sib34_R t cp p dp w k1
        | Leaf => plug t k
        end
    end.

Lemma rbt_S_node t n : rbt t (S n) -> color t = false ->
  exists l a d r, t = Node false l a d r /\ rbt l n /\ rbt r n.
Proof. intros H Hc. inversion H; subst; simpl in Hc; [done|]. by eauto 8. Qed.

Lemma rbt_blacken_S t n : rbt t n -> color t = true -> rbt (blacken t) (S n).
Proof. intros H Hc. inversion H; subst; simpl in Hc; try done. by constructor. Qed.

Lemma rbt_color_node t n : rbt t n -> color t = true ->
  exists l a d r, t = Node true l a d r /\ color l = false /\
                  color r = false /\ rbt l n /\ rbt r n.
Proof. intros H Hc. inversion H; subst; simpl in Hc; try done. by eauto 10. Qed.

(** plugging a valid subtree whose root is black *)
Lemma rbt_plug_black k t n N hc :
  rbt t n -> color t = false -> rbk k n hc N -> rbt (plug t k) N.
Proof.
  intros Ht Hc Hk. eapply rbt_plug; [done|]. rewrite Hc.
  by eapply rbk_weaken.
Qed.

Lemma del_fix_red k t : color t = true -> del_fix k t = plug (blacken t) k.
Proof. intros Hc. destruct k; simpl; by rewrite Hc. Qed.

Lemma top_black_cons f k : top_black (f :: k) -> top_black k.
Proof. destruct k as [|g k]; [done|]. apply top_black_tail. Qed.

Lemma del_sib34_L_rbt t cp p dp wl wa wd wr k n N :
  rbt t n ->
  rbk (FL cp p dp (Node false wl wa wd wr) :: k) (S n) false N ->
  negb (color wr) && negb (color wl) = false ->
  rbt (del_sib34_L t cp p dp (Node false wl wa wd wr) k) N.
Proof.
  intros Ht Hk Hcol.
  assert (Hw : rbt (Node false wl wa wd wr) (S n)) by (by inversion Hk).
  inversion Hw as [| |? ? ? ? ? Hwl Hwr]; subst.
  assert (Hk' : rbk k (if cp then S n else S (S n)) cp N).
  { inversion Hk; subst; done. }
  cbn [del_sib34_L].
  destruct (color wr) eqn:Hcr.
  - apply rbt_color_node in Hwr as (l & a & d & r & -> & ? & ? & ? & ?);
      [|done].
    cbn [blacken]. eapply rbt_plug; [|exact Hk'].
    destruct cp; by repeat constructor.
  - destruct (color wl) eqn:Hcl; [|done].
    apply rbt_color_node in Hwl as (l & a & d & r & -> & ? & ? & ? & ?);
      [|done].
    eapply rbt_plug; [|exact Hk'].
    destruct cp; by repeat constructor.
Qed.

Lemma del_sib34_R_rbt t cp p dp wl wa wd wr k n N :
  rbt t n ->
  rbk (FR cp (Node false wl wa wd wr) p dp :: k) (S n) false N ->
  negb (color wr) && negb (color wl) = false ->
  rbt (del_sib34_R t cp p dp (Node false wl wa wd wr) k) N.
Proof.
  intros Ht Hk Hcol.
  assert (Hw : rbt (Node false wl wa wd wr) (S n)) by (by inversion Hk).
  inversion Hw as [| |? ? ? ? ? Hwl Hwr]; subst.
  assert (Hk' : rbk k (if cp then S n else S (S n)) cp N).
  { inversion Hk; subst; done. }
  cbn [del_sib34_R].
  destruct (color wl) eqn:Hcl.
  - apply rbt_color_node in Hwl as (l & a & d & r & -> & ? & ? & ? & ?);
      [|done].
    cbn [blacken]. eapply rbt_plug; [|exact Hk'].
    destruct cp; by repeat constructor.
  - destruct (color wr) eqn:Hcr; [|done].
    apply rbt_color_node in Hwr as (l & a & d & r & -> & ? & ? & ? & ?);
      [|done].
    eapply rbt_plug; [|exact Hk'].
    destruct cp; by repeat constructor.
Qed.

Lemma del_fix_rbt : forall j k t n N,
  (length k <= j)%nat ->
  rbt t n -> rbk k (S n) false N -> top_black k ->
  exists N', rbt (del_fix k t) N'.
Proof.
  induction j as [|j IH]; intros k t n N Hlen Ht Hk Htop.
  { destruct k; [|simpl in Hlen; lia]. simpl.
    destruct (color t) eqn:Hc; [|by eauto].
    simpl. eexists. by apply rbt_blacken_S. }
  destruct k as [|f k1].
  { simpl. destruct (color t) eqn:Hc; [|by eauto].
    simpl. eexists. by apply rbt_blacken_S. }
  cbn [del_fix]. destruct (color t) eqn:Hc.
  { exists N. eapply rbt_plug_black; [by apply rbt_blacken_S| |done].
    by destruct t. }
  simpl in Hlen. pose proof (top_black_cons _ _ Htop) as Htop1.
  destruct f as [cp p dp w|cp w p dp].
  - assert (Hw : rbt w (S n)) by (by inversion Hk).
    destruct w as [|[] wl wa wd wr]; [by inversion Hw|..].
    + (* red sibling *)
      inversion Hw as [|? ? ? ? ? Hcl Hcr Hwl Hwr|]; subst.
      destruct (rbt_S_node _ _ Hwl Hcl) as (wll & wla & wld & wlr & -> & ? & ?).
      assert (Hk1 : rbk k1 (S (S n)) false N /\ cp = false).
      { inversion Hk; subst; done. }
      destruct Hk1 as [Hk1 ->].
      assert (rbk (FL false wa wd wr :: k1) (S n) true N) by (by constructor).
      exists N. destruct (negb (color wlr) && negb (color wll)) eqn:Hcol.
      * apply andb_prop in Hcol as [?%negb_true_iff ?%negb_true_iff].
        eapply rbt_plug; [|by eapply rbk_weaken]; by repeat constructor.
      * eapply del_sib34_L_rbt; [done| |done]. by repeat constructor.
    + destruct (negb (color wr) && negb (color wl)) eqn:Hcol.
      * apply andb_prop in Hcol as [?%negb_true_iff ?%negb_true_iff].
        inversion Hw; subst.
        destruct cp.
        -- rewrite del_fix_red by done. exists N. cbn [blacken].
           eapply rbt_plug_black; [by repeat constructor|done|].
           by inversion Hk; subst.
        -- eapply (IH k1 _ (S n) N); [lia|by repeat constructor| |done].
           by inversion Hk; subst.
      * exists N. by eapply del_sib34_L_rbt.
  - assert (Hw : rbt w (S n)) by (by inversion Hk).
    destruct w as [|[] wl wa wd wr]; [by inversion Hw|..].
    + (* red sibling *)
      inversion Hw as [|? ? ? ? ? Hcl Hcr Hwl Hwr|]; subst.
      destruct (rbt_S_node _ _ Hwr Hcr) as (wrl & wra & wrd & wrr & -> & ? & ?).
      assert (Hk1 : rbk k1 (S (S n)) false N /\ cp = false).
      { inversion Hk; subst; done. }
      destruct Hk1 as [Hk1 ->].
      assert (rbk (FR false wl wa wd :: k1) (S n) true N) by (by constructor).
      exists N. destruct (negb (color wrr) && negb (color wrl)) eqn:Hcol.
      * apply andb_prop in Hcol as [?%negb_true_iff ?%negb_true_iff].
        eapply rbt_plug; [|by eapply rbk_weaken]; by repeat constructor.
      * eapply del_sib34_R_rbt; [done| |done]. by repeat constructor.
    + destruct (negb (color wr) && negb (color wl)) eqn:Hcol.
      * apply andb_prop in Hcol as [?%negb_true_iff ?%negb_true_iff].
        inversion Hw; subst.
        destruct cp.
        -- rewrite del_fix_red by done. exists N. cbn [blacken].
           eapply rbt_plug_black; [by repeat constructor|done|].
           by inversion Hk; subst.
        -- eapply (IH k1 _ (S n) N); [lia|by repeat constructor| |done].
           by inversion Hk; subst.
      * exists N. by eapply del_sib34_R_rbt.
Qed.

Lemma color_plug k : forall t,
  color (plug t k) = match last k with
                     | Some f => fcolor f
                     | None => color t
                     end.
Proof.
  induction k as [|f k IH]; intros t; [done|].
  simpl plug. rewrite IH. destruct k as [|g k]; [by destruct f|].
  rewrite last_cons_cons.
  destruct (last (g :: k)) eqn:E; [done|by apply last_None in E].
Qed.

Lemma color_plug_top_black k t :
  top_black k -> k <> [] -> color (plug t k) = false.
Proof.
  intros Htop Hne. rewrite color_plug. unfold top_black in Htop.
  destruct (last k) eqn:E; [done|]. by apply last_None in E.
Qed.

Lemma top_black_push f k :
  top_black k -> (k = [] -> fcolor f = false) -> top_black (f :: k).
Proof.
  intros Htop Hf. destruct k as [|g k]; [by apply Hf|].
  unfold top_black. by rewrite last_cons_cons.
Qed.

Lemma del_fix_color : forall j k t,
  (length k <= j)%nat -> top_black k -> color (del_fix k t) = false.
Proof.
  induction j as [|j IH]; intros k t Hlen Htop.
  { destruct k; [|simpl in Hlen; lia]. simpl.
    destruct (color t) eqn:Hc; [by destruct t|done]. }
  destruct k as [|f k1].
  { simpl. destruct (color t) eqn:Hc; [by destruct t|done]. }
  cbn [del_fix]. destruct (color t) eqn:Hc.
  { by apply color_plug_top_black. }
  simpl in Hlen. pose proof (top_black_cons _ _ Htop) as Htop1.
  assert (Hroot : k1 = [] -> fcolor f = false).
  { intros ->. exact Htop. }
  destruct f as [cp p dp w|cp w p dp]; simpl in Hroot.
  - destruct w as [|[] wl wa wd wr]; [by apply color_plug_top_black|..].
    + destruct wl as [|cwl wll wla wld wlr]; [by apply color_plug_top_black|].
      assert (top_black (FL false wa wd wr :: k1)) by (by apply top_black_push).
      destruct (negb (color wlr) && negb (color wll));
        [by apply color_plug_top_black|].
      cbn [del_sib34_L]. destruct (color wlr).
      { by apply color_plug_top_black. }
      destruct wll; by apply color_plug_top_black.
    + destruct (negb (color wr) && negb (color wl)); [apply IH; [lia|done]|].
      cbn [del_sib34_L].
      assert (forall x, color (plug x (FL cp p dp (Node false wl wa wd wr) :: k1))
                = false) by (intros; by apply color_plug_top_black).
      assert (forall l a d r, color (plug (Node cp l a d r) k1) = false).
      { intros. destruct k1; [by rewrite Hroot|by apply color_plug_top_black]. }
      destruct (color wr); [done|]. by destruct wl.
  - destruct w as [|[] wl wa wd wr]; [by apply color_plug_top_black|..].
    + destruct wr as [|cwr wrl wra wrd wrr]; [by apply color_plug_top_black|].
      assert (top_black (FR false wl wa wd :: k1)) by (by apply top_black_push).
      destruct (negb (color wrr) && negb (color wrl));
        [by apply color_plug_top_black|].
      cbn [del_sib34_R]. destruct (color wrl).
      { by apply color_plug_top_black. }
      destruct wrr; by apply color_plug_top_black.
    + destruct (negb (color wr) && negb (color wl)); [apply IH; [lia|done]|].
      cbn [del_sib34_R].
      assert (forall x, color (plug x (FR cp (Node false wl wa wd wr) p dp :: k1))
                = false) by (intros; by apply color_plug_top_black).
      assert (forall l a d r, color (plug (Node cp l a d r) k1) = false).
      { intros. destruct k1; [by rewrite Hroot|by apply color_plug_top_black]. }
      destruct (color wl); [done|]. by destruct wr.
Qed.

Lemma entries_plug_congr k : forall t t',
  entries t = entries t' -> entries (plug t k) = entries (plug t' k).
Proof. intros t t' E. by rewrite !entries_plug, E. Qed.

Lemma entries_blacken t : entries (blacken t) = entries t.
Proof. by destruct t. Qed.

Ltac list_assoc :=
  repeat first [rewrite <- app_assoc | rewrite <- app_comm_cons]; done.

Lemma del_fix_entries : forall j k t,
  (length k <= j)%nat -> entries (del_fix k t) = entries (plug t k).
Proof.
  induction j as [|j IH]; intros k t Hlen.
  { destruct k; [|simpl in Hlen; lia]. simpl.
    destruct (color t); [apply entries_blacken|done]. }
  destruct k as [|f k1].
  { simpl. destruct (color t); [apply entries_blacken|done]. }
  cbn [del_fix]. destruct (color t) eqn:Hc.
  { apply entries_plug_congr, entries_blacken. }
  simpl in Hlen.
  destruct f as [cp p dp w|cp w p dp].
  - destruct w as [|[] wl wa wd wr]; [done|..].
    + destruct wl as [|cwl wll wla wld wlr]; [done|].
      destruct (negb (color wlr) && negb (color wll)).
      { cbn [plug plug1]. apply entries_plug_congr. simpl. list_assoc. }
      cbn [del_sib34_L]. destruct (color wlr).
      { cbn [plug plug1]. apply entries_plug_congr.
        simpl. rewrite entries_blacken. list_assoc. }
      destruct wll; cbn [plug plug1]; apply entries_plug_congr; simpl;
        list_assoc.
    + destruct (negb (color wr) && negb (color wl)).
      { rewrite IH by lia. cbn [plug plug1]. by apply entries_plug_congr. }
      cbn [del_sib34_L]. destruct (color wr).
      { cbn [plug plug1]. apply entries_plug_congr.
        simpl. rewrite entries_blacken. list_assoc. }
      destruct wl; [done|].
      cbn [plug plug1]. apply entries_plug_congr. simpl. list_assoc.
  - destruct w as [|[] wl wa wd wr]; [done|..].
    + destruct wr as [|cwr wrl wra wrd wrr]; [done|].
      destruct (negb (color wrr) && negb (color wrl)).
      { cbn [plug plug1]. apply entries_plug_congr. simpl. list_assoc. }
      cbn [del_sib34_R]. destruct (color wrl).
      { cbn [plug plug1]. apply entries_plug_congr.
        simpl. rewrite entries_blacken. list_assoc. }
      destruct wrr; cbn [plug plug1]; apply entries_plug_congr; simpl;
        list_assoc.
    + destruct (negb (color wr) && negb (color wl)).
      { rewrite IH by lia. cbn [plug plug1]. by apply entries_plug_congr. }
      cbn [del_sib34_R]. destruct (color wl).
      { cbn [plug plug1]. apply entries_plug_congr.
        simpl. rewrite entries_blacken. list_assoc. }
      destruct wr; [done|].
      cbn [plug plug1]. apply entries_plug_congr. simpl. list_assoc.
Qed.

End Delete.
End RBDelete.

(** ** [_delete_fix_up] on the store follows [del_fix] on shapes *)

Module RBDeleteFix.
Import RBTree RBShape RBSpec RBRotate RBInsert RBIter RBDelete.
Section DeleteFix.
Context {T : Type} (T0 : T).
Implicit Types (s : set) (m : gmap ptr (@node_t T)) (t l r w : @tree T)
  (k : list (@frame T)).
Local Abbreviation Zrep := (RBShape.Zrep T0).

(** reading through a pointer to a subtree that may be the nil sentinel *)
Lemma Zrep_lookup_addr s m np k t :
  Zrep s m np k t ->
  exists n, m !! addr s t = Some n /\ red n = color t /\
            (t <> Leaf -> parent n = paddr s k).
Proof.
  intros Z. destruct t as [|c l a d r]; simpl.
  - eexists. split; [by eapply Zrep_nil|done].
  - eexists. split; [by eapply Zrep_focus|done].
Qed.

Lemma wp_get_red_addr s m np k t Q :
  Zrep s m np k t -> Q (color t) m -> wp (get_red (addr s t)) m Q.
Proof.
  intros Z HQ. destruct (Zrep_lookup_addr _ _ _ _ _ Z) as (n & Hn & Hr & _).
  eapply wp_get_red; [done|]. by rewrite Hr.
Qed.

Lemma wp_get_parent_focus s m np k t Q :
  Zrep s m np k t -> (t = Leaf -> np = paddr s k) ->
  Q (paddr s k) m -> wp (get_parent (addr s t)) m Q.
Proof.
  intros Z Hnp HQ. destruct t as [|c l a d r]; simpl.
  - eapply wp_get_parent; [by eapply Zrep_nil|]. simpl. by rewrite Hnp.
  - eapply wp_get_parent; [by eapply Zrep_focus|done].
Qed.

(** the address of the real root only depends on the path *)
Lemma addr_plug_node s k : forall c l a d r c' l' d' r',
  addr s (plug (Node c l a d r) k) = addr s (plug (Node c' l' a d' r') k).
Proof.
  induction k as [|f k IH]; intros; [done|].
  simpl. destruct f; simpl; apply IH.
Qed.

Lemma addr_plug_kaddrs s k t : k <> [] -> addr s (plug t k) ∈ kaddrs k.
Proof.
  revert t. induction k as [|f k IH]; intros t Hne; [done|].
  simpl. destruct k as [|g k].
  - destruct f; simpl; set_solver.
  - apply elem_of_app. right. by apply IH.
Qed.

Lemma root_ne_focus s m np k t :
  Zrep s m np k t -> k <> [] -> addr s (plug t k) <> addr s t.
Proof.
  intros (Hnd & _) Hne Heq.
  pose proof (addr_plug_kaddrs s k t Hne) as Hin. rewrite Heq in Hin.
  rewrite ?NoDup_cons, ?NoDup_app in Hnd.
  destruct t as [|c l a d r]; simpl in *; set_solver.
Qed.

(** what remains of [_delete_fix_up] after its loop *)
Definition fix_post s np (F : @tree T) : ptr -> gmap ptr (@node_t T) -> Prop :=
  fun x m => wp (set_red x false) m (fun _ m' => Zrep s m' np [] F).

Lemma set_red_nil_noop s m np k t Q :
  Zrep s m np k t -> Q tt m -> wp (set_red (nil_ s) false) m Q.
Proof.
  intros Z HQ. eapply wp_store; [by eapply Zrep_nil|].
  unfold with_red. cbn [parent left right red data].
  rewrite insert_id; [done|by eapply Zrep_nil].
Qed.

Lemma exit_black_root s m np t fuel :
  Zrep s m np [] t -> color t = false -> (0 < fuel)%nat ->
  wp (_delete_fix_up_loop fuel s (addr s t) (addr s t)) m (fix_post s np t).
Proof.
  intros Z Hc Hf. destruct fuel as [|fuel]; [lia|]. cbn [_delete_fix_up_loop].
  apply wp_bind. eapply wp_get_red_addr; [exact Z|]. rewrite Hc.
  rewrite bool_decide_eq_false_2 by (intros H; by apply H). cbn [negb andb].
  apply wp_ret. unfold fix_post.
  destruct t as [|c l a d r]; cbn [addr].
  - eapply set_red_nil_noop; [exact Z|done].
  - simpl in Hc. subst c. eapply set_red_spec; [exact Z|done].
Qed.

Lemma exit_red s m np k l a d r root fuel :
  Zrep s m np k (Node true l a d r) -> (0 < fuel)%nat ->
  wp (_delete_fix_up_loop fuel s root a) m
     (fix_post s np (plug (Node false l a d r) k)).
Proof.
  intros Z Hf. destruct fuel as [|fuel]; [lia|]. cbn [_delete_fix_up_loop].
  zsteps Z. cbn [negb andb]. zsteps Z. unfold fix_post. zsteps Z.
  exact (proj1 (Zrep_plug _ _ _ _ _ _) Z).
Qed.

Lemma exit_at_node s m np k l a d r fuel :
  Zrep s m np k (Node false l a d r) -> (0 < fuel)%nat ->
  wp (_delete_fix_up_loop fuel s a a) m
     (fix_post s np (plug (Node false l a d r) k)).
Proof.
  intros Z Hf. destruct fuel as [|fuel]; [lia|]. cbn [_delete_fix_up_loop].
  zsteps Z. rewrite bool_decide_eq_false_2 by (intros H; by apply H).
  cbn [negb andb]. zsteps Z. unfold fix_post. zsteps Z.
  exact (proj1 (Zrep_plug _ _ _ _ _ _) Z).
Qed.

Lemma plug_nonempty_node k : forall t, k <> [] ->
  exists c l a d r, plug t k = Node c l a d r.
Proof.
  induction k as [|f k IH]; intros t Hne; [done|].
  simpl. destruct k as [|g k].
  - destruct f; simpl; by eauto 8.
  - by apply IH.
Qed.

Lemma addr_plug_frame s k t t' : k <> [] ->
  addr s (plug t k) = addr s (plug t' k).
Proof.
  revert t t'. induction k as [|f k IH]; intros t t' Hne; [done|].
  simpl. destruct k as [|g k].
  - by destruct f.
  - by apply IH.
Qed.

Lemma exit_at_top s m np k t t0 fuel :
  Zrep s m np k t -> k <> [] -> top_black k -> (0 < fuel)%nat ->
  wp (_delete_fix_up_loop fuel s (addr s (plug t0 k)) (addr s (plug t0 k))) m
     (fix_post s np (plug t k)).
Proof.
  intros Z Hne Htop Hf. rewrite (addr_plug_frame s k t0 t) by done.
  pose proof (color_plug_top_black k t Htop Hne) as Hc.
  apply (proj1 (Zrep_plug _ _ _ _ _ _)) in Z.
  destruct (plug_nonempty_node k t Hne) as (c & l & a & d & r & E).
  rewrite E in *. simpl in Hc. subst c. simpl.
  by apply (exit_at_node s m np []).
Qed.

Lemma exit_red' s m np k l a d r root fuel F :
  Zrep s m np k (Node true l a d r) ->
  F = plug (Node false l a d r) k -> (0 < fuel)%nat ->
  wp (_delete_fix_up_loop fuel s root a) m (fix_post s np F).
Proof. intros Z -> Hf. by apply exit_red. Qed.

Lemma exit_at_node' s m np k l a d r fuel F :
  Zrep s m np k (Node false l a d r) ->
  F = plug (Node false l a d r) k -> (0 < fuel)%nat ->
  wp (_delete_fix_up_loop fuel s a a) m (fix_post s np F).
Proof. intros Z -> Hf. by apply exit_at_node. Qed.

Lemma exit_at_top' s m np k t t0 fuel F :
  Zrep s m np k t -> F = plug t k ->
  k <> [] -> top_black k -> (0 < fuel)%nat ->
  wp (_delete_fix_up_loop fuel s (addr s (plug t0 k)) (addr s (plug t0 k))) m
     (fix_post s np F).
Proof. intros Z -> Hne Htop Hf. by apply exit_at_top. Qed.

End DeleteFix.
(** find the subtree [u] in the explicit part of the shape *)
Ltac zfocus_sub_down Z u :=
  lazymatch type of Z with
  | RBShape.Zrep _ _ _ _ _ ?t =>
      first [ constr_eq t u; exact Z
            | lazymatch t with
              | Node _ _ _ _ _ =>
                  first [ zfocus_sub_down (Zrep_down_L Z) u
                        | zfocus_sub_down (Zrep_down_R Z) u ]
              end ]
  end.

Ltac zfocus_sub Z u :=
  first [ zfocus_sub_down Z u
        | lazymatch type of Z with
          | RBShape.Zrep _ _ _ _ (FL _ _ _ _ :: _) _ =>
              zfocus_sub (Zrep_up_L Z) u
          | RBShape.Zrep _ _ _ _ (FR _ _ _ _ :: _) _ =>
              zfocus_sub (Zrep_up_R Z) u
          end ].

(** move the focus up until the path is [k] *)
Ltac zup_to Z k :=
  lazymatch type of Z with
  | RBShape.Zrep _ _ _ _ ?k' _ =>
      first [ constr_eq k' k; exact Z
            | lazymatch k' with
              | FL _ _ _ _ :: _ => zup_to (Zrep_up_L Z) k
              | FR _ _ _ _ :: _ => zup_to (Zrep_up_R Z) k
              end ]
  end.

(** symbolic execution inside [_delete_fix_up]: [x] may be the nil sentinel,
    whose parent link [Hnp] then stands for the parent of the hole *)
Ltac dstep Z Hnp :=
  first
    [ lazymatch goal with
      | |- wp (get_red (addr _ ?u)) _ _ =>
          eapply wp_get_red_addr; [zfocus_sub Z u|]
      | |- wp (get_parent (addr _ ?u)) _ _ =>
          eapply wp_get_parent_focus; [zfocus_sub Z u|exact Hnp|]
      end; cbn beta iota;
      cbn [parent left right red data addr paddr faddr plug plug1 color
           negb andb]
    | zstep Z; cbn [negb andb color]
    | progress (cbn beta iota; cbn [negb andb color]) ].

Ltac dsteps Z Hnp := repeat dstep Z Hnp.

(** the loop has reached its last iteration with [x = root] *)
Ltac flia H := clear -H; simpl in H; lia.

Ltac dfinish Z p k1 Hlen :=
  cbn [plug plug1];
  let Hne := fresh "Hne" in
  destruct (decide (k1 = [])) as [->|Hne];
  [ cbn [plug plug1 addr]; eapply exit_at_node';
    [zfocus Z p|reflexivity|flia Hlen]
  | eapply (exit_at_top' _ _ _ _ k1);
    [zup_to Z k1|reflexivity|done|done|flia Hlen] ].

Section DeleteFixLoop.
Context {T : Type} (T0 : T).
Implicit Types (s : set) (m : gmap ptr (@node_t T)) (t l r w : @tree T)
  (k : list (@frame T)).
Local Abbreviation Zrep := (RBShape.Zrep T0).
Local Abbreviation fix_post := (fix_post T0).

Lemma delete_fix_up_loop_spec : forall fuel s m np k t n N,
  Zrep s m np k t ->
  (t = Leaf -> np = paddr s k) ->
  rbt t n -> rbk k (S n) false N -> top_black k ->
  (length k < fuel)%nat ->
  wp (_delete_fix_up_loop fuel s (addr s (plug t k)) (addr s t)) m
     (fix_post s np (del_fix k t)).
Proof.
  induction fuel as [|fuel IH]; intros s m np k t n N Z Hnp Ht Hk Htop Hlen;
    [lia|].
  destruct (color t) eqn:Hc.
  { rewrite del_fix_red by done.
    destruct t as [|[] l a d r]; try done. cbn [blacken addr].
    apply exit_red; [done|lia]. }
  destruct k as [|f k1].
  { cbn [del_fix plug]. rewrite Hc. apply exit_black_root; [done|done|lia]. }
  cbn [_delete_fix_up_loop].
  pose proof (root_ne_focus _ _ _ _ _ _ Z ltac:(done)) as Hroot.
  apply wp_bind. eapply wp_get_red_addr; [exact Z|]. rewrite Hc.
  rewrite bool_decide_eq_true_2 by done. cbn [negb andb].
  simpl in Hlen. pose proof (top_black_cons _ _ Htop) as Htop1.
  cbn [del_fix]. rewrite Hc. clear Hroot.
  destruct f as [cp p dp w|cp w p dp].
  - assert (Hw : rbt w (S n)) by (by inversion Hk).
    destruct w as [|[] wl wa wd wr]; [by inversion Hw|..].
    + (* red sibling *)
      inversion Hw as [|? ? ? ? ? Hcl Hcr Hwl Hwr|]; subst.
      destruct (rbt_S_node _ _ Hwl Hcl) as (wll & wla & wld & wlr & -> & ? & ?).
      assert (cp = false) as -> by (by inversion Hk).
      pose proof Z as Z0. zrep_open Z0. cbn [paddr faddr] in Hnp.
      dsteps Z Hnp.
      destruct (color wlr) eqn:Hclr.
      * destruct wlr as [|[] wlrl wlra wlrd wlrr]; try done.
        pose proof Z as Z1. zrep_open Z1.
        dsteps Z Hnp. cbn [del_sib34_L color blacken negb andb].
        dfinish Z p k1 Hlen.
      * cbn [negb]. dsteps Z Hnp. destruct (color wll) eqn:Hcll.
        -- destruct wll as [|[] wlll wlla wlld wllr]; try done.
           pose proof Z as Z1. zrep_open Z1.
           dsteps Z Hnp. rewrite Hclr. cbn [negb]. dsteps Z Hnp.
           cbn [del_sib34_L color negb andb]. rewrite Hclr.
           dfinish Z p k1 Hlen.
        -- dsteps Z Hnp.
           eapply exit_red'; [zfocus Z p|reflexivity|flia Hlen].
    + inversion Hw as [| |? ? ? ? ? Hwl Hwr]; subst.
      pose proof Z as Z0. zrep_open Z0. cbn [paddr faddr] in Hnp.
      dsteps Z Hnp.
      destruct (color wr) eqn:Hclr.
      * destruct wr as [|[] wrl wra wrd wrr]; try done.
        pose proof Z as Z1. zrep_open Z1.
        dsteps Z Hnp. cbn [del_sib34_L color blacken negb andb].
        dfinish Z p k1 Hlen.
      * cbn [negb]. dsteps Z Hnp. destruct (color wl) eqn:Hcll.
        -- destruct wl as [|[] wll wla wld wlr]; try done.
           pose proof Z as Z1. zrep_open Z1.
           dsteps Z Hnp. rewrite Hclr. cbn [negb]. dsteps Z Hnp.
           cbn [del_sib34_L color negb andb]. rewrite Hclr.
           dfinish Z p k1 Hlen.
        -- dsteps Z Hnp. destruct cp.
           ++ rewrite del_fix_red by done. cbn [blacken].
              eapply exit_red'; [zfocus Z p|reflexivity|flia Hlen].
           ++ cbn [plug plug1].
              rewrite (addr_plug_node s k1 false t p dp
                         (Node false wl wa wd wr)
                         false t dp (Node true wl wa wd wr)).
              apply (IH s _ np k1 (Node false t p dp (Node true wl wa wd wr))
                        (S n) N);
                [zfocus Z p|done|by repeat constructor
                |by inversion Hk|done|flia Hlen].
  - assert (Hw : rbt w (S n)) by (by inversion Hk).
    destruct w as [|[] wl wa wd wr]; [by inversion Hw|..].
    + (* red sibling *)
      inversion Hw as [|? ? ? ? ? Hcl Hcr Hwl Hwr|]; subst.
      destruct (rbt_S_node _ _ Hwr Hcr) as (wrl & wra & wrd & wrr & -> & ? & ?).
      assert (cp = false) as -> by (by inversion Hk).
      pose proof Z as Z0. zrep_open Z0. cbn [paddr faddr] in Hnp.
      dsteps Z Hnp.
      destruct (color wrr) eqn:Hcrr.
      * destruct wrr as [|[] wrrl wrra wrrd wrrr]; try done.
        dsteps Z Hnp. destruct (color wrl) eqn:Hcrl.
        -- destruct wrl as [|[] wrll wrla wrld wrlr]; try done.
           pose proof Z as Z1. zrep_open Z1.
           dsteps Z Hnp. cbn [del_sib34_R color blacken negb andb].
           dfinish Z p k1 Hlen.
        -- pose proof Z as Z1. zrep_open Z1.
           dsteps Z Hnp. cbn [del_sib34_R color blacken negb andb].
           rewrite ?Hcrl, ?Hcrr; cbn [negb andb]. dfinish Z p k1 Hlen.
      * cbn [negb]. dsteps Z Hnp. destruct (color wrl) eqn:Hcrl.
        -- destruct wrl as [|[] wrll wrla wrld wrlr]; try done.
           pose proof Z as Z1. zrep_open Z1.
           dsteps Z Hnp.
           cbn [del_sib34_R color blacken negb andb]. rewrite ?Hcrl, ?Hcrr; cbn [negb andb].
           cbn [negb andb]. dfinish Z p k1 Hlen.
        -- dsteps Z Hnp. rewrite ?Hcrl, ?Hcrr; cbn [negb andb]. cbn [negb andb].
           eapply exit_red'; [zfocus Z p|reflexivity|flia Hlen].
    + inversion Hw as [| |? ? ? ? ? Hwl Hwr]; subst.
      pose proof Z as Z0. zrep_open Z0. cbn [paddr faddr] in Hnp.
      dsteps Z Hnp.
      destruct (color wr) eqn:Hcrr.
      * destruct wr as [|[] wrl wra wrd wrr]; try done.
        dsteps Z Hnp. destruct (color wl) eqn:Hcrl.
        -- destruct wl as [|[] wll wla wld wlr]; try done.
           pose proof Z as Z1. zrep_open Z1.
           dsteps Z Hnp. cbn [del_sib34_R color blacken negb andb].
           dfinish Z p k1 Hlen.
        -- pose proof Z as Z1. zrep_open Z1.
           dsteps Z Hnp. cbn [del_sib34_R color blacken negb andb].
           rewrite ?Hcrl, ?Hcrr; cbn [negb andb]. dfinish Z p k1 Hlen.
      * cbn [negb]. dsteps Z Hnp. destruct (color wl) eqn:Hcrl.
        -- destruct wl as [|[] wll wla wld wlr]; try done.
           pose proof Z as Z1. zrep_open Z1.
           dsteps Z Hnp.
           cbn [del_sib34_R color blacken negb andb].
           dfinish Z p k1 Hlen.
        -- dsteps Z Hnp. destruct cp.
           ++ rewrite del_fix_red by done. cbn [blacken].
              eapply exit_red'; [zfocus Z p|reflexivity|flia Hlen].
           ++ cbn [plug plug1].
              rewrite (addr_plug_node s k1 false (Node false wl wa wd wr) p dp
                         t false (Node true wl wa wd wr) dp t).
              apply (IH s _ np k1 (Node false (Node true wl wa wd wr) p dp t)
                        (S n) N);
                [zfocus Z p|done|by repeat constructor
                |by inversion Hk|done|flia Hlen].
Qed.

End DeleteFixLoop.
End RBDeleteFix.

(** ** What the rebalancing code never touches: liveness and payloads *)

Module RBKeep.
Import RBTree RBShape.
Section Keep.
Context {T : Type}.
Implicit Types (m : gmap ptr (@node_t T)).

(** every live cell stays live and keeps its payload *)
Definition keeps m m' : Prop :=
  forall p n, m !! p = Some n -> exists n', m' !! p = Some n' /\ data n' = data n.

Definition keeping {A} (c : M A) : Prop :=
  forall m a m', c m = Ok (a, m') -> keeps m m'.

Lemma keeps_refl m : keeps m m.
Proof. intros p n H. by eauto. Qed.

Lemma keeps_trans m1 m2 m3 : keeps m1 m2 -> keeps m2 m3 -> keeps m1 m3.
Proof.
  intros H1 H2 p n Hp. destruct (H1 p n Hp) as (n' & Hn' & E').
  destruct (H2 p n' Hn') as (n'' & Hn'' & E''). exists n''.
  split; [done|congruence].
Qed.

Lemma keeping_ret {A} (a : A) : keeping (ret (T:=T) a).
Proof. intros m a' m' H. injection H as <- <-. apply keeps_refl. Qed.

Lemma keeping_fail {A} e : keeping (fail (T:=T) (A:=A) e).
Proof. intros m a' m' H. done. Qed.

Lemma keeping_bind {A B} (c : M A) (k : A -> M B) :
  keeping c -> (forall a, keeping (k a)) -> keeping (bind c k).
Proof.
  intros Hc Hk m b m' H. unfold bind in H.
  destruct (c m) as [[a m1]|e] eqn:E; [|done].
  eapply keeps_trans; [by eapply Hc|by eapply Hk].
Qed.

Lemma keeping_load p : keeping (load (T:=T) p).
Proof.
  intros m a m' H. unfold load in H. destruct (m !! p); [|done].
  injection H as <- <-. apply keeps_refl.
Qed.

Lemma keeping_store p (f : node_t -> node_t) :
  (forall n, data (f n) = data n) -> keeping (store (T:=T) p f).
Proof.
  intros Hf m a m' H. unfold store in H. destruct (m !! p) as [n0|] eqn:E;
    [|done].
  injection H as <- <-. intros q n Hq. destruct (decide (p = q)) as [->|Hne].
  - rewrite lookup_insert_eq. eexists. split; [done|]. rewrite Hf. congruence.
  - rewrite lookup_insert_ne by done. by eauto.
Qed.

Lemma keeping_with_fuel {A} (f : nat -> M A) :
  (forall fuel, keeping (f fuel)) -> keeping (with_fuel f).
Proof. intros H m a m' E. by eapply H. Qed.

Lemma keeping_if {A} (b : bool) (c1 c2 : M A) :
  keeping c1 -> keeping c2 -> keeping (if b then c1 else c2).
Proof. by destruct b. Qed.

Lemma keeping_if_dec {A} (P : Prop) (d : Decision P) (c1 c2 : M A) :
  keeping c1 -> keeping c2 -> keeping (if d then c1 else c2).
Proof. by destruct d. Qed.

End Keep.

Ltac keeping_step :=
  lazymatch goal with
  | |- keeping (bind _ _) => apply keeping_bind; [|intros ?]
  | |- keeping (ret _) => apply keeping_ret
  | |- keeping (fail _) => apply keeping_fail
  | |- keeping (load _) => apply keeping_load
  | |- keeping (store _ _) => apply keeping_store; intros []; reflexivity
  | |- keeping (with_fuel _) => apply keeping_with_fuel; intros ?
  | |- keeping (if decide _ then _ else _) => apply keeping_if_dec
  | |- keeping (if _ then _ else _) => apply keeping_if
  | |- keeping (get_parent _) => unfold get_parent
  | |- keeping (get_left _) => unfold get_left
  | |- keeping (get_right _) => unfold get_right
  | |- keeping (get_red _) => unfold get_red
  | |- keeping (get_data _) => unfold get_data
  | |- keeping (get_grandparent _) => unfold get_grandparent
  | |- keeping (get_left_red _) => unfold get_left_red
  | |- keeping (get_right_red _) => unfold get_right_red
  | |- keeping (set_parent _ _) => unfold set_parent
  | |- keeping (set_left _ _) => unfold set_left
  | |- keeping (set_right _ _) => unfold set_right
  | |- keeping (set_red _ _) => unfold set_red
  | |- keeping (_left_rotate _ _) => unfold _left_rotate
  | |- keeping (_right_rotate _ _) => unfold _right_rotate
  end.

Section KeepFix.
Context {T : Type}.

Lemma keeping_delete_fix_up_loop (s : set) : forall fuel root x,
  keeping (_delete_fix_up_loop (T:=T) fuel s root x).
Proof.
  induction fuel as [|fuel IH]; intros root x; cbn [_delete_fix_up_loop].
  - apply keeping_fail.
  - repeat first [apply IH | keeping_step].
Qed.

Lemma keeping_delete_fix_up (s : set) x : keeping (_delete_fix_up (T:=T) s x).
Proof.
  unfold _delete_fix_up.
  repeat first [apply keeping_delete_fix_up_loop | keeping_step].
Qed.

Lemma wp_keeping {A} (c : M A) m (Q : A -> gmap ptr (@node_t T) -> Prop) :
  keeping c -> wp c m Q -> wp c m (fun a m' => Q a m' /\ keeps m m').
Proof.
  intros Hk Hwp. unfold wp in *. destruct (c m) as [[a m']|e] eqn:E; [|done].
  split; [done|]. by eapply Hk.
Qed.

End KeepFix.
End RBKeep.

(** ** [_delete]: splice, rebalance, transplant, free *)

Module RBDeleteSpec.
Import RBTree RBShape RBSpec RBRotate RBInsert RBIter RBDelete RBDeleteFix RBKeep.
Section DeleteSpec.
Context {T : Type} (T0 : T).
Implicit Types (s : set) (m : gmap ptr (@node_t T)) (t l r w : @tree T)
  (k : list (@frame T)).
Local Abbreviation Zrep := (RBShape.Zrep T0).

Lemma delete_fix_up_spec s m np k t n N Q :
  Zrep s m np k t -> (t = Leaf -> np = paddr s k) ->
  rbt t n -> rbk k (S n) false N -> top_black k ->
  (forall m', Zrep s m' np [] (del_fix k t) -> keeps m m' -> Q tt m') ->
  wp (_delete_fix_up s (addr s t)) m Q.
Proof.
  intros Z Hnp Ht Hk Htb HQ.
  eapply wp_mono;
    [apply (wp_keeping _ _ (fun _ m' => Zrep s m' np [] (del_fix k t)));
     [apply keeping_delete_fix_up|]|].
  2: { intros [] m' [H1 H2]. apply HQ; [exact H1|exact H2]. }
  unfold _delete_fix_up. apply wp_bind.
  eapply wp_get_left; [by eapply Zrep_root|]. cbn [left].
  apply wp_bind, wp_with_fuel.
  eapply wp_mono; [eapply delete_fix_up_loop_spec; try eassumption|].
  - pose proof (Zrep_size _ _ _ _ _ _ Z). pose proof (length_kaddrs k). lia.
  - intros x m' H. exact H.
Qed.

Lemma free_node_spec s m p Q :
  allocator_ s <> nullptr -> is_Some (m !! p) -> Q tt (delete p m) ->
  wp (_free_node s p) m Q.
Proof.
  intros Ha [n Hn] HQ. unfold wp, _free_node.
  rewrite decide_False by done. by rewrite Hn.
Qed.

(** the child that takes the place of a node with at most one child *)
Definition spliced yl yr : @tree T :=
  match yl with
  | Leaf => yr
  | Node _ _ _ _ _ => yl
  end.

Lemma splice_spec {A} s m np k c yl y d yr (K : ptr -> M A) Q :
  Zrep s m np k (Node c yl y d yr) ->
  yl = Leaf \/ yr = Leaf ->
  (forall m' np',
     Zrep s m' np' k (spliced yl yr) ->
     (spliced yl yr = Leaf -> np' = paddr s k) ->
     m' !! y = Some (mk_node (paddr s k) (addr s yl) (addr s yr) c d) ->
     y ∉ nil_ s :: root_ s :: kaddrs k ++ addrs yl ++ addrs yr ->
     wp (K (addr s (spliced yl yr))) m' Q) ->
  wp (yl' <- get_left y ;;
      x <- (if decide (yl' = nil_ s) then get_right y else get_left y) ;;
      yp <- get_parent y ;;
      set_parent x yp ;;;
      xp <- get_parent x ;;
      (if decide (root_ s = xp) then set_left (root_ s) x
       else
         yp <- get_parent y ;;
         ypl <- get_left yp ;;
         if decide (y = ypl) then yp <- get_parent y ;; set_left yp x
         else yp <- get_parent y ;; set_right yp x) ;;;
      K x) m Q.
Proof.
  intros Z Hor HQ. pose proof Z as [Hnd' _].
  assert (Hnd'' : NoDup (y :: nil_ s :: root_ s ::
                          kaddrs k ++ addrs yl ++ addrs yr)).
  { eapply NoDup_perm; [|exact Hnd']. cbn [addrs]. solve_Permutation. }
  apply NoDup_cons in Hnd'' as [Hy Hnd''].
  destruct Hor as [-> | ->];
    [destruct yr as [|cx xl x dx xr] | destruct yl as [|cx xl x dx xr]];
    destruct k as [|[cp p dp sr|cp sl p dp] k]; zrep_open Z.
  all: cbn [spliced] in HQ; wp_steps.
  all: eapply HQ; [zrep_close Hnd''| done | heap_lookup | exact Hy].
Qed.

Lemma transplant_spec {A} s m np k c l z d r y ny (K : M A) Q :
  Zrep s m np k (Node c l z d r) ->
  m !! y = Some ny ->
  y ∉ nil_ s :: root_ s :: kaddrs k ++ addrs (Node c l z d r) ->
  (forall m' np',
     Zrep s m' np' k (Node c l y (data ny) r) ->
     is_Some (m' !! z) ->
     z ∉ nil_ s :: root_ s :: kaddrs k ++ addrs (Node c l y (data ny) r) ->
     wp K m' Q) ->
  wp (zl <- get_left z ;;
      set_left y zl ;;;
      zr <- get_right z ;;
      set_right y zr ;;;
      zp <- get_parent z ;;
      set_parent y zp ;;;
      z_red <- get_red z ;;
      set_red y z_red ;;;
      zr <- get_right z ;;
      set_parent zr y ;;;
      zl <- get_left z ;;
      set_parent zl y ;;;
      zp <- get_parent z ;;
      zpl <- get_left zp ;;
      (if decide (z = zpl) then zp <- get_parent z ;; set_left zp y
       else zp <- get_parent z ;; set_right zp y) ;;;
      K) m Q.
Proof.
  intros Z Hy Hny HQ. pose proof Z as [Hnd' _].
  assert (Hnd2 : NoDup (y :: nil_ s :: root_ s ::
                        kaddrs k ++ addrs (Node c l z d r)))
    by (by apply NoDup_cons).
  assert (Hnd3 : NoDup (z :: nil_ s :: root_ s ::
                        kaddrs k ++ addrs (Node c l y (data ny) r))).
  { eapply NoDup_perm; [|exact Hnd2]. cbn [addrs]. solve_Permutation. }
  apply NoDup_cons in Hnd3 as [Hz Hnd3]. clear Hny.
  destruct ny as [py ly ry cy dy]. cbn [data] in *.
  destruct Z as (_ & Hnil & Hk & Ht).
  destruct l as [|cl ll la dl lr], r as [|cr rl ra dr rr],
    k as [|[cp p dp sr|cp sl p dp] k];
    cbn [addr paddr faddr rep rep_ctx plug1] in Hnil, Hk, Ht;
    destruct_and?; nodup_atoms Hnd2.
  all: wp_steps.
  all: eapply HQ; [zrep_close Hnd3 | eexists; heap_lookup | exact Hz].
Qed.

End DeleteSpec.
End RBDeleteSpec.

(** ** Removing a node: shapes *)

Module RBErasePure.
Import RBTree RBShape RBSpec RBRotate RBInsert RBIter RBDelete RBDeleteFix RBKeep
  RBDeleteSpec.
Section ErasePure.
Context {T : Type}.
Implicit Types (t l r yl yr : @tree T) (k : list (@frame T)).

Lemma eleft_app k k' : eleft (k ++ k') = eleft k' ++ eleft k.
Proof.
  induction k as [|[c a d r|c l a d] k IH]; simpl.
  - by rewrite app_nil_r.
  - exact IH.
  - by rewrite IH, <- app_assoc.
Qed.

Lemma eright_app k k' : eright (k ++ k') = eright k ++ eright k'.
Proof.
  induction k as [|[c a d r|c l a d] k IH]; simpl.
  - done.
  - by rewrite IH, <- app_assoc.
  - exact IH.
Qed.

Lemma kaddrs_app k k' : kaddrs (k ++ k') = kaddrs k ++ kaddrs k'.
Proof.
  induction k as [|f k IH]; simpl; [done|]. by rewrite IH, <- app_assoc.
Qed.

(** the leftmost node of a tree, with the path down to it *)
Lemma min_zipper t : t <> Leaf ->
  exists k c y d r,
    t = plug (Node c Leaf y d r) k /\ head (addrs t) = Some y /\
    eleft k = [].
Proof.
  induction t as [|c l IHl a d r _]; [done|]. intros _.
  destruct l as [|cl ll la dl lr].
  - by exists [], c, a, d, r.
  - destruct IHl as (k & c' & y & d' & r' & E & Hh & El); [done|].
    exists (k ++ [FL c a d r]), c', y, d', r'. split_and!.
    + by rewrite plug_app, <- E.
    + cbn [addrs] in *. destruct (addrs ll ++ la :: addrs lr); [done|].
      exact Hh.
    + by rewrite eleft_app.
Qed.

Lemma top_black_of_color k t : color (plug t k) = false -> top_black k.
Proof. rewrite color_plug. unfold top_black. by destruct (last k). Qed.

Lemma splice_black k yl y dy yr :
  is_rb (plug (Node false yl y dy yr) k) ->
  exists n N, rbt yl n /\ rbt yr n /\ rbk k (S n) false N /\ top_black k.
Proof.
  intros [Hc [N H]]. apply rbt_unplug in H as (n' & Ht & Hk).
  inversion Ht; subst. exists n, N. split_and!; try done.
  by eapply top_black_of_color.
Qed.

Lemma rbt_black_zero t : rbt t 0 -> color t = false -> t = Leaf.
Proof. intros H Hc. inversion H; subst; [done|]. simpl in Hc. done. Qed.

Lemma splice_red k yl y dy yr :
  is_rb (plug (Node true yl y dy yr) k) -> yl = Leaf \/ yr = Leaf ->
  yl = Leaf /\ yr = Leaf /\ is_rb (plug Leaf k).
Proof.
  intros [Hc [N H]] Hor. apply rbt_unplug in H as (n & Ht & Hk).
  inversion Ht as [|l a d r n' Hcl Hcr Hl Hr|]; subst.
  assert (n = 0%nat) as ->.
  { destruct Hor as [-> | ->]; [inversion Hl|inversion Hr]; done. }
  apply rbt_black_zero in Hl, Hr; [|done..]. subst. split_and!; [done..|].
  split.
  - rewrite color_plug in *. by destruct (last k).
  - exists N. eapply rbt_plug; [constructor|]. by eapply rbk_weaken.
Qed.

Lemma is_rb_rename k c l a d a' d' r :
  is_rb (plug (Node c l a d r) k) -> is_rb (plug (Node c l a' d' r) k).
Proof.
  intros [Hc [N H]]. split.
  - rewrite color_plug in *. exact Hc.
  - apply rbt_unplug in H as (n & Ht & Hk). exists N.
    eapply rbt_plug; [|exact Hk]. inversion Ht; subst; by constructor.
Qed.

Lemma addrs_spliced yl yr p :
  p ∈ addrs (spliced yl yr) -> p ∈ addrs yl ++ addrs yr.
Proof.
  rewrite elem_of_app. destruct yl; cbn [spliced]; auto.
Qed.

Lemma notin_entries_eq t t' p :
  entries t' = entries t -> p ∉ addrs t -> p ∉ addrs t'.
Proof. rewrite !addrs_entries. by intros ->. Qed.

End ErasePure.
End RBErasePure.

(** ** [_delete] on the store *)

Module RBErase.
Import RBTree RBShape RBSpec RBRotate RBInsert RBIter RBDelete RBDeleteFix RBKeep
  RBDeleteSpec RBErasePure.
Section Erase.
Context {T : Type} (T0 : T).
Implicit Types (s : set) (m : gmap ptr (@node_t T)) (t l r yl yr : @tree T)
  (k : list (@frame T)).
Local Abbreviation Zrep := (RBShape.Zrep T0).

Lemma Zrep_delete s m np t p :
  Zrep s m np [] t -> p ∉ nil_ s :: root_ s :: addrs t ->
  Zrep s (delete p m) np [] t.
Proof.
  intros Z Hp. eapply Zrep_ext; [|exact Z]. intros q Hq.
  apply lookup_delete_ne. intros ->. apply Hp. exact Hq.
Qed.

Lemma fix_after_splice {A} s m np k cy yl y dy yr (K : M A) Q :
  is_rb (plug (Node cy yl y dy yr) k) -> yl = Leaf \/ yr = Leaf ->
  Zrep s m np k (spliced yl yr) ->
  (spliced yl yr = Leaf -> np = paddr s k) ->
  (forall m' np' t',
     Zrep s m' np' [] t' -> is_rb t' ->
     entries t' = entries (plug (spliced yl yr) k) -> keeps m m' ->
     wp K m' Q) ->
  wp ((if negb cy then _delete_fix_up s (addr s (spliced yl yr))
       else ret tt) ;;; K) m Q.
Proof.
  intros Hrb Hor Z Hnp HQ. apply wp_bind. destruct cy; cbn [negb].
  - apply wp_ret.
    destruct (splice_red _ _ _ _ _ Hrb Hor) as (-> & -> & Hrb').
    eapply HQ; [exact (proj1 (Zrep_plug _ _ _ _ _ _) Z)|exact Hrb'|done|].
    apply keeps_refl.
  - destruct (splice_black _ _ _ _ _ Hrb) as (n & N & Hl & Hr & Hk & Htb).
    assert (Hx : rbt (spliced yl yr) n).
    { destruct Hor as [-> | ->]; [exact Hr|]. by destruct yl. }
    eapply delete_fix_up_spec; [exact Z|exact Hnp|exact Hx|exact Hk|exact Htb|].
    intros m' Z' Hkeep.
    eapply HQ; [exact Z'| |by apply (del_fix_entries (length k))|
                exact Hkeep].
    split; [by apply (del_fix_color (length k))|].
    eapply (del_fix_rbt (length k)); [lia|exact Hx|exact Hk|exact Htb].
Qed.

(** erasing a node that has at most one child *)
Lemma delete_one_child s m np kz cz zl z dz zr Q :
  Zrep s m np kz (Node cz zl z dz zr) ->
  is_rb (plug (Node cz zl z dz zr) kz) ->
  allocator_ s <> nullptr ->
  zl = Leaf \/ zr = Leaf ->
  (forall m' np' t',
     Zrep s m' np' [] t' -> is_rb t' ->
     entries t' = (eleft kz ++ entries zl) ++ (entries zr ++ eright kz) ->
     m' !! z = None ->
     Q (with_size (wrap (size_ s - 1)) s) m') ->
  wp (_delete s z) m Q.
Proof.
  intros Z Hrb Ha Hor HQ. pose proof Z as [Hnd _].
  unfold _delete. cbn zeta. apply wp_bind.
  eapply wp_get_left; [by eapply Zrep_focus|]. cbn [left].
  apply wp_bind.
  eapply (wp_mono _ _ (fun b m' => b = true /\ m' = m)).
  { destruct Hor as [-> | ->].
    - cbn [addr]. rewrite decide_True by done. by apply wp_ret.
    - destruct zl as [|cl ll la dl lr]; cbn [addr].
      + rewrite decide_True by done. by apply wp_ret.
      + rewrite decide_False by (nodup_atoms Hnd; ne).
        apply wp_bind. eapply wp_get_right; [by eapply Zrep_focus|].
        cbn [right addr]. apply wp_ret. split; [|done].
        by rewrite bool_decide_eq_true. }
  intros b m' [-> ->]. apply wp_bind, wp_ret.
  eapply splice_spec; [exact Z|exact Hor|].
  intros m1 np1 Z1 Hnp1 Hy1 Hny1.
  apply wp_bind. rewrite decide_False by (intros H; by apply H).
  apply wp_bind. eapply wp_get_red; [exact Hy1|]. cbn [red].
  eapply fix_after_splice; [exact Hrb|exact Hor|exact Z1|exact Hnp1|].
  intros m2 np2 t2 Z2 Hrb2 He2 Hk2.
  destruct (Hk2 _ _ Hy1) as (n2 & Hn2 & _).
  apply free_node_spec; [exact Ha|by eexists|]. apply wp_ret.
  eapply (HQ _ np2 t2).
  - apply Zrep_delete; [exact Z2|].
    intros Hin. apply Hny1. rewrite !elem_of_cons in Hin |- *.
    destruct Hin as [|[|Hin]]; [auto..|]. right; right.
    rewrite addrs_entries, He2, <- addrs_entries, addrs_plug in Hin.
    rewrite elem_of_app in Hin |- *. destruct Hin as [|Hin]; [by left|].
    right. by apply addrs_spliced.
  - exact Hrb2.
  - rewrite He2, entries_plug.
    destruct Hor as [-> | ->]; [|destruct zl]; cbn [spliced entries];
      rewrite ?app_nil_r, <- ?app_assoc; done.
  - apply lookup_delete_eq.
Qed.

(** erasing a node with two children: its successor takes its place *)
Lemma delete_two_children s m np kz cz zl z dz zr Q :
  Zrep s m np kz (Node cz zl z dz zr) ->
  is_rb (plug (Node cz zl z dz zr) kz) ->
  allocator_ s <> nullptr ->
  zl <> Leaf -> zr <> Leaf ->
  (forall m' np' t',
     Zrep s m' np' [] t' -> is_rb t' ->
     entries t' = (eleft kz ++ entries zl) ++ (entries zr ++ eright kz) ->
     m' !! z = None ->
     Q (with_size (wrap (size_ s - 1)) s) m') ->
  wp (_delete s z) m Q.
Proof.
  intros Z Hrb Ha Hl Hr HQ. pose proof Z as [Hnd _].
  pose proof (Zrep_size _ _ _ _ _ _ Z) as Hsz.
  destruct (min_zipper zr Hr) as (ky & cy & y & dy & yr & Ezr & Hhd & Eleft).
  destruct zl as [|cl ll la dl lr]; [done|].
  destruct zr as [|cr rl ra dr rr]; [done|].
  unfold _delete. cbn zeta. apply wp_bind.
  eapply wp_get_left; [by eapply Zrep_focus|]. cbn [left addr].
  apply wp_bind.
  rewrite decide_False by (nodup_atoms Hnd; ne).
  apply wp_bind. eapply wp_get_right; [by eapply Zrep_focus|].
  cbn [right addr]. apply wp_ret.
  rewrite bool_decide_eq_false_2 by (nodup_atoms Hnd; ne).
  apply wp_bind. unfold _tree_successor. apply wp_bind.
  eapply wp_get_right; [by eapply Zrep_focus|]. cbn [right addr].
  rewrite decide_True by (nodup_atoms Hnd; ne).
  apply wp_with_fuel.
  eapply wp_mono;
    [eapply (leftmost_loop_spec T0 (Node cr rl ra dr rr)
               (FR cz (Node cl ll la dl lr) z dz :: kz));
     [done|exact (Zrep_down_R Z)|]|].
  { pose proof (height_addrs (Node cr rl ra dr rr)).
    rewrite length_addrs_Node in Hsz. lia. }
  intros y' m' [-> Hhd']. rewrite Hhd in Hhd'. injection Hhd' as <-.
  clear Hsz Hnd. rewrite Ezr in Z, Hrb, HQ. clear Ezr Hhd.
  set (zl := Node cl ll la dl lr) in *.
  assert (Zy : Zrep s m np (ky ++ FR cz zl z dz :: kz) (Node cy Leaf y dy yr)).
  { apply (proj2 (Zrep_plug _ _ _ _ _ _)). rewrite plug_app.
    exact (proj1 (Zrep_plug _ _ _ _ _ _) Z). }
  assert (Hrby : is_rb (plug (Node cy Leaf y dy yr)
                          (ky ++ FR cz zl z dz :: kz))).
  { by rewrite plug_app. }
  eapply splice_spec; [exact Zy|by left|].
  intros m1 np1 Z1 Hnp1 Hy1 Hny1. cbn [spliced] in Z1, Hnp1 |- *.
  assert (Hyz : y <> z).
  { intros ->. apply Hny1. rewrite kaddrs_app. cbn [kaddrs faddrs].
    set_solver. }
  apply wp_bind. rewrite decide_True by exact Hyz.
  apply wp_bind. eapply wp_get_red; [exact Hy1|]. cbn [red].
  eapply (fix_after_splice s m1 np1 _ cy Leaf y dy yr);
    [exact Hrby|by left|exact Z1|exact Hnp1|].
  cbn [spliced].
  intros m2 np2 t2 Z2 Hrb2 He2 Hk2.
  destruct (Hk2 _ _ Hy1) as (ny & Hny & Hdy). cbn [data] in Hdy.
  assert (Hz2 : z ∈ addrs t2).
  { rewrite addrs_entries, He2, <- addrs_entries, addrs_plug, kaddrs_app.
    cbn [kaddrs faddrs]. set_solver. }
  destruct (in_addrs_plug _ _ Hz2) as (k2 & c2 & l2 & d2 & r2 & ->).
  pose proof Z2 as [Hnd2 _].
  apply (proj2 (Zrep_plug _ _ _ _ _ _)) in Z2.
  assert (Hy2 : y ∉ nil_ s :: root_ s ::
                  kaddrs k2 ++ addrs (Node c2 l2 z d2 r2)).
  { intros Hin. apply Hny1. rewrite !elem_of_cons in Hin |- *.
    destruct Hin as [|[|Hin]]; [auto..|]. right; right.
    rewrite <- addrs_plug, addrs_entries, He2, <- addrs_entries, addrs_plug
      in Hin. exact Hin. }
  eapply transplant_spec; [exact Z2|exact Hny|exact Hy2|].
  rewrite Hdy. intros m3 np3 Z3 Hz3 Hnz3.
  apply free_node_spec; [exact Ha|exact Hz3|]. apply wp_ret.
  assert (E : (eleft k2 ++ entries l2) ++ (z, d2) :: (entries r2 ++ eright k2)
            = (eleft kz ++ entries zl) ++
              (z, dz) :: (entries yr ++ eright ky ++ eright kz)).
  { rewrite !entries_plug, eleft_app, eright_app, Eleft in He2.
    cbn [entries eleft eright] in He2. rewrite app_nil_r in He2.
    rewrite <- !app_assoc in He2. rewrite <- !app_assoc.
    cbn [app] in He2 |- *. exact He2. }
  apply entries_split_unique in E as (E1 & E2 & E3).
  2: { apply NoDup_cons in Hnd2 as [_ Hnd2].
       apply NoDup_cons in Hnd2 as [_ Hnd2]. cbn [kaddrs app] in Hnd2.
       rewrite addrs_entries, entries_plug in Hnd2. cbn [entries] in Hnd2.
       rewrite <- !app_assoc in Hnd2. rewrite <- !app_assoc.
       cbn [app] in Hnd2 |- *. exact Hnd2. }
  eapply (HQ _ np3 (plug (Node c2 l2 y dy r2) k2)).
  - apply Zrep_delete; [exact (proj1 (Zrep_plug _ _ _ _ _ _) Z3)|].
    intros Hin. apply Hnz3. rewrite !elem_of_cons in Hin |- *.
    destruct Hin as [|[|Hin]]; [auto..|]. right; right.
    by rewrite <- addrs_plug.
  - eapply is_rb_rename. exact Hrb2.
  - rewrite !entries_plug, Eleft. cbn [entries]. rewrite <- E1.
    rewrite <- !app_assoc. cbn [app]. by rewrite E3.
  - apply lookup_delete_eq.
Qed.

(** [_delete] unlinks the node at [z], keeps the tree red-black and frees
    exactly that node's payload *)
Lemma _delete_spec s m np t z Q :
  Zrep s m np [] t -> is_rb t -> allocator_ s <> nullptr -> z ∈ addrs t ->
  (forall m' np' t' L1 dz L2,
     Zrep s m' np' [] t' -> is_rb t' ->
     entries t = L1 ++ (z, dz) :: L2 -> entries t' = L1 ++ L2 ->
     m' !! z = None ->
     Q (with_size (wrap (size_ s - 1)) s) m') ->
  wp (_delete s z) m Q.
Proof.
  intros Z Hrb Ha Hz HQ.
  destruct (in_addrs_plug _ _ Hz) as (kz & cz & zl & dz & zr & ->).
  apply (proj2 (Zrep_plug _ _ _ _ _ _)) in Z.
  assert (Hent : entries (plug (Node cz zl z dz zr) kz) =
                 (eleft kz ++ entries zl) ++ (z, dz) :: entries zr ++ eright kz).
  { rewrite entries_plug. cbn [entries]. rewrite <- !app_assoc. done. }
  assert (Hcase : (zl = Leaf \/ zr = Leaf) \/ (zl <> Leaf /\ zr <> Leaf)).
  { destruct zl, zr; auto. }
  destruct Hcase as [Hor|[Hl Hr]].
  - eapply delete_one_child; [exact Z|exact Hrb|exact Ha|exact Hor|].
    intros m' np' t' Z' Hrb' He' Hfree. by eapply HQ.
  - eapply delete_two_children; [exact Z|exact Hrb|exact Ha|done..|].
    intros m' np' t' Z' Hrb' He' Hfree. by eapply HQ.
Qed.

End Erase.
End RBErase.

(** ** [erase(iterator)] and [clear] keep the container invariant *)

Module RBMethods2.
Import RBTree RBShape RBSpec RBRotate RBInsert RBIter RBDelete RBDeleteFix RBKeep
  RBDeleteSpec RBErasePure RBErase RBMethods.
Section Methods2.
Context {T : Type} (T0 : T).
Implicit Types (s : set) (m : gmap ptr (@node_t T)) (t l r : @tree T).
Local Abbreviation Zrep := (RBShape.Zrep T0).
Local Abbreviation Inv := (RBMethods.Inv T0).

Lemma wrap_pred n : wrap (wrap (Z.of_nat (S n)) - 1) = wrap (Z.of_nat n).
Proof. unfold wrap. rewrite Zminus_mod_idemp_l. f_equal. lia. Qed.

Lemma erase_spec s m t pos Q :
  Inv s m t -> node_ pos ∈ addrs t ->
  (forall m' t' L1 dz L2,
     Inv (with_size (wrap (size_ s - 1)) s) m' t' ->
     entries t = L1 ++ (node_ pos, dz) :: L2 -> entries t' = L1 ++ L2 ->
     m' !! node_ pos = None ->
     Q (with_size (wrap (size_ s - 1)) s) m') ->
  wp (erase s pos) m Q.
Proof.
  intros [[np Z] Hnull Hrb Halloc Hsize] Hpos HQ. unfold erase.
  pose proof Z as [Hnd _]. apply NoDup_cons in Hnd as [Hnil _].
  rewrite decide_False by (intros E; rewrite E in Hpos; set_solver).
  eapply _delete_spec; [exact Z|exact Hrb|exact Halloc|exact Hpos|].
  intros m' np' t' L1 dz L2 Z' Hrb' He He' Hfree.
  eapply HQ; [|exact He|exact He'|exact Hfree].
  assert (Hsub : forall p, p ∈ addrs t' -> p ∈ addrs t).
  { intros p. rewrite !addrs_entries, He, He', !fmap_app, fmap_cons.
    set_solver. }
  split; cbn [nil_ root_ allocator_ size_ with_size].
  - exists np'. by eapply Zrep_sentinels; [..|exact Z'].
  - intros Hin. apply Hnull. rewrite !elem_of_cons in Hin |- *.
    destruct Hin as [|[|Hin]]; auto.
  - exact Hrb'.
  - exact Halloc.
  - rewrite Hsize, !elems_entries, He, He', !length_fmap, !length_app.
    cbn [length]. rewrite Nat.add_succ_r. apply wrap_pred.
Qed.

Lemma destroy_helper_spec s : forall t par fuel m,
  allocator_ s <> nullptr ->
  rep s m t par -> NoDup (addrs t) -> nil_ s ∉ addrs t ->
  (height t < fuel)%nat ->
  wp (_destroy_helper fuel s (addr s t)) m
     (fun _ m' => forall p, p ∉ addrs t -> m' !! p = m !! p).
Proof.
  induction t as [|c l IHl a d r IHr]; intros par fuel m Ha Hrep Hnd Hnil Hf;
    (destruct fuel as [|fuel]; [simpl in Hf; lia|]);
    cbn [_destroy_helper addr].
  - rewrite decide_False by (intros H; by apply H). by apply wp_ret.
  - cbn [addrs] in Hnd, Hnil. cbn [height] in Hf.
    apply NoDup_app in Hnd as (Hndl & Hlr & Hndr).
    apply NoDup_cons in Hndr as [Har Hndr].
    rewrite decide_True by (intros ->; set_solver).
    destruct Hrep as (Hma & Hl & Hr).
    apply wp_bind. eapply wp_get_left; [exact Hma|]. cbn [left].
    apply wp_bind.
    eapply wp_mono; [eapply (IHl a fuel m); [done|done|done|set_solver|lia]|].
    intros [] m1 H1. cbn beta.
    assert (Hal : a ∉ addrs l) by (intros Hin; apply (Hlr a Hin); set_solver).
    apply wp_bind. eapply wp_get_right; [by rewrite H1|]. cbn [right].
    apply wp_bind.
    eapply wp_mono; [eapply (IHr a fuel m1); [done| |done|set_solver|lia]|].
    { eapply rep_ext; [|exact Hr]. intros p Hp. apply H1.
      intros Hin. apply (Hlr p Hin). set_solver. }
    intros [] m2 H2. cbn beta.
    apply free_node_spec; [done|by rewrite H2, H1|].
    intros p Hp. cbn [addrs] in Hp.
    rewrite lookup_delete_ne by (intros ->; set_solver).
    rewrite H2, H1; [done|set_solver..].
Qed.

Lemma clear_spec s m t Q :
  Inv s m t ->
  (forall m', Inv (with_size 0 s) m' Leaf -> Q (with_size 0 s) m') ->
  wp (clear s) m Q.
Proof.
  intros [[np Z] Hnull Hrb Halloc Hsize] HQ. unfold clear.
  pose proof (Zrep_size _ _ _ _ _ _ Z) as Hsz.
  pose proof (height_addrs t) as Hh.
  destruct Z as (Hnd & Hnil & Hk & Ht).
  cbn [kaddrs app rep_ctx paddr] in Hnd, Hk, Ht.
  apply NoDup_cons in Hnd as [Hn1 Hnd]. apply NoDup_cons in Hnd as [Hn2 Hnd].
  apply wp_bind. eapply wp_get_left; [exact Hk|]. cbn [left].
  apply wp_bind, wp_with_fuel.
  eapply wp_mono;
    [eapply (destroy_helper_spec s t (root_ s));
     [done|exact Ht|exact Hnd|set_solver|simpl in Hsz; lia]|].
  intros [] m1 H1. cbn beta.
  apply wp_bind. eapply wp_store; [rewrite H1; [exact Hk|exact Hn2]|].
  apply wp_ret. apply HQ.
  split; cbn [nil_ root_ allocator_ size_ with_size addrs elems length].
  - exists np. split_and!; cbn [nil_ root_ with_size kaddrs addrs app addr
                                paddr rep_ctx rep].
    + repeat constructor; set_solver.
    + rewrite lookup_insert_ne by set_solver. rewrite H1; [done|set_solver].
    + by rewrite lookup_insert_eq.
    + done.
  - set_solver.
  - split; [done|]. exists 0%nat. constructor.
  - done.
  - done.
Qed.

End Methods2.
End RBMethods2.

(** * The array container: growth, bounds and copies *)

Module VectorSpec.
Import Vector.

Local Notation "x <- c ;; k" := (Vector.bind c (fun x => k))
  (at level 100, c at next level, right associativity).
Local Notation "c ;;; k" := (Vector.bind c (fun _ => k))
  (at level 100, right associativity).

(** linear arithmetic, with the byte-count bound (a product) set aside *)
Ltac vlia :=
  repeat match goal with H : _ * _ < _ |- _ => clear H end;
  zify; Z.div_mod_to_equations; lia.

Section Runs.
Context {T : Type} (T0 junk : T) (sizeof_T : Z).
Implicit Types (v : @vector) (h : gmap ptr (list T)) (l blk : list T).
Local Abbreviation M := (@Vector.M T).

Lemma vec_bind_val {A B} (c : M A) (k : A -> M B) h a h' :
  c h = Val (a, h') -> Vector.bind c k h = k a h'.
Proof. unfold Vector.bind. by intros ->. Qed.

Lemma vec_bind_exn {A B} (c : M A) (k : A -> M B) h e :
  c h = Exn e -> Vector.bind c k h = Exn e.
Proof. unfold Vector.bind. by intros ->. Qed.

Lemma vec_bind_assoc {A B C} (c : M A) (k0 : A -> M B) (k : B -> M C) h :
  Vector.bind (Vector.bind c k0) k h
  = Vector.bind c (fun a => Vector.bind (k0 a) k) h.
Proof. unfold Vector.bind. by destruct (c h) as [[a h']|e]. Qed.

Lemma vec_bind_ret {A B} (a : A) (k : A -> M B) h :
  Vector.bind (Vector.ret a) k h = k a h.
Proof. done. Qed.

Lemma vec_wrap_small z : 0 <= z < 2 ^ 32 -> Vector.wrap z = z.
Proof. intros H. unfold Vector.wrap. by apply Z.mod_small. Qed.

Lemma vec_read_run b i blk x h :
  h !! b = Some blk -> blk !! i = Some x ->
  read b (Z.of_nat i) h = Val (x, h).
Proof. intros Hb Hx. unfold read. by rewrite Hb, Nat2Z.id, Hx. Qed.

Lemma vec_write_run b i blk x h :
  h !! b = Some blk -> (i < length blk)%nat ->
  write b (Z.of_nat i) x h = Val (tt, <[b := <[i := x]> blk]> h).
Proof.
  intros Hb Hi. unfold write. rewrite Hb, Nat2Z.id.
  by rewrite decide_True by done.
Qed.

(** the last round of a counted loop *)
Lemma for_range_snoc (body : Z -> M unit) : forall k i h,
  for_range (S k) i body h
  = (for_range k i body ;;; body (i + Z.of_nat k)) h.
Proof.
  induction k as [|k IH]; intros i h.
  - cbn [for_range]. unfold Vector.bind, Vector.ret. rewrite Z.add_0_r.
    by destruct (body i h) as [[[] ?]|].
  - transitivity
      (match body i h with
       | Val (_, h1) => for_range (S k) (i + 1) body h1
       | Exn e => Exn e
       end); [done|].
    transitivity
      (match body i h with
       | Val (_, h1) =>
           (for_range k (i + 1) body ;;; body (i + Z.of_nat (S k))) h1
       | Exn e => Exn e
       end).
    + destruct (body i h) as [[[] h1]|e]; [|done].
      rewrite IH. by replace (i + 1 + Z.of_nat k) with (i + Z.of_nat (S k)) by lia.
    + cbn [for_range]. unfold Vector.bind.
      by destruct (body i h) as [[[] h1]|e].
Qed.

Lemma destroy_range_run b : forall k i h,
  for_range k i (destroy_at b) h = Val (tt, h).
Proof.
  induction k as [|k IH]; intros i h; cbn [for_range]; [done|].
  unfold Vector.bind, destroy_at, Vector.ret. apply IH.
Qed.

(** moving the first [k] elements of one buffer to another *)
Lemma copy_range_run b nb blk : forall k nblk h,
  h !! b = Some blk -> h !! nb = Some nblk -> b <> nb ->
  (k <= length blk)%nat -> (k <= length nblk)%nat ->
  for_range k 0 (fun i => x <- read b i ;; write nb i x) h
  = Val (tt, <[nb := take k blk ++ drop k nblk]> h).
Proof.
  induction k as [|k IH]; intros nblk h Hb Hnb Hne Hk Hk'.
  - cbn [for_range take drop app]. unfold Vector.ret.
    by rewrite insert_id.
  - rewrite for_range_snoc.
    rewrite (vec_bind_val _ _ _ _ _ (IH nblk h Hb Hnb Hne ltac:(lia) ltac:(lia))).
    rewrite Z.add_0_l.
    destruct (lookup_lt_is_Some_2 blk k ltac:(lia)) as [x Hx].
    assert (Hb' : <[nb := take k blk ++ drop k nblk]> h !! b = Some blk).
    { by rewrite lookup_insert_ne. }
    rewrite (vec_bind_val _ _ _ _ _ (vec_read_run b k blk x _ Hb' Hx)).
    erewrite vec_write_run; [|by rewrite lookup_insert_eq|].
    2:{ rewrite length_app, length_take, length_drop. lia. }
    rewrite insert_insert_eq. do 3 f_equal.
    rewrite insert_app_r_alt by (rewrite length_take; lia).
    rewrite length_take, Nat.min_l, Nat.sub_diag by lia.
    rewrite (take_S_r _ _ _ Hx), <- app_assoc. f_equal.
    destruct (drop k nblk) as [|y rest] eqn:E.
    { apply (f_equal length) in E. rewrite length_drop in E. simpl in E. lia. }
    cbn. f_equal.
    replace (S k) with (k + 1)%nat by lia.
    rewrite <- drop_drop, E. done.
Qed.

(** a move that runs past the end of the old buffer *)
Lemma copy_range_overread b nb blk : forall k i h,
  h !! b = Some blk -> b <> nb ->
  (i <= length blk)%nat -> (length blk < i + k)%nat ->
  for_range k (Z.of_nat i) (fun i => x <- read b i ;; write nb i x) h
  = Exn BadAccess.
Proof.
  induction k as [|k IH]; intros i h Hb Hne Hi Hk; [lia|].
  cbn [for_range]. unfold Vector.bind at 1 2. unfold read at 1.
  rewrite Hb, Nat2Z.id.
  destruct (blk !! i) as [x|] eqn:Hx; [|done].
  apply lookup_lt_Some in Hx.
  unfold write at 1. destruct (h !! nb) as [nblk|]; [|done].
  rewrite Nat2Z.id. destruct (decide _); [|done].
  replace (Z.of_nat i + 1) with (Z.of_nat (S i)) by lia.
  apply IH; [by rewrite lookup_insert_ne|done|lia|lia].
Qed.

(** value-initialising [k] elements from index [i] on *)
Lemma fill_range_run p i : forall k blk h,
  h !! p = Some blk -> (i + k <= length blk)%nat ->
  for_range k (Z.of_nat i) (fun j => write p j T0) h
  = Val (tt, <[p := take i blk ++ replicate k T0 ++ drop (i + k) blk]> h).
Proof.
  induction k as [|k IH]; intros blk h Hp Hk.
  - cbn [for_range replicate app]. unfold Vector.ret.
    rewrite Nat.add_0_r, take_drop. by rewrite insert_id.
  - rewrite for_range_snoc.
    rewrite (vec_bind_val _ _ _ _ _ (IH blk h Hp ltac:(lia))).
    replace (Z.of_nat i + Z.of_nat k) with (Z.of_nat (i + k)) by lia.
    erewrite vec_write_run; [|by rewrite lookup_insert_eq|].
    2:{ rewrite !length_app, length_take, length_replicate, length_drop. lia. }
    rewrite insert_insert_eq. do 3 f_equal.
    rewrite insert_app_r_alt by (rewrite length_take; lia).
    rewrite length_take, Nat.min_l by lia. f_equal.
    rewrite insert_app_r_alt by (rewrite length_replicate; lia).
    rewrite length_replicate.
    replace (i + k - i - k)%nat with 0%nat by lia.
    replace (S k) with (k + 1)%nat by lia.
    rewrite replicate_add, <- app_assoc. f_equal.
    destruct (drop (i + k) blk) as [|y rest] eqn:E.
    { apply (f_equal length) in E. rewrite length_drop in E. simpl in E. lia. }
    cbn. f_equal.
    replace (i + (k + 1))%nat with ((i + k) + 1)%nat by lia.
    by rewrite <- drop_drop, E.
Qed.

Context (Hsizeof : 0 < sizeof_T).
Local Abbreviation _allocate_buffer := (Vector._allocate_buffer junk sizeof_T).
Local Abbreviation reserve := (Vector.reserve junk sizeof_T).
Local Abbreviation resize := (Vector.resize T0 junk sizeof_T).
Local Abbreviation push_back := (Vector.push_back T0 junk sizeof_T).

(** a request for [size] objects whose byte count fits [size_type] *)
Lemma allocate_buffer_run v size h :
  allocator_ v <> nullptr -> 0 <= size -> sizeof_T * size < 2 ^ 32 ->
  _allocate_buffer v size h
  = Val (fresh ({[nullptr]} ∪ dom h),
         <[fresh ({[nullptr]} ∪ dom h) := replicate (Z.to_nat size) junk]> h).
Proof using Hsizeof.
  intros Ha Hsize Hb. unfold Vector._allocate_buffer.
  rewrite decide_False by done. cbv zeta.
  rewrite vec_wrap_small by nia.
  by rewrite Z.mul_comm, Z.div_mul by lia.
Qed.

Lemma vec_fresh_facts h :
  fresh ({[nullptr]} ∪ dom h) <> nullptr /\
  h !! fresh ({[nullptr]} ∪ dom h) = None.
Proof.
  clear Hsizeof.
  pose proof (is_fresh ({[nullptr]} ∪ dom h)) as Hf. split.
  - intros E. apply Hf. rewrite E. set_solver.
  - apply not_elem_of_dom. set_solver.
Qed.

(** [reserve] on a vector without buffer *)
Lemma reserve_first_run v h size :
  allocator_ v <> nullptr -> buffer_ v = nullptr ->
  buffer_size_ v < size -> 0 < size -> sizeof_T * size < 2 ^ 32 ->
  reserve v size h
  = Val (mk_vector (fresh ({[nullptr]} ∪ dom h)) (allocator_ v) size (size_ v),
         <[fresh ({[nullptr]} ∪ dom h) := replicate (Z.to_nat size) junk]> h).
Proof using Hsizeof.
  intros Ha Hb Hlt Hpos Hbound. unfold Vector.reserve.
  rewrite decide_False by lia. rewrite decide_True by done.
  rewrite vec_bind_assoc.
  rewrite (vec_bind_val _ _ _ _ _
             (allocate_buffer_run v size h Ha ltac:(lia) Hbound)).
  destruct (vec_fresh_facts h) as [Hf _].
  rewrite decide_False by done.
  rewrite decide_False by (intros H; by apply H).
  done.
Qed.

(** [reserve] that moves to a larger buffer: [size_] elements are moved *)
Lemma reserve_move_run v h blk k size :
  allocator_ v <> nullptr -> buffer_ v <> nullptr ->
  h !! buffer_ v = Some blk -> size_ v = Z.of_nat k ->
  (k <= length blk)%nat -> (k <= Z.to_nat size)%nat ->
  buffer_size_ v < size -> 0 < size -> sizeof_T * size < 2 ^ 32 ->
  reserve v size h
  = Val (mk_vector (fresh ({[nullptr]} ∪ dom h)) (allocator_ v) size (size_ v),
         <[fresh ({[nullptr]} ∪ dom h) :=
             take k blk ++ replicate (Z.to_nat size - k) junk]>
           (delete (buffer_ v) h)).
Proof using Hsizeof.
  intros Ha Hb Hblk Hk Hkb Hks Hlt Hpos Hbound. unfold Vector.reserve.
  rewrite decide_False by lia. rewrite decide_True by done.
  destruct (vec_fresh_facts h) as [Hf Hfn].
  set (p := fresh ({[nullptr]} ∪ dom h)) in *.
  assert (Hne : buffer_ v <> p).
  { intros E. rewrite E in Hblk. congruence. }
  rewrite vec_bind_assoc.
  rewrite (vec_bind_val _ _ _ _ _
             (allocate_buffer_run v size h Ha ltac:(lia) Hbound)).
  fold p. rewrite decide_False by done. rewrite decide_True by done.
  unfold for_loop. replace (Z.to_nat (size_ v - 0)) with k by lia.
  rewrite !vec_bind_assoc.
  set (h1 := <[p := replicate (Z.to_nat size) junk]> h).
  assert (H1 : h1 !! buffer_ v = Some blk).
  { unfold h1. by rewrite lookup_insert_ne. }
  assert (H2 : h1 !! p = Some (replicate (Z.to_nat size) junk)).
  { unfold h1. by rewrite lookup_insert_eq. }
  assert (H3 : (k <= length (replicate (Z.to_nat size) junk))%nat).
  { by rewrite length_replicate. }
  rewrite (vec_bind_val _ _ _ _ _
             (copy_range_run (buffer_ v) p blk k _ h1 H1 H2 Hne Hkb H3)).
  unfold Vector._free_buffer at 1. unfold Vector.bind at 1.
  rewrite decide_False by done.
  rewrite lookup_insert_ne, H1 by done.
  unfold Vector.bind, Vector.ret, with_buffer, with_buffer_size, h1.
  cbn [buffer_ allocator_ buffer_size_ size_].
  rewrite insert_insert_eq, delete_insert_ne by done.
  by rewrite drop_replicate.
Qed.

(** [reserve] that moves more elements than the old buffer has room for *)
Lemma reserve_overread v h blk k size :
  allocator_ v <> nullptr -> buffer_ v <> nullptr ->
  h !! buffer_ v = Some blk -> size_ v = Z.of_nat k ->
  (length blk < k)%nat ->
  buffer_size_ v < size -> 0 < size -> sizeof_T * size < 2 ^ 32 ->
  reserve v size h = Exn BadAccess.
Proof using Hsizeof.
  intros Ha Hb Hblk Hk Hkb Hlt Hpos Hbound. unfold Vector.reserve.
  rewrite decide_False by lia. rewrite decide_True by done.
  destruct (vec_fresh_facts h) as [Hf Hfn].
  set (p := fresh ({[nullptr]} ∪ dom h)) in *.
  assert (Hne : buffer_ v <> p).
  { intros E. rewrite E in Hblk. congruence. }
  rewrite vec_bind_assoc.
  rewrite (vec_bind_val _ _ _ _ _
             (allocate_buffer_run v size h Ha ltac:(lia) Hbound)).
  fold p. rewrite decide_False by done. rewrite decide_True by done.
  unfold for_loop. replace (Z.to_nat (size_ v - 0)) with k by lia.
  apply vec_bind_exn, vec_bind_exn, vec_bind_exn.
  apply (copy_range_overread (buffer_ v) p blk k 0%nat);
    [by rewrite lookup_insert_ne|done|lia|lia].
Qed.

Lemma vec_quarter N : 0 <= N -> Z.shiftr N 2 = N / 4.
Proof. intros. by rewrite Z.shiftr_div_pow2. Qed.

Lemma vec_bound N :
  0 <= N -> sizeof_T * (N + N / 4) < 2 ^ 32 ->
  0 <= N + N / 4 < 2 ^ 32 /\ 0 <= N < 2 ^ 32 /\ N <= N + N / 4.
Proof using Hsizeof.
  intros HN Hb. assert (Hq : 0 <= N / 4) by (apply Z.div_pos; lia).
  assert (N + N / 4 <= sizeof_T * (N + N / 4)) by nia. lia.
Qed.

(** [resize(N)] on a fresh vector, [N] positive: one buffer of
    [N + N / 4] objects, the first [N] value-initialised *)
Lemma resize_fresh_run alloc h0 n :
  alloc <> nullptr -> (1 <= n)%nat ->
  sizeof_T * (Z.of_nat n + Z.of_nat n / 4) < 2 ^ 32 ->
  resize (construct alloc) (Z.of_nat n) h0
  = Val (mk_vector (fresh ({[nullptr]} ∪ dom h0)) alloc
           (Z.of_nat n + Z.of_nat n / 4) (Z.of_nat n),
         <[fresh ({[nullptr]} ∪ dom h0) :=
             replicate n T0 ++ replicate (Z.to_nat (Z.of_nat n / 4)) junk]> h0).
Proof using Hsizeof.
  intros Ha Hn Hb.
  destruct (vec_bound (Z.of_nat n) ltac:(vlia) Hb) as (Hc & HN & Hle).
  unfold Vector.resize, construct. cbn [size_ with_size buffer_ allocator_
    buffer_size_].
  rewrite decide_False by vlia.
  rewrite vec_quarter by vlia. rewrite vec_wrap_small by done.
  rewrite (vec_bind_val _ _ _ _ _
             (reserve_first_run (mk_vector nullptr alloc 0 (Z.of_nat n)) h0
                (Z.of_nat n + Z.of_nat n / 4)
                Ha eq_refl ltac:(cbn; vlia) ltac:(vlia) Hb)).
  cbn [buffer_ allocator_ size_].
  set (p := fresh ({[nullptr]} ∪ dom h0)).
  unfold for_loop. rewrite Z.sub_0_r, Nat2Z.id.
  assert (Hq : 0 <= Z.of_nat n / 4) by (apply Z.div_pos; vlia).
  set (blk := replicate (Z.to_nat (Z.of_nat n + Z.of_nat n / 4)) junk).
  assert (H1 : <[p := blk]> h0 !! p = Some blk) by (by rewrite lookup_insert_eq).
  assert (H2 : (0 + n <= length blk)%nat).
  { unfold blk. rewrite length_replicate. vlia. }
  rewrite (vec_bind_val _ _ _ _ _ (fill_range_run p 0 n blk _ H1 H2)).
  unfold blk.
  unfold Vector.ret. rewrite insert_insert_eq, take_0. cbn [app].
  rewrite Nat.add_0_l, drop_replicate. repeat f_equal. vlia.
Qed.

(** [push_back] that moves to a new buffer, with room left in the old one *)
Lemma push_back_move_run v h0 l rest d :
  allocator_ v <> nullptr -> buffer_ v <> nullptr ->
  h0 !! buffer_ v = None ->
  size_ v = Z.of_nat (length l) ->
  (length l < length (l ++ rest))%nat ->
  buffer_size_ v
    < Z.of_nat (length l) + 1 + (Z.of_nat (length l) + 1) / 4 ->
  sizeof_T * (Z.of_nat (length l) + 1 + (Z.of_nat (length l) + 1) / 4)
    < 2 ^ 32 ->
  push_back v d (<[buffer_ v := l ++ rest]> h0)
  = Val (mk_vector (fresh ({[nullptr]} ∪ dom (<[buffer_ v := l ++ rest]> h0)))
           (allocator_ v)
           (Z.of_nat (length l) + 1 + (Z.of_nat (length l) + 1) / 4)
           (Z.of_nat (length l) + 1),
         <[fresh ({[nullptr]} ∪ dom (<[buffer_ v := l ++ rest]> h0)) :=
             (l ++ [d]) ++
             replicate (Z.to_nat ((Z.of_nat (length l) + 1) / 4)) junk]> h0).
Proof using Hsizeof.
  intros Ha Hb Hfr Hsz Hroom Hcap Hbound.
  set (n := length l) in *. set (N := Z.of_nat n + 1) in *.
  set (h := <[buffer_ v := l ++ rest]> h0).
  destruct (vec_bound N ltac:(vlia) Hbound) as (Hc & HN & Hle).
  unfold Vector.push_back, Vector.resize. cbn [size_ with_size].
  rewrite Hsz. fold N. rewrite (vec_wrap_small N) by done.
  rewrite decide_False by vlia.
  rewrite vec_quarter by vlia. rewrite vec_wrap_small by done.
  rewrite !vec_bind_assoc.
  rewrite (vec_bind_val _ _ _ _ _
             (reserve_move_run
                (mk_vector (buffer_ v) (allocator_ v) (buffer_size_ v) N)
                h (l ++ rest) (S n) (N + N / 4)
                Ha Hb ltac:(by unfold h; rewrite lookup_insert_eq)
                ltac:(cbn; vlia) ltac:(vlia) ltac:(vlia) Hcap ltac:(vlia) Hbound)).
  cbn [buffer_ allocator_ size_ buffer_size_].
  destruct (vec_fresh_facts h) as [Hp Hpn].
  set (p := fresh ({[nullptr]} ∪ dom h)) in *.
  assert (Hne : buffer_ v <> p).
  { intros E. unfold h in Hpn. rewrite <- E, lookup_insert_eq in Hpn. done. }
  unfold h at 1. rewrite delete_insert_id by done.
  set (B := take (S n) (l ++ rest)
            ++ replicate (Z.to_nat (N + N / 4) - S n) junk).
  assert (HB : length B = Z.to_nat (N + N / 4)).
  { unfold B. rewrite length_app, length_take, length_replicate. lia. }
  unfold for_loop. replace (Z.to_nat (N - Z.of_nat n)) with 1%nat by vlia.
  rewrite !vec_bind_assoc.
  rewrite (vec_bind_val _ _ _ _ _
             (fill_range_run p n 1 B _ ltac:(by rewrite lookup_insert_eq)
                ltac:(vlia))).
  rewrite insert_insert_eq, vec_bind_ret. cbn [buffer_ size_].
  replace (N - 1) with (Z.of_nat n) by vlia.
  rewrite (vec_wrap_small (Z.of_nat n)) by vlia.
  assert (Htk : take n B = l).
  { unfold B. rewrite take_app_le by (rewrite length_take; vlia).
    rewrite take_take, Nat.min_l by vlia. by apply take_app_length'. }
  assert (Hdr : drop (n + 1) B = replicate (Z.to_nat (N / 4)) junk).
  { unfold B. rewrite drop_app_length' by (rewrite length_take; vlia).
    f_equal. vlia. }
  rewrite Htk, Hdr.
  set (B1 := l ++ replicate 1 T0 ++ replicate (Z.to_nat (N / 4)) junk).
  assert (H1 : <[p := B1]> h0 !! p = Some B1) by (by rewrite lookup_insert_eq).
  assert (H2 : (n < length B1)%nat).
  { unfold B1. rewrite !length_app, !length_replicate. fold n. vlia. }
  rewrite (vec_bind_val _ _ _ _ _ (vec_write_run p n B1 d _ H1 H2)).
  unfold Vector.ret. rewrite insert_insert_eq. do 3 f_equal.
  unfold B1. rewrite insert_app_r_alt by (fold n; vlia). fold n.
  rewrite Nat.sub_diag. cbn [replicate app]. by rewrite <- app_assoc.
Qed.

(** [push_back] on a full buffer: the move reads one element past the end
    of the old buffer *)
Lemma push_back_full_overread v h blk d :
  allocator_ v <> nullptr -> buffer_ v <> nullptr ->
  h !! buffer_ v = Some blk ->
  size_ v = Z.of_nat (length blk) ->
  buffer_size_ v = Z.of_nat (length blk) ->
  sizeof_T * (Z.of_nat (length blk) + 1 + (Z.of_nat (length blk) + 1) / 4)
    < 2 ^ 32 ->
  push_back v d h = Exn BadAccess.
Proof using Hsizeof.
  intros Ha Hb Hblk Hsz Hcap Hbound.
  set (n := length blk) in *. set (N := Z.of_nat n + 1) in *.
  destruct (vec_bound N ltac:(vlia) Hbound) as (Hc & HN & Hle).
  unfold Vector.push_back, Vector.resize. cbn [size_ with_size].
  rewrite Hsz. fold N. rewrite (vec_wrap_small N) by done.
  rewrite decide_False by vlia.
  rewrite vec_quarter by vlia. rewrite vec_wrap_small by done.
  apply vec_bind_exn, vec_bind_exn.
  apply (reserve_overread
           (mk_vector (buffer_ v) (allocator_ v) (buffer_size_ v) N)
           h blk (S n) (N + N / 4)); cbn [buffer_ allocator_ size_
             buffer_size_]; try done; vlia.
Qed.

Local Abbreviation push_all := (Vector.push_all T0 junk sizeof_T).
Local Abbreviation copy_construct := (Vector.copy_construct junk sizeof_T).

(** [Grown alloc h0 v h l]: beside the store [h0], vector [v] owns one live
    buffer; it holds the elements [l] and has room for a quarter more, the
    recorded capacity. *)
Record Grown (alloc : ptr) h0 v h l : Prop := {
  grown_alloc : allocator_ v = alloc;
  grown_alloc_set : alloc <> nullptr;
  grown_null : buffer_ v <> nullptr;
  grown_fresh : h0 !! buffer_ v = None;
  grown_size : size_ v = Z.of_nat (length l);
  grown_cap :
    buffer_size_ v = Z.of_nat (length l) + Z.of_nat (length l) / 4;
  grown_store :
    h = <[buffer_ v :=
            l ++ replicate (Z.to_nat (Z.of_nat (length l) / 4)) junk]> h0
}.

Lemma resize_fresh_grown alloc h0 n :
  alloc <> nullptr -> (1 <= n)%nat ->
  sizeof_T * (Z.of_nat n + Z.of_nat n / 4) < 2 ^ 32 ->
  exists v h,
    resize (construct alloc) (Z.of_nat n) h0 = Val (v, h) /\
    Grown alloc h0 v h (replicate n T0).
Proof using Hsizeof.
  intros Ha Hn Hb. eexists _, _. split; [by apply resize_fresh_run|].
  destruct (vec_fresh_facts h0) as [Hp Hpn].
  split; cbn [buffer_ allocator_ size_ buffer_size_];
    rewrite ?length_replicate; done.
Qed.

Lemma push_back_grown alloc h0 v h l d :
  Grown alloc h0 v h l -> (4 <= length l)%nat ->
  sizeof_T * (Z.of_nat (length l) + 1 + (Z.of_nat (length l) + 1) / 4)
    < 2 ^ 32 ->
  exists v' h',
    push_back v d h = Val (v', h') /\
    Grown alloc h0 v' h' (l ++ [d]) /\
    buffer_ v' <> buffer_ v /\ h' !! buffer_ v = None.
Proof using Hsizeof.
  intros [Hal Ha Hnull Hfr Hsz Hcap ->] Hn Hb.
  set (rest := replicate (Z.to_nat (Z.of_nat (length l) / 4)) junk).
  assert (Hroom : (length l < length (l ++ rest))%nat).
  { unfold rest. rewrite length_app, length_replicate. vlia. }
  assert (Hlt : buffer_size_ v
                < Z.of_nat (length l) + 1 + (Z.of_nat (length l) + 1) / 4).
  { rewrite Hcap. vlia. }
  eexists _, _. split.
  { apply (push_back_move_run v h0 l rest d); try done. by rewrite Hal. }
  destruct (vec_fresh_facts (<[buffer_ v := l ++ rest]> h0)) as [Hp Hpn].
  set (p := fresh ({[nullptr]} ∪ dom (<[buffer_ v := l ++ rest]> h0))) in *.
  assert (Hne : p <> buffer_ v).
  { intros E. rewrite E, lookup_insert_eq in Hpn. done. }
  rewrite lookup_insert_ne in Hpn by done.
  split_and!; [|done|by rewrite lookup_insert_ne].
  split; cbn [buffer_ allocator_ size_ buffer_size_];
    rewrite ?length_app; cbn [length]; try done.
  - vlia.
  - f_equal; f_equal; vlia.
  - do 3 f_equal. vlia.
Qed.

Lemma push_all_grown alloc h0 : forall ds v h l,
  Grown alloc h0 v h l -> (4 <= length l)%nat ->
  sizeof_T * (Z.of_nat (length l + length ds)
              + Z.of_nat (length l + length ds) / 4) < 2 ^ 32 ->
  exists v' h',
    push_all v ds h = Val (v', h') /\ Grown alloc h0 v' h' (l ++ ds).
Proof using Hsizeof.
  induction ds as [|d ds IH]; intros v h l Hg Hn Hb.
  - exists v, h. by rewrite app_nil_r.
  - cbn [length] in Hb.
    assert (Hb1 : sizeof_T * (Z.of_nat (length l) + 1
                              + (Z.of_nat (length l) + 1) / 4) < 2 ^ 32).
    { eapply Z.le_lt_trans; [|exact Hb].
      apply Z.mul_le_mono_nonneg_l; vlia. }
    destruct (push_back_grown alloc h0 v h l d Hg Hn Hb1)
      as (v1 & h1 & Hrun & Hg1 & _).
    destruct (IH v1 h1 (l ++ [d]) Hg1) as (v' & h' & Hrun' & Hg').
    + rewrite length_app. cbn. vlia.
    + rewrite length_app. cbn [length].
      by replace (length l + 1 + length ds)%nat
        with (length l + S (length ds))%nat by vlia.
    + exists v', h'. rewrite <- app_assoc in Hg'. split; [|done].
      cbn [Vector.push_all]. by rewrite (vec_bind_val _ _ _ _ _ Hrun).
Qed.

(** reading a vector that owns its buffer *)
Lemma at_grown alloc h0 v h l i x :
  Grown alloc h0 v h l -> l !! i = Some x ->
  at_ v (Z.of_nat i) h = Val (x, h).
Proof.
  clear Hsizeof.
  intros [Hal Ha Hnull Hfr Hsz Hcap ->] Hx.
  pose proof (lookup_lt_Some _ _ _ Hx) as Hi.
  unfold at_. rewrite Hsz.
  replace (0 <=? Z.of_nat i) with true by (symmetry; apply Z.leb_le; lia).
  replace (Z.of_nat i <? Z.of_nat (length l)) with true
    by (symmetry; apply Z.ltb_lt; lia).
  cbn [andb negb].
  eapply vec_read_run; [by rewrite lookup_insert_eq|].
  by apply lookup_app_l_Some.
Qed.

Lemma at_out_of_range v i h :
  size_ v <= i -> at_ v i h = Exn (RangeError "index out of range").
Proof.
  clear Hsizeof.
  intros Hi. unfold at_.
  replace (i <? size_ v) with false by (symmetry; apply Z.ltb_ge; lia).
  by rewrite andb_false_r.
Qed.

Lemma back_grown alloc h0 v h l x :
  Grown alloc h0 v h (l ++ [x]) ->
  sizeof_T * (Z.of_nat (length (l ++ [x]))
              + Z.of_nat (length (l ++ [x])) / 4) < 2 ^ 32 ->
  back v h = Val (x, h).
Proof using Hsizeof.
  intros Hg Hb. pose proof Hg as [Hal Ha Hnull Hfr Hsz Hcap Hst].
  destruct (vec_bound (Z.of_nat (length (l ++ [x]))) ltac:(lia) Hb)
    as (_ & HN & _).
  rewrite length_app in *. cbn [length] in *.
  unfold back. rewrite decide_False by lia. rewrite Hsz.
  replace (Z.of_nat (length l + 1) - 1) with (Z.of_nat (length l)) by lia.
  rewrite vec_wrap_small by lia.
  rewrite Hst. eapply vec_read_run; [by rewrite lookup_insert_eq|].
  apply lookup_app_l_Some. by apply list_lookup_middle.
Qed.

(** the destructor of a vector that owns its buffer restores the store *)
Lemma destruct_grown alloc h0 v h l :
  Grown alloc h0 v h l ->
  destruct_ v h = Val (mk_vector nullptr alloc 0 0, h0).
Proof.
  clear Hsizeof.
  intros [Hal Ha Hnull Hfr Hsz Hcap ->].
  unfold destruct_, _clean, clear. rewrite !vec_bind_assoc.
  unfold for_loop.
  rewrite (vec_bind_val _ _ _ _ _ (destroy_range_run _ _ _ _)).
  rewrite vec_bind_ret. cbn [buffer_ with_size].
  rewrite decide_True by done. rewrite !vec_bind_assoc.
  unfold _free_buffer at 1, Vector.bind at 1, with_size.
  cbn [allocator_].
  rewrite decide_False by (by rewrite Hal).
  rewrite lookup_insert_eq, delete_insert_id by done.
  unfold Vector.bind, Vector.ret, with_buffer_size, with_buffer.
  cbn [buffer_ allocator_ size_ buffer_size_]. by rewrite Hal.
Qed.

Lemma clean_no_buffer a c h :
  _clean (mk_vector nullptr a c 0) h = Val (mk_vector nullptr a 0 0, h).
Proof. clear Hsizeof. reflexivity. Qed.

(** the copy constructor on a vector that owns its buffer *)
Lemma copy_construct_grown alloc h0 v h l :
  Grown alloc h0 v h l -> (4 <= length l)%nat ->
  sizeof_T * (Z.of_nat (length l) + Z.of_nat (length l) / 4) < 2 ^ 32 ->
  exists w h',
    copy_construct v h = Val (w, h') /\ Grown alloc h w h' l /\
    buffer_ w <> buffer_ v.
Proof using Hsizeof.
  intros Hg Hn Hb. pose proof Hg as [Hal Ha Hnull Hfr Hsz Hcap Hst].
  destruct (vec_bound (Z.of_nat (length l)) ltac:(lia) Hb) as (Hc & HN & Hle).
  set (n := length l) in *.
  set (blk := l ++ replicate (Z.to_nat (Z.of_nat n / 4)) junk) in *.
  assert (Hblk : h !! buffer_ v = Some blk).
  { by rewrite Hst, lookup_insert_eq. }
  destruct (vec_fresh_facts h) as [Hp Hpn].
  set (p := fresh ({[nullptr]} ∪ dom h)) in *.
  assert (Hne : buffer_ v <> p).
  { intros E. rewrite E in Hblk. congruence. }
  set (nblk := replicate (Z.to_nat (Z.of_nat n + Z.of_nat n / 4)) junk).
  exists (mk_vector p alloc (Z.of_nat n + Z.of_nat n / 4) (Z.of_nat n)),
    (<[p := l ++ replicate (Z.to_nat (Z.of_nat n / 4)) junk]> h).
  split_and!; [|split; cbn [buffer_ allocator_ size_ buffer_size_]; done|done].
  unfold Vector.copy_construct, _set_by_copy.
  rewrite (vec_bind_val _ _ _ _ _ (clean_no_buffer nullptr 0 h)).
  cbn [buffer_ allocator_ buffer_size_ size_].
  rewrite decide_True by vlia. rewrite !vec_bind_assoc.
  assert (A1 : allocator_ (mk_vector nullptr (allocator_ v) (buffer_size_ v) 0)
               <> nullptr) by (cbn; by rewrite Hal).
  assert (A2 : 0 <= buffer_size_ v) by (rewrite Hcap; vlia).
  assert (A3 : sizeof_T * buffer_size_ v < 2 ^ 32) by (by rewrite Hcap).
  rewrite (vec_bind_val _ _ _ _ _
             (allocate_buffer_run
                (mk_vector nullptr (allocator_ v) (buffer_size_ v) 0)
                (buffer_size_ v) h A1 A2 A3)).
  fold p. rewrite decide_False by done. rewrite !vec_bind_ret.
  cbn [buffer_ allocator_ buffer_size_ size_ with_buffer with_size].
  unfold for_loop, with_size, with_buffer.
  cbn [buffer_ allocator_ buffer_size_ size_].
  rewrite Hcap, Hsz, Z.sub_0_r, Nat2Z.id. fold nblk.
  assert (H1 : <[p := nblk]> h !! buffer_ v = Some blk).
  { by rewrite lookup_insert_ne. }
  assert (H2 : <[p := nblk]> h !! p = Some nblk).
  { by rewrite lookup_insert_eq. }
  assert (H3 : (n <= length blk)%nat).
  { unfold blk. rewrite length_app. fold n. vlia. }
  assert (H4 : (n <= length nblk)%nat).
  { unfold nblk. rewrite length_replicate. vlia. }
  rewrite (vec_bind_val _ _ _ _ _
             (copy_range_run (buffer_ v) p blk n nblk _ H1 H2 Hne H3 H4)).
  unfold Vector.ret. rewrite insert_insert_eq, Hal. do 3 f_equal.
  unfold blk, nblk. rewrite take_app_length' by done.
  rewrite drop_replicate. do 2 f_equal. vlia.
Qed.

(** reading through [at] inside the size *)
Lemma at_block v h blk i x :
  h !! buffer_ v = Some blk -> blk !! i = Some x ->
  Z.of_nat i < size_ v ->
  at_ v (Z.of_nat i) h = Val (x, h).
Proof.
  clear Hsizeof.
  intros Hb Hx Hi. unfold at_.
  replace (0 <=? Z.of_nat i) with true by (symmetry; apply Z.leb_le; lia).
  replace (Z.of_nat i <? size_ v) with true
    by (symmetry; apply Z.ltb_lt; lia).
  cbn [andb negb]. by eapply vec_read_run.
Qed.

(** the first [push_back] on a fresh vector *)
Lemma push_back_fresh_run alloc h0 d :
  alloc <> nullptr -> sizeof_T < 2 ^ 32 ->
  push_back (construct alloc) d h0
  = Val (mk_vector (fresh ({[nullptr]} ∪ dom h0)) alloc 1 1,
         <[fresh ({[nullptr]} ∪ dom h0) := [d]]> h0).
Proof using Hsizeof.
  intros Ha Hb. unfold Vector.push_back.
  change (Vector.wrap (size_ (construct alloc) + 1)) with (Z.of_nat 1).
  rewrite (vec_bind_val _ _ _ _ _
             (resize_fresh_run alloc h0 1 Ha ltac:(lia)
                ltac:(by rewrite Z.mul_1_r))).
  cbn [buffer_ size_].
  change (Vector.wrap (Z.of_nat 1 - 1)) with (Z.of_nat 0).
  change (replicate 1 T0 ++ replicate (Z.to_nat (Z.of_nat 1 / 4)) junk)
    with [T0].
  erewrite (vec_bind_val _ _ _ _ _
              (vec_write_run _ 0 [T0] d _ ltac:(by rewrite lookup_insert_eq)
                 ltac:(cbn; lia))).
  unfold Vector.ret. by rewrite insert_insert_eq.
Qed.

(** a vector resized to [n] elements, [n] at least 4, then grown by
    [push_back] *)
Lemma build_grown alloc h0 n ds :
  alloc <> nullptr -> (4 <= n)%nat ->
  sizeof_T * (Z.of_nat (n + length ds) + Z.of_nat (n + length ds) / 4)
    < 2 ^ 32 ->
  exists v h,
    (v0 <- resize (construct alloc) (Z.of_nat n) ;; push_all v0 ds) h0
      = Val (v, h) /\
    Grown alloc h0 v h (replicate n T0 ++ ds).
Proof using Hsizeof.
  intros Ha Hn Hb.
  assert (Hb0 : sizeof_T * (Z.of_nat n + Z.of_nat n / 4) < 2 ^ 32).
  { eapply Z.le_lt_trans; [|exact Hb].
    apply Z.mul_le_mono_nonneg_l; vlia. }
  destruct (resize_fresh_grown alloc h0 n Ha ltac:(lia) Hb0)
    as (v0 & h1 & Hr & Hg0).
  destruct (push_all_grown alloc h0 ds v0 h1 (replicate n T0) Hg0)
    as (v & h & Hp & Hg).
  - by rewrite length_replicate.
  - by rewrite length_replicate.
  - exists v, h. split; [|done]. by rewrite (vec_bind_val _ _ _ _ _ Hr).
Qed.

End Runs.

(** A vector whose buffer is full with one to three elements cannot grow.
    That is the state after the first [push_back] on a fresh vector and
    after [resize(n)] with [n] up to 3: capacity equals size.  The next
    [push_back] sets [size_] first and then moves [size_] elements out of
    the old buffer, so it reads one element past its end. *)
Theorem vector_small_push_back_overreads {T : Type} (T0 junk : T)
    (sizeof_T : Z) (alloc : ptr) (h0 : gmap ptr (list T)) (n : nat) (d1 : T) :
  0 < sizeof_T -> sizeof_T * 5 < 2 ^ 32 ->
  alloc <> nullptr -> (1 <= n <= 3)%nat ->
  (exists v h,
     push_back T0 junk sizeof_T (construct alloc) d1 h0 = Val (v, h) /\
     size v = 1 /\ capacity v = 1 /\ at_ v 0 h = Val (d1, h) /\
     forall d, push_back T0 junk sizeof_T v d h = Exn BadAccess) /\
  (exists v h,
     resize T0 junk sizeof_T (construct alloc) (Z.of_nat n) h0 = Val (v, h) /\
     size v = Z.of_nat n /\ capacity v = Z.of_nat n /\
     (forall i, (i < n)%nat -> at_ v (Z.of_nat i) h = Val (T0, h)) /\
     forall d, push_back T0 junk sizeof_T v d h = Exn BadAccess).
Proof.
  intros Hs Hb Ha Hn. split.
  - eexists _, _. split; [apply push_back_fresh_run; [done|done|lia]|].
    split_and!; [done|done| |].
    + apply (at_block _ _ [d1] 0 d1); [by rewrite lookup_insert_eq|done|done].
    + intros d.
      apply (push_back_full_overread T0 junk sizeof_T Hs _ _ [d1]);
        cbn [buffer_ allocator_ size_ buffer_size_ length]; try done.
      * by destruct (vec_fresh_facts h0).
      * by rewrite lookup_insert_eq.
      * change (Z.of_nat 1 + 1 + (Z.of_nat 1 + 1) / 4) with 2. lia.
  - assert (Hq : Z.of_nat n / 4 = 0) by (apply Z.div_small; lia).
    eexists _, _. split.
    { apply resize_fresh_run; [done|done|lia|]. rewrite Hq. nia. }
    rewrite Hq. cbn [Z.to_nat replicate]. rewrite app_nil_r, Z.add_0_r.
    split_and!; [done|done| |].
    + intros i Hi. apply (at_block _ _ (replicate n T0) i T0).
      * by rewrite lookup_insert_eq.
      * by apply lookup_replicate.
      * cbn [size_]. lia.
    + intros d.
      apply (push_back_full_overread T0 junk sizeof_T Hs _ _ (replicate n T0));
        cbn [buffer_ allocator_ size_ buffer_size_];
        rewrite ?length_replicate; try done.
      * by destruct (vec_fresh_facts h0).
      * by rewrite lookup_insert_eq.
      * assert ((Z.of_nat n + 1) / 4 <= 1).
        { apply Z.div_le_upper_bound; lia. }
        nia.
Qed.

Lemma vector_small_push_back_overreads_witness :
  0 < 4 /\ 4 * 5 < 2 ^ 32 /\ 1%nat <> nullptr /\ (1 <= 2 <= 3)%nat /\
  (exists v h,
     push_back 0 7 4 (construct 1%nat) 11 (∅ : gmap ptr (list Z))
       = Val (v, h) /\
     size v = 1 /\ capacity v = 1 /\ at_ v 0 h = Val (11, h) /\
     forall d, push_back 0 7 4 v d h = Exn BadAccess) /\
  (exists v h,
     resize 0 7 4 (construct 1%nat) (Z.of_nat 2) (∅ : gmap ptr (list Z))
       = Val (v, h) /\
     size v = Z.of_nat 2 /\ capacity v = Z.of_nat 2 /\
     (forall i, (i < 2)%nat -> at_ v (Z.of_nat i) h = Val (0, h)) /\
     forall d, push_back 0 7 4 v d h = Exn BadAccess).
Proof.
  split; [lia|]. split; [done|]. split; [done|]. split; [lia|].
  apply (vector_small_push_back_overreads 0 7 4 1%nat ∅ 2 11);
    [lia|done|done|lia].
Defined.

(** A vector resized to at least four elements and then grown by
    [push_back] behaves as an array: [at] yields the value-initialised
    elements followed by the pushed payloads and throws beyond the size;
    the capacity is the size plus a quarter.  The vector owns exactly one
    buffer beside the store it started from, and its destructor restores
    that store.  Growth is never amortised: every further [push_back] moves
    all elements (and one unconstructed element, read as the unspecified
    value) to a new buffer and releases the old one. *)
Theorem vector_grows_from_four {T : Type} (T0 junk : T) (sizeof_T : Z)
    (alloc : ptr) (h0 : gmap ptr (list T)) (n : nat) (ds : list T) :
  0 < sizeof_T -> alloc <> nullptr -> (4 <= n)%nat ->
  sizeof_T * (Z.of_nat (n + length ds + 1)
              + Z.of_nat (n + length ds + 1) / 4) < 2 ^ 32 ->
  exists v h,
    (v0 <- resize T0 junk sizeof_T (construct alloc) (Z.of_nat n) ;;
     push_all T0 junk sizeof_T v0 ds) h0 = Val (v, h) /\
    size v = Z.of_nat (n + length ds) /\
    capacity v = size v + size v / 4 /\
    (forall i x, (replicate n T0 ++ ds) !! i = Some x ->
       at_ v (Z.of_nat i) h = Val (x, h)) /\
    (forall i, size v <= i ->
       at_ v i h = Exn (RangeError "index out of range")) /\
    h0 !! buffer_ v = None /\
    (exists blk, h = <[buffer_ v := blk]> h0) /\
    (forall d, exists v' h',
       push_back T0 junk sizeof_T v d h = Val (v', h') /\
       size v' = size v + 1 /\ back v' h' = Val (d, h') /\
       buffer_ v' <> buffer_ v /\ h' !! buffer_ v = None) /\
    destruct_ v h = Val (mk_vector nullptr alloc 0 0, h0).
Proof.
  intros Hs Ha Hn Hb.
  assert (Hb0 : sizeof_T * (Z.of_nat (n + length ds)
                            + Z.of_nat (n + length ds) / 4) < 2 ^ 32).
  { eapply Z.le_lt_trans; [|exact Hb].
    apply Z.mul_le_mono_nonneg_l; vlia. }
  destruct (build_grown T0 junk sizeof_T Hs alloc h0 n ds Ha Hn Hb0)
    as (v & h & Hrun & Hg).
  pose proof Hg as [Hal _ Hnull Hfr Hsz Hcap Hst].
  rewrite length_app, length_replicate in Hsz, Hcap, Hst.
  exists v, h. unfold size, capacity.
  split_and!; [done|done|by rewrite Hcap, Hsz| | |done|by eexists| |].
  - intros i x Hx. by eapply at_grown.
  - intros i Hi. by apply at_out_of_range.
  - intros d.
    destruct (push_back_grown T0 junk sizeof_T Hs alloc h0 v h _ d Hg)
      as (v' & h' & Hp & Hg' & Hne & Hold).
    + rewrite length_app, length_replicate. lia.
    + rewrite length_app, length_replicate.
      by replace (Z.of_nat (n + length ds) + 1)
        with (Z.of_nat (n + length ds + 1)) by lia.
    + exists v', h'. split_and!; [done| | |done|done].
      * destruct Hg' as [_ _ _ _ Hsz' _ _].
        rewrite Hsz', Hsz, !length_app, length_replicate. cbn [length]. lia.
      * eapply (back_grown junk sizeof_T Hs); [exact Hg'|].
        rewrite !length_app, length_replicate. cbn [length]. exact Hb.
  - by eapply destruct_grown.
Qed.

Lemma vector_grows_from_four_witness :
  0 < 4 /\ 1%nat <> nullptr /\ (4 <= 4)%nat /\
  4 * (Z.of_nat (4 + length [10; 20; 30] + 1)
       + Z.of_nat (4 + length [10; 20; 30] + 1) / 4) < 2 ^ 32 /\
  exists v h,
    (v0 <- resize 0 7 4 (construct 1%nat) (Z.of_nat 4) ;;
     push_all 0 7 4 v0 [10; 20; 30]) (∅ : gmap ptr (list Z)) = Val (v, h) /\
    size v = Z.of_nat (4 + length [10; 20; 30]) /\
    capacity v = size v + size v / 4 /\
    (forall i x, (replicate 4 0 ++ [10; 20; 30]) !! i = Some x ->
       at_ v (Z.of_nat i) h = Val (x, h)) /\
    (forall i, size v <= i ->
       at_ v i h = Exn (RangeError "index out of range")) /\
    (∅ : gmap ptr (list Z)) !! buffer_ v = None /\
    (exists blk, h = <[buffer_ v := blk]> ∅) /\
    (forall d, exists v' h',
       push_back 0 7 4 v d h = Val (v', h') /\
       size v' = size v + 1 /\ back v' h' = Val (d, h') /\
       buffer_ v' <> buffer_ v /\ h' !! buffer_ v = None) /\
    destruct_ v h = Val (mk_vector nullptr 1%nat 0 0, ∅).
Proof.
  split; [lia|]. split; [done|]. split; [lia|]. split; [done|].
  apply (vector_grows_from_four 0 7 4 1%nat ∅ 4 [10; 20; 30]);
    [lia|done|lia|done].
Defined.

(** The copy constructor initialises all members and takes the allocator
    of the source before it allocates: copying a vector resized to at least
    four elements and grown by [push_back] yields a vector with the same
    size, capacity, allocator and elements in a buffer of its own; the
    source and all other live buffers are unchanged, and a write through
    the copy is not seen through the source.  A fresh vector is copied
    without any allocation. *)
Theorem vector_copy_construct_deep {T : Type} (T0 junk : T) (sizeof_T : Z)
    (alloc : ptr) (h0 : gmap ptr (list T)) (n : nat) (ds : list T) :
  0 < sizeof_T -> alloc <> nullptr -> (4 <= n)%nat ->
  sizeof_T * (Z.of_nat (n + length ds) + Z.of_nat (n + length ds) / 4)
    < 2 ^ 32 ->
  (exists v h w h',
     (v0 <- resize T0 junk sizeof_T (construct alloc) (Z.of_nat n) ;;
      push_all T0 junk sizeof_T v0 ds) h0 = Val (v, h) /\
     copy_construct junk sizeof_T v h = Val (w, h') /\
     size w = size v /\ capacity w = capacity v /\
     allocator_ w = allocator_ v /\
     buffer_ w <> buffer_ v /\ h !! buffer_ w = None /\
     (forall p, p <> buffer_ w -> h' !! p = h !! p) /\
     (forall i x, (replicate n T0 ++ ds) !! i = Some x ->
        at_ w (Z.of_nat i) h' = Val (x, h') /\
        at_ v (Z.of_nat i) h' = Val (x, h') /\
        forall y, exists h'',
          assign_index w (Z.of_nat i) y h' = Val (tt, h'') /\
          at_ w (Z.of_nat i) h'' = Val (y, h'') /\
          at_ v (Z.of_nat i) h'' = Val (x, h''))) /\
  copy_construct junk sizeof_T (construct alloc) h0
    = Val (construct alloc, h0).
Proof.
  intros Hs Ha Hn Hb. split; [|reflexivity].
  destruct (build_grown T0 junk sizeof_T Hs alloc h0 n ds Ha Hn Hb)
    as (v & h & Hrun & Hg).
  destruct (copy_construct_grown junk sizeof_T Hs alloc h0 v h _ Hg)
    as (w & h' & Hcp & Hgw & Hne).
  { rewrite length_app, length_replicate. lia. }
  { by rewrite length_app, length_replicate. }
  pose proof Hg as [Hal _ Hnull Hfr Hsz Hcap Hst].
  pose proof Hgw as [Halw _ Hnullw Hfrw Hszw Hcapw Hstw].
  exists v, h, w, h'. unfold size, capacity.
  split_and!; [done|done|congruence|congruence|congruence|done|done| |].
  - intros p Hp. by rewrite Hstw, lookup_insert_ne.
  - intros i x Hx.
    pose proof (lookup_lt_Some _ _ _ Hx) as Hi.
    set (l := replicate n T0 ++ ds) in *.
    set (blk := l ++ replicate (Z.to_nat (Z.of_nat (length l) / 4)) junk) in *.
    assert (Hv : h' !! buffer_ v = Some blk).
    { rewrite Hstw, lookup_insert_ne by done. by rewrite Hst, lookup_insert_eq. }
    assert (Hw : h' !! buffer_ w = Some blk).
    { by rewrite Hstw, lookup_insert_eq. }
    assert (Hbx : blk !! i = Some x) by (by apply lookup_app_l_Some).
    split_and!.
    + by eapply at_grown.
    + eapply at_block; [exact Hv|exact Hbx|lia].
    + intros y. exists (<[buffer_ w := <[i := y]> blk]> h').
      split_and!.
      * unfold assign_index. apply vec_write_run; [done|].
        by eapply lookup_lt_Some.
      * eapply at_block; [by rewrite lookup_insert_eq| |lia].
        apply list_lookup_insert_eq. by eapply lookup_lt_Some.
      * eapply at_block; [|exact Hbx|lia].
        by rewrite lookup_insert_ne.
Qed.

Lemma vector_copy_construct_deep_witness :
  0 < 4 /\ 1%nat <> nullptr /\ (4 <= 5)%nat /\
  4 * (Z.of_nat (5 + length [10; 20]) + Z.of_nat (5 + length [10; 20]) / 4)
    < 2 ^ 32 /\
  (exists v h w h',
     (v0 <- resize 0 7 4 (construct 1%nat) (Z.of_nat 5) ;;
      push_all 0 7 4 v0 [10; 20]) (∅ : gmap ptr (list Z)) = Val (v, h) /\
     copy_construct 7 4 v h = Val (w, h') /\
     size w = size v /\ capacity w = capacity v /\
     allocator_ w = allocator_ v /\
     buffer_ w <> buffer_ v /\ h !! buffer_ w = None /\
     (forall p, p <> buffer_ w -> h' !! p = h !! p) /\
     (forall i x, (replicate 5 0 ++ [10; 20]) !! i = Some x ->
        at_ w (Z.of_nat i) h' = Val (x, h') /\
        at_ v (Z.of_nat i) h' = Val (x, h') /\
        forall y, exists h'',
          assign_index w (Z.of_nat i) y h' = Val (tt, h'') /\
          at_ w (Z.of_nat i) h'' = Val (y, h'') /\
          at_ v (Z.of_nat i) h'' = Val (x, h''))) /\
  copy_construct 7 4 (construct 1%nat) (∅ : gmap ptr (list Z))
    = Val (construct 1%nat, ∅).
Proof.
  split; [lia|]. split; [done|]. split; [lia|]. split; [done|].
  apply (vector_copy_construct_deep 0 7 4 1%nat ∅ 5 [10; 20]);
    [lia|done|lia|done].
Defined.

End VectorSpec.

(** ** The pool allocator: free list, slabs and the chunks handed out *)

Module PoolSpec.
Import Pool.
Section Spec.
Local Set Default Proof Using "Type*".
Variable sizeof_node : Z.
Variable junk : Z.
Hypothesis Hsizeof : 0 < sizeof_node.
Local Abbreviation in_block := (Pool.in_block sizeof_node).
Local Abbreviation allocate := (Pool.allocate sizeof_node junk).
Local Abbreviation _allocate_buffer := (Pool._allocate_buffer sizeof_node junk).
Local Abbreviation serve := (Pool.serve sizeof_node junk).
Local Abbreviation serve_all := (Pool.serve_all sizeof_node junk).
Local Abbreviation free := (Pool.free sizeof_node).
Local Abbreviation push := (Pool.push sizeof_node).
Local Abbreviation pop := (Pool.pop sizeof_node).
Implicit Types (w : sys) (p : pool_allocator) (fl out : list Z).

(** the chain of [next] fields from [head] runs through exactly [fl] *)
Fixpoint flist w (head : Z) fl : Prop :=
  match fl with
  | [] => head = 0
  | a :: fl' =>
      head = a /\ a <> 0 /\ in_block w a = true /\
      exists nx, cells w !! a = Some nx /\ flist w nx fl'
  end.

(** length of the free list, read off the store *)
Fixpoint free_count (fuel : nat) w (head : Z) : nat :=
  match fuel with
  | O => O
  | S fuel =>
      if decide (head = 0) then O
      else match cells w !! head with
           | Some nx => S (free_count fuel w nx)
           | None => O
           end
  end.

Definition free_chunks p w : nat :=
  free_count (S (size (cells w))) w (head_ (free_list_ p)).

(** chunk addresses of the slab at [b] *)
Definition chunks_of (b n c : Z) : list Z := (fun i => b + i * c) <$> seqZ 0 n.

(** the elements of the vector [buffers_], read off its buffer *)
Definition buffers_list p w : list Z :=
  match vstore w !! Vector.buffer_ (buffers_ p) with
  | Some blk => take (Z.to_nat (Vector.size (buffers_ p))) blk
  | None => []
  end.

Definition all_chunks p w : list Z :=
  buffers_list p w ≫= (fun b => chunks_of b (num_chunks_ p) (chunk_size_ p)).

(** chunks in slabs that are not on the free list *)
Definition outstanding p w : Z :=
  Vector.size (buffers_ p) * num_chunks_ p - Z.of_nat (free_chunks p w).

Definition upd w (a v : Z) : sys :=
  mk_sys (brk w) (limit w) (blocks w) (<[a := v]> (cells w)) (vstore w).

(** the buffer the default allocator hands out next *)
Definition vbuf w : ptr := fresh ({[nullptr]} ∪ dom (vstore w)).

(** the system after the first slab, of [n] bytes, was acquired and
    recorded in [buffers_] *)
Definition grown w (n : Z) : sys :=
  mk_sys (brk w + Z.max n 1) (limit w) ((brk w, n) :: blocks w) (cells w)
         (<[vbuf w := [brk w]]> (vstore w)).

(** [buffers_] is as constructed, or holds one slab in a buffer of one
    element *)
Definition vec_inv p w : Prop :=
  buffers_ p = Vector.construct_default \/
  exists vb b,
    vb <> nullptr /\
    buffers_ p = Vector.mk_vector vb Vector.get_instance 1 1 /\
    vstore w !! vb = Some [b].

Lemma buffers_list_fresh p w :
  buffers_ p = Vector.construct_default -> buffers_list p w = [].
Proof.
  intros E. unfold buffers_list. rewrite E.
  cbn [Vector.construct_default Vector.construct Vector.buffer_ Vector.size
       Vector.size_]. by destruct (vstore w !! nullptr).
Qed.

Lemma buffers_list_one p w vb b :
  buffers_ p = Vector.mk_vector vb Vector.get_instance 1 1 ->
  vstore w !! vb = Some [b] -> buffers_list p w = [b].
Proof.
  intros E Hb. unfold buffers_list. rewrite E.
  cbn [Vector.buffer_ Vector.size Vector.size_]. by rewrite Hb.
Qed.

Lemma all_chunks_fresh p w :
  buffers_ p = Vector.construct_default -> all_chunks p w = [].
Proof. intros E. unfold all_chunks. by rewrite buffers_list_fresh. Qed.

Lemma all_chunks_one p w vb b :
  buffers_ p = Vector.mk_vector vb Vector.get_instance 1 1 ->
  vstore w !! vb = Some [b] ->
  all_chunks p w = chunks_of b (num_chunks_ p) (chunk_size_ p).
Proof.
  intros E Hb. unfold all_chunks. rewrite (buffers_list_one _ _ _ _ E Hb).
  cbn. by rewrite app_nil_r.
Qed.

Lemma vbuf_facts w : vbuf w <> nullptr /\ vstore w !! vbuf w = None.
Proof. apply VectorSpec.vec_fresh_facts. Qed.

Lemma flist_upd w a v : forall fl h,
  a ∉ fl -> flist w h fl -> flist (upd w a v) h fl.
Proof.
  induction fl as [|x fl IH]; intros h Hin; [done|].
  intros (-> & Hne & Hb & nx & Hc & Hfl).
  apply not_elem_of_cons in Hin as [Hax Hin].
  split_and!; [done..|]. exists nx. split; [|by apply IH].
  cbn [upd cells]. by rewrite lookup_insert_ne.
Qed.

Lemma in_block_grown w n a : in_block w a = true -> in_block (grown w n) a = true.
Proof.
  unfold Pool.in_block. cbn [grown blocks existsb]. intros ->.
  by rewrite orb_true_r.
Qed.

Lemma flist_grown w n : forall fl h, flist w h fl -> flist (grown w n) h fl.
Proof.
  induction fl as [|x fl IH]; intros h; [done|].
  intros (-> & Hne & Hb & nx & Hc & Hfl).
  split_and!; [done..|by apply in_block_grown|]. exists nx.
  split; [done|by apply IH].
Qed.

Lemma flist_push w h fl a :
  a <> 0 -> in_block w a = true -> a ∉ fl -> flist w h fl ->
  flist (upd w a h) a (a :: fl).
Proof.
  intros Hne Hb Hin Hfl. split_and!; [done..|]. exists h.
  split; [apply lookup_insert_eq|by apply flist_upd].
Qed.

Lemma push_run w h a :
  in_block w a = true -> push (mk_stack h) a w = Done (mk_stack a, upd w a h).
Proof.
  intros Hb. unfold Pool.push, pbind, set_next. cbn [head_]. by rewrite Hb.
Qed.

Lemma pop_cons w h a fl :
  flist w h (a :: fl) ->
  exists nx, pop (mk_stack h) w = Done ((a, mk_stack nx), w) /\ flist w nx fl.
Proof.
  intros (-> & Hne & Hb & nx & Hc & Hfl). exists nx. split; [|done].
  unfold Pool.pop, pbind, get_next. cbn [head_].
  rewrite decide_True by done. by rewrite Hb, Hc.
Qed.

Lemma pop_nil w : pop (mk_stack 0) w = Done ((0, mk_stack 0), w).
Proof. unfold Pool.pop. cbn [head_]. by rewrite decide_False by lia. Qed.

Lemma flist_dom w : forall fl h a,
  flist w h fl -> a ∈ fl -> a ∈ dom (cells w).
Proof.
  induction fl as [|x fl IH]; intros h a; [set_solver|].
  intros (-> & Hne & Hb & nx & Hc & Hfl) [->|Hin]%elem_of_cons.
  - by apply elem_of_dom_2 in Hc.
  - by eapply IH.
Qed.

Lemma free_count_flist w : forall fl h fuel,
  flist w h fl -> (length fl < fuel)%nat -> free_count fuel w h = length fl.
Proof.
  induction fl as [|x fl IH]; intros h fuel Hfl Hf;
    (destruct fuel as [|fuel]; [simpl in Hf; lia|]); cbn [free_count length].
  - simpl in Hfl. by rewrite decide_True.
  - destruct Hfl as (-> & Hne & Hb & nx & Hc & Hfl).
    rewrite decide_False by done. rewrite Hc. f_equal.
    apply IH; [done|]. simpl in Hf. lia.
Qed.

Lemma free_chunks_flist p w fl :
  flist w (head_ (free_list_ p)) fl -> NoDup fl ->
  free_chunks p w = length fl.
Proof.
  intros Hfl Hnd. unfold free_chunks. apply free_count_flist; [done|].
  assert (length fl <= size (cells w))%nat; [|lia].
  rewrite <- size_dom, <- (size_list_to_set (C := gset Z) fl) by done.
  apply subseteq_size. intros a Ha. apply elem_of_list_to_set in Ha.
  by eapply flist_dom.
Qed.

(** the first [push_back] on [buffers_] *)
Lemma allocate_buffer_fresh n' c' (st : stack_linked_list) w :
  sizeof_node < 2 ^ 32 -> brk w <> 0 ->
  brk w + Z.max (wrap (n' * c')) 1 <= limit w ->
  _allocate_buffer (mk_pool n' c' st Vector.construct_default) w
  = Done ((brk w,
           mk_pool n' c' st
             (Vector.mk_vector (vbuf w) Vector.get_instance 1 1)),
          grown w (wrap (n' * c'))).
Proof.
  intros Hs Hb Hroom. unfold Pool._allocate_buffer, pbind, sys_new.
  cbn [num_chunks_ chunk_size_ buffers_ free_list_].
  rewrite decide_True by done. rewrite decide_False by done.
  unfold vlift. cbn [vstore]. unfold Vector.construct_default.
  rewrite (VectorSpec.push_back_fresh_run 0 junk sizeof_node Hsizeof
             Vector.get_instance (vstore w) (brk w)) by done.
  reflexivity.
Qed.

(** the second [push_back] on [buffers_] reads past the buffer of one
    element *)
Lemma allocate_buffer_overread n' c' (st : stack_linked_list) vb b w :
  2 * sizeof_node < 2 ^ 32 -> brk w <> 0 ->
  brk w + Z.max (wrap (n' * c')) 1 <= limit w ->
  vb <> nullptr -> vstore w !! vb = Some [b] ->
  _allocate_buffer
    (mk_pool n' c' st (Vector.mk_vector vb Vector.get_instance 1 1)) w
  = Fault BadAccess.
Proof.
  intros Hs Hb Hroom Hvb Hblk. unfold Pool._allocate_buffer, pbind, sys_new.
  cbn [num_chunks_ chunk_size_ buffers_ free_list_].
  rewrite decide_True by done. rewrite decide_False by done.
  unfold vlift. cbn [vstore].
  rewrite (VectorSpec.push_back_full_overread 0 junk sizeof_node Hsizeof
             _ (vstore w) [b] (brk w)); try done.
  cbn [length]. change (Z.of_nat 1 + 1 + (Z.of_nat 1 + 1) / 4) with 2. lia.
Qed.

Lemma push_back_overread p w d :
  vec_inv p w -> Vector.empty (buffers_ p) = false ->
  2 * sizeof_node < 2 ^ 32 ->
  Vector.push_back 0 junk sizeof_node (buffers_ p) d (vstore w)
  = Vector.Exn Vector.BadAccess.
Proof.
  intros [E|(vb & b & Hvb & E & Hblk)] Hne Hs; rewrite E in Hne |- *; [done|].
  rewrite (VectorSpec.push_back_full_overread 0 junk sizeof_node Hsizeof
             _ (vstore w) [b] d); try done.
  cbn [length]. change (Z.of_nat 1 + 1 + (Z.of_nat 1 + 1) / 4) with 2. lia.
Qed.

(** *** Requests of one size on a pool of [n] chunks per slab *)

Section OneSize.
Variables (n size : Z).
Hypothesis Hn : 0 < n.
Hypothesis Hsize : 0 <= size.
Hypothesis Hov : n * (sizeof_node + size) < size_type_modulus.
Local Abbreviation c := (sizeof_node + size).

Record pool_inv p w fl out : Prop := {
  pi_num : num_chunks_ p = n;
  pi_vec : vec_inv p w;
  pi_size : Vector.empty (buffers_ p) = false -> chunk_size_ p = c;
  pi_flist : flist w (head_ (free_list_ p)) fl;
  pi_perm : fl ++ ((fun q => q - sizeof_node) <$> out) ≡ₚ all_chunks p w;
  pi_nodup : NoDup (all_chunks p w);
  pi_valid : forall a, a ∈ all_chunks p w ->
               0 < a < brk w /\ in_block w a = true;
  pi_brk : 0 < brk w
}.

Lemma pool_inv_fresh w : 0 < brk w -> pool_inv (construct n) w [] [].
Proof.
  intros Hb.
  assert (E : all_chunks (construct n) w = []) by (by apply all_chunks_fresh).
  split; rewrite ?E; cbn [construct num_chunks_ buffers_ free_list_ head_
    flist]; try done.
  - by left.
  - constructor.
  - intros a Ha. by apply elem_of_nil in Ha.
Qed.

Lemma wrap_small z : 0 <= z < size_type_modulus -> wrap z = z.
Proof. intros H. unfold wrap. by apply Z.mod_small. Qed.

Lemma c_bounds : 0 < c /\ sizeof_node <= c /\ c <= n * c /\ n < size_type_modulus.
Proof. nia. Qed.

Lemma sizeof_bound : sizeof_node < 2 ^ 32.
Proof. change (2 ^ 32) with size_type_modulus. nia. Qed.

Lemma elem_of_chunks_of b k a :
  a ∈ chunks_of b k c <-> exists j, 0 <= j < k /\ a = b + j * c.
Proof.
  unfold chunks_of. rewrite list_elem_of_fmap. split.
  - intros (j & -> & Hj). apply elem_of_seqZ in Hj. exists j. split; [lia|done].
  - intros (j & Hj & ->). exists j. split; [done|]. apply elem_of_seqZ. lia.
Qed.

Lemma NoDup_chunks_of b k : NoDup (chunks_of b k c).
Proof.
  pose proof c_bounds. unfold chunks_of. apply NoDup_fmap_2_strong.
  - intros x y _ _ E. nia.
  - apply NoDup_seqZ.
Qed.

Lemma length_chunks_of b k : length (chunks_of b k c) = Z.to_nat k.
Proof. unfold chunks_of. by rewrite length_fmap, length_seqZ. Qed.

Lemma chunks_of_snoc b k :
  0 <= k -> chunks_of b (k + 1) c = chunks_of b k c ++ [b + k * c].
Proof.
  intros Hk. unfold chunks_of.
  rewrite seqZ_app by lia. rewrite fmap_app. f_equal.
Qed.

Lemma push_chunks_spec b : forall count i p w fl,
  chunk_size_ p = c ->
  0 <= i -> i + Z.of_nat count = n ->
  flist w (head_ (free_list_ p)) fl ->
  (forall j, i <= j < n ->
     in_block w (b + j * c) = true /\ b + j * c <> 0 /\ b + j * c ∉ fl) ->
  exists h w',
    _push_chunks sizeof_node count i b p w
      = Done (with_free_list (mk_stack h) p, w') /\
    flist w' h (reverse ((fun j => b + j * c) <$> seqZ i (Z.of_nat count)) ++ fl)
    /\ brk w' = brk w /\ limit w' = limit w /\ blocks w' = blocks w
    /\ vstore w' = vstore w.
Proof.
  pose proof c_bounds as Hc.
  induction count as [|count IH]; intros i p w fl Hcs Hi Hcount Hfl Hnew.
  - exists (head_ (free_list_ p)), w. split_and!; try done.
    cbn [_push_chunks]. by destruct p as [? ? [?] ?].
  - cbn [_push_chunks]. rewrite Hcs.
    rewrite (wrap_small (i * c)) by nia.
    rewrite (wrap_small (i + 1)) by lia.
    destruct (Hnew i) as (Hb & Hne & Hin); [lia|].
    unfold pbind. destruct p as [n' c' [h0] bufs]. cbn [free_list_ head_] in *.
    rewrite push_run by done.
    destruct (IH (i + 1) (with_free_list (mk_stack (b + i * c))
                            (mk_pool n' c' (mk_stack h0) bufs))
                 (upd w (b + i * c) h0) ((b + i * c) :: fl))
      as (h & w' & Hrun & Hfl' & Hbrk & Hlim & Hblk & Hvs).
    + done.
    + lia.
    + lia.
    + by apply flist_push.
    + intros j Hj. destruct (Hnew j) as (Hb' & Hne' & Hin'); [lia|].
      split_and!; [done..|]. apply not_elem_of_cons. split; [nia|done].
    + exists h, w'. split_and!; try done.
      replace (Z.of_nat (S count)) with (Z.succ (Z.of_nat count)) by lia.
      rewrite seqZ_cons by lia. rewrite fmap_cons, reverse_cons, <- app_assoc.
      replace (Z.pred (Z.succ (Z.of_nat count))) with (Z.of_nat count) by lia.
      exact Hfl'.
Qed.

Lemma allocate_pop p w a fl out :
  pool_inv p w (a :: fl) out ->
  exists p',
    allocate p size w = Done ((a + sizeof_node, p'), w) /\
    buffers_ p' = buffers_ p /\
    pool_inv p' w fl ((a + sizeof_node) :: out).
Proof.
  intros [Hnum Hvec Hcs Hfl Hperm Hnd Hval Hbrk].
  destruct p as [n' c' [h] bufs]. cbn [free_list_ head_ num_chunks_ buffers_
    chunk_size_] in *.
  destruct (pop_cons _ _ _ _ Hfl) as (nx & Hpop & Hfl').
  assert (Ha : a <> 0) by (by destruct Hfl as (_ & ? & _)).
  eexists. split_and!.
  - unfold Pool.allocate, pbind. cbn [free_list_]. rewrite Hpop.
    cbn [fst snd]. rewrite decide_False by done. reflexivity.
  - done.
  - split; cbn [with_free_list free_list_ head_ num_chunks_ buffers_
      chunk_size_]; try done.
    change (all_chunks (mk_pool n' c' (mk_stack nx) bufs) w)
      with (all_chunks (mk_pool n' c' (mk_stack h) bufs) w).
    rewrite fmap_cons. replace (a + sizeof_node - sizeof_node) with a by lia.
    rewrite <- Permutation_middle. exact Hperm.
Qed.

(** the first request on a pool: the slab is acquired at the break and
    recorded in a buffer of one element *)
Lemma allocate_slab p w out :
  pool_inv p w [] out ->
  buffers_ p = Vector.construct_default ->
  brk w + n * c <= limit w ->
  exists p' w',
    allocate p size w
      = Done ((brk w + (n - 1) * c + sizeof_node, p'), w') /\
    buffers_ p' = Vector.mk_vector (vbuf w) Vector.get_instance 1 1 /\
    chunk_size_ p' = c /\
    brk w' = brk w + n * c /\ limit w' = limit w /\
    blocks w' = (brk w, n * c) :: blocks w /\
    vstore w' = <[vbuf w := [brk w]]> (vstore w) /\
    pool_inv p' w' (reverse (chunks_of (brk w) (n - 1) c))
             ((brk w + (n - 1) * c + sizeof_node) :: out).
Proof.
  pose proof c_bounds as Hc. pose proof sizeof_bound as Hsb.
  intros [Hnum Hvec Hcs Hfl Hperm Hnd Hval Hbrk] Hfresh Hroom.
  destruct p as [n' c' [h] bufs]. cbn [free_list_ head_ num_chunks_ buffers_
    chunk_size_ flist] in *. subst n' h bufs.
  rewrite all_chunks_fresh in Hperm by done.
  assert (Hout : out = []).
  { apply Permutation_nil_r in Hperm. cbn [app] in Hperm.
    by apply fmap_nil_inv in Hperm. }
  subst out.
  set (b := brk w) in *. set (w1 := grown w (n * c)).
  set (v1 := Vector.mk_vector (vbuf w) Vector.get_instance 1 1).
  destruct (push_chunks_spec b (Z.to_nat n) 0
              (mk_pool n c (mk_stack 0) v1) w1 [])
    as (h & w2 & Hrun & Hfl2 & Hbrk2 & Hlim2 & Hblk2 & Hvs2).
  { done. }
  { lia. }
  { lia. }
  { done. }
  { intros j Hj. split_and!.
    - unfold Pool.in_block, w1. cbn [grown blocks existsb fst snd].
      apply orb_true_intro. left. apply andb_true_intro.
      split; [apply Z.leb_le|apply Z.leb_le]; fold b; nia.
    - nia.
    - apply not_elem_of_nil. }
  rewrite Z2Nat.id, app_nil_r in Hfl2 by lia.
  fold (chunks_of b n c) in Hfl2.
  replace n with (n - 1 + 1) in Hfl2 at 1 by lia.
  rewrite chunks_of_snoc, reverse_app in Hfl2 by lia.
  cbn [reverse app] in Hfl2. rewrite reverse_singleton in Hfl2.
  cbn [app] in Hfl2.
  destruct (pop_cons _ _ _ _ Hfl2) as (nx & Hpop & Hfl3).
  assert (Hall : forall h', all_chunks (mk_pool n c h' v1) w2 = chunks_of b n c).
  { intros h'. rewrite (all_chunks_one _ _ (vbuf w) b); [done|done|].
    rewrite Hvs2. unfold w1. cbn [grown vstore]. apply lookup_insert_eq. }
  exists (mk_pool n c (mk_stack nx) v1), w2. split_and!.
  - unfold Pool.allocate, pbind. cbn [free_list_]. rewrite pop_nil.
    cbn [fst snd]. rewrite decide_True by done.
    cbn [with_free_list buffers_ num_chunks_ chunk_size_ free_list_].
    change (Vector.empty Vector.construct_default) with true.
    unfold with_chunk_size, with_free_list.
    cbn [buffers_ num_chunks_ chunk_size_ free_list_].
    rewrite (wrap_small c) by lia.
    rewrite allocate_buffer_fresh;
      [|done|fold b; lia|rewrite (wrap_small (n * c)) by lia; fold b; lia].
    rewrite (wrap_small (n * c)) by lia.
    fold w1. fold b. fold v1. cbn [fst snd num_chunks_].
    rewrite Hrun. unfold with_free_list.
    cbn [free_list_ num_chunks_ chunk_size_ buffers_]. rewrite Hpop. done.
  - done.
  - done.
  - rewrite Hbrk2. unfold w1. cbn [grown brk]. fold b. lia.
  - rewrite Hlim2. done.
  - rewrite Hblk2. done.
  - rewrite Hvs2. done.
  - split; cbn [free_list_ head_ num_chunks_ buffers_ chunk_size_];
      rewrite ?Hall; try done.
    + right. exists (vbuf w), b. split_and!; [apply vbuf_facts|done|].
      rewrite Hvs2. unfold w1. cbn [grown vstore]. apply lookup_insert_eq.
    + replace (chunks_of b n c) with (chunks_of b (n - 1 + 1) c)
        by (f_equal; lia).
      rewrite chunks_of_snoc by lia. cbn [app fmap list_fmap].
      replace (b + (n - 1) * c + sizeof_node - sizeof_node)
        with (b + (n - 1) * c) by lia.
      rewrite reverse_Permutation. solve_Permutation.
    + apply NoDup_chunks_of.
    + intros a Ha. rewrite Hbrk2.
      apply elem_of_chunks_of in Ha as (j & Hj & ->). split.
      * unfold w1. cbn [grown brk]. fold b. nia.
      * unfold Pool.in_block. rewrite Hblk2. unfold w1.
        cbn [grown blocks existsb fst snd].
        apply orb_true_intro. left. apply andb_true_intro.
        split; apply Z.leb_le; fold b; nia.
    + rewrite Hbrk2. unfold w1. cbn [grown brk]. lia.
Qed.

(** a request that finds the free list of a pool with a slab empty: the
    second slab is acquired, and recording it in [buffers_] reads past the
    buffer of the vector *)
Lemma allocate_overread p w out :
  pool_inv p w [] out ->
  Vector.empty (buffers_ p) = false ->
  2 * sizeof_node < 2 ^ 32 ->
  brk w + n * c <= limit w ->
  allocate p size w = Fault BadAccess.
Proof.
  pose proof c_bounds as Hc.
  intros [Hnum Hvec Hcs Hfl Hperm Hnd Hval Hbrk] Hne Hs2 Hroom.
  destruct p as [n' c' [h] bufs]. cbn [free_list_ head_ num_chunks_ buffers_
    chunk_size_ flist] in *. subst n' h. rewrite Hcs by done.
  destruct Hvec as [E|(vb & b & Hvb & E & Hblk)];
    cbn [buffers_] in E; subst bufs; [done|].
  unfold Pool.allocate, pbind. cbn [free_list_]. rewrite pop_nil.
  cbn [fst snd]. rewrite decide_True by done.
  cbn [with_free_list buffers_ num_chunks_ chunk_size_ free_list_].
  change (Vector.empty (Vector.mk_vector vb Vector.get_instance 1 1))
    with false.
  unfold with_free_list.
  cbn [buffers_ num_chunks_ chunk_size_ free_list_].
  rewrite (allocate_buffer_overread _ _ _ vb b); try done; [lia|].
  rewrite (wrap_small (n * c)) by lia. lia.
Qed.

Lemma free_spec p w fl out i q :
  pool_inv p w fl out ->
  out !! i = Some q ->
  exists p',
    free p q w = Done (p', upd w (q - sizeof_node) (head_ (free_list_ p))) /\
    buffers_ p' = buffers_ p /\
    pool_inv p' (upd w (q - sizeof_node) (head_ (free_list_ p)))
             ((q - sizeof_node) :: fl) (delete i out).
Proof.
  intros [Hnum Hvec Hcs Hfl Hperm Hnd Hval Hbrk] Hq.
  destruct p as [n' c' [h] bufs]. cbn [free_list_ head_ num_chunks_ buffers_
    chunk_size_] in *.
  pose proof (delete_Permutation _ _ _ Hq) as Hout.
  assert (Hperm' : (q - sizeof_node) :: fl ++
            ((fun q => q - sizeof_node) <$> delete i out)
            ≡ₚ all_chunks (mk_pool n' c' (mk_stack h) bufs) w).
  { rewrite <- Hperm, Permutation_middle. f_equiv.
    apply (fmap_Permutation (fun q => q - sizeof_node) (q :: delete i out)).
    by symmetry. }
  assert (Hnd' : NoDup ((q - sizeof_node) :: fl ++
            ((fun q => q - sizeof_node) <$> delete i out))).
  { by rewrite Hperm'. }
  apply NoDup_cons in Hnd' as [Hnin _].
  apply not_elem_of_app in Hnin as [Hnin _].
  assert (Hin : q - sizeof_node ∈ all_chunks (mk_pool n' c' (mk_stack h) bufs) w).
  { rewrite <- Hperm'. by left. }
  destruct (Hval _ Hin) as [Hpos Hblk].
  eexists. split_and!.
  - unfold Pool.free, pbind. cbn [free_list_]. rewrite push_run by done.
    reflexivity.
  - done.
  - split; cbn [with_free_list free_list_ head_ num_chunks_ buffers_
      chunk_size_]; try done.
    + apply flist_push; [lia|done..].
Qed.

(** the chunks outstanding are the blocks the client holds *)
Lemma length_all_chunks p w :
  length (all_chunks p w)
  = (length (buffers_list p w) * Z.to_nat (num_chunks_ p))%nat.
Proof.
  unfold all_chunks. induction (buffers_list p w) as [|b bufs IH]; [done|].
  cbn [mbind list_bind length]. rewrite length_app, IH.
  unfold chunks_of. rewrite length_fmap, length_seqZ. lia.
Qed.

Lemma length_buffers_list p w :
  vec_inv p w -> Z.of_nat (length (buffers_list p w)) = Vector.size (buffers_ p).
Proof.
  intros [E|(vb & b & Hvb & E & Hblk)].
  - by rewrite buffers_list_fresh, E.
  - by rewrite (buffers_list_one _ _ _ _ E Hblk), E.
Qed.

Lemma held_count p w fl out :
  pool_inv p w fl out ->
  (length fl + length out
   = length (buffers_list p w) * Z.to_nat n)%nat.
Proof.
  intros [Hnum Hvec Hcs Hfl Hperm Hnd Hval Hbrk].
  apply Permutation_length in Hperm.
  by rewrite length_app, length_fmap, length_all_chunks, Hnum in Hperm.
Qed.

Lemma outstanding_held p w fl out :
  pool_inv p w fl out -> outstanding p w = Z.of_nat (length out).
Proof.
  intros Hinv. pose proof (held_count _ _ _ _ Hinv) as Hcount.
  destruct Hinv as [Hnum Hvec Hcs Hfl Hperm Hnd Hval Hbrk].
  assert (Hndfl : NoDup fl).
  { rewrite <- Hperm in Hnd. by apply NoDup_app in Hnd as [? _]. }
  unfold outstanding. rewrite (free_chunks_flist p w fl) by done.
  rewrite <- (length_buffers_list p w Hvec), Hnum. nia.
Qed.

(** a pool never has more chunks outstanding than one slab holds *)
Lemma held_bounded p w fl out :
  pool_inv p w fl out -> (length out <= Z.to_nat n)%nat.
Proof.
  intros Hinv. pose proof (held_count _ _ _ _ Hinv) as Hcount.
  pose proof (length_buffers_list p w (pi_vec _ _ _ _ Hinv)) as Hlen.
  destruct (pi_vec _ _ _ _ Hinv) as [E|(vb & b & Hvb & E & Hblk)];
    rewrite E in Hlen; cbn in Hlen; nia.
Qed.

(** number of [Alloc] requests *)
Fixpoint allocs (rs : list request) : nat :=
  match rs with
  | [] => O
  | Alloc :: rs => S (allocs rs)
  | Free _ :: rs => allocs rs
  end.

(** [fits k held rs]: a client that holds [held] blocks and issues the
    requests [rs] never holds more than [k] blocks *)
Fixpoint fits (k held : nat) (rs : list request) : bool :=
  match rs with
  | [] => true
  | Alloc :: rs => (held <? k)%nat && fits k (S held) rs
  | Free i :: rs =>
      fits k (if (i <? held)%nat then pred held else held) rs
  end.

(** [acquired w0 p w]: since the system stood at [w0] the pool has acquired
    nothing, or one slab at the break of [w0], recorded in [buffers_] *)
Definition acquired (w0 : sys) p w : Prop :=
  limit w = limit w0 /\
  ((buffers_ p = Vector.construct_default /\
    blocks w = blocks w0 /\ brk w = brk w0 /\ vstore w = vstore w0) \/
   (buffers_ p = Vector.mk_vector (vbuf w0) Vector.get_instance 1 1 /\
    blocks w = (brk w0, n * c) :: blocks w0 /\ brk w = brk w0 + n * c /\
    vstore w = <[vbuf w0 := [brk w0]]> (vstore w0))).

Lemma acquired_fresh w : acquired w (construct n) w.
Proof using Type. split; [done|]. by left. Qed.

Lemma acquired_same w0 p w p' w' :
  acquired w0 p w -> buffers_ p' = buffers_ p ->
  limit w' = limit w -> blocks w' = blocks w -> brk w' = brk w ->
  vstore w' = vstore w -> acquired w0 p' w'.
Proof using Type.
  intros [Hl H] Hb Hl' Hblk Hbrk Hvs. unfold acquired.
  rewrite Hb, Hl', Hblk, Hbrk, Hvs. by split.
Qed.

Lemma acquired_buffers_list w0 p w :
  acquired w0 p w ->
  (buffers_ p = Vector.construct_default /\ buffers_list p w = []) \/
  (Vector.empty (buffers_ p) = false /\ buffers_list p w = [brk w0]).
Proof using Type.
  intros [_ [(E & _)|(E & _ & _ & Hvs)]].
  - left. split; [done|]. by apply buffers_list_fresh.
  - right. split; [by rewrite E|].
    apply (buffers_list_one _ _ _ _ E). rewrite Hvs. apply lookup_insert_eq.
Qed.

Lemma serve_step (cl cl' : client) r rs w w' :
  serve size cl r w = Done (cl', w') ->
  serve_all size cl (r :: rs) w = serve_all size cl' rs w'.
Proof using Type. intros H. cbn [Pool.serve_all]. unfold pbind at 1. by rewrite H. Qed.

Lemma serve_alloc p out q p' w w' :
  allocate p size w = Done ((q, p'), w') ->
  serve size (p, out) Alloc w = Done ((p', q :: out), w').
Proof using Type. intros H. unfold Pool.serve, pbind. cbn [fst snd]. by rewrite H. Qed.

Lemma serve_alloc_fault p out e w :
  allocate p size w = Fault e -> serve size (p, out) Alloc w = Fault e.
Proof using Type. intros H. unfold Pool.serve, pbind. cbn [fst snd]. by rewrite H. Qed.

Lemma serve_free p out i q p' w w' :
  out !! i = Some q -> free p q w = Done (p', w') ->
  serve size (p, out) (Free i) w = Done ((p', delete i out), w').
Proof using Type.
  intros Hq H. unfold Pool.serve, pbind. cbn [fst snd]. by rewrite Hq, H.
Qed.

Lemma serve_free_none p out i w :
  out !! i = None -> serve size (p, out) (Free i) w = Done ((p, out), w).
Proof using Type. intros Hq. unfold Pool.serve. cbn [fst snd]. by rewrite Hq. Qed.

(** a client that never holds more than [n] blocks is served from the one
    slab *)
Lemma serve_all_spec w0 : forall rs p w fl out,
  pool_inv p w fl out -> acquired w0 p w ->
  brk w0 + n * c <= limit w0 ->
  fits (Z.to_nat n) (length out) rs = true ->
  exists p' w' fl' out',
    serve_all size (p, out) rs w = Done ((p', out'), w') /\
    pool_inv p' w' fl' out' /\ acquired w0 p' w' /\
    (length out' <= length out + allocs rs)%nat.
Proof.
  pose proof c_bounds as Hc.
  induction rs as [|[|i] rs IH]; intros p w fl out Hinv Hacq Hroom Hfit.
  - exists p, w, fl, out. split_and!; [done..|lia].
  - cbn [fits] in Hfit. apply andb_true_iff in Hfit as [Hlt Hfit].
    apply Nat.ltb_lt in Hlt.
    pose proof (held_count _ _ _ _ Hinv) as Hcount.
    destruct fl as [|a fl].
    + destruct (acquired_buffers_list _ _ _ Hacq) as [[E Hbl]|[E Hbl]];
        [|rewrite Hbl in Hcount; cbn [length] in Hcount; lia].
      destruct Hacq as [Hlim [(_ & Hblk & Hbrk & Hvs)|(E' & _)]];
        [|by rewrite E in E'].
      destruct (allocate_slab _ _ _ Hinv E) as
        (p1 & w1 & Hrun & Hbuf & _ & Hbrk1 & Hlim1 & Hblk1 & Hvs1 & Hinv1);
        [lia|].
      destruct (IH _ _ _ _ Hinv1) as
        (p' & w' & fl' & out' & Hrun' & Hinv' & Hacq' & Hlen);
        [|done|done|].
      { split; [lia|]. right. unfold vbuf in *.
        rewrite Hbuf, Hblk1, Hbrk1, Hvs1, Hblk, Hbrk, Hvs. done. }
      exists p', w', fl', out'.
      split_and!; [|done|done|cbn [length allocs] in *; lia].
      rewrite (serve_step _ _ _ _ _ _ (serve_alloc _ _ _ _ _ _ Hrun)).
      exact Hrun'.
    + destruct (allocate_pop _ _ _ _ _ Hinv) as (p1 & Hrun & Hbuf & Hinv1).
      destruct (IH _ _ _ _ Hinv1) as
        (p' & w' & fl' & out' & Hrun' & Hinv' & Hacq' & Hlen);
        [by eapply acquired_same|done|done|].
      exists p', w', fl', out'.
      split_and!; [|done|done|cbn [length allocs] in *; lia].
      rewrite (serve_step _ _ _ _ _ _ (serve_alloc _ _ _ _ _ _ Hrun)).
      exact Hrun'.
  - cbn [fits allocs] in Hfit |- *.
    destruct (out !! i) as [q|] eqn:Hq.
    + pose proof (lookup_lt_Some _ _ _ Hq) as Hi.
      apply Nat.ltb_lt in Hi as Hi'. rewrite Hi' in Hfit.
      destruct (free_spec _ _ _ _ _ _ Hinv Hq) as (p1 & Hrun & Hbuf & Hinv1).
      destruct (IH _ _ _ _ Hinv1) as
        (p' & w' & fl' & out' & Hrun' & Hinv' & Hacq' & Hlen);
        [by eapply acquired_same|done| |].
      { rewrite length_delete by done.
        by replace (length out - 1)%nat with (pred (length out)) by lia. }
      exists p', w', fl', out'. split_and!; [|done|done|].
      * rewrite (serve_step _ _ _ _ _ _ (serve_free _ _ _ _ _ _ _ Hq Hrun)).
        exact Hrun'.
      * rewrite length_delete in Hlen by done. lia.
    + pose proof (lookup_ge_None_1 _ _ Hq) as Hi.
      apply Nat.ltb_ge in Hi as Hi'. rewrite Hi' in Hfit.
      destruct (IH _ _ _ _ Hinv Hacq Hroom Hfit) as
        (p' & w' & fl' & out' & Hrun' & Hinv' & Hacq' & Hlen).
      exists p', w', fl', out'. split_and!; [|done..].
      rewrite (serve_step _ _ _ _ _ _ (serve_free_none _ _ _ _ Hq)).
      exact Hrun'.
Qed.

(** a client that comes to hold more than [n] blocks makes the pool acquire
    a second slab, which it cannot record *)
Lemma serve_all_overflow w0 : forall rs p w fl out,
  pool_inv p w fl out -> acquired w0 p w ->
  2 * sizeof_node < 2 ^ 32 ->
  brk w0 + 2 * (n * c) <= limit w0 ->
  fits (Z.to_nat n) (length out) rs = false ->
  serve_all size (p, out) rs w = Fault BadAccess.
Proof.
  pose proof c_bounds as Hc.
  induction rs as [|[|i] rs IH]; intros p w fl out Hinv Hacq Hs2 Hroom Hfit.
  - done.
  - cbn [fits] in Hfit.
    pose proof (held_count _ _ _ _ Hinv) as Hcount.
    destruct (acquired_buffers_list _ _ _ Hacq) as [[E Hbl]|[E Hbl]];
      rewrite Hbl in Hcount; cbn [length] in Hcount.
    + assert (fl = [] /\ out = []) as [-> ->]
        by (by destruct fl, out).
      cbn [length] in Hfit.
      replace (0 <? Z.to_nat n)%nat with true in Hfit
        by (symmetry; apply Nat.ltb_lt; lia).
      cbn [andb] in Hfit.
      destruct Hacq as [Hlim [(_ & Hblk & Hbrk & Hvs)|(E' & _)]];
        [|by rewrite E in E'].
      destruct (allocate_slab _ _ _ Hinv E) as
        (p1 & w1 & Hrun & Hbuf & _ & Hbrk1 & Hlim1 & Hblk1 & Hvs1 & Hinv1);
        [lia|].
      rewrite (serve_step _ _ _ _ _ _ (serve_alloc _ _ _ _ _ _ Hrun)).
      apply (IH _ _ _ _ Hinv1); [|done|done|done].
      split; [lia|]. right. unfold vbuf in *.
      rewrite Hbuf, Hblk1, Hbrk1, Hvs1, Hblk, Hbrk, Hvs. done.
    + destruct fl as [|a fl].
      * cbn [Pool.serve_all]. unfold pbind at 1.
        rewrite (serve_alloc_fault _ _ _ _
                   (allocate_overread _ _ _ Hinv E Hs2 ltac:(
                      destruct Hacq as [Hlim [(E' & _)|(_ & _ & Hbrk & _)]];
                      [by rewrite E' in E|lia]))).
        done.
      * replace (length out <? Z.to_nat n)%nat with true in Hfit
          by (symmetry; apply Nat.ltb_lt; cbn [length] in Hcount; lia).
        cbn [andb] in Hfit.
        destruct (allocate_pop _ _ _ _ _ Hinv) as (p1 & Hrun & Hbuf & Hinv1).
        rewrite (serve_step _ _ _ _ _ _ (serve_alloc _ _ _ _ _ _ Hrun)).
        apply (IH _ _ _ _ Hinv1); [by eapply acquired_same|done..].
  - cbn [fits] in Hfit.
    destruct (out !! i) as [q|] eqn:Hq.
    + pose proof (lookup_lt_Some _ _ _ Hq) as Hi.
      apply Nat.ltb_lt in Hi as Hi'. rewrite Hi' in Hfit.
      destruct (free_spec _ _ _ _ _ _ Hinv Hq) as (p1 & Hrun & Hbuf & Hinv1).
      rewrite (serve_step _ _ _ _ _ _ (serve_free _ _ _ _ _ _ _ Hq Hrun)).
      apply (IH _ _ _ _ Hinv1); [by eapply acquired_same|done|done|].
      rewrite length_delete by done.
      by replace (length out - 1)%nat with (pred (length out)) by lia.
    + pose proof (lookup_ge_None_1 _ _ Hq) as Hi.
      apply Nat.ltb_ge in Hi as Hi'. rewrite Hi' in Hfit.
      rewrite (serve_step _ _ _ _ _ _ (serve_free_none _ _ _ _ Hq)).
      by apply (IH _ _ _ _ Hinv).
Qed.

(** a block released and requested again at once is the same block *)
Lemma free_allocate_lifo p w fl out i q :
  pool_inv p w fl out ->
  out !! i = Some q ->
  exists p1 w1 p2,
    free p q w = Done (p1, w1) /\
    allocate p1 size w1 = Done ((q, p2), w1) /\
    head_ (free_list_ p1) = q - sizeof_node /\
    head_ (free_list_ p2) = head_ (free_list_ p).
Proof.
  intros Hinv Hq.
  destruct (free_spec _ _ _ _ _ _ Hinv Hq) as (p1 & Hrun & _ & Hinv1).
  pose proof (pi_flist _ _ _ _ Hinv1) as Hfl1.
  destruct (pop_cons _ _ _ _ Hfl1) as (nx & Hpop & _).
  destruct p1 as [n1 c1 [h1] bufs1]. cbn [free_list_ head_] in *.
  destruct Hfl1 as (-> & Hne & Hb & nx' & Hc' & _).
  cbn [upd cells] in Hc'. rewrite lookup_insert_eq in Hc'.
  injection Hc' as <-.
  eexists _, _, _. split_and!; [exact Hrun| |done|].
  - unfold Pool.allocate, pbind. cbn [free_list_].
    unfold Pool.pop, pbind, get_next. cbn [head_].
    rewrite decide_True by done. rewrite Hb. cbn [upd cells].
    rewrite lookup_insert_eq. cbn [pret fst snd].
    rewrite decide_False by done.
    replace (q - sizeof_node + sizeof_node) with q by lia. reflexivity.
  - done.
Qed.

Lemma allocs_app rs1 rs2 : allocs (rs1 ++ rs2) = (allocs rs1 + allocs rs2)%nat.
Proof.
  induction rs1 as [|[|i] rs1 IH]; cbn [app allocs]; [done|by rewrite IH|done].
Qed.

(** requests served from the free list leave the slabs alone *)
Lemma serve_from_free_list : forall k p w fl out,
  pool_inv p w fl out -> (k <= length fl)%nat ->
  exists p' fl' out',
    serve_all size (p, out) (replicate k Alloc) w
      = Done ((p', out'), w) /\
    buffers_ p' = buffers_ p /\
    pool_inv p' w fl' out' /\
    length fl' = (length fl - k)%nat /\
    length out' = (k + length out)%nat.
Proof.
  induction k as [|k IH]; intros p w fl out Hinv Hk.
  - exists p, fl, out. split_and!; [done..|lia|done].
  - destruct fl as [|a fl]; [simpl in Hk; lia|].
    destruct (allocate_pop _ _ _ _ _ Hinv) as (p1 & Hrun & Hbuf1 & Hinv1).
    destruct (IH _ _ _ _ Hinv1) as
      (p' & fl' & out' & Hrun' & Hbuf' & Hinv' & Hlen & Hlo).
    { simpl in Hk. lia. }
    exists p', fl', out'.
    split_and!; [|congruence|done|simpl; lia|cbn [length] in Hlo; lia].
    cbn [replicate].
    rewrite (serve_step _ _ _ _ _ _ (serve_alloc _ _ _ _ _ _ Hrun)).
    exact Hrun'.
Qed.

(** a fresh pool serves [n] requests from its first slab *)
Lemma first_slab w0 :
  0 < brk w0 -> brk w0 + n * c <= limit w0 ->
  exists p out w,
    serve_all size (construct n, []) (replicate (Z.to_nat n) Alloc) w0
      = Done ((p, out), w) /\
    pool_inv p w [] out /\
    length out = Z.to_nat n /\
    buffers_ p = Vector.mk_vector (vbuf w0) Vector.get_instance 1 1 /\
    chunk_size_ p = c /\
    brk w = brk w0 + n * c /\ limit w = limit w0 /\
    blocks w = (brk w0, n * c) :: blocks w0 /\
    vstore w = <[vbuf w0 := [brk w0]]> (vstore w0).
Proof.
  pose proof c_bounds as Hc. intros Hbrk Hroom.
  destruct (allocate_slab _ _ _ (pool_inv_fresh w0 Hbrk) eq_refl) as
    (p1 & w1 & Hrun1 & Hbuf1 & Hcs1 & Hbrk1 & Hlim1 & Hblk1 & Hvs1 & Hinv1);
    [nia|].
  destruct (serve_from_free_list (Z.to_nat (n - 1)) _ _ _ _ Hinv1) as
    (p2 & fl2 & out2 & Hrun2 & Hbuf2 & Hinv2 & Hlen2 & Hlo2).
  { rewrite length_reverse, length_chunks_of. lia. }
  rewrite length_reverse, length_chunks_of, Nat.sub_diag in Hlen2.
  destruct fl2; [|done].
  exists p2, out2, w1. split_and!; try done.
  - replace (Z.to_nat n) with (S (Z.to_nat (n - 1))) by lia.
    cbn [replicate].
    rewrite (serve_step _ _ _ _ _ _ (serve_alloc _ _ _ _ _ _ Hrun1)).
    exact Hrun2.
  - rewrite Hlo2. cbn [length]. lia.
  - by rewrite Hbuf2.
  - apply (pi_size _ _ _ _ Hinv2). by rewrite Hbuf2, Hbuf1.
Qed.

End OneSize.
End Spec.

(** C7. The first [allocate(size)] on a pool fixes the chunk size to the
    header size plus [size], acquires a slab, records it in [buffers_], links
    its [n] chunks and pops the last; afterwards an [allocate] pops the head
    of a non-empty free list and leaves the slabs alone.  On an empty free
    list of a pool that has a slab, [allocate] does not get as far as
    linking the chunks of one more slab: the slab is acquired from the
    system, and [buffers_.push_back], which has to grow the vector from one
    element to two, reads past the buffer of the vector.  A fresh pool
    serves [n] requests from its first slab; the next request, for [n = 2]
    the third, ends in that access outside the buffer. *)
Theorem pool_allocate_second_slab_overread (sizeof_node junk n size : Z) :
  0 < sizeof_node -> 2 * sizeof_node < size_type_modulus ->
  0 < n -> 0 <= size ->
  n * (sizeof_node + size) < size_type_modulus ->
  (forall w, 0 < brk w -> brk w + n * (sizeof_node + size) <= limit w ->
     exists q p' w',
       allocate sizeof_node junk (construct n) size w = Done ((q, p'), w') /\
       chunk_size_ p' = sizeof_node + size /\
       Vector.size (buffers_ p') = 1 /\
       buffers_list p' w' = [brk w] /\
       q = brk w + (n - 1) * (sizeof_node + size) + sizeof_node /\
       pool_inv sizeof_node n size p' w'
         (reverse (chunks_of (brk w) (n - 1) (sizeof_node + size))) [q]) /\
  (forall p w a fl out,
     pool_inv sizeof_node n size p w (a :: fl) out ->
     exists p',
       allocate sizeof_node junk p size w = Done ((a + sizeof_node, p'), w) /\
       buffers_ p' = buffers_ p /\
       pool_inv sizeof_node n size p' w fl ((a + sizeof_node) :: out)) /\
  (forall p w out,
     pool_inv sizeof_node n size p w [] out ->
     Vector.empty (buffers_ p) = false ->
     brk w + n * (sizeof_node + size) <= limit w ->
     Vector.push_back 0 junk sizeof_node (buffers_ p) (brk w) (vstore w)
       = Vector.Exn Vector.BadAccess /\
     allocate sizeof_node junk p size w = Fault BadAccess) /\
  (forall w0,
     0 < brk w0 -> brk w0 + 2 * (n * (sizeof_node + size)) <= limit w0 ->
     exists p out w1,
       serve_all sizeof_node junk size (construct n, [])
                 (replicate (Z.to_nat n) Alloc) w0 = Done ((p, out), w1) /\
       length out = Z.to_nat n /\
       buffers_list p w1 = [brk w0] /\
       serve sizeof_node junk size (p, out) Alloc w1 = Fault BadAccess).
Proof.
  intros Hs Hs2 Hn Hsize Hov.
  pose proof (c_bounds sizeof_node Hs n size Hn Hsize Hov) as Hc.
  split_and!.
  - intros w Hbrk Hroom.
    destruct (allocate_slab sizeof_node junk Hs n size Hn Hsize Hov _ _ _
                (pool_inv_fresh sizeof_node Hs n size Hn Hsize Hov w Hbrk)
                eq_refl Hroom)
      as (p' & w' & Hrun & Hbuf & Hcs & _ & _ & _ & Hvs & Hinv).
    eexists _, p', w'. split_and!; [exact Hrun|done|by rewrite Hbuf| |done|done].
    apply (buffers_list_one _ _ _ _ Hbuf). rewrite Hvs.
    apply lookup_insert_eq.
  - intros p w a fl out Hinv.
    by apply (allocate_pop sizeof_node junk Hs n size Hn Hsize Hov).
  - intros p w out Hinv Hne Hroom. split.
    + by apply (push_back_overread sizeof_node junk Hs p w (brk w)
                  (pi_vec _ _ _ _ _ _ _ Hinv)).
    + by apply (allocate_overread sizeof_node junk Hs n size Hn Hsize Hov
                  p w out).
  - intros w0 Hbrk Hroom.
    destruct (first_slab sizeof_node junk Hs n size Hn Hsize Hov w0 Hbrk)
      as (p & out & w & Hrun & Hinv & Hlen & Hbuf & Hcs & Hbrk1 & Hlim1 & _
          & Hvs); [lia|].
    exists p, out, w. split_and!; [done|done| |].
    + apply (buffers_list_one _ _ _ _ Hbuf). rewrite Hvs.
      apply lookup_insert_eq.
    + apply serve_alloc_fault.
      apply (allocate_overread sizeof_node junk Hs n size Hn Hsize Hov
               p w out Hinv); [by rewrite Hbuf|done|].
      rewrite Hbrk1, Hlim1. lia.
Qed.

Lemma pool_allocate_second_slab_overread_witness :
  exists p out w1,
    serve_all 8 0 24 (construct 2, []) [Alloc; Alloc]
      (mk_sys 1000 100000 [] ∅ ∅) = Done ((p, out), w1) /\
    length out = 2%nat /\
    buffers_list p w1 = [1000] /\
    serve 8 0 24 (p, out) Alloc w1 = Fault BadAccess.
Proof.
  assert (H1 : 0 < 8) by lia.
  assert (H1' : 2 * 8 < size_type_modulus) by (by vm_compute).
  assert (H2 : 0 < 2) by lia.
  assert (H3 : 0 <= 24) by lia.
  assert (H4 : 2 * (8 + 24) < size_type_modulus) by (by vm_compute).
  destruct (pool_allocate_second_slab_overread 8 0 2 24 H1 H1' H2 H3 H4)
    as (_ & _ & _ & H).
  apply (H (mk_sys 1000 100000 [] ∅ ∅)); cbn [brk limit]; lia.
Defined.

(** C8. A client that issues requests of one size and never holds more
    blocks than a slab has chunks is served: the chunks outstanding on the
    pool (chunks in slabs that are not on the free list) are the blocks the
    client holds, at most as many as the [allocate] calls of the whole run;
    and a block released is the head of the free list, so the [allocate]
    that follows at once returns that same block.  A run in which the client
    comes to hold one block more than a slab has chunks is not served: the
    request for that block ends in the access outside the buffer of
    [buffers_]. *)
Theorem pool_outstanding_lifo_within_one_slab (sizeof_node junk n size : Z)
    (w0 : sys) (rs1 rs2 : list request) :
  0 < sizeof_node -> 2 * sizeof_node < size_type_modulus ->
  0 < n -> 0 <= size ->
  n * (sizeof_node + size) < size_type_modulus ->
  0 < brk w0 ->
  brk w0 + 2 * (n * (sizeof_node + size)) <= limit w0 ->
  (fits (Z.to_nat n) 0 rs1 = true ->
   exists p out w,
     serve_all sizeof_node junk size (construct n, []) rs1 w0
       = Done ((p, out), w) /\
     outstanding p w = Z.of_nat (length out) /\
     outstanding p w <= Z.of_nat (allocs (rs1 ++ rs2)) /\
     outstanding p w <= n /\
     (forall i q, out !! i = Some q ->
        exists p1 w1 p2,
          free sizeof_node p q w = Done (p1, w1) /\
          head_ (free_list_ p1) = q - sizeof_node /\
          allocate sizeof_node junk p1 size w1 = Done ((q, p2), w1))) /\
  (fits (Z.to_nat n) 0 rs1 = false ->
   serve_all sizeof_node junk size (construct n, []) rs1 w0
     = Fault BadAccess).
Proof.
  intros Hs Hs2 Hn Hsize Hov Hbrk Hroom.
  pose proof (c_bounds sizeof_node Hs n size Hn Hsize Hov) as Hc.
  split.
  - intros Hfit.
    destruct (serve_all_spec sizeof_node junk Hs n size Hn Hsize Hov w0 rs1
                _ _ _ _
                (pool_inv_fresh sizeof_node Hs n size Hn Hsize Hov w0 Hbrk)
                (acquired_fresh sizeof_node n size w0))
      as (p & w & fl & out & Hrun & Hinv & _ & Hlen); [lia|done|].
    exists p, out, w.
    pose proof (outstanding_held sizeof_node Hs n size Hn Hsize Hov
                  _ _ _ _ Hinv) as Hout.
    pose proof (held_bounded sizeof_node Hs n size Hn Hsize Hov
                  _ _ _ _ Hinv) as Hle.
    split_and!; [done|done| |lia|].
    + rewrite Hout, allocs_app. simpl in Hlen. lia.
    + intros i q Hq.
      destruct (free_allocate_lifo sizeof_node junk Hs n size Hn Hsize Hov
                  _ _ _ _ _ _ Hinv Hq)
        as (p1 & w1 & p2 & Hf & Ha & Hh & _).
      by exists p1, w1, p2.
  - intros Hfit.
    by apply (serve_all_overflow sizeof_node junk Hs n size Hn Hsize Hov w0
                rs1 _ _ _ _
                (pool_inv_fresh sizeof_node Hs n size Hn Hsize Hov w0 Hbrk)
                (acquired_fresh sizeof_node n size w0)).
Qed.

Lemma pool_outstanding_lifo_within_one_slab_witness :
  (exists p out w,
     serve_all 8 0 24 (construct 2, []) [Alloc; Alloc; Free 1%nat]
               (mk_sys 1000 100000 [] ∅ ∅) = Done ((p, out), w) /\
     outstanding p w = Z.of_nat (length out) /\
     outstanding p w <= 3 /\
     outstanding p w <= 2 /\
     (forall i q, out !! i = Some q ->
        exists p1 w1 p2,
          free 8 p q w = Done (p1, w1) /\
          head_ (free_list_ p1) = q - 8 /\
          allocate 8 0 p1 24 w1 = Done ((q, p2), w1))) /\
  serve_all 8 0 24 (construct 2, [])
    [Alloc; Alloc; Alloc; Free 0%nat; Free 0%nat; Free 0%nat]
    (mk_sys 1000 100000 [] ∅ ∅) = Fault BadAccess.
Proof.
  assert (H1 : 0 < 8) by lia.
  assert (H1' : 2 * 8 < size_type_modulus) by (by vm_compute).
  assert (H2 : 0 < 2) by lia.
  assert (H3 : 0 <= 24) by lia.
  assert (H4 : 2 * (8 + 24) < size_type_modulus) by (by vm_compute).
  assert (H5 : 0 < brk (mk_sys 1000 100000 [] ∅ ∅)) by (cbn [brk]; lia).
  assert (H6 : brk (mk_sys 1000 100000 [] ∅ ∅) + 2 * (2 * (8 + 24))
               <= limit (mk_sys 1000 100000 [] ∅ ∅)) by (by vm_compute).
  split.
  - exact (proj1 (pool_outstanding_lifo_within_one_slab 8 0 2 24
                    (mk_sys 1000 100000 [] ∅ ∅)
                    [Alloc; Alloc; Free 1%nat]
                    [Alloc; Free 0%nat; Free 0%nat] H1 H1' H2 H3 H4 H5 H6)
                 eq_refl).
  - exact (proj2 (pool_outstanding_lifo_within_one_slab 8 0 2 24
                    (mk_sys 1000 100000 [] ∅ ∅)
                    [Alloc; Alloc; Alloc; Free 0%nat; Free 0%nat; Free 0%nat]
                    [] H1 H1' H2 H3 H4 H5 H6)
                 eq_refl).
Defined.

End PoolSpec.

(** * What a run of client calls establishes *)

Module ContainerSpec.
Import RBTree RBShape RBSpec RBRotate RBInsert RBInsertHelp RBIter RBOrder RBMethods
  RBErase RBMethods2 Container.
Section Client.
Context {T K : Type} (key_of : T -> K) (eqb ltb : K -> K -> bool) (T0 junk : T).
Implicit Types (s : set) (m : gmap ptr (@node_t T)) (t : @tree T).
Local Abbreviation Inv := (RBMethods.Inv T0).
Local Abbreviation ins_tree := (RBInsert.ins_tree key_of ltb).
Local Abbreviation search_tree := (RBInsertHelp.search_tree key_of eqb ltb).
Local Abbreviation keys := (RBOrder.keys key_of).
Local Abbreviation ascending := (RBOrder.ascending ltb).
Local Abbreviation insert := (RBTree.insert key_of eqb ltb junk).
Local Abbreviation find := (RBTree.find key_of eqb ltb).
Local Abbreviation op := (@Container.op T K).
Local Abbreviation run_op := (Container.run_op key_of eqb ltb junk).
Local Abbreviation run_ops := (Container.run_ops key_of eqb ltb junk).
Local Abbreviation from_empty := (Container.from_empty key_of eqb ltb T0 junk).
Local Abbreviation op_keys := (Container.op_keys key_of).
Local Abbreviation ops_keys := (Container.ops_keys key_of).
Local Abbreviation stored := (Container.stored key_of).

(** what a run of [n] calls establishes about the shape [t0] it started
    from; [F] gives the keys held afterwards *)
Definition after (t0 : @tree T) (n : nat) (F : (K -> Prop) -> K -> Prop)
    s m : Prop :=
  exists t, Inv s m t /\
    (length (elems t) <= length (elems t0) + n)%nat /\
    (order_ok eqb ltb -> ascending (keys t0) ->
       ascending (keys t) /\
       forall P, (forall k, k ∈ keys t0 <-> P k) ->
                 forall k, k ∈ keys t <-> F P k).

Lemma ascending_remove (l1 l2 : list K) x :
  ascending (l1 ++ x :: l2) -> ascending (l1 ++ l2).
Proof.
  intros (H1 & H2 & H3)%ascending_app. apply ascending_app.
  inversion H2; subst. split_and!; [done..|].
  intros a b Ha Hb. apply H3; [done|]. by right.
Qed.

Lemma keys_entries t : keys t = key_of <$> (entries t).*2.
Proof. unfold RBOrder.keys. by rewrite elems_entries. Qed.

Lemma iterator_ne_end s a :
  iterator_ne (mk_iterator (this s) a) (end_ s) = bool_decide (a ≠ nil_ s).
Proof.
  unfold iterator_ne, end_. cbn [set_ node_].
  rewrite (bool_decide_eq_false_2 (this s ≠ this s)) by (intros H; by apply H).
  done.
Qed.

Lemma search_tree_addr s m t kk c l a d r :
  Inv s m t -> search_tree kk t = Node c l a d r ->
  a ∈ addrs t /\ a <> nil_ s.
Proof.
  intros [[np Z] Hnull Hrb Halloc Hsize] E.
  apply search_tree_sound in E as [_ Hin].
  assert (Ha : a ∈ addrs t).
  { rewrite addrs_entries. apply list_elem_of_fmap. by exists (a, d). }
  split; [done|]. destruct Z as (Hnd & _).
  apply NoDup_cons in Hnd as [Hnil _]. intros ->. set_solver.
Qed.

Lemma Inv_NoDup_entries s m t : Inv s m t -> NoDup (entries t).*1.
Proof.
  intros [[np (Hnd & _)] _ _ _ _]. rewrite <- addrs_entries.
  apply NoDup_cons in Hnd as [_ Hnd]. by apply NoDup_cons in Hnd as [_ Hnd].
Qed.

(** a key the search does not find is not in the tree *)
Lemma search_tree_Leaf t kk :
  order_ok eqb ltb -> ascending (keys t) ->
  search_tree kk t = Leaf -> kk ∉ keys t.
Proof.
  intros Hord Hasc E Hin.
  destruct (search_tree_present key_of eqb ltb Hord kk t Hasc Hin)
    as (c & l & a & d & r & E' & _).
  by rewrite E in E'.
Qed.

Lemma run_op_wp s m t o :
  Inv s m t -> wp (run_op s o) m (after t 1 (op_keys o)).
Proof.
  intros Hinv. destruct o as [v|k0|]; unfold Container.run_op.
  - apply wp_bind. eapply insert_spec; [exact Hinv|].
    destruct (search_tree (key_of v) t) as [|c l a d r] eqn:E.
    + intros z m' Hz Hinv'. apply wp_ret. cbn [snd].
      exists (ins_tree t z v). split_and!; [done| |].
      * rewrite <- !length_addrs_elems, (ins_tree_addrs key_of ltb).
        simpl. lia.
      * intros Hord Hasc.
        split; [by apply (ins_tree_ascending key_of eqb ltb Hord)|].
        intros P HP k. cbn [Container.op_keys]. rewrite <- HP.
        unfold RBOrder.keys.
        rewrite (ins_tree_elems key_of ltb),
          (elems_ins_path key_of ltb t (key_of v)).
        rewrite !fmap_app, fmap_cons, !elem_of_app, elem_of_cons. tauto.
    + apply wp_ret. exists t. split_and!; [done|lia|].
      intros Hord Hasc. split; [done|]. intros P HP k. cbn [Container.op_keys].
      rewrite <- HP.
      apply search_tree_sound in E as [Heq Hin].
      apply (eqb_eq _ _ Hord) in Heq.
      apply (entries_key key_of) in Hin. rewrite <- Heq in Hin.
      split; [auto|]. by intros [->|?].
  - unfold Container.erase_found. apply wp_bind. eapply find_spec; [exact Hinv|].
    destruct (search_tree k0 t) as [|c l a d r] eqn:E; cbn [addr].
    + rewrite iterator_ne_end.
      rewrite bool_decide_eq_false_2 by (intros H; by apply H).
      apply wp_ret. exists t. split_and!; [done|lia|].
      intros Hord Hasc. split; [done|]. intros P HP k. cbn [Container.op_keys].
      rewrite <- HP.
      pose proof (search_tree_Leaf _ _ Hord Hasc E) as Hnin.
      split; [|tauto]. intros Hk. split; [done|]. by intros ->.
    + destruct (search_tree_addr _ _ _ _ _ _ _ _ _ Hinv E) as [Ha Hne].
      rewrite iterator_ne_end, bool_decide_eq_true_2 by done.
      eapply erase_spec; [exact Hinv|exact Ha|].
      cbn [node_]. intros m' t' L1 dz L2 Hinv' He He' Hfree.
      exists t'. split_and!; [done| |].
      * rewrite !elems_entries, He, He', !length_fmap, !length_app.
        simpl. lia.
      * intros Hord Hasc.
        apply search_tree_sound in E as [Heq Hin].
        apply (eqb_eq _ _ Hord) in Heq.
        apply list_elem_of_split in Hin as (L1' & L2' & He2).
        pose proof (Inv_NoDup_entries _ _ _ Hinv) as Hnd.
        rewrite He in He2. rewrite He in Hnd.
        apply entries_split_unique in He2 as (_ & -> & _); [|exact Hnd].
        rewrite keys_entries, He, !fmap_app, !fmap_cons in Hasc.
        cbn [snd] in Hasc. rewrite <- Heq in Hasc.
        split.
        { rewrite keys_entries, He', !fmap_app. by eapply ascending_remove. }
        intros P HP k. cbn [Container.op_keys]. rewrite <- HP.
        rewrite !keys_entries, He, He', !fmap_app, !fmap_cons. cbn [snd].
        rewrite <- Heq.
        pose proof (ascending_NoDup eqb ltb Hord _ Hasc) as Hnd'.
        apply NoDup_app in Hnd' as (_ & Hdis & Hnd2).
        apply NoDup_cons in Hnd2 as [Hk2 _].
        rewrite !elem_of_app, elem_of_cons. split.
        -- intros [Hk|Hk]; (split; [tauto|]); intros ->.
           ++ apply (Hdis _ Hk). by left.
           ++ done.
        -- tauto.
  - eapply clear_spec; [exact Hinv|]. intros m' Hinv'.
    exists Leaf. split_and!; [done|simpl; lia|]. intros _ _.
    split; [constructor|]. intros P HP k. cbn [Container.op_keys].
    split; [|done]. intros Hk. by apply elem_of_nil in Hk.
Qed.

Lemma run_ops_wp : forall os s m t,
  Inv s m t -> wp (run_ops s os) m (after t (length os) (ops_keys os)).
Proof.
  induction os as [|o os IH]; intros s m t Hinv; cbn [Container.run_ops].
  - apply wp_ret. exists t. split_and!; [done|simpl; lia|done].
  - apply wp_bind. eapply wp_mono; [by apply run_op_wp|].
    intros s1 m1 (t1 & Hinv1 & Hlen1 & Hasc1). cbn beta.
    eapply wp_mono; [by apply IH|].
    intros s2 m2 (t2 & Hinv2 & Hlen2 & Hasc2).
    exists t2. split_and!; [done|simpl; lia|].
    intros Hord Hasc. destruct (Hasc1 Hord Hasc) as [Ha1 Hk1].
    destruct (Hasc2 Hord Ha1) as [Ha2 Hk2]. split; [done|].
    intros P HP k. cbn [Container.ops_keys]. apply Hk2. by apply Hk1.
Qed.

Lemma from_empty_wp self alloc os m0 :
  alloc <> nullptr ->
  wp (from_empty self alloc os) m0
     (fun s m => exists t, Inv s m t /\
                   (length (elems t) <= length os)%nat /\
                   (order_ok eqb ltb ->
                      ascending (keys t) /\
                      forall k, k ∈ keys t <-> stored os k)).
Proof.
  intros Ha. unfold Container.from_empty. apply wp_bind.
  eapply construct_spec; [exact Ha|]. intros s m Hinv Hthis Halloc.
  eapply wp_mono; [by apply run_ops_wp|].
  intros s' m' (t' & Hinv' & Hlen & Hasc).
  exists t'. split_and!; [done|simpl in Hlen; lia|].
  intros Hord. destruct (Hasc Hord) as [Ha' Hk']; [constructor|].
  split; [done|]. apply Hk'. intros k. split; [|done].
  intros Hk. by apply elem_of_nil in Hk.
Qed.

End Client.
End ContainerSpec.

(** * What the containers guarantee *)

Module Guarantees.
Import RBTree RBShape RBSpec RBRotate RBInsert RBInsertHelp RBIter RBOrder RBMethods
  RBErase RBMethods2 Container ContainerSpec.

(** ** The red-black conditions, read off a shape *)

Section Shapes.
Context {T : Type}.
Implicit Types (t u l r : @tree T).

(** no red node has a red child *)
Fixpoint no_red_red t : Prop :=
  match t with
  | Leaf => True
  | Node c l _ _ r =>
      (c = true -> color l = false /\ color r = false) /\
      no_red_red l /\ no_red_red r
  end.

(** the number of black nodes on each path from [t] down to a nil leaf *)
Fixpoint black_counts t : list nat :=
  match t with
  | Leaf => [0%nat]
  | Node c l _ _ r =>
      (fun x => if c then x else S x) <$> (black_counts l ++ black_counts r)
  end.

Inductive subtree : @tree T -> @tree T -> Prop :=
| subtree_refl t : subtree t t
| subtree_left u c l a d r : subtree u l -> subtree u (Node c l a d r)
| subtree_right u c l a d r : subtree u r -> subtree u (Node c l a d r).

Lemma rbt_no_red_red t n : rbt t n -> no_red_red t.
Proof.
  induction 1 as [|l a d r n Hcl Hcr Hl IHl Hr IHr|l a d r n Hl IHl Hr IHr];
    cbn [no_red_red]; [done|by split_and!|].
  split_and!; [intros [=]|done..].
Qed.

Lemma rbt_black_counts t n : rbt t n -> forall x, x ∈ black_counts t -> x = n.
Proof.
  induction 1 as [|l a d r n Hcl Hcr Hl IHl Hr IHr|l a d r n Hl IHl Hr IHr];
    intros x; cbn [black_counts].
  - by intros ->%list_elem_of_singleton.
  - intros (y & -> & [Hy|Hy]%elem_of_app)%list_elem_of_fmap; auto.
  - intros (y & -> & [Hy|Hy]%elem_of_app)%list_elem_of_fmap; f_equal; auto.
Qed.

Lemma rbt_subtree u t : subtree u t -> forall n, rbt t n -> exists n', rbt u n'.
Proof.
  induction 1 as [t|u c l a d r Hs IH|u c l a d r Hs IH]; intros n Hrb.
  - by exists n.
  - inversion Hrb; subst; by eapply IH.
  - inversion Hrb; subst; by eapply IH.
Qed.

Lemma is_rb_conditions t :
  is_rb t ->
  color t = false /\ no_red_red t /\
  forall u, subtree u t -> exists n, forall x, x ∈ black_counts u -> x = n.
Proof.
  intros [Hc [n Hrb]]. split_and!; [done|by eapply rbt_no_red_red|].
  intros u Hu. destruct (rbt_subtree _ _ Hu _ Hrb) as [n' Hn'].
  exists n'. by apply rbt_black_counts.
Qed.

End Shapes.

(** ** Which failures a method can end in *)

Section Quiet.
Context {T : Type}.

(** [c] never throws a [std::runtime_error] *)
Definition quiet {A} (c : M (T:=T) A) : Prop :=
  forall m msg, c m <> Err (RuntimeError msg).

Lemma quiet_ret {A} (a : A) : quiet (ret a).
Proof. intros m msg. done. Qed.

Lemma quiet_bind {A B} (c : M A) (k : A -> M B) :
  quiet c -> (forall a, quiet (k a)) -> quiet (bind c k).
Proof.
  intros Hc Hk m msg. unfold bind.
  destruct (c m) as [[a m']|e] eqn:E; [apply Hk|].
  intros [= ->]. by apply (Hc m msg).
Qed.

Lemma quiet_load p : quiet (load (T:=T) p).
Proof. intros m msg. unfold load. by destruct (m !! p). Qed.

Lemma quiet_get_left p : quiet (get_left (T:=T) p).
Proof. apply quiet_bind; [apply quiet_load|intros; apply quiet_ret]. Qed.

Lemma quiet_get_right p : quiet (get_right (T:=T) p).
Proof. apply quiet_bind; [apply quiet_load|intros; apply quiet_ret]. Qed.

Lemma quiet_get_parent p : quiet (get_parent (T:=T) p).
Proof. apply quiet_bind; [apply quiet_load|intros; apply quiet_ret]. Qed.

Lemma quiet_leftmost_loop nil : forall fuel y,
  quiet (_leftmost_loop (T:=T) fuel nil y).
Proof.
  induction fuel as [|fuel IH]; intros y; cbn [_leftmost_loop].
  - intros m msg. done.
  - apply quiet_bind; [apply quiet_get_left|]. intros yl.
    destruct (decide _); [apply IH|apply quiet_ret].
Qed.

Lemma quiet_next_climb s : forall fuel x y,
  quiet (_next_climb (T:=T) fuel s x y).
Proof.
  induction fuel as [|fuel IH]; intros x y; cbn [_next_climb].
  - intros m msg. done.
  - destruct (decide _); [|apply quiet_ret].
    apply quiet_bind; [apply quiet_get_right|]. intros yr.
    destruct (decide _); [|apply quiet_ret].
    apply quiet_bind; [apply quiet_get_parent|]. intros yp. apply IH.
Qed.

Lemma quiet_next s x : quiet (_next (T:=T) s x).
Proof.
  unfold _next. apply quiet_bind; [apply quiet_get_right|]. intros y.
  destruct (decide _).
  - intros m msg. apply quiet_leftmost_loop.
  - apply quiet_bind; [apply quiet_get_parent|]. intros yp.
    apply quiet_bind.
    + intros m msg. apply quiet_next_climb.
    + intros y'. destruct (decide _); apply quiet_ret.
Qed.

End Quiet.

(** ** Reading through iterators; the loop of [erase(const T&)] *)

Section Lookups.
Context {T K : Type} (key_of : T -> K) (eqb ltb : K -> K -> bool) (T0 junk : T).
Implicit Types (s : set) (m : gmap ptr (@node_t T)) (t : @tree T).
Local Abbreviation Inv := (RBMethods.Inv T0).
Local Abbreviation search_tree := (RBInsertHelp.search_tree key_of eqb ltb).
Local Abbreviation keys := (RBOrder.keys key_of).
Local Abbreviation ascending := (RBOrder.ascending ltb).

Lemma bind_ok {A B} (c : M A) (k : A -> M B) m a m' :
  c m = Ok (a, m') -> bind c k m = k a m'.
Proof. unfold bind. by intros ->. Qed.

Lemma bind_err {A B} (c : M A) (k : A -> M B) m e :
  c m = Err e -> bind (T:=T) c k m = Err e.
Proof. unfold bind. by intros ->. Qed.

Lemma entry_lookup s m t a d :
  Inv s m t -> (a, d) ∈ entries t ->
  a <> nullptr /\ a <> nil_ s /\ exists n, m !! a = Some n /\ data n = d.
Proof.
  intros [[np Z] Hnull Hrb Halloc Hsize] Hin.
  assert (Ha : a ∈ addrs t).
  { rewrite addrs_entries. apply list_elem_of_fmap. by exists (a, d). }
  apply list_elem_of_split in Hin as (L0 & L & He).
  destruct (iter_step_spec T0 s m np t L0 a d L Z He) as [Hn _].
  split_and!; [| |done].
  - intros ->. apply Hnull. by do 2 right.
  - by eapply hd_addr_ne_nil.
Qed.

Lemma deref_entry s m t a d i :
  Inv s m t -> (a, d) ∈ entries t ->
  iterator_deref (mk_iterator i a) m = Ok (d, m).
Proof.
  intros Hinv Hin.
  destruct (entry_lookup _ _ _ _ _ Hinv Hin) as (Hnull & _ & n & Hn & Hd).
  unfold iterator_deref, _check_node, bind. cbn [node_].
  rewrite decide_False by done. unfold ret at 1.
  unfold get_data, bind, load. rewrite Hn. unfold ret. by rewrite Hd.
Qed.

Lemma incr_entry s m t L0 a d L :
  Inv s m t -> entries t = L0 ++ (a, d) :: L ->
  iterator_incr s (mk_iterator (this s) a) m
    = Ok (mk_iterator (this s) (hd_addr s L), m).
Proof.
  intros Hinv He.
  destruct (entry_lookup s m t a d Hinv) as (Hnull & _).
  { rewrite He. apply elem_of_app. right. by left. }
  destruct Hinv as [[np Z] _ _ _ _].
  destruct (iter_step_spec T0 s m np t L0 a d L Z He) as [_ Hnext].
  apply wp_run in Hnext as (y & m' & Hrun & -> & ->).
  unfold iterator_incr, _check_node, bind. cbn [node_ set_].
  rewrite decide_False by done. unfold ret at 1. by rewrite Hrun.
Qed.

(** Once the loop of [erase(const T&)] has deleted the node it stands on,
    its [++it] reads that node again. *)
Lemma erase_value_loop_fault s m t k z dz L : forall L0 Lp fuel count,
  Inv s m t ->
  entries t = Lp ++ L0 ++ (z, dz) :: L ->
  (forall a d, (a, d) ∈ L0 -> eqb (key_of d) k = false) ->
  eqb (key_of dz) k = true ->
  (length L0 < fuel)%nat ->
  _erase_value_loop key_of eqb fuel s k
    (mk_iterator (this s) (hd_addr s (L0 ++ (z, dz) :: L))) count m
  = Err InvalidAccess.
Proof.
  induction L0 as [|[a d] L0 IH]; intros Lp fuel count Hinv He Hne Heq Hf;
    (destruct fuel as [|fuel]; [simpl in Hf; lia|]);
    cbn [_erase_value_loop app hd_addr].
  - destruct (entry_lookup s m t z dz Hinv) as (Hnull & Hnil & n & Hn & Hd).
    { rewrite He. apply elem_of_app. right. by left. }
    rewrite iterator_ne_end, bool_decide_eq_true_2 by done. cbn [node_].
    assert (Hget : get_data z m = Ok (dz, m)).
    { unfold get_data, bind, load. rewrite Hn. unfold ret. by rewrite Hd. }
    rewrite (bind_ok _ _ _ _ _ Hget). rewrite Heq.
    assert (Hz : z ∈ addrs t).
    { rewrite addrs_entries, He. apply list_elem_of_fmap. exists (z, dz).
      split; [done|]. apply elem_of_app. right. by left. }
    destruct Hinv as [[np Z] Hnull' Hrb Halloc Hsize].
    pose proof (_delete_spec T0 s m np t z
                  (fun s' m' => m' !! z = None) Z Hrb Halloc Hz) as Hdel.
    apply wp_run in Hdel as (s' & m' & Hrun & Hfree).
    2: { intros m' np' t' L1 d' L2 _ _ _ _ Hfree. exact Hfree. }
    rewrite (bind_ok _ _ _ _ _ (bind_ok _ _ _ _ _ Hrun)).
    apply bind_err.
    unfold iterator_incr, _check_node, bind. cbn [node_ set_].
    rewrite decide_False by done. unfold ret at 1.
    unfold _next, bind, get_right, bind, load. by rewrite Hfree.
  - destruct (entry_lookup s m t a d Hinv) as (Hnull & Hnil & n & Hn & Hd).
    { rewrite He. apply elem_of_app. right. by left. }
    rewrite iterator_ne_end, bool_decide_eq_true_2 by done. cbn [node_].
    assert (Hget : get_data a m = Ok (d, m)).
    { unfold get_data, bind, load. rewrite Hn. unfold ret. by rewrite Hd. }
    rewrite (bind_ok _ _ _ _ _ Hget).
    rewrite (Hne a d) by (by left).
    rewrite (bind_ok _ _ _ (count, s) m) by done.
    rewrite (bind_ok _ _ _ _ _
               (incr_entry s m t Lp a d (L0 ++ (z, dz) :: L) Hinv He)).
    apply (IH (Lp ++ [(a, d)])); [done| |by intros; eapply Hne; right|done|].
    + by rewrite <- app_assoc.
    + simpl in Hf. lia.
Qed.

Lemma erase_value_fault s m t k z dz :
  order_ok eqb ltb -> Inv s m t -> ascending (keys t) ->
  (z, dz) ∈ entries t -> key_of dz = k ->
  erase_value key_of eqb s k m = Err InvalidAccess.
Proof.
  intros Hord Hinv Hasc Hin Hk.
  apply list_elem_of_split in Hin as (L0 & L & He).
  pose proof Hinv as [[np Z] _ _ _ _].
  unfold erase_value.
  assert (Hb : begin s m = Ok (mk_iterator (this s) (hd_addr s (entries t)), m)).
  { pose proof (begin_spec T0 s m np t
                  (fun it m' => it = mk_iterator (this s) (hd_addr s (entries t))
                                /\ m' = m) Z (conj eq_refl eq_refl)) as Hw.
    by apply wp_run in Hw as (it & m' & Hrun & -> & ->). }
  rewrite (bind_ok _ _ _ _ _ Hb). unfold with_fuel. rewrite He.
  apply (erase_value_loop_fault s m t k z dz L L0 []); [done|done| | |].
  - intros a d Hd. apply not_true_is_false. intros Heq.
    apply (eqb_eq _ _ Hord) in Heq.
    rewrite keys_entries, He, !fmap_app, !fmap_cons in Hasc. cbn [snd] in Hasc.
    apply (ascending_NoDup eqb ltb Hord) in Hasc.
    apply NoDup_app in Hasc as (_ & Hdis & _).
    apply (Hdis (key_of d)).
    + apply list_elem_of_fmap. exists d. split; [done|].
      apply list_elem_of_fmap. by exists (a, d).
    + rewrite Heq, <- Hk. by left.
  - by apply (eqb_eq _ _ Hord).
  - pose proof (Zrep_size _ _ _ _ _ _ Z) as Hsz.
    rewrite addrs_entries, He, length_fmap, length_app in Hsz. simpl in Hsz.
    lia.
Qed.

End Lookups.

(** ** The last call of a run *)

Section LastCall.
Context {T K : Type} (key_of : T -> K) (eqb ltb : K -> K -> bool) (T0 junk : T).
Implicit Types (s : set) (m : gmap ptr (@node_t T)) (t : @tree T).
Local Abbreviation Inv := (RBMethods.Inv T0).
Local Abbreviation ins_tree := (RBInsert.ins_tree key_of ltb).
Local Abbreviation ins_path := (RBInsert.ins_path key_of ltb).
Local Abbreviation search_tree := (RBInsertHelp.search_tree key_of eqb ltb).
Local Abbreviation keys := (RBOrder.keys key_of).
Local Abbreviation ascending := (RBOrder.ascending ltb).
Local Abbreviation run_op := (Container.run_op key_of eqb ltb junk).
Local Abbreviation run_ops := (Container.run_ops key_of eqb ltb junk).
Local Abbreviation from_empty := (Container.from_empty key_of eqb ltb T0 junk).
Local Abbreviation stored := (Container.stored key_of).

Lemma entries_zip t : entries t = zip (addrs t) (elems t).
Proof.
  induction t as [|c l IHl a d r IHr]; [done|]. cbn [entries addrs elems].
  rewrite zip_with_app by apply length_addrs_elems.
  by rewrite IHl, IHr.
Qed.

Lemma entries_ins_tree t z v :
  entries (ins_tree t z v)
  = entries (plug (Node true Leaf z v Leaf) (ins_path (key_of v) t [])).
Proof.
  rewrite !entries_zip. unfold RBInsert.ins_tree.
  rewrite addrs_blacken, elems_blacken.
  rewrite (ins_fix_addrs _ _ _ (Nat.le_refl _)).
  by rewrite (ins_fix_elems _ _ _ (Nat.le_refl _)).
Qed.

Lemma wp_run_ops_app os1 : forall os2 s m Q,
  wp (run_ops s os1) m (fun s1 m1 => wp (run_ops s1 os2) m1 Q) ->
  wp (run_ops s (os1 ++ os2)) m Q.
Proof.
  induction os1 as [|o os1 IH]; intros os2 s m Q H; cbn [app run_ops] in *.
  - exact H.
  - apply wp_bind. unfold wp, bind in H |- *.
    destruct (run_op s o m) as [[s1 m1]|e]; [|done]. by apply IH.
Qed.

(** [insert(v)], with the entry that holds the key afterwards *)
Lemma insert_entry_wp s m t v :
  Inv s m t ->
  wp (run_op s (OpInsert v)) m
     (fun s' m' => exists t' a d,
        Inv s' m' t' /\ (a, d) ∈ entries t' /\
        (order_ok eqb ltb -> ascending (keys t) ->
           ascending (keys t') /\ key_of d = key_of v /\
           (key_of v ∉ keys t -> d = v))).
Proof.
  intros Hinv. cbn [Container.run_op].
  apply wp_bind. eapply insert_spec; [exact Hinv|].
  destruct (search_tree (key_of v) t) as [|c l a d r] eqn:E.
  - intros z m' Hz Hinv'. apply wp_ret. cbn [snd].
    exists (ins_tree t z v), z, v. split_and!; [done| |].
    + rewrite entries_ins_tree, entries_plug. cbn [entries app].
      apply elem_of_app. right. by left.
    + intros Hord Hasc. split_and!; [|done..].
      by apply (ins_tree_ascending key_of eqb ltb Hord).
  - apply wp_ret. cbn [snd]. exists t, a, d.
    apply search_tree_sound in E as [Heq Hin]. split_and!; [done..|].
    intros Hord Hasc. apply (eqb_eq _ _ Hord) in Heq.
    split_and!; [done..|]. intros Hnin. exfalso. apply Hnin.
    rewrite Heq. by apply (entries_key key_of) in Hin.
Qed.

Lemma from_empty_insert_wp self alloc os v m0 :
  alloc <> nullptr ->
  wp (from_empty self alloc (os ++ [OpInsert v])) m0
     (fun s m => exists t a d,
        Inv s m t /\ (a, d) ∈ entries t /\
        (order_ok eqb ltb ->
           ascending (keys t) /\ key_of d = key_of v /\
           (~ stored os (key_of v) -> d = v))).
Proof.
  intros Ha. unfold Container.from_empty. apply wp_bind.
  eapply construct_spec; [exact Ha|]. intros s m Hinv Hthis Halloc.
  apply wp_run_ops_app.
  eapply wp_mono; [by apply run_ops_wp|].
  intros s1 m1 (t1 & Hinv1 & Hlen1 & Hasc1). cbn [Container.run_ops].
  apply wp_bind. eapply wp_mono; [by apply insert_entry_wp|].
  intros s2 m2 (t2 & a & d & Hinv2 & Hin2 & Hasc2). apply wp_ret.
  exists t2, a, d. split_and!; [done..|]. intros Hord.
  destruct (Hasc1 Hord) as [Ha1 Hk1]; [constructor|].
  destruct (Hasc2 Hord Ha1) as (Ha2 & Hkd & Hnew). split_and!; [done..|].
  intros Hns. apply Hnew. intros Hin. apply Hns.
  apply (Hk1 (fun _ => False)); [|done]. intros k. split; [|done].
  intros Hk. by apply elem_of_nil in Hk.
Qed.

End LastCall.

(** ** [map::operator[]] *)

Section MapIndex.
Context {Key V : Type} (eqb ltb : Key -> Key -> bool) (T0 junk : Key * V)
  (V0 : V).
Implicit Types (s : set) (m : gmap ptr (@node_t (Key * V)))
  (t : @tree (Key * V)).
Local Abbreviation Inv := (RBMethods.Inv T0).
Local Abbreviation Zrep := (RBShape.Zrep T0).
Local Abbreviation ins_tree := (RBInsert.ins_tree (@fst Key V) ltb).
Local Abbreviation search_tree :=
  (RBInsertHelp.search_tree (@fst Key V) eqb ltb).

Lemma operator_index_spec s m t key Q :
  Inv s m t ->
  match search_tree key t with
  | Node c l a d r => Q (a, s) m
  | Leaf =>
      forall z m',
        z ∉ nullptr :: nil_ s :: root_ s :: addrs t ->
        m !! z = None ->
        Inv (with_size (wrap (size_ s + 1)) s) m' (ins_tree t z (key, V0)) ->
        Q (z, with_size (wrap (size_ s + 1)) s) m'
  end ->
  wp (operator_index eqb ltb V0 junk s key) m Q.
Proof.
  intros [[np Z] Hnull Hrb Halloc Hsize] HQ. unfold operator_index.
  apply wp_bind. eapply search_spec; [exact Z|].
  destruct (search_tree key t) as [|c l a d r] eqn:E; cbn [addr].
  - wp_steps. apply allocate_node_spec; [done|].
    intros z Hz Hz0. wp_steps.
    set (m1 := <[z:=_]> (<[z:=_]> m)).
    pose proof (Zrep_fresh _ _ _ _ _ _ _ Z Hz) as Hfresh.
    assert (Z1 : Zrep s m1 np [] t).
    { eapply Zrep_ext; [|exact Z]. intros p Hp. unfold m1.
      rewrite !lookup_insert_ne; [done|by intros <-..]. }
    assert (Hz1 : m1 !! z
                  = Some (mk_node nullptr nullptr nullptr false (key, V0))).
    { unfold m1. by rewrite lookup_insert_eq. }
    clearbody m1.
    destruct Hrb as [Hc Hn].
    eapply _insert_spec; [exact Z1|done|exact Hz1|exact Hfresh|].
    cbn [data]. intros m' Z'. apply wp_ret.
    apply HQ.
    + simpl in Hfresh. set_solver.
    + by apply not_elem_of_dom.
    + split; cbn [nil_ root_ allocator_ size_ with_size].
      * exists np. by eapply Zrep_sentinels; [..|exact Z'].
      * rewrite (ins_tree_addrs fst ltb). simpl in Hfresh. set_solver.
      * by apply ins_tree_rb.
      * done.
      * rewrite Hsize, wrap_succ. f_equal. f_equal.
        rewrite <- !length_addrs_elems.
        by rewrite (ins_tree_addrs fst ltb).
  - apply search_tree_sound in E as [_ Hin].
    assert (a ∈ addrs t).
    { rewrite addrs_entries. apply list_elem_of_fmap. by exists (a, d). }
    destruct Z as (Hnd & _). apply NoDup_cons in Hnd as [Hnil _].
    rewrite decide_True by (intros ->; set_solver).
    by apply wp_ret.
Qed.

End MapIndex.

(** ** Integer keys under [==] and [<] *)

Lemma Z_order_ok : order_ok Z.eqb Z.ltb.
Proof.
  split.
  - apply Z.eqb_eq.
  - apply Z.ltb_irrefl.
  - intros a b c H1%Z.ltb_lt H2%Z.ltb_lt. apply Z.ltb_lt. lia.
  - intros a b H1%Z.ltb_ge H2%Z.eqb_neq. apply Z.ltb_lt. lia.
Qed.

Section Runs.
Context {T K : Type} (key_of : T -> K).
Local Abbreviation stored := (Container.stored key_of).

Lemma ops_keys_inserts (vs : list T) : forall (P : K -> Prop) k,
  ops_keys key_of (OpInsert <$> vs) P k <-> P k \/ k ∈ key_of <$> vs.
Proof.
  induction vs as [|v vs IH]; intros P k; cbn [fmap list_fmap ops_keys].
  - rewrite elem_of_nil. tauto.
  - rewrite IH. cbn [op_keys]. rewrite elem_of_cons. tauto.
Qed.

Lemma stored_inserts (vs : list T) k :
  stored (OpInsert <$> vs) k <-> k ∈ key_of <$> vs.
Proof. unfold Container.stored. rewrite ops_keys_inserts. tauto. Qed.

End Runs.

(** C1. Whatever values are inserted into an empty container, the store then
    holds a tree whose root is black, in which no red node has a red child,
    and in which all paths from any one node down to nil leaves count the
    same number of black nodes. *)
Theorem insert_sequence_red_black {T K : Type} (key_of : T -> K)
    (eqb ltb : K -> K -> bool) (T0 junk : T) (self alloc : ptr)
    (m0 : gmap ptr (@node_t T)) (vs : list T) :
  alloc <> nullptr ->
  exists s m t,
    Container.from_empty key_of eqb ltb T0 junk self alloc (OpInsert <$> vs) m0
      = Ok (s, m) /\
    Rep T0 s m t /\
    color t = false /\
    no_red_red t /\
    forall u, subtree u t ->
      exists n, forall x, x ∈ black_counts u -> x = n.
Proof.
  intros Ha.
  destruct (wp_run _ _ _ (from_empty_wp key_of eqb ltb T0 junk self alloc
                            (OpInsert <$> vs) m0 Ha))
    as (s & m & Hrun & t & Hinv & Hlen & Hord).
  exists s, m, t. split; [exact Hrun|].
  destruct Hinv as [Hrep Hnull Hrb Halloc Hsize]. split; [exact Hrep|].
  by apply is_rb_conditions.
Qed.

Lemma insert_sequence_red_black_witness :
  1%nat <> nullptr /\
  exists s m t,
    Container.from_empty (fun x : Z => x) Z.eqb Z.ltb 0 0 1%nat 1%nat
      (OpInsert <$> [5; 2; 8; 1; 9; 3]) ∅ = Ok (s, m) /\
    Rep 0 s m t /\
    color t = false /\
    no_red_red t /\
    forall u, subtree u t ->
      exists n, forall x, x ∈ black_counts u -> x = n.
Proof.
  split; [discriminate|].
  apply (insert_sequence_red_black (fun x : Z => x) Z.eqb Z.ltb 0 0 1%nat 1%nat
           ∅ [5; 2; 8; 1; 9; 3]).
  discriminate.
Defined.

(** C2. After any insertions into an empty container, walking it from
    [begin()] by [++] up to [end()] yields payloads whose keys are strictly
    ascending for the supplied [<]; they are the keys that were inserted. *)
Theorem insert_sequence_traversal_ascending {T K : Type} (key_of : T -> K)
    (eqb ltb : K -> K -> bool) (T0 junk : T) (self alloc : ptr)
    (m0 : gmap ptr (@node_t T)) (vs : list T) :
  order_ok eqb ltb ->
  alloc <> nullptr ->
  exists s m ds,
    Container.from_empty key_of eqb ltb T0 junk self alloc (OpInsert <$> vs) m0
      = Ok (s, m) /\
    traverse s m = Ok (ds, m) /\
    ascending ltb (key_of <$> ds) /\
    forall k, k ∈ key_of <$> ds <-> k ∈ key_of <$> vs.
Proof.
  intros Hord Ha.
  destruct (wp_run _ _ _ (from_empty_wp key_of eqb ltb T0 junk self alloc
                            (OpInsert <$> vs) m0 Ha))
    as (s & m & Hrun & t & Hinv & Hlen & Hasc).
  destruct (Hasc Hord) as [Hasc' Hkeys].
  destruct Hinv as [[np Z] Hnull Hrb Halloc Hsize].
  assert (Hn : nullptr ∉ addrs t).
  { intros Hin. apply Hnull. by do 2 right. }
  destruct (wp_run _ _ _ (traverse_spec T0 s m np t
              (fun ds m' => ds = elems t /\ m' = m) Z Hn (conj eq_refl eq_refl)))
    as (ds & m' & Htr & -> & ->).
  exists s, m, (elems t). split_and!; [done..|].
  intros k. rewrite <- (stored_inserts key_of vs). apply Hkeys.
Qed.

Lemma insert_sequence_traversal_ascending_witness :
  order_ok Z.eqb Z.ltb /\ 1%nat <> nullptr /\
  exists s m ds,
    Container.from_empty (fun x : Z => x) Z.eqb Z.ltb 0 0 1%nat 1%nat
      (OpInsert <$> [5; 2; 8; 1; 9; 3]) ∅ = Ok (s, m) /\
    traverse s m = Ok (ds, m) /\
    ascending Z.ltb ((fun x : Z => x) <$> ds) /\
    forall k, k ∈ (fun x : Z => x) <$> ds
              <-> k ∈ (fun x : Z => x) <$> [5; 2; 8; 1; 9; 3].
Proof.
  split; [exact Z_order_ok|]. split; [discriminate|].
  apply (insert_sequence_traversal_ascending (fun x : Z => x) Z.eqb Z.ltb 0 0
           1%nat 1%nat ∅ [5; 2; 8; 1; 9; 3] Z_order_ok).
  discriminate.
Defined.

(** C5. After any calls of insert, erase and clear on an empty container,
    [size()] is the number of nodes of the tree the store holds. *)
Theorem size_counts_live_nodes {T K : Type} (key_of : T -> K)
    (eqb ltb : K -> K -> bool) (T0 junk : T) (self alloc : ptr)
    (m0 : gmap ptr (@node_t T)) (os : list (@op T K)) :
  alloc <> nullptr ->
  Z.of_nat (length os) < size_type_modulus ->
  exists s m t,
    Container.from_empty key_of eqb ltb T0 junk self alloc os m0 = Ok (s, m) /\
    Rep T0 s m t /\
    RBTree.size s = Z.of_nat (length (addrs t)).
Proof.
  intros Ha Hbound.
  destruct (wp_run _ _ _ (from_empty_wp key_of eqb ltb T0 junk self alloc
                            os m0 Ha))
    as (s & m & Hrun & t & Hinv & Hlen & Hord).
  exists s, m, t. split; [exact Hrun|].
  destruct Hinv as [Hrep Hnull Hrb Halloc Hsize]. split; [exact Hrep|].
  unfold RBTree.size. rewrite Hsize, length_addrs_elems. unfold wrap.
  apply Z.mod_small. lia.
Qed.

Lemma size_counts_live_nodes_witness :
  1%nat <> nullptr /\
  Z.of_nat (length [OpInsert 5; OpInsert 2; OpErase 5; OpInsert 7; OpClear;
                    OpInsert 3]) < size_type_modulus /\
  exists s m t,
    Container.from_empty (fun x : Z => x) Z.eqb Z.ltb 0 0 1%nat 1%nat
      [OpInsert 5; OpInsert 2; OpErase 5; OpInsert 7; OpClear; OpInsert 3] ∅
      = Ok (s, m) /\
    Rep 0 s m t /\
    RBTree.size s = Z.of_nat (length (addrs t)).
Proof.
  split; [discriminate|]. split; [by vm_compute|].
  apply (size_counts_live_nodes (fun x : Z => x) Z.eqb Z.ltb 0 0 1%nat 1%nat ∅
           [OpInsert 5; OpInsert 2; OpErase 5; OpInsert 7; OpClear; OpInsert 3]).
  - discriminate.
  - by vm_compute.
Defined.

(** C6, as the code has it. An iterator whose node pointer is null raises
    the invalid-operation error on [*] and on [++]; an iterator at the end
    position holds the nil sentinel, which is not null, and [++] on it raises
    no such error. *)
Theorem null_iterator_raises_end_does_not {T : Type} (s : set) (it : iterator)
    (m : gmap ptr (@node_t T)) :
  node_ it = nullptr ->
  nil_ s <> nullptr ->
  iterator_incr s it m = Err (RuntimeError "invalid iterator operation") /\
  iterator_deref it m = Err (RuntimeError "invalid iterator operation") /\
  forall msg, iterator_incr s (end_ s) m <> Err (RuntimeError msg).
Proof.
  intros Hnull Hnil. split_and!.
  - unfold iterator_incr, _check_node, bind. by rewrite decide_True.
  - unfold iterator_deref, _check_node, bind. by rewrite decide_True.
  - intros msg. unfold iterator_incr, _check_node, end_. cbn [node_ set_].
    rewrite decide_False by done.
    apply quiet_bind; [apply quiet_ret|]. intros _.
    apply quiet_bind; [apply quiet_next|]. intros n. apply quiet_ret.
Qed.

Lemma null_iterator_raises_end_does_not_witness :
  node_ (mk_iterator 1%nat 0%nat) = nullptr /\
  nil_ (mk_set 1%nat 1%nat 2%nat 1%nat 0) <> nullptr /\
  iterator_incr (mk_set 1%nat 1%nat 2%nat 1%nat 0) (mk_iterator 1%nat 0%nat)
      (∅ : gmap ptr (@node_t Z))
    = Err (RuntimeError "invalid iterator operation") /\
  iterator_deref (mk_iterator 1%nat 0%nat) (∅ : gmap ptr (@node_t Z))
    = Err (RuntimeError "invalid iterator operation") /\
  forall msg,
    iterator_incr (mk_set 1%nat 1%nat 2%nat 1%nat 0)
      (end_ (mk_set 1%nat 1%nat 2%nat 1%nat 0)) (∅ : gmap ptr (@node_t Z))
    <> Err (RuntimeError msg).
Proof.
  split; [reflexivity|]. split; [discriminate|].
  apply (null_iterator_raises_end_does_not
           (mk_set 1%nat 1%nat 2%nat 1%nat 0) (mk_iterator 1%nat 0%nat) ∅).
  - reflexivity.
  - discriminate.
Defined.

(** C6 as stated fails: on a freshly constructed container [++end()]
    succeeds and is [end()] again. *)
Lemma advancing_end_does_not_raise :
  exists s m,
    construct (T:=Z) 0 0 1%nat 1%nat ∅ = Ok (s, m) /\
    iterator_incr s (end_ s) m = Ok (end_ s, m).
Proof.
  remember (construct (T:=Z) 0 0 1%nat 1%nat ∅) as r eqn:E.
  vm_compute in E. subst r. eexists _, _. split; [reflexivity|].
  by vm_compute.
Qed.

(** C3. After [insert(v)], [find] of its key gives an iterator whose
    dereference is the payload stored under that key ([v] itself when the key
    was not stored before), and erasing through that iterator makes [find]
    return [end()]. The [erase(const T&)] overload does not get that far: its
    loop advances the iterator of the node it has just freed, and the run
    ends in an access to freed storage. *)
Theorem find_after_insert_erase_by_value_fault {T K : Type} (key_of : T -> K)
    (eqb ltb : K -> K -> bool) (T0 junk : T) (self alloc : ptr)
    (m0 : gmap ptr (@node_t T)) (os : list (@op T K)) (v : T) :
  order_ok eqb ltb ->
  alloc <> nullptr ->
  exists s m it d,
    Container.from_empty key_of eqb ltb T0 junk self alloc
      (os ++ [OpInsert v]) m0 = Ok (s, m) /\
    find key_of eqb ltb s (key_of v) m = Ok (it, m) /\
    iterator_deref it m = Ok (d, m) /\
    key_of d = key_of v /\
    (~ Container.stored key_of os (key_of v) -> d = v) /\
    erase_value key_of eqb s (key_of v) m = Err InvalidAccess /\
    exists s' m',
      erase s it m = Ok (s', m') /\
      find key_of eqb ltb s' (key_of v) m' = Ok (end_ s', m').
Proof.
  intros Hord Ha.
  destruct (wp_run _ _ _ (from_empty_insert_wp key_of eqb ltb T0 junk self
                            alloc os v m0 Ha))
    as (s & m & Hrun & t & a & d & Hinv & Hin & Hfacts).
  destruct (Hfacts Hord) as (Hasc & Hkd & Hnew).
  destruct (search_tree_found key_of eqb ltb Hord t a d Hasc Hin)
    as (c & l & r & Hs).
  rewrite Hkd in Hs.
  assert (Hfind : find key_of eqb ltb s (key_of v) m
                  = Ok (mk_iterator (this s) a, m)).
  { pose proof (find_spec key_of eqb ltb T0 s m t (key_of v)
                  (fun it m' => it = mk_iterator (this s) a /\ m' = m) Hinv)
      as Hw.
    rewrite Hs in Hw. cbn [addr] in Hw.
    by apply wp_run in Hw as (it & m' & Hr & -> & ->). }
  exists s, m, (mk_iterator (this s) a), d.
  split_and!; [done|done|by eapply deref_entry|done|done| |].
  - by eapply (erase_value_fault key_of eqb ltb T0).
  - pose proof (run_op_wp key_of eqb ltb T0 junk s m t (OpErase (key_of v)) Hinv)
      as Hw.
    apply wp_run in Hw as (s' & m' & Hr & t' & Hinv' & _ & Hasc').
    cbn [Container.run_op] in Hr. unfold erase_found in Hr.
    rewrite (bind_ok _ _ _ _ _ Hfind) in Hr.
    destruct (search_tree_addr key_of eqb ltb T0 _ _ _ _ _ _ _ _ _ Hinv Hs)
      as [_ Hne].
    rewrite iterator_ne_end, bool_decide_eq_true_2 in Hr by done.
    exists s', m'. split; [exact Hr|].
    destruct (Hasc' Hord Hasc) as [Hasc2 Hk2].
    assert (Hnin : key_of v ∉ keys key_of t').
    { intros Hk. apply (Hk2 (fun k => k ∈ keys key_of t)) in Hk; [|done].
      cbn [op_keys] in Hk. by destruct Hk as [_ Hk]. }
    pose proof (find_spec key_of eqb ltb T0 s' m' t' (key_of v)
                  (fun it m'' => it = end_ s' /\ m'' = m') Hinv') as Hw.
    rewrite (search_tree_absent key_of eqb ltb Hord _ _ Hnin) in Hw.
    by apply wp_run in Hw as (it & m'' & Hr' & -> & ->).
Qed.

Lemma find_after_insert_erase_by_value_fault_witness :
  order_ok Z.eqb Z.ltb /\ 1%nat <> nullptr /\
  exists s m it d,
    Container.from_empty (fun x : Z => x) Z.eqb Z.ltb 0 0 1%nat 1%nat
      ([] ++ [OpInsert 1]) ∅ = Ok (s, m) /\
    find (fun x : Z => x) Z.eqb Z.ltb s 1 m = Ok (it, m) /\
    iterator_deref it m = Ok (d, m) /\
    d = 1 /\
    (~ Container.stored (fun x : Z => x) [] 1 -> d = 1) /\
    erase_value (fun x : Z => x) Z.eqb s 1 m = Err InvalidAccess /\
    exists s' m',
      erase s it m = Ok (s', m') /\
      find (fun x : Z => x) Z.eqb Z.ltb s' 1 m' = Ok (end_ s', m').
Proof.
  split; [exact Z_order_ok|]. split; [discriminate|].
  apply (find_after_insert_erase_by_value_fault (fun x : Z => x) Z.eqb Z.ltb
           0 0 1%nat 1%nat ∅ [] 1 Z_order_ok).
  discriminate.
Defined.

(** C4. When the key of [v] is already stored, [insert(v)] returns an
    iterator to the stored element that has this key together with [false],
    and neither the container (its size included) nor the store changes. *)
Theorem insert_present_key_unchanged {T K : Type} (key_of : T -> K)
    (eqb ltb : K -> K -> bool) (T0 junk : T) (self alloc : ptr)
    (m0 : gmap ptr (@node_t T)) (os : list (@op T K)) (v : T) :
  order_ok eqb ltb ->
  alloc <> nullptr ->
  Container.stored key_of os (key_of v) ->
  exists s m it d,
    Container.from_empty key_of eqb ltb T0 junk self alloc os m0 = Ok (s, m) /\
    insert key_of eqb ltb junk s v m = Ok ((it, false, s), m) /\
    iterator_deref it m = Ok (d, m) /\
    key_of d = key_of v.
Proof.
  intros Hord Ha Hst.
  destruct (wp_run _ _ _ (from_empty_wp key_of eqb ltb T0 junk self alloc
                            os m0 Ha))
    as (s & m & Hrun & t & Hinv & Hlen & Hfacts).
  destruct (Hfacts Hord) as [Hasc Hkeys].
  apply Hkeys in Hst.
  destruct (search_tree_present key_of eqb ltb Hord _ _ Hasc Hst)
    as (c & l & a & d & r & Hs & Hkd).
  pose proof (insert_spec key_of eqb ltb T0 junk s m t v
                (fun r m' => r = (mk_iterator (this s) a, false, s) /\ m' = m)
                Hinv) as Hw.
  rewrite Hs in Hw.
  apply wp_run in Hw as (res & m' & Hr & -> & ->); [|done].
  exists s, m, (mk_iterator (this s) a), d. split_and!; [done..| |done].
  apply search_tree_sound in Hs as [_ Hin]. by eapply deref_entry.
Qed.

Lemma insert_present_key_unchanged_witness :
  order_ok Z.eqb Z.ltb /\ 1%nat <> nullptr /\
  Container.stored (fun x : Z => x) [OpInsert 4; OpInsert 7] 7 /\
  exists s m it d,
    Container.from_empty (fun x : Z => x) Z.eqb Z.ltb 0 0 1%nat 1%nat
      [OpInsert 4; OpInsert 7] ∅ = Ok (s, m) /\
    insert (fun x : Z => x) Z.eqb Z.ltb 0 s 7 m = Ok ((it, false, s), m) /\
    iterator_deref it m = Ok (d, m) /\
    d = 7.
Proof.
  split; [exact Z_order_ok|]. split; [discriminate|].
  assert (Hst : Container.stored (fun x : Z => x) [OpInsert 4; OpInsert 7] 7).
  { cbn. by left. }
  split; [exact Hst|].
  apply (insert_present_key_unchanged (fun x : Z => x) Z.eqb Z.ltb 0 0
           1%nat 1%nat ∅ [OpInsert 4; OpInsert 7] 7 Z_order_ok).
  - discriminate.
  - exact Hst.
Defined.

(** C9. The copy constructor starts from a container without allocator and
    asks for the sentinel nodes before it takes over the allocator of the
    source: the first allocation goes through a null allocator pointer. *)
Theorem copy_construct_null_allocator {T K : Type} (key_of : T -> K)
    (ltb : K -> K -> bool) (T0 junk : T) (self : ptr) (other : set)
    (m : gmap ptr (@node_t T)) :
  copy_construct key_of ltb T0 junk self other m = Err InvalidAccess.
Proof.
  unfold copy_construct, _set_by_copy, _clean, bind. cbn [root_ nil_].
  rewrite decide_False by (intros H; by apply H). unfold ret at 1.
  cbn [nil_]. rewrite decide_False by (intros H; by apply H). unfold ret at 1.
  unfold _make_nil_node, bind, _allocate_node. cbn [allocator_].
  rewrite decide_True by done. reflexivity.
Qed.

End Guarantees.

(** * Runs on concrete inputs *)

Module Examples.
Import RBTree Container Pool.

(** [set<int>] on a store that starts empty; the container lives at address
    1 and so does its allocator *)
Definition int_set (os : list (@op Z Z)) : M (T:=Z) set :=
  from_empty (fun x : Z => x) Z.eqb Z.ltb 0 0 1%nat 1%nat os.

Example int_set_in_order :
  exists s m,
    int_set (OpInsert <$> [5; 2; 8; 1; 9; 3]) ∅ = Ok (s, m) /\
    traverse s m = Ok ([1; 2; 3; 5; 8; 9], m) /\
    RBTree.size s = 6.
Proof.
  remember (int_set (OpInsert <$> [5; 2; 8; 1; 9; 3]) ∅) as r eqn:E.
  vm_compute in E. subst r. eexists _, _. split; [reflexivity|].
  split; by vm_compute.
Qed.

Example int_set_erase_found :
  exists s m,
    int_set [OpInsert 5; OpInsert 2; OpInsert 8; OpErase 5] ∅ = Ok (s, m) /\
    traverse s m = Ok ([2; 8], m) /\
    RBTree.size s = 2 /\
    find (fun x : Z => x) Z.eqb Z.ltb s 5 m = Ok (end_ s, m).
Proof.
  remember (int_set [OpInsert 5; OpInsert 2; OpInsert 8; OpErase 5] ∅)
    as r eqn:E.
  vm_compute in E. subst r. eexists _, _. split; [reflexivity|].
  split_and!; by vm_compute.
Qed.

Example int_set_erase_by_value :
  exists s m,
    int_set [OpInsert 1] ∅ = Ok (s, m) /\
    erase_value (fun x : Z => x) Z.eqb s 1 m = Err InvalidAccess /\
    erase_value (fun x : Z => x) Z.eqb s 2 m = Ok (0, s, m).
Proof.
  remember (int_set [OpInsert 1] ∅) as r eqn:E.
  vm_compute in E. subst r. eexists _, _. split; [reflexivity|].
  split; by vm_compute.
Qed.

Example int_set_copy :
  exists s m,
    int_set [OpInsert 1] ∅ = Ok (s, m) /\
    copy_construct (fun x : Z => x) Z.ltb 0 0 2%nat s m = Err InvalidAccess.
Proof.
  remember (int_set [OpInsert 1] ∅) as r eqn:E.
  vm_compute in E. subst r. eexists _, _. split; [reflexivity|].
  by vm_compute.
Qed.

(** a pool of 2 chunks per slab with an 8-byte header, serving 24-byte
    requests from a heap that starts at address 1000 *)
Example pool_two_requests :
  exists p w,
    serve_all 8 0 24 (Pool.construct 2, []) [Alloc; Alloc]
      (mk_sys 1000 100000 [] ∅ ∅) = Done ((p, [1008; 1040]), w) /\
    chunk_size_ p = 32 /\
    blocks w = [(1000, 64)] /\
    vstore w !! Vector.buffer_ (buffers_ p) = Some [1000].
Proof.
  remember (serve_all 8 0 24 (Pool.construct 2, []) [Alloc; Alloc]
              (mk_sys 1000 100000 [] ∅ ∅)) as r eqn:E.
  vm_compute in E. subst r. eexists _, _. split; [reflexivity|].
  split_and!; reflexivity.
Qed.

Example pool_third_request :
  serve_all 8 0 24 (Pool.construct 2, []) [Alloc; Alloc; Alloc]
    (mk_sys 1000 100000 [] ∅ ∅) = Fault BadAccess.
Proof. by vm_compute. Qed.

Example pool_reuse :
  exists p w,
    serve_all 8 0 24 (Pool.construct 2, []) [Alloc; Alloc; Free 1%nat; Alloc]
      (mk_sys 1000 100000 [] ∅ ∅) = Done ((p, [1040; 1008]), w) /\
    blocks w = [(1000, 64)].
Proof.
  remember (serve_all 8 0 24 (Pool.construct 2, [])
              [Alloc; Alloc; Free 1%nat; Alloc] (mk_sys 1000 100000 [] ∅ ∅))
    as r eqn:E.
  vm_compute in E. subst r. eexists _, _. split; reflexivity.
Qed.

End Examples.

(** * Which cells are live: allocation and release *)

Module RBLive.
Import RBTree RBShape.
Section Steady.
Context {T : Type}.
Implicit Types (m : gmap ptr (@node_t T)).

(** [c] neither allocates nor releases a cell *)
Definition steady {A} (c : M (T:=T) A) : Prop :=
  forall m a m', c m = Ok (a, m') -> dom m' = dom m.

Lemma steady_ret {A} (a : A) : steady (ret a).
Proof. intros m a' m' H. by injection H as <- <-. Qed.

Lemma steady_fail {A} e : steady (fail (T:=T) (A:=A) e).
Proof. intros m a' m' H. done. Qed.

Lemma steady_bind {A B} (c : M A) (k : A -> M B) :
  steady c -> (forall a, steady (k a)) -> steady (bind c k).
Proof.
  intros Hc Hk m b m' H. unfold bind in H.
  destruct (c m) as [[a m1]|e] eqn:E; [|done].
  rewrite (Hk _ _ _ _ H). by eapply Hc.
Qed.

Lemma steady_load p : steady (load (T:=T) p).
Proof.
  intros m a m' H. unfold load in H. destruct (m !! p); [|done].
  by injection H as <- <-.
Qed.

Lemma steady_store p (f : node_t -> node_t) : steady (store (T:=T) p f).
Proof.
  intros m a m' H. unfold store in H. destruct (m !! p) as [n0|] eqn:E;
    [|done].
  injection H as <- <-. rewrite dom_insert_L.
  apply elem_of_dom_2 in E. set_solver.
Qed.

Lemma steady_with_fuel {A} (f : nat -> M A) :
  (forall fuel, steady (f fuel)) -> steady (with_fuel f).
Proof. intros H m a m' E. by eapply H. Qed.

Lemma steady_if {A} (b : bool) (c1 c2 : M A) :
  steady c1 -> steady c2 -> steady (if b then c1 else c2).
Proof. by destruct b. Qed.

Lemma steady_if_dec {A} (P : Prop) (d : Decision P) (c1 c2 : M A) :
  steady c1 -> steady c2 -> steady (if d then c1 else c2).
Proof. by destruct d. Qed.

Lemma steady_run {A} (c : M A) m a m' :
  steady c -> c m = Ok (a, m') -> dom m' = dom m.
Proof. intros H. apply H. Qed.

End Steady.

Ltac steady_step :=
  lazymatch goal with
  | |- steady (bind _ _) => apply steady_bind; [|intros ?]
  | |- steady (ret _) => apply steady_ret
  | |- steady (fail _) => apply steady_fail
  | |- steady (load _) => apply steady_load
  | |- steady (store _ _) => apply steady_store
  | |- steady (with_fuel _) => apply steady_with_fuel; intros ?
  | |- steady (if decide _ then _ else _) => apply steady_if_dec
  | |- steady (if _ then _ else _) => apply steady_if
  | |- steady (let '(_, _) := ?r in _) => destruct r
  | |- steady (get_parent _) => unfold get_parent
  | |- steady (get_left _) => unfold get_left
  | |- steady (get_right _) => unfold get_right
  | |- steady (get_red _) => unfold get_red
  | |- steady (get_data _) => unfold get_data
  | |- steady (get_grandparent _) => unfold get_grandparent
  | |- steady (get_left_red _) => unfold get_left_red
  | |- steady (get_right_red _) => unfold get_right_red
  | |- steady (set_parent _ _) => unfold set_parent
  | |- steady (set_left _ _) => unfold set_left
  | |- steady (set_right _ _) => unfold set_right
  | |- steady (set_red _ _) => unfold set_red
  | |- steady (set_data _ _) => unfold set_data
  | |- steady (_left_rotate _ _) => unfold _left_rotate
  | |- steady (_right_rotate _ _) => unfold _right_rotate
  end.

Section SteadyCode.
Context {T K : Type} (key_of : T -> K) (eqb ltb : K -> K -> bool).
Implicit Types (s : set) (m : gmap ptr (@node_t T)).

Lemma steady_search_loop s k : forall fuel x,
  steady (_search_loop key_of eqb ltb fuel s k x).
Proof.
  induction fuel as [|fuel IH]; intros x; cbn [_search_loop].
  - apply steady_fail.
  - repeat first [apply IH | steady_step].
Qed.

Lemma steady_search s k : steady (_search key_of eqb ltb s k).
Proof.
  unfold _search. repeat first [apply steady_search_loop | steady_step].
Qed.

Lemma steady_find s k : steady (find key_of eqb ltb s k).
Proof. unfold find. repeat first [apply steady_search | steady_step]. Qed.

Lemma steady_insert_help_loop s z : forall fuel y x,
  steady (_insert_help_loop key_of ltb fuel s z y x).
Proof.
  induction fuel as [|fuel IH]; intros y x; cbn [_insert_help_loop].
  - apply steady_fail.
  - repeat first [apply IH | steady_step].
Qed.

Lemma steady_insert_loop s : forall fuel x,
  steady (_insert_loop (T:=T) fuel s x).
Proof.
  induction fuel as [|fuel IH]; intros x; cbn [_insert_loop].
  - apply steady_fail.
  - repeat first [apply IH | steady_step].
Qed.

Lemma steady_insert s x : steady (_insert key_of ltb s x).
Proof.
  unfold _insert, _insert_help.
  repeat first [apply steady_insert_help_loop | apply steady_insert_loop
               | steady_step].
Qed.

End SteadyCode.

Section SteadyNodes.
Context {T : Type}.
Implicit Types (s : set) (m : gmap ptr (@node_t T)).

Lemma steady_delete_fix_up_loop s : forall fuel root x,
  steady (_delete_fix_up_loop (T:=T) fuel s root x).
Proof.
  induction fuel as [|fuel IH]; intros root x; cbn [_delete_fix_up_loop].
  - apply steady_fail.
  - repeat first [apply IH | steady_step].
Qed.

Lemma steady_delete_fix_up s x : steady (_delete_fix_up (T:=T) s x).
Proof.
  unfold _delete_fix_up.
  repeat first [apply steady_delete_fix_up_loop | steady_step].
Qed.

Lemma steady_leftmost_loop nil : forall fuel y,
  steady (_leftmost_loop (T:=T) fuel nil y).
Proof.
  induction fuel as [|fuel IH]; intros y; cbn [_leftmost_loop].
  - apply steady_fail.
  - repeat first [apply IH | steady_step].
Qed.

Lemma steady_successor_climb : forall fuel x y,
  steady (_successor_climb (T:=T) fuel x y).
Proof.
  induction fuel as [|fuel IH]; intros x y; cbn [_successor_climb].
  - apply steady_fail.
  - repeat first [apply IH | steady_step].
Qed.

Lemma steady_tree_successor s x : steady (_tree_successor (T:=T) s x).
Proof.
  unfold _tree_successor.
  repeat first [apply steady_leftmost_loop | apply steady_successor_climb
               | steady_step].
Qed.

(** [_free_node] releases exactly the cell it is given *)
Lemma free_node_dom s p m a m' :
  _free_node (T:=T) s p m = Ok (a, m') -> dom m' = dom m ∖ {[p]}.
Proof.
  unfold _free_node. destruct (decide _); [done|].
  destruct (m !! p); [|done]. intros [= <- <-]. by rewrite dom_delete_L.
Qed.

(** [_allocate_node] adds exactly the cell it returns, at an address that
    was not live and is not null *)
Lemma allocate_node_dom junk s m z m' :
  _allocate_node (T:=T) junk s m = Ok (z, m') ->
  (z ∉ dom m) /\ z <> nullptr /\ dom m' = {[z]} ∪ dom m.
Proof.
  unfold _allocate_node. destruct (decide _); [done|].
  intros [= <- <-].
  pose proof (is_fresh ({[nullptr]} ∪ dom m)) as Hf.
  split_and!; [set_solver|set_solver|by rewrite dom_insert_L].
Qed.

(** [c] releases exactly the cell at [z] *)
Definition releases {A} (z : ptr) (c : M (T:=T) A) : Prop :=
  forall m a m', c m = Ok (a, m') -> dom m' = dom m ∖ {[z]}.

Lemma releases_bind_l {A B} z (c : M A) (k : A -> M B) :
  steady c -> (forall a, releases z (k a)) -> releases z (bind c k).
Proof.
  intros Hc Hk m b m' H. unfold bind in H.
  destruct (c m) as [[a m1]|e] eqn:E; [|done].
  rewrite (Hk _ _ _ _ H). by rewrite (Hc _ _ _ E).
Qed.

Lemma releases_bind_r {A B} z (c : M A) (k : A -> M B) :
  releases z c -> (forall a, steady (k a)) -> releases z (bind c k).
Proof.
  intros Hc Hk m b m' H. unfold bind in H.
  destruct (c m) as [[a m1]|e] eqn:E; [|done].
  rewrite (Hk _ _ _ _ H). by rewrite (Hc _ _ _ E).
Qed.

Lemma releases_free s z : releases z (_free_node (T:=T) s z).
Proof. intros m a m' H. by eapply free_node_dom. Qed.

Ltac releases_prefix :=
  repeat (apply releases_bind_l;
          [repeat first [apply steady_delete_fix_up
                        | apply steady_tree_successor | steady_step]
          |intros ?]).

(** [_delete] releases exactly the node it is asked to remove *)
Lemma delete_releases s z : releases z (_delete (T:=T) s z).
Proof.
  unfold _delete. cbn zeta.
  do 9 (apply releases_bind_l;
        [repeat first [apply steady_tree_successor | steady_step]|intros ?]).
  apply releases_bind_r; [|intros; apply steady_ret].
  destruct (decide _) as [Hne|Heq].
  - releases_prefix. apply releases_free.
  - apply dec_stable in Heq. subst. releases_prefix. apply releases_free.
Qed.

End SteadyNodes.
End RBLive.

(** * The cells a container owns *)

Module RBCells.
Import RBTree RBShape RBSpec RBInsert RBInsertHelp RBIter RBOrder RBMethods.
Import RBDeleteSpec RBMethods2 Container ContainerSpec RBLive.

Section Unique.
Context {T : Type} (T0 : T).
Implicit Types (s : set) (m : gmap ptr (@node_t T)) (t : @tree T).
Local Abbreviation Inv := (RBMethods.Inv T0).

(** the store determines the shape it holds *)
Lemma rep_unique s m : forall t t' par par',
  rep s m t par -> rep s m t' par' -> addr s t = addr s t' ->
  nil_ s ∉ addrs t -> nil_ s ∉ addrs t' -> t = t'.
Proof.
  induction t as [|c l IHl a d r IHr]; intros [|c' l' a' d' r'] par par';
    cbn [rep addr addrs]; intros H H' Ha Hn Hn'.
  - done.
  - exfalso. apply Hn'. rewrite Ha. set_solver.
  - exfalso. apply Hn. rewrite <- Ha. set_solver.
  - subst a'. destruct H as (Hm & Hl & Hr), H' as (Hm' & Hl' & Hr').
    rewrite Hm in Hm'. injection Hm' as _ El Er -> ->.
    f_equal.
    + eapply IHl; [exact Hl|exact Hl'|exact El|set_solver..].
    + eapply IHr; [exact Hr|exact Hr'|exact Er|set_solver..].
Qed.

Lemma Inv_unique s m t t' : Inv s m t -> Inv s m t' -> t = t'.
Proof.
  intros [[np Z] _ _ _ _] [[np' Z'] _ _ _ _].
  destruct Z as (Hnd & _ & Hk & Ht), Z' as (Hnd' & _ & Hk' & Ht').
  cbn [rep_ctx kaddrs app paddr] in *.
  rewrite Hk in Hk'. injection Hk' as E.
  apply NoDup_cons in Hnd as [Hn _], Hnd' as [Hn' _].
  eapply rep_unique; [exact Ht|exact Ht'|exact E|set_solver..].
Qed.

Lemma wp_both {A} (c : M A) m (Q P : A -> gmap ptr (@node_t T) -> Prop) :
  wp c m Q -> (forall a m', c m = Ok (a, m') -> P a m') ->
  wp c m (fun a m' => Q a m' /\ P a m').
Proof.
  unfold wp. destruct (c m) as [[a m']|e]; [|done]. intros HQ HP.
  split; [done|]. by apply HP.
Qed.

Lemma wp_and {A} (c : M A) m (Q P : A -> gmap ptr (@node_t T) -> Prop) :
  wp c m Q -> wp c m P -> wp c m (fun a m' => Q a m' /\ P a m').
Proof. unfold wp. by destruct (c m) as [[a m']|e]. Qed.

Lemma bind_inv {A B} (c : M (T:=T) A) (k : A -> M B) m b m2 :
  bind c k m = Ok (b, m2) ->
  exists a m1, c m = Ok (a, m1) /\ k a m1 = Ok (b, m2).
Proof.
  unfold bind. destruct (c m) as [[a m1]|e]; [|done]. eauto.
Qed.

Lemma ret_inv {A} (a b : A) m m' :
  ret (T:=T) a m = Ok (b, m') -> b = a /\ m' = m.
Proof. by intros [= <- <-]. Qed.

End Unique.

Section Cells.
Context {T K : Type} (key_of : T -> K) (eqb ltb : K -> K -> bool) (T0 junk : T).
Implicit Types (s : set) (m : gmap ptr (@node_t T)) (t : @tree T)
  (D : gset ptr).
Local Abbreviation Inv := (RBMethods.Inv T0).
Local Abbreviation ins_tree := (RBInsert.ins_tree key_of ltb).
Local Abbreviation search_tree := (RBInsertHelp.search_tree key_of eqb ltb).

(** [_insert] hands back the node it was given and counts it *)
Lemma _insert_result s x m r m' :
  _insert key_of ltb s x m = Ok (r, m') ->
  r = (x, with_size (wrap (size_ s + 1)) s) /\ dom m' = dom m.
Proof.
  intros H. split; [|by eapply (steady_insert key_of ltb)].
  unfold _insert in H.
  repeat (apply bind_inv in H as (? & ? & _ & H)).
  by apply ret_inv in H as [-> _].
Qed.

(** [insert] allocates one cell when it reports a new element and none
    otherwise *)
Lemma insert_cells s v m it b s' m' :
  insert key_of eqb ltb junk s v m = Ok (it, b, s', m') ->
  if b then (node_ it ∉ dom m) /\ node_ it <> nullptr /\
            dom m' = {[node_ it]} ∪ dom m /\
            s' = with_size (wrap (size_ s + 1)) s
  else dom m' = dom m /\ s' = s.
Proof.
  intros H. unfold insert in H.
  apply bind_inv in H as (e & m1 & Hs & H).
  apply (steady_search key_of eqb ltb) in Hs.
  destruct (decide _).
  - apply ret_inv in H as [[= -> -> ->] ->]. done.
  - apply bind_inv in H as (x & m2 & Ha & H).
    apply allocate_node_dom in Ha as (Hx & Hx0 & Hd2).
    apply bind_inv in H as ([] & m3 & Hw & H).
    apply steady_store in Hw.
    apply bind_inv in H as (r & m4 & Hi & H).
    apply _insert_result in Hi as [-> Hd4].
    apply ret_inv in H as [[= -> -> ->] ->]. cbn [node_].
    rewrite <- Hs. split_and!; [done..| |done].
    by rewrite Hd4, Hw, Hd2.
Qed.

(** [trusted_insert] always allocates one cell *)
Lemma trusted_insert_cells s v m it s' m' :
  trusted_insert key_of ltb junk s v m = Ok (it, s', m') ->
  (node_ it ∉ dom m) /\ node_ it <> nullptr /\
  dom m' = {[node_ it]} ∪ dom m /\
  s' = with_size (wrap (size_ s + 1)) s.
Proof.
  intros H. unfold trusted_insert in H.
  apply bind_inv in H as (x & m2 & Ha & H).
  apply allocate_node_dom in Ha as (Hx & Hx0 & Hd2).
  apply bind_inv in H as ([] & m3 & Hw & H).
  apply steady_store in Hw.
  apply bind_inv in H as (r & m4 & Hi & H).
  apply _insert_result in Hi as [-> Hd4].
  apply ret_inv in H as [[= -> ->] ->]. cbn [node_].
  split_and!; [done..| |done].
  by rewrite Hd4, Hw, Hd2.
Qed.

(** [erase(pos)] releases the cell of [pos] and no other *)
Lemma erase_cells s pos m s' m' :
  erase s pos m = Ok (s', m') ->
  node_ pos ∈ dom m /\ dom m' = dom m ∖ {[node_ pos]} /\
  s' = with_size (wrap (size_ s - 1)) s.
Proof.
  clear K key_of eqb ltb junk.
  intros H. unfold erase in H. destruct (decide _); [done|].
  split_and!.
  - unfold _delete in H. apply bind_inv in H as (zl & m1 & Hl & _).
    unfold get_left in Hl. apply bind_inv in Hl as (nz & m2 & Hl & _).
    unfold load in Hl. destruct (m !! node_ pos) eqn:E; [|done].
    by apply elem_of_dom_2 in E.
  - by eapply delete_releases.
  - unfold _delete in H.
    repeat (apply bind_inv in H as (? & ? & _ & H)).
    by apply ret_inv in H as [-> _].
Qed.

(** [_destroy_helper] releases every node of the subtree and nothing else *)
Lemma destroy_helper_frees s : forall t par fuel m,
  allocator_ s <> nullptr ->
  rep s m t par -> NoDup (addrs t) -> nil_ s ∉ addrs t ->
  (height t < fuel)%nat ->
  wp (_destroy_helper fuel s (addr s t)) m
     (fun _ m' => dom m' = dom m ∖ list_to_set (addrs t) /\
                  forall p, p ∉ addrs t -> m' !! p = m !! p).
Proof.
  clear K key_of eqb ltb junk.
  induction t as [|c l IHl a d r IHr]; intros par fuel m Ha Hrep Hnd Hnil Hf;
    (destruct fuel as [|fuel]; [simpl in Hf; lia|]);
    cbn [_destroy_helper addr].
  - rewrite decide_False by (intros H; by apply H). apply wp_ret.
    split; [|done]. cbn [addrs list_to_set]. set_solver.
  - cbn [addrs] in Hnd, Hnil. cbn [height] in Hf.
    apply NoDup_app in Hnd as (Hndl & Hlr & Hndr).
    apply NoDup_cons in Hndr as [Har Hndr].
    rewrite decide_True by (intros ->; set_solver).
    destruct Hrep as (Hma & Hl & Hr).
    apply wp_bind. eapply wp_get_left; [exact Hma|]. cbn [left].
    apply wp_bind.
    eapply wp_mono; [eapply (IHl a fuel m); [done|done|done|set_solver|lia]|].
    intros [] m1 [D1 H1]. cbn beta.
    assert (Hal : a ∉ addrs l) by (intros Hin; apply (Hlr a Hin); set_solver).
    apply wp_bind. eapply wp_get_right; [by rewrite H1|]. cbn [right].
    apply wp_bind.
    eapply wp_mono; [eapply (IHr a fuel m1); [done| |done|set_solver|lia]|].
    { eapply rep_ext; [|exact Hr]. intros p Hp. apply H1.
      intros Hin. apply (Hlr p Hin). set_solver. }
    intros [] m2 [D2 H2]. cbn beta.
    apply free_node_spec; [done|by rewrite H2, H1|].
    split.
    + rewrite dom_delete_L, D2, D1. cbn [addrs].
      rewrite list_to_set_app_L, list_to_set_cons. set_solver.
    + intros p Hp. cbn [addrs] in Hp.
      rewrite lookup_delete_ne by (intros ->; set_solver).
      rewrite H2, H1; [done|set_solver..].
Qed.

(** [clear()] releases every node, keeps both sentinels and leaves an empty
    container *)
Lemma clear_frees s m t :
  Inv s m t ->
  wp (clear s) m
     (fun s' m' => s' = with_size 0 s /\ Inv s' m' Leaf /\
                   dom m' = dom m ∖ list_to_set (addrs t)).
Proof.
  clear K key_of eqb ltb junk.
  intros Hinv.
  eapply wp_mono;
    [apply (wp_both _ _ (fun s' m' => s' = with_size 0 s /\ Inv s' m' Leaf)
              (fun _ m' => dom m' = dom m ∖ list_to_set (addrs t)))
    |by intros s' m' [[? ?] ?]].
  - eapply clear_spec; [exact Hinv|]. intros m' Hinv'. by split.
  - intros s' m' H.
    destruct Hinv as [[np Z] Hnull Hrb Halloc Hsize].
    pose proof (Zrep_size _ _ _ _ _ _ Z) as Hsz.
    pose proof (height_addrs t) as Hh.
    destruct Z as (Hnd & Hnil & Hk & Ht).
    cbn [kaddrs app rep_ctx paddr] in Hnd, Hk, Ht.
    apply NoDup_cons in Hnd as [Hn1 Hnd]. apply NoDup_cons in Hnd as [Hn2 Hnd].
    unfold clear in H.
    apply bind_inv in H as (r & m1 & Hr & H).
    unfold get_left, bind, load in Hr. rewrite Hk in Hr.
    apply ret_inv in Hr as [-> ->]. cbn [left] in H.
    apply bind_inv in H as ([] & m2 & Hd & H).
    unfold with_fuel in Hd.
    pose proof (destroy_helper_frees s t (root_ s) (S (base.size m)) m Halloc Ht
                  Hnd ltac:(set_solver) ltac:(simpl in Hsz; lia)) as Hw.
    unfold wp in Hw. rewrite Hd in Hw. destruct Hw as [D2 _].
    apply bind_inv in H as ([] & m3 & Hst & H).
    apply steady_store in Hst. apply ret_inv in H as [_ ->].
    by rewrite Hst.
Qed.

(** the destructor's [_clean()] releases every node and both sentinels *)
Lemma clean_frees s m t :
  Inv s m t ->
  wp (_clean s) m
     (fun s' m' => nil_ s' = nullptr /\ root_ s' = nullptr /\
        dom m' = dom m ∖ list_to_set (nil_ s :: root_ s :: addrs t) /\
        forall p, p ∉ nil_ s :: root_ s :: addrs t -> m' !! p = m !! p).
Proof.
  clear K key_of eqb ltb junk.
  intros [[np Z] Hnull Hrb Halloc Hsize].
  pose proof (Zrep_size _ _ _ _ _ _ Z) as Hsz.
  pose proof (height_addrs t) as Hh.
  destruct Z as (Hnd & Hnil & Hk & Ht).
  cbn [kaddrs app rep_ctx paddr] in Hnd, Hk, Ht.
  apply NoDup_cons in Hnd as [Hn1 Hnd]. apply NoDup_cons in Hnd as [Hn2 Hnd].
  unfold _clean.
  rewrite decide_True by (intros E; apply Hnull; rewrite <- E; set_solver).
  apply wp_bind, wp_bind. eapply wp_get_left; [exact Hk|]. cbn [left].
  apply wp_bind, wp_with_fuel.
  eapply wp_mono;
    [eapply (destroy_helper_frees s t (root_ s));
     [done|exact Ht|exact Hnd|set_solver|simpl in Hsz; lia]|].
  intros [] m1 [D1 H1]. cbn beta.
  apply wp_bind. apply free_node_spec; [done| |].
  { rewrite H1; [by rewrite Hk|exact Hn2]. }
  apply wp_ret. cbn [nil_ root_ allocator_].
  rewrite decide_True by (intros E; apply Hnull; rewrite <- E; set_solver).
  apply wp_bind. apply free_node_spec; [done| |].
  { rewrite lookup_delete_ne by set_solver.
    rewrite H1; [by rewrite Hnil|set_solver]. }
  apply wp_ret. cbn [nil_ root_]. split_and!; [done..| |].
  - rewrite !dom_delete_L, D1, !list_to_set_cons. set_solver.
  - intros p Hp. rewrite !lookup_delete_ne by set_solver.
    apply H1. set_solver.
Qed.

(** the constructor allocates the two sentinels *)
Lemma construct_cells self alloc m s m' :
  construct T0 junk self alloc m = Ok (s, m') ->
  (nil_ s ∉ dom m) /\ (root_ s ∉ dom m) /\
  dom m' = {[nil_ s; root_ s]} ∪ dom m.
Proof.
  clear K key_of eqb ltb.
  intros H. unfold construct, _make_nil_node, _make_root_node in H.
  apply bind_inv in H as (n & m3 & Hn & H).
  apply bind_inv in Hn as (n' & m1 & Ha & Hn).
  apply allocate_node_dom in Ha as (Hn1 & _ & D1).
  apply bind_inv in Hn as ([] & m2 & Hw & Hn).
  apply steady_store in Hw. apply ret_inv in Hn as [-> ->].
  apply bind_inv in H as (r & m6 & Hr & H).
  apply bind_inv in Hr as (r' & m4 & Ha & Hr).
  apply allocate_node_dom in Ha as (Hr1 & _ & D4).
  apply bind_inv in Hr as ([] & m5 & Hw' & Hr).
  apply steady_store in Hw'. apply ret_inv in Hr as [-> ->].
  apply ret_inv in H as [-> ->]. cbn [nil_ root_].
  rewrite Hw', D4, Hw, D1. rewrite Hw, D1 in Hr1.
  split_and!; [done|set_solver|set_solver].
Qed.

(** ** Ownership: beside the cells [D] that were live before the container
    was built, the live cells are the two sentinels and the nodes *)

Definition owns D s m t : Prop :=
  dom m = D ∪ list_to_set (nil_ s :: root_ s :: addrs t) /\
  forall p, p ∈ nil_ s :: root_ s :: addrs t -> p ∉ D.

Lemma owns_size D s m t :
  Inv s m t -> owns D s m t ->
  base.size (dom m) = (base.size D + 2 + length (addrs t))%nat.
Proof.
  clear K key_of eqb ltb junk.
  intros [[np Z] _ _ _ _] [Hd Hdis]. destruct Z as (Hnd & _).
  cbn [kaddrs app] in Hnd.
  rewrite Hd, size_union by set_solver.
  rewrite size_list_to_set by done. simpl. lia.
Qed.

Lemma run_op_owns D s m t o :
  Inv s m t -> owns D s m t ->
  wp (run_op key_of eqb ltb junk s o) m
     (fun s' m' => exists t', Inv s' m' t' /\ owns D s' m' t').
Proof.
  intros Hinv [Hd Hdis]. destruct o as [v|k0|]; cbn [run_op].
  - apply wp_bind.
    eapply wp_mono;
      [apply (wp_both _ _
                (fun (r : iterator * bool * set) m' =>
                   exists t', Inv (snd r) m' t' /\
                   if snd (fst r) then addrs t' ≡ₚ node_ (fst (fst r)) :: addrs t
                   else t' = t)
                (fun (r : iterator * bool * set) m' => if snd (fst r)
                   then (node_ (fst (fst r)) ∉ dom m) /\
                        dom m' = {[node_ (fst (fst r))]} ∪ dom m /\
                        snd r = with_size (wrap (size_ s + 1)) s
                   else dom m' = dom m /\ snd r = s))|].
    + eapply insert_spec; [exact Hinv|].
      destruct (search_tree (key_of v) t) as [|c l a d r] eqn:E.
      * intros z m' Hz Hinv'. cbn [fst snd node_].
        exists (ins_tree t z v). split; [done|]. apply ins_tree_addrs.
      * cbn [fst snd]. by exists t.
    + intros [[it b] s'] m' H. cbn [fst snd].
      apply insert_cells in H. destruct b; [|done]. tauto.
    + intros [[it b] s'] m'. cbn [fst snd].
      intros [(t' & Hinv' & Ht') Hc]. apply wp_ret. cbn [snd].
      exists t'. split; [done|]. destruct b.
      * destruct Hc as (Hz & Hd' & ->). unfold owns.
        cbn [nil_ root_ with_size]. split.
        -- rewrite Hd', Hd, !list_to_set_cons.
           rewrite (list_to_set_perm_L _ _ Ht'), list_to_set_cons.
           set_solver.
        -- intros p Hp. rewrite Ht' in Hp. cbn [root_ with_size] in Hp.
           rewrite !elem_of_cons in Hp.
           destruct Hp as [Hp|[Hp|[->|Hp]]];
             [apply Hdis; set_solver..| |apply Hdis; set_solver].
           intros Hin. apply Hz. rewrite Hd. set_solver.
      * destruct Hc as (Hd' & ->). subst t'. split; [by rewrite Hd'|done].
  - unfold erase_found. apply wp_bind. eapply find_spec; [exact Hinv|].
    destruct (search_tree k0 t) as [|c l a d r] eqn:E; cbn [addr].
    + rewrite iterator_ne_end.
      rewrite bool_decide_eq_false_2 by (intros H; by apply H).
      apply wp_ret. by exists t.
    + destruct (search_tree_addr key_of eqb ltb T0 s m t k0 c l a d r Hinv E)
        as [Ha Hne].
      rewrite iterator_ne_end, bool_decide_eq_true_2 by done.
      eapply wp_mono;
        [apply (wp_both _ _
                  (fun s' m' => exists t', Inv s' m' t' /\
                     s' = with_size (wrap (size_ s - 1)) s /\
                     exists L1 dz L2, entries t = L1 ++ (a, dz) :: L2 /\
                                      entries t' = L1 ++ L2)
                  (fun s' m' => dom m' = dom m ∖ {[a]}))|].
      * eapply erase_spec; [exact Hinv|exact Ha|].
        cbn [node_]. intros m' t' L1 dz L2 Hinv' He He' Hfree.
        exists t'. split_and!; [done..|]. by exists L1, dz, L2.
      * intros s' m' H. by apply erase_cells in H as (_ & H & _).
      * intros s' m' [(t' & Hinv' & -> & L1 & dz & L2 & He & He') Hd'].
        exists t'. split; [done|]. unfold owns. cbn [nil_ root_ with_size].
        pose proof (Inv_NoDup_entries T0 _ _ _ Hinv) as Hnd.
        destruct Hinv as [[np Z] _ _ _ _]. destruct Z as (Hnd0 & _).
        cbn [kaddrs app] in Hnd0.
        apply NoDup_cons in Hnd0 as [Hn1 Hnd0].
        apply NoDup_cons in Hnd0 as [Hn2 _].
        rewrite addrs_entries, He, fmap_app, fmap_cons in Hd, Hdis, Hn1, Hn2.
        rewrite He, fmap_app, fmap_cons in Hnd. cbn [fst] in *.
        apply NoDup_app in Hnd as (_ & Hx & Hnd).
        apply NoDup_cons in Hnd as [Hy _].
        rewrite addrs_entries, He', fmap_app.
        split.
        -- rewrite Hd', Hd, !list_to_set_cons, !list_to_set_app_L,
             list_to_set_cons.
           apply set_eq. intros p.
           rewrite !elem_of_difference, !elem_of_union, !elem_of_singleton,
             !elem_of_list_to_set.
           split; [tauto|]. intros Hp. split; [tauto|]. intros ->.
           destruct Hp as [Hp|[Hp|[Hp|[Hp|Hp]]]].
           ++ eapply Hdis; [|exact Hp]. set_solver.
           ++ apply Hn1. rewrite <- Hp. set_solver.
           ++ apply Hn2. rewrite <- Hp. set_solver.
           ++ apply (Hx a Hp). by left.
           ++ done.
        -- intros p Hp. apply Hdis. set_solver.
  - eapply wp_mono; [by apply clear_frees|].
    intros s' m' (-> & Hinv' & Hd'). exists Leaf. split; [done|].
    unfold owns. cbn [nil_ root_ with_size addrs]. split.
    + rewrite Hd', Hd, !list_to_set_cons. cbn [list_to_set].
      destruct Hinv as [[np Z] _ _ _ _]. destruct Z as (Hnd0 & _).
      cbn [kaddrs app] in Hnd0.
      apply NoDup_cons in Hnd0 as [Hn1 Hnd0].
      apply NoDup_cons in Hnd0 as [Hn2 _].
      apply set_eq. intros p.
      rewrite !elem_of_difference, !elem_of_union, !elem_of_singleton,
        !elem_of_list_to_set, elem_of_empty.
      split; [tauto|]. intros Hp. split; [tauto|]. intros Hin.
      destruct Hp as [Hp|[Hp|[Hp|Hp]]].
      * eapply Hdis; [|exact Hp]. set_solver.
      * apply Hn1. rewrite <- Hp. set_solver.
      * apply Hn2. by rewrite <- Hp.
      * done.
    + intros p Hp. apply Hdis. set_solver.
Qed.

Lemma run_ops_owns D : forall os s m t,
  Inv s m t -> owns D s m t ->
  wp (run_ops key_of eqb ltb junk s os) m
     (fun s' m' => exists t', Inv s' m' t' /\ owns D s' m' t').
Proof.
  induction os as [|o os IH]; intros s m t Hinv Hown; cbn [run_ops].
  - apply wp_ret. by exists t.
  - apply wp_bind. eapply wp_mono; [by eapply run_op_owns|].
    intros s1 m1 (t1 & Hinv1 & Hown1). by eapply IH.
Qed.

Lemma run_op_this s o m s' m' :
  run_op key_of eqb ltb junk s o m = Ok (s', m') -> this s' = this s.
Proof.
  destruct o as [v|k0|]; cbn [run_op]; intros H.
  - apply bind_inv in H as ([[it b] s1] & m1 & Hi & H).
    apply ret_inv in H as [-> ->]. cbn [snd].
    apply insert_cells in Hi. destruct b.
    + by destruct Hi as (_ & _ & _ & ->).
    + by destruct Hi as (_ & ->).
  - unfold erase_found in H. apply bind_inv in H as (it & m1 & _ & H).
    destruct (iterator_ne _ _).
    + by apply erase_cells in H as (_ & _ & ->).
    + by apply ret_inv in H as [-> _].
  - unfold clear in H.
    repeat (apply bind_inv in H as (? & ? & _ & H)).
    by apply ret_inv in H as [-> _].
Qed.

Lemma run_ops_this : forall os s m s' m',
  run_ops key_of eqb ltb junk s os m = Ok (s', m') -> this s' = this s.
Proof.
  induction os as [|o os IH]; intros s m s' m' H; cbn [run_ops] in H.
  - by apply ret_inv in H as [-> _].
  - apply bind_inv in H as (s1 & m1 & H1 & H).
    apply IH in H. apply run_op_this in H1. congruence.
Qed.

(** ** The states a container reaches from its constructor *)

(** [reached D os s m t]: container [s] in store [m] holds shape [t], owns
    its cells beside [D], and holds the keys that the calls [os] leave. *)
Definition reached D (os : list (@op T K)) s m t : Prop :=
  Inv s m t /\ owns D s m t /\
  (length (elems t) <= length os)%nat /\
  (order_ok eqb ltb ->
     ascending ltb (keys key_of t) /\
     forall k, k ∈ keys key_of t <-> stored key_of os k).

Lemma from_empty_reached self alloc os m0 :
  alloc <> nullptr ->
  exists s m t,
    from_empty key_of eqb ltb T0 junk self alloc os m0 = Ok (s, m) /\
    this s = self /\
    reached (dom m0) os s m t.
Proof.
  intros Ha.
  destruct (wp_run _ _ _ (from_empty_wp key_of eqb ltb T0 junk self alloc
                            os m0 Ha))
    as (s & m & Hrun & t & Hinv & Hlen & Hord).
  exists s, m, t. split; [exact Hrun|].
  unfold from_empty in Hrun.
  apply bind_inv in Hrun as (s0 & m1 & Hc & Hrun).
  assert (Hw : wp (construct T0 junk self alloc) m0
                 (fun s' m' => Inv s' m' Leaf /\ this s' = self)).
  { eapply construct_spec; [exact Ha|]. by intros. }
  unfold wp in Hw. rewrite Hc in Hw. destruct Hw as [Hinv0 Hthis].
  apply construct_cells in Hc as (Hn & Hr & Hd).
  assert (Hown0 : owns (dom m0) s0 m1 Leaf).
  { split; cbn [addrs].
    - rewrite Hd, !list_to_set_cons. cbn [list_to_set]. set_solver.
    - intros p Hp. rewrite !elem_of_cons in Hp.
      destruct Hp as [->|[->|Hp]]; [done..|]. by apply elem_of_nil in Hp. }
  pose proof (run_ops_owns (dom m0) os s0 m1 Leaf Hinv0 Hown0) as Hw.
  apply run_ops_this in Hrun as Hth.
  unfold wp in Hw. rewrite Hrun in Hw.
  destruct Hw as (t' & Hinv' & Hown').
  rewrite (Inv_unique T0 s m t t' Hinv Hinv').
  rewrite (Inv_unique T0 s m t t' Hinv Hinv') in Hlen, Hord.
  split; [congruence|]. by split_and!.
Qed.

End Cells.
End RBCells.

(** * How the containers behave in the states their methods reach *)

Module Behaviour.
Import RBTree RBShape RBSpec RBInsert RBInsertHelp RBIter RBOrder RBMethods.
Import RBDeleteSpec RBMethods2 Container ContainerSpec Guarantees RBLive RBCells.

Section Reached.
Context {T K : Type} (key_of : T -> K) (eqb ltb : K -> K -> bool) (T0 junk : T).
Implicit Types (s : set) (m : gmap ptr (@node_t T)) (t : @tree T)
  (D : gset ptr).
Local Abbreviation Inv := (RBMethods.Inv T0).
Local Abbreviation ins_tree := (RBInsert.ins_tree key_of ltb).
Local Abbreviation ins_path := (RBInsert.ins_path key_of ltb).
Local Abbreviation search_tree := (RBInsertHelp.search_tree key_of eqb ltb).
Local Abbreviation keys := (RBOrder.keys key_of).
Local Abbreviation ascending := (RBOrder.ascending ltb).
Local Abbreviation stored := (Container.stored key_of).
Local Abbreviation find := (RBTree.find key_of eqb ltb).

Lemma traverse_run s m t : Inv s m t -> traverse s m = Ok (elems t, m).
Proof.
  clear K key_of eqb ltb junk.
  intros [[np Z] Hnull Hrb Halloc Hsize].
  assert (Hn : nullptr ∉ addrs t).
  { intros Hin. apply Hnull. by do 2 right. }
  destruct (wp_run _ _ _ (traverse_spec T0 s m np t
              (fun ds m' => ds = elems t /\ m' = m) Z Hn (conj eq_refl eq_refl)))
    as (ds & m' & Htr & -> & ->).
  exact Htr.
Qed.

Lemma find_run s m t k :
  Inv s m t ->
  find s k m = Ok (mk_iterator (this s) (addr s (search_tree k t)), m).
Proof.
  intros Hinv.
  destruct (wp_run _ _ _ (find_spec key_of eqb ltb T0 s m t k
              (fun it m' => it = mk_iterator (this s) (addr s (search_tree k t))
                            /\ m' = m) Hinv (conj eq_refl eq_refl)))
    as (it & m' & Hf & -> & ->).
  exact Hf.
Qed.

Lemma begin_run s m t :
  Inv s m t ->
  begin s m = Ok (mk_iterator (this s) (hd_addr s (entries t)), m).
Proof.
  clear K key_of eqb ltb junk.
  intros [[np Z] Hnull Hrb Halloc Hsize].
  destruct (wp_run _ _ _ (begin_spec T0 s m np t
              (fun it m' => it = mk_iterator (this s) (hd_addr s (entries t))
                            /\ m' = m) Z (conj eq_refl eq_refl)))
    as (it & m' & Hf & -> & ->).
  exact Hf.
Qed.

(** what [find] yields, by whether the key is held *)
Lemma find_cases s m t k :
  order_ok eqb ltb -> Inv s m t -> ascending (keys t) ->
  ((k ∉ keys t) /\ find s k m = Ok (end_ s, m)) \/
  (exists L0 a d L,
     entries t = L0 ++ (a, d) :: L /\ key_of d = k /\ a <> nil_ s /\
     find s k m = Ok (mk_iterator (this s) a, m)).
Proof.
  intros Hord Hinv Hasc. rewrite (find_run s m t k Hinv).
  destruct (search_tree k t) as [|c l a d r] eqn:E; cbn [addr].
  - left. split; [|done]. by eapply search_tree_Leaf.
  - right.
    destruct (search_tree_addr key_of eqb ltb T0 s m t k c l a d r Hinv E)
      as [Ha Hne].
    apply search_tree_sound in E as [Heq Hin].
    apply (eqb_eq _ _ Hord) in Heq.
    apply list_elem_of_split in Hin as (L0 & L & He).
    by exists L0, a, d, L.
Qed.

Lemma end_ne s a i : a <> nil_ s -> mk_iterator i a <> end_ s.
Proof. intros Ha [= _ E]. by apply Ha. Qed.

Lemma stored_absent s m t os D k :
  order_ok eqb ltb -> reached key_of eqb ltb T0 D os s m t ->
  ~ stored os k -> (k ∉ keys t) /\ search_tree k t = Leaf.
Proof.
  intros Hord (Hinv & _ & _ & Hasc) Hns. destruct (Hasc Hord) as [_ Hkeys].
  assert (Hnin : k ∉ keys t) by (intros Hin; by apply Hns, Hkeys).
  split; [done|]. by apply search_tree_absent.
Qed.

(** [insert(v)] of a key that is not held *)
Lemma insert_new_run s m t v :
  Inv s m t -> search_tree (key_of v) t = Leaf ->
  exists z m',
    insert key_of eqb ltb junk s v m
      = Ok (mk_iterator (this s) z, true,
            with_size (wrap (size_ s + 1)) s, m') /\
    Inv (with_size (wrap (size_ s + 1)) s) m' (ins_tree t z v) /\
    iterator_deref (mk_iterator (this s) z) m' = Ok (v, m').
Proof.
  intros Hinv E.
  pose proof (insert_spec key_of eqb ltb T0 junk s m t v
    (fun r m' => exists z,
       r = (mk_iterator (this s) z, true, with_size (wrap (size_ s + 1)) s) /\
       Inv (with_size (wrap (size_ s + 1)) s) m' (ins_tree t z v)) Hinv) as Hw.
  rewrite E in Hw.
  apply wp_run in Hw as (r & m' & Hrun & z & -> & Hinv'); [|by eauto].
  exists z, m'. split_and!; [done..|].
  eapply deref_entry; [exact Hinv'|].
  rewrite (entries_ins_tree key_of ltb), entries_plug. cbn [entries app].
  apply elem_of_app. right. by left.
Qed.

(** [erase(pos)] at the node of an entry *)
Lemma erase_entry_run s m t L0 a d L :
  Inv s m t -> entries t = L0 ++ (a, d) :: L ->
  exists m' t',
    erase s (mk_iterator (this s) a) m
      = Ok (with_size (wrap (size_ s - 1)) s, m') /\
    Inv (with_size (wrap (size_ s - 1)) s) m' t' /\
    entries t' = L0 ++ L.
Proof.
  clear K key_of eqb ltb junk.
  intros Hinv He.
  assert (Ha : a ∈ addrs t).
  { rewrite addrs_entries, He, fmap_app, fmap_cons. set_solver. }
  pose proof (erase_spec T0 s m t (mk_iterator (this s) a)
    (fun s' m' => s' = with_size (wrap (size_ s - 1)) s /\
       exists t', Inv s' m' t' /\ entries t' = L0 ++ L) Hinv Ha) as Hw.
  apply wp_run in Hw as (s' & m' & Hrun & -> & t' & Hinv' & He').
  - by exists m', t'.
  - cbn [node_]. intros m' t' L1 dz L2 Hinv' He1 He2 _.
    split; [done|]. exists t'. split; [done|].
    pose proof (Inv_NoDup_entries T0 _ _ _ Hinv) as Hnd.
    rewrite He in He1. rewrite He in Hnd.
    apply entries_split_unique in He1 as (-> & _ & ->); [done|exact Hnd].
Qed.

(** the loop of [erase(const T&)] over entries none of which matches *)
Lemma erase_value_loop_none s m t k : forall L Lp fuel count,
  Inv s m t ->
  entries t = Lp ++ L ->
  (forall a d, (a, d) ∈ L -> eqb (key_of d) k = false) ->
  (length L < fuel)%nat ->
  _erase_value_loop key_of eqb fuel s k
    (mk_iterator (this s) (hd_addr s L)) count m
  = Ok (count, s, m).
Proof.
  induction L as [|[a d] L IH]; intros Lp fuel count Hinv He Hne Hf;
    (destruct fuel as [|fuel]; [simpl in Hf; lia|]);
    cbn [_erase_value_loop hd_addr].
  - rewrite iterator_ne_end.
    by rewrite bool_decide_eq_false_2 by (intros H; by apply H).
  - destruct (entry_lookup T0 s m t a d Hinv) as (Hnull & Hnil & n & Hn & Hd).
    { rewrite He. apply elem_of_app. right. by left. }
    rewrite iterator_ne_end, bool_decide_eq_true_2 by done. cbn [node_].
    assert (Hget : get_data a m = Ok (d, m)).
    { unfold get_data, bind, load. rewrite Hn. unfold ret. by rewrite Hd. }
    rewrite (bind_ok _ _ _ _ _ Hget).
    rewrite (Hne a d) by (by left).
    rewrite (bind_ok _ _ _ (count, s) m) by done.
    rewrite (bind_ok _ _ _ _ _ (incr_entry T0 s m t Lp a d L Hinv He)).
    apply (IH (Lp ++ [(a, d)])); [done| |by intros; eapply Hne; right|].
    + by rewrite <- app_assoc.
    + simpl in Hf. lia.
Qed.

(** [trusted_insert(v)]: no search, the node is always added *)
Lemma trusted_insert_run s m t v :
  Inv s m t ->
  exists z m',
    trusted_insert key_of ltb junk s v m
      = Ok (mk_iterator (this s) z, with_size (wrap (size_ s + 1)) s, m') /\
    Inv (with_size (wrap (size_ s + 1)) s) m' (ins_tree t z v) /\
    iterator_deref (mk_iterator (this s) z) m' = Ok (v, m').
Proof.
  clear eqb.
  intros Hinv.
  assert (Hw : wp (trusted_insert key_of ltb junk s v) m
    (fun r m' => exists z,
       r = (mk_iterator (this s) z, with_size (wrap (size_ s + 1)) s) /\
       Inv (with_size (wrap (size_ s + 1)) s) m' (ins_tree t z v))).
  { destruct Hinv as [[np Z] Hnull Hrb Halloc Hsize]. unfold trusted_insert.
    apply wp_bind. apply allocate_node_spec; [done|].
    intros z Hz Hz0. wp_steps.
    set (m1 := <[z:=_]> (<[z:=_]> m)).
    pose proof (Zrep_fresh T0 _ _ _ _ _ _ Z Hz) as Hfresh.
    assert (Z1 : Zrep T0 s m1 np [] t).
    { eapply Zrep_ext; [|exact Z]. intros p Hp. unfold m1.
      rewrite !lookup_insert_ne; [done|by intros <-..]. }
    assert (Hz1 : m1 !! z = Some (mk_node nullptr nullptr nullptr false v)).
    { unfold m1. by rewrite lookup_insert_eq. }
    clearbody m1.
    destruct Hrb as [Hc Hn].
    eapply _insert_spec; [exact Z1|done|exact Hz1|exact Hfresh|].
    cbn [data]. intros m' Z'. apply wp_ret. cbn [this with_size].
    exists z. split; [done|].
    split; cbn [nil_ root_ allocator_ size_ with_size].
    + exists np. by eapply Zrep_sentinels; [..|exact Z'].
    + rewrite (ins_tree_addrs key_of ltb). simpl in Hfresh. set_solver.
    + by apply ins_tree_rb.
    + done.
    + rewrite Hsize, wrap_succ. f_equal. f_equal.
      rewrite <- !length_addrs_elems.
      by rewrite (ins_tree_addrs key_of ltb). }
  apply wp_run in Hw as (r & m' & Hrun & z & -> & Hinv').
  exists z, m'. split_and!; [done..|].
  eapply deref_entry; [exact Hinv'|].
  rewrite (entries_ins_tree key_of ltb), entries_plug. cbn [entries app].
  apply elem_of_app. right. by left.
Qed.

(** the invariant does not depend on the identity of the container object *)
Lemma Inv_fields s s' m t :
  nil_ s' = nil_ s -> root_ s' = root_ s -> allocator_ s' = allocator_ s ->
  size_ s' = size_ s -> Inv s m t -> Inv s' m t.
Proof.
  clear K key_of eqb ltb junk.
  intros Hn Hr Ha Hs [[np Z] Hnull Hrb Halloc Hsize].
  split; rewrite ?Hn, ?Hr, ?Ha, ?Hs; try done.
  exists np. by eapply Zrep_sentinels; [..|exact Z].
Qed.

End Reached.

(** Whatever calls of insert, erase (of a found key) and clear a container
    has served since its construction, the store holds a tree whose root is
    black, in which no red node has a red child, and in which all paths from
    any one node down to nil leaves count the same number of black nodes. *)
Theorem ops_sequence_red_black {T K : Type} (key_of : T -> K)
    (eqb ltb : K -> K -> bool) (T0 junk : T) (self alloc : ptr)
    (m0 : gmap ptr (@node_t T)) (os : list (@op T K)) :
  alloc <> nullptr ->
  exists s m t,
    from_empty key_of eqb ltb T0 junk self alloc os m0 = Ok (s, m) /\
    Rep T0 s m t /\
    color t = false /\
    no_red_red t /\
    forall u, subtree u t ->
      exists n, forall x, x ∈ black_counts u -> x = n.
Proof.
  intros Ha.
  destruct (from_empty_reached key_of eqb ltb T0 junk self alloc os m0 Ha)
    as (s & m & t & Hrun & _ & Hinv & _).
  exists s, m, t. split; [exact Hrun|].
  destruct Hinv as [Hrep Hnull Hrb Halloc Hsize]. split; [exact Hrep|].
  by apply is_rb_conditions.
Qed.

Lemma ops_sequence_red_black_witness :
  1%nat <> nullptr /\
  exists s m t,
    from_empty (fun x : Z => x) Z.eqb Z.ltb 0 0 1%nat 1%nat
      [OpInsert 5; OpInsert 2; OpInsert 8; OpErase 5; OpInsert 1; OpErase 7;
       OpInsert 9] ∅ = Ok (s, m) /\
    Rep 0 s m t /\
    color t = false /\
    no_red_red t /\
    forall u, subtree u t ->
      exists n, forall x, x ∈ black_counts u -> x = n.
Proof.
  split; [discriminate|].
  apply (ops_sequence_red_black (fun x : Z => x) Z.eqb Z.ltb 0 0 1%nat 1%nat ∅).
  discriminate.
Defined.

(** After any calls of insert, erase (of a found key) and clear, walking the
    container from [begin()] by [++] up to [end()] yields payloads whose keys
    are strictly ascending; they are exactly the keys that were inserted and
    not erased or cleared since. The walk leaves the store as it was. *)
Theorem ops_sequence_traversal {T K : Type} (key_of : T -> K)
    (eqb ltb : K -> K -> bool) (T0 junk : T) (self alloc : ptr)
    (m0 : gmap ptr (@node_t T)) (os : list (@op T K)) :
  order_ok eqb ltb ->
  alloc <> nullptr ->
  exists s m ds,
    from_empty key_of eqb ltb T0 junk self alloc os m0 = Ok (s, m) /\
    traverse s m = Ok (ds, m) /\
    ascending ltb (key_of <$> ds) /\
    forall k, k ∈ key_of <$> ds <-> stored key_of os k.
Proof.
  intros Hord Ha.
  destruct (from_empty_reached key_of eqb ltb T0 junk self alloc os m0 Ha)
    as (s & m & t & Hrun & _ & Hinv & _ & _ & Hasc).
  destruct (Hasc Hord) as [Hasc' Hkeys].
  exists s, m, (elems t). split; [exact Hrun|].
  split; [by eapply traverse_run|]. by split.
Qed.

Lemma ops_sequence_traversal_witness :
  order_ok Z.eqb Z.ltb /\ 1%nat <> nullptr /\
  exists s m ds,
    from_empty (fun x : Z => x) Z.eqb Z.ltb 0 0 1%nat 1%nat
      [OpInsert 5; OpInsert 2; OpErase 5; OpClear; OpInsert 7; OpInsert 3] ∅
      = Ok (s, m) /\
    traverse s m = Ok (ds, m) /\
    ascending Z.ltb ((fun x : Z => x) <$> ds) /\
    forall k, k ∈ (fun x : Z => x) <$> ds
              <-> stored (fun x : Z => x)
                    [OpInsert 5; OpInsert 2; OpErase 5; OpClear; OpInsert 7;
                     OpInsert 3] k.
Proof.
  split; [exact Z_order_ok|]. split; [discriminate|].
  apply (ops_sequence_traversal (fun x : Z => x) Z.eqb Z.ltb 0 0 1%nat 1%nat ∅
           _ Z_order_ok).
  discriminate.
Defined.

(** In any state reached by insert, erase and clear, [find(k)] leaves the
    store as it was; for a key the container holds it returns an iterator
    other than [end()] whose [*] is the payload with that key, and for any
    other key it returns [end()]. *)
Theorem find_after_ops {T K : Type} (key_of : T -> K)
    (eqb ltb : K -> K -> bool) (T0 junk : T) (self alloc : ptr)
    (m0 : gmap ptr (@node_t T)) (os : list (@op T K)) :
  order_ok eqb ltb ->
  alloc <> nullptr ->
  exists s m,
    from_empty key_of eqb ltb T0 junk self alloc os m0 = Ok (s, m) /\
    forall k, exists it,
      find key_of eqb ltb s k m = Ok (it, m) /\
      (stored key_of os k ->
         it <> end_ s /\
         exists d, iterator_deref it m = Ok (d, m) /\ key_of d = k) /\
      (~ stored key_of os k -> it = end_ s).
Proof.
  intros Hord Ha.
  destruct (from_empty_reached key_of eqb ltb T0 junk self alloc os m0 Ha)
    as (s & m & t & Hrun & _ & Hinv & _ & _ & Hasc).
  destruct (Hasc Hord) as [Hasc' Hkeys].
  exists s, m. split; [exact Hrun|]. intros k.
  destruct (find_cases key_of eqb ltb T0 s m t k Hord Hinv Hasc')
    as [[Hnin Hf]|(L0 & a & d & L & He & Hk & Hne & Hf)].
  - exists (end_ s). split; [exact Hf|]. split; [|done].
    intros Hs. exfalso. apply Hnin. by apply Hkeys.
  - exists (mk_iterator (this s) a). split; [exact Hf|]. split.
    + intros _. split; [by apply end_ne|]. exists d. split; [|done].
      eapply deref_entry; [exact Hinv|]. rewrite He.
      apply elem_of_app. right. by left.
    + intros Hns. exfalso. apply Hns, Hkeys.
      rewrite keys_entries, He, !fmap_app, !fmap_cons. cbn [snd].
      rewrite Hk. apply elem_of_app. right. by left.
Qed.

Lemma find_after_ops_witness :
  order_ok Z.eqb Z.ltb /\ 1%nat <> nullptr /\
  exists s m,
    from_empty (fun x : Z => x) Z.eqb Z.ltb 0 0 1%nat 1%nat
      [OpInsert 5; OpInsert 2; OpErase 5; OpInsert 7] ∅ = Ok (s, m) /\
    forall k, exists it,
      find (fun x : Z => x) Z.eqb Z.ltb s k m = Ok (it, m) /\
      (stored (fun x : Z => x)
         [OpInsert 5; OpInsert 2; OpErase 5; OpInsert 7] k ->
         it <> end_ s /\
         exists d, iterator_deref it m = Ok (d, m) /\ (fun x : Z => x) d = k) /\
      (~ stored (fun x : Z => x)
           [OpInsert 5; OpInsert 2; OpErase 5; OpInsert 7] k -> it = end_ s).
Proof.
  split; [exact Z_order_ok|]. split; [discriminate|].
  apply (find_after_ops (fun x : Z => x) Z.eqb Z.ltb 0 0 1%nat 1%nat ∅
           _ Z_order_ok).
  discriminate.
Defined.

(** In any state reached by insert, erase and clear, inserting a payload
    whose key the container does not hold succeeds with flag [true] and an
    iterator to the new element; one cell is allocated for it, [size()] grows
    by one, and the walk from [begin()] to [end()] then yields the former
    payloads in their former order with the new one among them. *)
Theorem insert_new_key {T K : Type} (key_of : T -> K)
    (eqb ltb : K -> K -> bool) (T0 junk : T) (self alloc : ptr)
    (m0 : gmap ptr (@node_t T)) (os : list (@op T K)) (v : T) :
  order_ok eqb ltb ->
  alloc <> nullptr ->
  ~ stored key_of os (key_of v) ->
  exists s m it s' m' ds1 ds2,
    from_empty key_of eqb ltb T0 junk self alloc os m0 = Ok (s, m) /\
    insert key_of eqb ltb junk s v m = Ok (it, true, s', m') /\
    iterator_deref it m' = Ok (v, m') /\
    RBTree.size s' = wrap (RBTree.size s + 1) /\
    (node_ it ∉ dom m) /\ dom m' = {[node_ it]} ∪ dom m /\
    traverse s m = Ok (ds1 ++ ds2, m) /\
    traverse s' m' = Ok (ds1 ++ v :: ds2, m').
Proof.
  intros Hord Ha Hns.
  destruct (from_empty_reached key_of eqb ltb T0 junk self alloc os m0 Ha)
    as (s & m & t & Hrun & _ & Hre).
  destruct (stored_absent key_of eqb ltb T0 s m t os _ _ Hord Hre Hns)
    as [_ E].
  destruct Hre as (Hinv & _).
  destruct (insert_new_run key_of eqb ltb T0 junk s m t v Hinv E)
    as (z & m' & Hins & Hinv' & Hd).
  pose proof (insert_cells _ _ _ _ _ _ _ _ _ _ _ Hins) as (Hz & _ & Hdom & _).
  exists s, m, (mk_iterator (this s) z), (with_size (wrap (size_ s + 1)) s), m',
    (kleft (ins_path key_of ltb (key_of v) t [])),
    (kright (ins_path key_of ltb (key_of v) t [])).
  split_and!; [done..| |].
  - rewrite (traverse_run T0 s m t Hinv). f_equal. f_equal.
    apply (elems_ins_path key_of ltb).
  - rewrite (traverse_run T0 _ m' _ Hinv'). f_equal. f_equal.
    apply (ins_tree_elems key_of ltb).
Qed.

Lemma insert_new_key_witness :
  order_ok Z.eqb Z.ltb /\ 1%nat <> nullptr /\
  ~ stored (fun x : Z => x) [OpInsert 5; OpInsert 2; OpErase 5] 5 /\
  exists s m it s' m' ds1 ds2,
    from_empty (fun x : Z => x) Z.eqb Z.ltb 0 0 1%nat 1%nat
      [OpInsert 5; OpInsert 2; OpErase 5] ∅ = Ok (s, m) /\
    insert (fun x : Z => x) Z.eqb Z.ltb 0 s 5 m = Ok (it, true, s', m') /\
    iterator_deref it m' = Ok (5, m') /\
    RBTree.size s' = wrap (RBTree.size s + 1) /\
    (node_ it ∉ dom m) /\ dom m' = {[node_ it]} ∪ dom m /\
    traverse s m = Ok (ds1 ++ ds2, m) /\
    traverse s' m' = Ok (ds1 ++ 5 :: ds2, m').
Proof.
  split; [exact Z_order_ok|]. split; [discriminate|].
  split; [unfold stored; simpl; lia|].
  apply (insert_new_key (fun x : Z => x) Z.eqb Z.ltb 0 0 1%nat 1%nat ∅
           [OpInsert 5; OpInsert 2; OpErase 5] 5 Z_order_ok).
  - discriminate.
  - unfold stored; simpl; lia.
Defined.

(** In any state reached by insert, erase and clear, [erase(find(k))] for a
    key the container holds removes exactly that element: the other payloads
    keep their order in the walk, [size()] drops by one, the cell of the
    node is released and no other, and [find(k)] then returns [end()]. *)
Theorem erase_found_key {T K : Type} (key_of : T -> K)
    (eqb ltb : K -> K -> bool) (T0 junk : T) (self alloc : ptr)
    (m0 : gmap ptr (@node_t T)) (os : list (@op T K)) (k : K) :
  order_ok eqb ltb ->
  alloc <> nullptr ->
  stored key_of os k ->
  exists s m it s' m' ds1 d ds2,
    from_empty key_of eqb ltb T0 junk self alloc os m0 = Ok (s, m) /\
    traverse s m = Ok (ds1 ++ d :: ds2, m) /\ key_of d = k /\
    find key_of eqb ltb s k m = Ok (it, m) /\
    erase s it m = Ok (s', m') /\
    traverse s' m' = Ok (ds1 ++ ds2, m') /\
    find key_of eqb ltb s' k m' = Ok (end_ s', m') /\
    RBTree.size s' = wrap (RBTree.size s - 1) /\
    node_ it ∈ dom m /\ dom m' = dom m ∖ {[node_ it]}.
Proof.
  intros Hord Ha Hs.
  destruct (from_empty_reached key_of eqb ltb T0 junk self alloc os m0 Ha)
    as (s & m & t & Hrun & _ & Hinv & _ & _ & Hasc).
  destruct (Hasc Hord) as [Hasc' Hkeys].
  destruct (find_cases key_of eqb ltb T0 s m t k Hord Hinv Hasc')
    as [[Hnin Hf]|(L0 & a & d & L & He & Hk & Hne & Hf)].
  { exfalso. by apply Hnin, Hkeys. }
  destruct (erase_entry_run T0 s m t L0 a d L Hinv He)
    as (m' & t' & Her & Hinv' & He').
  pose proof (erase_cells _ _ _ _ _ Her) as (Hin & Hdom & _).
  exists s, m, (mk_iterator (this s) a), (with_size (wrap (size_ s - 1)) s), m',
    (L0.*2), d, (L.*2).
  assert (Hasc2 : ascending ltb (keys key_of t')).
  { rewrite keys_entries, He', !fmap_app.
    rewrite keys_entries, He, !fmap_app, !fmap_cons in Hasc'.
    by eapply ascending_remove. }
  split_and!; try done.
  - rewrite (traverse_run T0 s m t Hinv). f_equal. f_equal.
    by rewrite elems_entries, He, fmap_app, fmap_cons.
  - rewrite (traverse_run T0 _ m' t' Hinv'). f_equal. f_equal.
    by rewrite elems_entries, He', fmap_app.
  - destruct (find_cases key_of eqb ltb T0 _ m' t' k Hord Hinv' Hasc2)
      as [[_ Hf']|(L0' & a' & d' & L' & He2 & Hk' & _)]; [exact Hf'|].
    exfalso.
    rewrite keys_entries, He, !fmap_app, !fmap_cons in Hasc'.
    cbn [snd] in Hasc'.
    apply (ascending_NoDup eqb ltb Hord) in Hasc'.
    apply NoDup_app in Hasc' as (_ & Hdis & Hnd2).
    apply NoDup_cons in Hnd2 as [Hk2 _].
    assert (Hin' : key_of d' ∈ key_of <$> (L0 ++ L).*2).
    { rewrite <- He', He2, !fmap_app, !fmap_cons. cbn [snd].
      apply elem_of_app. right. by left. }
    rewrite Hk', <- Hk, !fmap_app, elem_of_app in Hin'.
    destruct Hin' as [Hin'|Hin']; [|done].
    apply (Hdis _ Hin'). by left.
Qed.

Lemma erase_found_key_witness :
  order_ok Z.eqb Z.ltb /\ 1%nat <> nullptr /\
  stored (fun x : Z => x) [OpInsert 5; OpInsert 2; OpInsert 8] 5 /\
  exists s m it s' m' ds1 d ds2,
    from_empty (fun x : Z => x) Z.eqb Z.ltb 0 0 1%nat 1%nat
      [OpInsert 5; OpInsert 2; OpInsert 8] ∅ = Ok (s, m) /\
    traverse s m = Ok (ds1 ++ d :: ds2, m) /\ (fun x : Z => x) d = 5 /\
    find (fun x : Z => x) Z.eqb Z.ltb s 5 m = Ok (it, m) /\
    erase s it m = Ok (s', m') /\
    traverse s' m' = Ok (ds1 ++ ds2, m') /\
    find (fun x : Z => x) Z.eqb Z.ltb s' 5 m' = Ok (end_ s', m') /\
    RBTree.size s' = wrap (RBTree.size s - 1) /\
    node_ it ∈ dom m /\ dom m' = dom m ∖ {[node_ it]}.
Proof.
  split; [exact Z_order_ok|]. split; [discriminate|].
  split; [unfold stored; simpl; lia|].
  apply (erase_found_key (fun x : Z => x) Z.eqb Z.ltb 0 0 1%nat 1%nat ∅
           [OpInsert 5; OpInsert 2; OpInsert 8] 5 Z_order_ok).
  - discriminate.
  - unfold stored; simpl; lia.
Defined.

(** In any state reached by insert, erase and clear, [erase(find(k))] for a
    key the container does not hold throws the runtime error of erasing the
    nil node: [find] returns [end()], whose node is the nil sentinel. *)
Theorem erase_missing_key_throws {T K : Type} (key_of : T -> K)
    (eqb ltb : K -> K -> bool) (T0 junk : T) (self alloc : ptr)
    (m0 : gmap ptr (@node_t T)) (os : list (@op T K)) (k : K) :
  order_ok eqb ltb ->
  alloc <> nullptr ->
  ~ stored key_of os k ->
  exists s m it,
    from_empty key_of eqb ltb T0 junk self alloc os m0 = Ok (s, m) /\
    find key_of eqb ltb s k m = Ok (it, m) /\
    erase s it m = Err (RuntimeError "trying to erase nil node").
Proof.
  intros Hord Ha Hns.
  destruct (from_empty_reached key_of eqb ltb T0 junk self alloc os m0 Ha)
    as (s & m & t & Hrun & _ & Hre).
  destruct (stored_absent key_of eqb ltb T0 s m t os _ _ Hord Hre Hns)
    as [_ E].
  destruct Hre as (Hinv & _).
  exists s, m, (end_ s). split; [exact Hrun|]. split.
  - rewrite (find_run key_of eqb ltb T0 s m t k Hinv), E. done.
  - unfold erase, end_. cbn [node_]. by rewrite decide_True.
Qed.

Lemma erase_missing_key_throws_witness :
  order_ok Z.eqb Z.ltb /\ 1%nat <> nullptr /\
  ~ stored (fun x : Z => x) [OpInsert 5; OpInsert 2] 7 /\
  exists s m it,
    from_empty (fun x : Z => x) Z.eqb Z.ltb 0 0 1%nat 1%nat
      [OpInsert 5; OpInsert 2] ∅ = Ok (s, m) /\
    find (fun x : Z => x) Z.eqb Z.ltb s 7 m = Ok (it, m) /\
    erase s it m = Err (RuntimeError "trying to erase nil node").
Proof.
  split; [exact Z_order_ok|]. split; [discriminate|].
  split; [unfold stored; simpl; lia|].
  apply (erase_missing_key_throws (fun x : Z => x) Z.eqb Z.ltb 0 0 1%nat 1%nat
           ∅ [OpInsert 5; OpInsert 2] 7 Z_order_ok).
  - discriminate.
  - unfold stored; simpl; lia.
Defined.

(** In any state reached by insert, erase and clear, [erase(value)] for a
    key the container does not hold walks the whole container, returns 0 and
    leaves the container and the store as they were. *)
Theorem erase_value_missing_key {T K : Type} (key_of : T -> K)
    (eqb ltb : K -> K -> bool) (T0 junk : T) (self alloc : ptr)
    (m0 : gmap ptr (@node_t T)) (os : list (@op T K)) (k : K) :
  order_ok eqb ltb ->
  alloc <> nullptr ->
  ~ stored key_of os k ->
  exists s m,
    from_empty key_of eqb ltb T0 junk self alloc os m0 = Ok (s, m) /\
    erase_value key_of eqb s k m = Ok (0, s, m).
Proof.
  intros Hord Ha Hns.
  destruct (from_empty_reached key_of eqb ltb T0 junk self alloc os m0 Ha)
    as (s & m & t & Hrun & _ & Hre).
  destruct (stored_absent key_of eqb ltb T0 s m t os _ _ Hord Hre Hns)
    as [Hnin _].
  destruct Hre as (Hinv & _).
  exists s, m. split; [exact Hrun|].
  unfold erase_value.
  rewrite (bind_ok _ _ _ _ _ (begin_run T0 s m t Hinv)). unfold with_fuel.
  apply (erase_value_loop_none key_of eqb T0 s m t k (entries t) []);
    [done|done| |].
  - intros a d Hin. destruct (eqb (key_of d) k) eqn:E; [|done].
    exfalso. apply Hnin. apply (eqb_eq _ _ Hord) in E. rewrite <- E.
    by eapply entries_key.
  - destruct Hinv as [[np Z] _ _ _ _].
    pose proof (Zrep_size _ _ _ _ _ _ Z) as Hsz.
    rewrite addrs_entries, length_fmap in Hsz. lia.
Qed.

Lemma erase_value_missing_key_witness :
  order_ok Z.eqb Z.ltb /\ 1%nat <> nullptr /\
  ~ stored (fun x : Z => x) [OpInsert 5; OpInsert 2; OpInsert 8] 7 /\
  exists s m,
    from_empty (fun x : Z => x) Z.eqb Z.ltb 0 0 1%nat 1%nat
      [OpInsert 5; OpInsert 2; OpInsert 8] ∅ = Ok (s, m) /\
    erase_value (fun x : Z => x) Z.eqb s 7 m = Ok (0, s, m).
Proof.
  split; [exact Z_order_ok|]. split; [discriminate|].
  split; [unfold stored; simpl; lia|].
  apply (erase_value_missing_key (fun x : Z => x) Z.eqb Z.ltb 0 0 1%nat 1%nat
           ∅ [OpInsert 5; OpInsert 2; OpInsert 8] 7 Z_order_ok).
  - discriminate.
  - unfold stored; simpl; lia.
Defined.

(** In any state reached by insert, erase and clear, [clear()] releases the
    cell of every node and keeps the two sentinels: the live cells are then
    those that were live before the container was constructed and the
    sentinels. The container is empty, [begin()] equals [end()] and the walk
    yields nothing. *)
Theorem clear_releases_nodes {T K : Type} (key_of : T -> K)
    (eqb ltb : K -> K -> bool) (T0 junk : T) (self alloc : ptr)
    (m0 : gmap ptr (@node_t T)) (os : list (@op T K)) :
  alloc <> nullptr ->
  exists s m s' m',
    from_empty key_of eqb ltb T0 junk self alloc os m0 = Ok (s, m) /\
    clear s m = Ok (s', m') /\
    dom m' = dom m0 ∪ {[nil_ s; root_ s]} /\
    nil_ s' = nil_ s /\ root_ s' = root_ s /\
    RBTree.size s' = 0 /\ empty s' = true /\
    begin s' m' = Ok (end_ s', m') /\
    traverse s' m' = Ok ([], m').
Proof.
  intros Ha.
  destruct (from_empty_reached key_of eqb ltb T0 junk self alloc os m0 Ha)
    as (s & m & t & Hrun & _ & Hinv & [Hd Hdis] & _).
  destruct (wp_run _ _ _ (clear_frees T0 s m t Hinv))
    as (s' & m' & Hcl & -> & Hinv' & Hd').
  exists s, m, (with_size 0 s), m'. split_and!; try done.
  - rewrite Hd', Hd, !list_to_set_cons.
    destruct Hinv as [[np Z] _ _ _ _]. destruct Z as (Hnd0 & _).
    cbn [kaddrs app] in Hnd0.
    apply NoDup_cons in Hnd0 as [Hn1 Hnd0].
    apply NoDup_cons in Hnd0 as [Hn2 _].
    apply set_eq. intros p.
    rewrite !elem_of_difference, !elem_of_union, !elem_of_singleton,
      !elem_of_list_to_set.
    split; [tauto|]. intros Hp. split; [tauto|]. intros Hin.
    destruct Hp as [Hp|[Hp|Hp]].
    + eapply Hdis; [|exact Hp]. set_solver.
    + apply Hn1. rewrite <- Hp. set_solver.
    + apply Hn2. by rewrite <- Hp.
  - apply (begin_run T0 _ m' Leaf Hinv').
  - apply (traverse_run T0 _ m' Leaf Hinv').
Qed.

Lemma clear_releases_nodes_witness :
  1%nat <> nullptr /\
  exists s m s' m',
    from_empty (fun x : Z => x) Z.eqb Z.ltb 0 0 1%nat 1%nat
      [OpInsert 5; OpInsert 2; OpInsert 8; OpErase 2; OpInsert 1] ∅
      = Ok (s, m) /\
    clear s m = Ok (s', m') /\
    dom m' = dom (∅ : gmap ptr (@node_t Z)) ∪ {[nil_ s; root_ s]} /\
    nil_ s' = nil_ s /\ root_ s' = root_ s /\
    RBTree.size s' = 0 /\ empty s' = true /\
    begin s' m' = Ok (end_ s', m') /\
    traverse s' m' = Ok ([], m').
Proof.
  split; [discriminate|].
  apply (clear_releases_nodes (fun x : Z => x) Z.eqb Z.ltb 0 0 1%nat 1%nat ∅).
  discriminate.
Defined.

(** The allocation balance: after any calls of insert, erase and clear (fewer
    than 2^32 of them), the number of live cells is the number live before
    the container was constructed, plus the two sentinels, plus [size()]. *)
Theorem live_cells_balance {T K : Type} (key_of : T -> K)
    (eqb ltb : K -> K -> bool) (T0 junk : T) (self alloc : ptr)
    (m0 : gmap ptr (@node_t T)) (os : list (@op T K)) :
  alloc <> nullptr ->
  Z.of_nat (length os) < size_type_modulus ->
  exists s m,
    from_empty key_of eqb ltb T0 junk self alloc os m0 = Ok (s, m) /\
    Z.of_nat (base.size (dom m))
    = Z.of_nat (base.size (dom m0)) + 2 + RBTree.size s.
Proof.
  intros Ha Hb.
  destruct (from_empty_reached key_of eqb ltb T0 junk self alloc os m0 Ha)
    as (s & m & t & Hrun & _ & Hinv & Hown & Hlen & _).
  exists s, m. split; [exact Hrun|].
  rewrite (owns_size T0 _ s m t Hinv Hown).
  destruct Hinv as [_ _ _ _ Hsize]. unfold RBTree.size. rewrite Hsize.
  unfold wrap. rewrite Z.mod_small by lia.
  rewrite length_addrs_elems. lia.
Qed.

Lemma live_cells_balance_witness :
  1%nat <> nullptr /\
  Z.of_nat (length [OpInsert 5; OpInsert 2; OpInsert 5; OpErase 2; OpErase 9;
                    OpInsert 7]) < size_type_modulus /\
  exists s m,
    from_empty (fun x : Z => x) Z.eqb Z.ltb 0 0 1%nat 1%nat
      [OpInsert 5; OpInsert 2; OpInsert 5; OpErase 2; OpErase 9; OpInsert 7] ∅
      = Ok (s, m) /\
    Z.of_nat (base.size (dom m))
    = Z.of_nat (base.size (dom (∅ : gmap ptr (@node_t Z)))) + 2
      + RBTree.size s.
Proof.
  split; [discriminate|]. split; [by vm_compute|].
  apply (live_cells_balance (fun x : Z => x) Z.eqb Z.ltb 0 0 1%nat 1%nat ∅).
  - discriminate.
  - by vm_compute.
Defined.

(** The destructor leaks nothing: in any state reached by insert, erase and
    clear, [_clean()] releases every node and both sentinels, so that the
    live cells are again those that were live before the container was
    constructed, and it nulls both sentinel pointers. *)
Theorem destructor_releases_all {T K : Type} (key_of : T -> K)
    (eqb ltb : K -> K -> bool) (T0 junk : T) (self alloc : ptr)
    (m0 : gmap ptr (@node_t T)) (os : list (@op T K)) :
  alloc <> nullptr ->
  exists s m s' m',
    from_empty key_of eqb ltb T0 junk self alloc os m0 = Ok (s, m) /\
    _clean s m = Ok (s', m') /\
    dom m' = dom m0 /\
    nil_ s' = nullptr /\ root_ s' = nullptr /\
    _clean s' m' = Ok (s', m').
Proof.
  intros Ha.
  destruct (from_empty_reached key_of eqb ltb T0 junk self alloc os m0 Ha)
    as (s & m & t & Hrun & _ & Hinv & [Hd Hdis] & _).
  destruct (wp_run _ _ _ (clean_frees T0 s m t Hinv))
    as (s' & m' & Hcl & Hn & Hr & Hd' & _).
  exists s, m, s', m'. split_and!; try done.
  - rewrite Hd', Hd. apply set_eq. intros p.
    rewrite !elem_of_difference, !elem_of_union, !elem_of_list_to_set.
    split; [|intros Hp; split; [tauto|]; intros Hin; by eapply Hdis].
    intros [[Hp|Hp] Hn']; [done|tauto].
  - destruct s' as [th n r al sz]. cbn [nil_ root_] in Hn, Hr. subst n r.
    unfold _clean, bind. cbn [root_].
    destruct (decide (nullptr ≠ nullptr)) as [H|_]; [by destruct H|].
    unfold ret at 1. cbn [nil_].
    destruct (decide (nullptr ≠ nullptr)) as [H|_]; [by destruct H|]. done.
Qed.

Lemma destructor_releases_all_witness :
  1%nat <> nullptr /\
  exists s m s' m',
    from_empty (fun x : Z => x) Z.eqb Z.ltb 0 0 1%nat 1%nat
      [OpInsert 5; OpInsert 2; OpInsert 8; OpErase 2; OpInsert 1] ∅
      = Ok (s, m) /\
    _clean s m = Ok (s', m') /\
    dom m' = dom (∅ : gmap ptr (@node_t Z)) /\
    nil_ s' = nullptr /\ root_ s' = nullptr /\
    _clean s' m' = Ok (s', m').
Proof.
  split; [discriminate|].
  apply (destructor_releases_all (fun x : Z => x) Z.eqb Z.ltb 0 0 1%nat 1%nat
           ∅).
  discriminate.
Defined.

(** In any state reached by insert, erase and clear, [begin()] equals
    [end()] exactly when the container holds no key; otherwise [*begin()] is
    the payload with the least key held. *)
Theorem begin_is_least {T K : Type} (key_of : T -> K)
    (eqb ltb : K -> K -> bool) (T0 junk : T) (self alloc : ptr)
    (m0 : gmap ptr (@node_t T)) (os : list (@op T K)) :
  order_ok eqb ltb ->
  alloc <> nullptr ->
  exists s m it,
    from_empty key_of eqb ltb T0 junk self alloc os m0 = Ok (s, m) /\
    begin s m = Ok (it, m) /\
    ((it = end_ s /\ forall k, ~ stored key_of os k) \/
     (it <> end_ s /\
      exists d, iterator_deref it m = Ok (d, m) /\
                stored key_of os (key_of d) /\
                forall k, stored key_of os k ->
                          k = key_of d \/ ltb (key_of d) k = true)).
Proof.
  intros Hord Ha.
  destruct (from_empty_reached key_of eqb ltb T0 junk self alloc os m0 Ha)
    as (s & m & t & Hrun & _ & Hinv & _ & _ & Hasc).
  destruct (Hasc Hord) as [Hasc' Hkeys].
  exists s, m, (mk_iterator (this s) (hd_addr s (entries t))).
  split; [exact Hrun|]. split; [by eapply begin_run|].
  rewrite keys_entries in Hasc'.
  assert (Hk : forall k, stored key_of os k <-> k ∈ key_of <$> (entries t).*2).
  { intros k. rewrite <- Hkeys. by rewrite keys_entries. }
  destruct (entries t) as [|[a d] L] eqn:He; cbn [hd_addr].
  - left. split; [done|]. intros k Hs. apply Hk in Hs.
    by apply elem_of_nil in Hs.
  - right.
    destruct (entry_lookup T0 s m t a d Hinv) as (_ & Hnil & _).
    { rewrite He. by left. }
    split; [by apply end_ne|]. exists d. split_and!.
    + eapply deref_entry; [exact Hinv|]. rewrite He. by left.
    + apply Hk. rewrite !fmap_cons. by left.
    + intros k Hs. apply Hk in Hs. rewrite !fmap_cons in Hs, Hasc'.
      cbn [snd] in Hs, Hasc'.
      apply elem_of_cons in Hs as [->|Hs]; [by left|]. right.
      inversion Hasc' as [|? ? Hall _]; subst.
      by eapply Forall_forall in Hall.
Qed.

Lemma begin_is_least_witness :
  order_ok Z.eqb Z.ltb /\ 1%nat <> nullptr /\
  exists s m it,
    from_empty (fun x : Z => x) Z.eqb Z.ltb 0 0 1%nat 1%nat
      [OpInsert 5; OpInsert 2; OpInsert 8; OpErase 2] ∅ = Ok (s, m) /\
    begin s m = Ok (it, m) /\
    ((it = end_ s /\
      forall k, ~ stored (fun x : Z => x)
                    [OpInsert 5; OpInsert 2; OpInsert 8; OpErase 2] k) \/
     (it <> end_ s /\
      exists d, iterator_deref it m = Ok (d, m) /\
                stored (fun x : Z => x)
                  [OpInsert 5; OpInsert 2; OpInsert 8; OpErase 2]
                  ((fun x : Z => x) d) /\
                forall k, stored (fun x : Z => x)
                            [OpInsert 5; OpInsert 2; OpInsert 8; OpErase 2] k ->
                          k = (fun x : Z => x) d
                          \/ Z.ltb ((fun x : Z => x) d) k = true)).
Proof.
  split; [exact Z_order_ok|]. split; [discriminate|].
  apply (begin_is_least (fun x : Z => x) Z.eqb Z.ltb 0 0 1%nat 1%nat ∅
           _ Z_order_ok).
  discriminate.
Defined.

(** In any state reached by insert, erase and clear, [++] on the iterator
    that [find(k)] returns for a held key moves to the element with the next
    greater key: either it reaches [end()] and no held key is greater than
    [k], or it stands on a payload whose key is greater than [k] with no
    held key strictly between the two. The store is left as it was. *)
Theorem increment_reaches_successor {T K : Type} (key_of : T -> K)
    (eqb ltb : K -> K -> bool) (T0 junk : T) (self alloc : ptr)
    (m0 : gmap ptr (@node_t T)) (os : list (@op T K)) (k : K) :
  order_ok eqb ltb ->
  alloc <> nullptr ->
  stored key_of os k ->
  exists s m it it',
    from_empty key_of eqb ltb T0 junk self alloc os m0 = Ok (s, m) /\
    find key_of eqb ltb s k m = Ok (it, m) /\
    iterator_incr s it m = Ok (it', m) /\
    ((it' = end_ s /\
      forall k', stored key_of os k' -> ltb k k' = false) \/
     (it' <> end_ s /\
      exists d', iterator_deref it' m = Ok (d', m) /\
                 stored key_of os (key_of d') /\
                 ltb k (key_of d') = true /\
                 forall k', stored key_of os k' -> ltb k k' = true ->
                            k' = key_of d' \/ ltb (key_of d') k' = true)).
Proof.
  intros Hord Ha Hs.
  destruct (from_empty_reached key_of eqb ltb T0 junk self alloc os m0 Ha)
    as (s & m & t & Hrun & _ & Hinv & _ & _ & Hasc).
  destruct (Hasc Hord) as [Hasc' Hkeys].
  destruct (find_cases key_of eqb ltb T0 s m t k Hord Hinv Hasc')
    as [[Hnin Hf]|(L0 & a & d & L & He & Hk & Hne & Hf)].
  { exfalso. by apply Hnin, Hkeys. }
  exists s, m, (mk_iterator (this s) a), (mk_iterator (this s) (hd_addr s L)).
  split; [exact Hrun|]. split; [exact Hf|].
  split; [by eapply incr_entry|].
  rewrite keys_entries, He, !fmap_app, !fmap_cons in Hasc'.
  cbn [snd] in Hasc'. rewrite Hk in Hasc'.
  assert (Hst : forall k', stored key_of os k' <->
            k' ∈ (key_of <$> L0.*2) ++ k :: (key_of <$> L.*2)).
  { intros k'. rewrite <- Hkeys, keys_entries, He, !fmap_app, !fmap_cons.
    cbn [snd]. by rewrite Hk. }
  apply ascending_app in Hasc' as (_ & Hasc2 & Hlow).
  assert (Hbelow : forall k', k' ∈ key_of <$> L0.*2 -> ltb k k' = false).
  { intros k' Hin. destruct (ltb k k') eqn:E; [|done].
    assert (Hlt : ltb k' k = true) by (apply Hlow; [done|by left]).
    pose proof (ltb_trans _ _ Hord _ _ _ E Hlt) as Hkk.
    by rewrite (ltb_irrefl _ _ Hord) in Hkk. }
  destruct L as [|[a' d'] L']; cbn [hd_addr].
  - left. split; [done|]. intros k' Hk'. apply Hst in Hk'.
    apply elem_of_app in Hk' as [Hk'|Hk']; [by apply Hbelow|].
    apply elem_of_cons in Hk' as [->|Hk']; [apply (ltb_irrefl _ _ Hord)|].
    by apply elem_of_nil in Hk'.
  - right.
    destruct (entry_lookup T0 s m t a' d' Hinv) as (_ & Hnil & _).
    { rewrite He. apply elem_of_app. right. right. by left. }
    split; [by apply end_ne|]. exists d'.
    rewrite !fmap_cons in Hasc2, Hst. cbn [snd] in Hasc2, Hst.
    inversion Hasc2 as [|? ? Hall Hasc3]; subst.
    inversion Hall as [|? ? Hkd _]; subst.
    inversion Hasc3 as [|? ? Hall' _]; subst.
    split_and!.
    + eapply deref_entry; [exact Hinv|]. rewrite He.
      apply elem_of_app. right. right. by left.
    + apply Hst. apply elem_of_app. right. right. by left.
    + exact Hkd.
    + intros k' Hk' Hlt. apply Hst in Hk'.
      apply elem_of_app in Hk' as [Hk'|Hk'].
      { by rewrite (Hbelow k' Hk') in Hlt. }
      apply elem_of_cons in Hk' as [->|Hk'].
      { by rewrite (ltb_irrefl _ _ Hord) in Hlt. }
      apply elem_of_cons in Hk' as [->|Hk']; [by left|]. right.
      by eapply Forall_forall in Hall'.
Qed.

Lemma increment_reaches_successor_witness :
  order_ok Z.eqb Z.ltb /\ 1%nat <> nullptr /\
  stored (fun x : Z => x) [OpInsert 5; OpInsert 2; OpInsert 8] 5 /\
  exists s m it it',
    from_empty (fun x : Z => x) Z.eqb Z.ltb 0 0 1%nat 1%nat
      [OpInsert 5; OpInsert 2; OpInsert 8] ∅ = Ok (s, m) /\
    find (fun x : Z => x) Z.eqb Z.ltb s 5 m = Ok (it, m) /\
    iterator_incr s it m = Ok (it', m) /\
    ((it' = end_ s /\
      forall k', stored (fun x : Z => x)
                   [OpInsert 5; OpInsert 2; OpInsert 8] k' ->
                 Z.ltb 5 k' = false) \/
     (it' <> end_ s /\
      exists d', iterator_deref it' m = Ok (d', m) /\
                 stored (fun x : Z => x) [OpInsert 5; OpInsert 2; OpInsert 8]
                   ((fun x : Z => x) d') /\
                 Z.ltb 5 ((fun x : Z => x) d') = true /\
                 forall k', stored (fun x : Z => x)
                              [OpInsert 5; OpInsert 2; OpInsert 8] k' ->
                            Z.ltb 5 k' = true ->
                            k' = (fun x : Z => x) d'
                            \/ Z.ltb ((fun x : Z => x) d') k' = true)).
Proof.
  split; [exact Z_order_ok|]. split; [discriminate|].
  split; [unfold stored; simpl; lia|].
  apply (increment_reaches_successor (fun x : Z => x) Z.eqb Z.ltb 0 0 1%nat
           1%nat ∅ [OpInsert 5; OpInsert 2; OpInsert 8] 5 Z_order_ok).
  - discriminate.
  - unfold stored; simpl; lia.
Defined.

(** [trusted_insert] does not look for the key: in any state reached by
    insert, erase and clear it allocates a node and adds the payload, so that
    [size()] grows by one and the walk yields the former payloads in their
    former order with the new one among them; the tree keeps the red-black
    conditions. When the key was already held, the container then holds two
    elements with that key and the walk is no longer strictly ascending. *)
Theorem trusted_insert_always_adds {T K : Type} (key_of : T -> K)
    (eqb ltb : K -> K -> bool) (T0 junk : T) (self alloc : ptr)
    (m0 : gmap ptr (@node_t T)) (os : list (@op T K)) (v : T) :
  order_ok eqb ltb ->
  alloc <> nullptr ->
  exists s m it s' m' ds1 ds2 t',
    from_empty key_of eqb ltb T0 junk self alloc os m0 = Ok (s, m) /\
    trusted_insert key_of ltb junk s v m = Ok (it, s', m') /\
    iterator_deref it m' = Ok (v, m') /\
    RBTree.size s' = wrap (RBTree.size s + 1) /\
    (node_ it ∉ dom m) /\ dom m' = {[node_ it]} ∪ dom m /\
    traverse s m = Ok (ds1 ++ ds2, m) /\
    traverse s' m' = Ok (ds1 ++ v :: ds2, m') /\
    Rep T0 s' m' t' /\ color t' = false /\ no_red_red t' /\
    (forall u, subtree u t' ->
       exists n, forall x, x ∈ black_counts u -> x = n) /\
    (stored key_of os (key_of v) ->
       ~ ascending ltb (key_of <$> ds1 ++ v :: ds2)).
Proof.
  intros Hord Ha.
  destruct (from_empty_reached key_of eqb ltb T0 junk self alloc os m0 Ha)
    as (s & m & t & Hrun & _ & Hinv & _ & _ & Hasc).
  destruct (Hasc Hord) as [Hasc' Hkeys].
  destruct (trusted_insert_run key_of ltb T0 junk s m t v Hinv)
    as (z & m' & Hins & Hinv' & Hd).
  pose proof (trusted_insert_cells _ _ _ _ _ _ _ _ _ Hins)
    as (Hz & _ & Hdom & _).
  pose proof (elems_ins_path key_of ltb t (key_of v)) as He.
  exists s, m, (mk_iterator (this s) z), (with_size (wrap (size_ s + 1)) s), m',
    (kleft (ins_path key_of ltb (key_of v) t [])),
    (kright (ins_path key_of ltb (key_of v) t [])),
    (ins_tree key_of ltb t z v).
  split_and!; try done.
  - rewrite (traverse_run T0 s m t Hinv). by rewrite He.
  - rewrite (traverse_run T0 _ m' _ Hinv'). f_equal. f_equal.
    apply (ins_tree_elems key_of ltb).
  - by destruct Hinv'.
  - destruct Hinv' as [_ _ Hrb _ _]. by apply is_rb_conditions.
  - destruct Hinv' as [_ _ Hrb _ _]. by apply is_rb_conditions.
  - destruct Hinv' as [_ _ Hrb _ _]. by apply is_rb_conditions.
  - intros Hs Hasc2. apply Hkeys in Hs. unfold keys in Hs.
    rewrite He, fmap_app in Hs.
    apply (ascending_NoDup eqb ltb Hord) in Hasc2.
    rewrite fmap_app, fmap_cons in Hasc2.
    apply NoDup_app in Hasc2 as (_ & Hdis & Hnd2).
    apply NoDup_cons in Hnd2 as [Hk2 _].
    apply elem_of_app in Hs as [Hs|Hs]; [|done].
    apply (Hdis _ Hs). by left.
Qed.

Lemma trusted_insert_always_adds_witness :
  order_ok Z.eqb Z.ltb /\ 1%nat <> nullptr /\
  exists s m it s' m' ds1 ds2 t',
    from_empty (fun x : Z => x) Z.eqb Z.ltb 0 0 1%nat 1%nat
      [OpInsert 5; OpInsert 2; OpInsert 8] ∅ = Ok (s, m) /\
    trusted_insert (fun x : Z => x) Z.ltb 0 s 5 m = Ok (it, s', m') /\
    iterator_deref it m' = Ok (5, m') /\
    RBTree.size s' = wrap (RBTree.size s + 1) /\
    (node_ it ∉ dom m) /\ dom m' = {[node_ it]} ∪ dom m /\
    traverse s m = Ok (ds1 ++ ds2, m) /\
    traverse s' m' = Ok (ds1 ++ 5 :: ds2, m') /\
    Rep 0 s' m' t' /\ color t' = false /\ no_red_red t' /\
    (forall u, subtree u t' ->
       exists n, forall x, x ∈ black_counts u -> x = n) /\
    (stored (fun x : Z => x) [OpInsert 5; OpInsert 2; OpInsert 8]
       ((fun x : Z => x) 5) ->
       ~ ascending Z.ltb ((fun x : Z => x) <$> ds1 ++ 5 :: ds2)).
Proof.
  split; [exact Z_order_ok|]. split; [discriminate|].
  apply (trusted_insert_always_adds (fun x : Z => x) Z.eqb Z.ltb 0 0 1%nat
           1%nat ∅ [OpInsert 5; OpInsert 2; OpInsert 8] 5 Z_order_ok).
  discriminate.
Defined.

(** The move constructor takes over the tree without touching the store: in
    any state reached by insert, erase and clear, the new container has the
    sentinels, allocator and size of the source and its walk yields the same
    payloads; the source is left with null sentinels, null allocator and
    size 0, and destroying it releases nothing. *)
Theorem move_construct_takes_over {T K : Type} (key_of : T -> K)
    (eqb ltb : K -> K -> bool) (T0 junk : T) (self alloc self2 : ptr)
    (m0 : gmap ptr (@node_t T)) (os : list (@op T K)) :
  alloc <> nullptr ->
  exists s m s2 s1 ds,
    from_empty key_of eqb ltb T0 junk self alloc os m0 = Ok (s, m) /\
    move_construct self2 s m = Ok (s2, s1, m) /\
    this s2 = self2 /\ RBTree.size s2 = RBTree.size s /\
    traverse s m = Ok (ds, m) /\
    traverse s2 m = Ok (ds, m) /\
    s1 = mk_set (this s) nullptr nullptr nullptr 0 /\
    _clean s1 m = Ok (s1, m).
Proof.
  intros Ha.
  destruct (from_empty_reached key_of eqb ltb T0 junk self alloc os m0 Ha)
    as (s & m & t & Hrun & _ & Hinv & _).
  exists s, m,
    (mk_set self2 (nil_ s) (root_ s) (allocator_ s) (size_ s)),
    (mk_set (this s) nullptr nullptr nullptr 0), (elems t).
  split_and!; try done.
  - by eapply traverse_run.
  - eapply traverse_run. eapply Inv_fields; [..|exact Hinv]; done.
Qed.

Lemma move_construct_takes_over_witness :
  1%nat <> nullptr /\
  exists s m s2 s1 ds,
    from_empty (fun x : Z => x) Z.eqb Z.ltb 0 0 1%nat 1%nat
      [OpInsert 5; OpInsert 2; OpInsert 8] ∅ = Ok (s, m) /\
    move_construct 2%nat s m = Ok (s2, s1, m) /\
    this s2 = 2%nat /\ RBTree.size s2 = RBTree.size s /\
    traverse s m = Ok (ds, m) /\
    traverse s2 m = Ok (ds, m) /\
    s1 = mk_set (this s) nullptr nullptr nullptr 0 /\
    _clean s1 m = Ok (s1, m).
Proof.
  split; [discriminate|].
  apply (move_construct_takes_over (fun x : Z => x) Z.eqb Z.ltb 0 0 1%nat 1%nat
           2%nat ∅).
  discriminate.
Defined.

End Behaviour.

(** * [map::operator[]] *)

Module MapIndex.
Import RBTree RBShape RBSpec RBInsert RBInsertHelp RBIter RBOrder RBMethods.
Import RBDeleteSpec RBMethods2 Container ContainerSpec Guarantees RBLive RBCells.
Import Behaviour.

Section Cells.
Context {Key V : Type} (eqb ltb : Key -> Key -> bool) (V0 : V)
  (junk : Key * V).

(** the cells [operator[]] allocates: none when it finds the key, one
    otherwise *)
Lemma operator_index_cells s key m p s' m' :
  operator_index eqb ltb V0 junk s key m = Ok ((p, s'), m') ->
  dom m' = dom m \/ ((p ∉ dom m) /\ dom m' = {[p]} ∪ dom m).
Proof.
  intros H. unfold operator_index in H.
  apply bind_inv in H as (e & m1 & Hs & H).
  apply (steady_search fst eqb ltb) in Hs.
  destruct (decide _).
  - apply ret_inv in H as [_ ->]. by left.
  - right.
    apply bind_inv in H as (x & m2 & Ha & H).
    apply allocate_node_dom in Ha as (Hx & Hx0 & Hd2).
    apply bind_inv in H as ([] & m3 & Hw & H).
    apply steady_store in Hw.
    apply bind_inv in H as (r & m4 & Hi & H).
    destruct (_insert_result _ _ _ _ _ _ _ Hi) as [-> Hd4].
    apply ret_inv in H as [E Em]. injection E as E1 E2. subst.
    rewrite Hs in Hx, Hd2. split; [done|]. by rewrite Hd4, Hw.
Qed.

End Cells.

(** C10. [map::operator[]], in every state reached by insert, erase and
    clear.  For a key that is stored, the result is the node that holds it,
    and neither the map (its size included) nor the store changes.  For a
    key that is not stored, the result is one newly allocated node, which
    holds the key paired with the value-initialised [T()] and is linked into
    the tree: [find] of the key, which gave [end()] before, now gives that
    node, the walk yields the former pairs in their former order with the
    new pair among them, and the size has grown by exactly one. *)
Theorem map_index_semantics {Key V : Type} (eqb ltb : Key -> Key -> bool)
    (T0 junk : Key * V) (V0 : V) (self alloc : ptr)
    (m0 : gmap ptr (@node_t (Key * V))) (os : list (@op (Key * V) Key))
    (key : Key) :
  order_ok eqb ltb ->
  alloc <> nullptr ->
  Z.of_nat (length os) + 1 < size_type_modulus ->
  exists s m p s' m' d,
    Container.from_empty fst eqb ltb T0 junk self alloc os m0 = Ok (s, m) /\
    operator_index eqb ltb V0 junk s key m = Ok ((p, s'), m') /\
    get_data p m' = Ok (d, m') /\
    fst d = key /\
    p <> nil_ s' /\
    find fst eqb ltb s' key m' = Ok (mk_iterator (this s') p, m') /\
    (Container.stored fst os key -> s' = s /\ m' = m) /\
    (~ Container.stored fst os key ->
       RBTree.size s' = RBTree.size s + 1 /\ d = (key, V0) /\ m !! p = None /\
       dom m' = {[p]} ∪ dom m /\
       find fst eqb ltb s key m = Ok (end_ s, m) /\
       exists ds1 ds2,
         traverse s m = Ok (ds1 ++ ds2, m) /\
         traverse s' m' = Ok (ds1 ++ (key, V0) :: ds2, m')).
Proof.
  intros Hord Ha Hbound.
  destruct (wp_run _ _ _ (from_empty_wp fst eqb ltb T0 junk self alloc
                            os m0 Ha))
    as (s & m & Hrun & t & Hinv & Hlen & Hfacts).
  destruct (Hfacts Hord) as [Hasc Hkeys].
  pose proof (operator_index_spec eqb ltb T0 junk V0 s m t key
    (fun r m' =>
       match RBInsertHelp.search_tree fst eqb ltb key t with
       | Node c l a d r0 => r = (a, s) /\ m' = m
       | Leaf =>
           m !! fst r = None /\
           snd r = with_size (wrap (size_ s + 1)) s /\
           RBMethods.Inv T0 (snd r) m'
             (RBInsert.ins_tree fst ltb t (fst r) (key, V0))
       end) Hinv) as Hw.
  pose proof (find_run fst eqb ltb T0 s m t key Hinv) as Hfind.
  destruct (RBInsertHelp.search_tree fst eqb ltb key t) as [|c l a d r] eqn:E.
  - apply wp_run in Hw as ([z s'] & m' & Hr & Hfree & Hs' & Hinv').
    2: { intros z m' _ Hfree Hinv'. by split_and!. }
    cbn [fst snd] in *. subst s'.
    set (t' := RBInsert.ins_tree fst ltb t z (key, V0)) in *.
    assert (Hin : (z, (key, V0)) ∈ entries t').
    { unfold t'. rewrite (entries_ins_tree fst ltb), entries_plug.
      cbn [entries app]. apply elem_of_app. right. by left. }
    destruct (entry_lookup T0 _ _ _ _ _ Hinv' Hin) as (_ & _ & n & Hn & Hd).
    assert (Hasc' : ascending ltb (keys fst t')).
    { by apply (ins_tree_ascending fst eqb ltb Hord). }
    destruct (search_tree_found fst eqb ltb Hord t' z (key, V0) Hasc' Hin)
      as (c' & l' & r' & E').
    cbn [fst] in E'.
    destruct (search_tree_addr fst eqb ltb T0 _ m' t' key c' l' z (key, V0)
                r' Hinv' E') as [_ Hznil].
    pose proof (find_run fst eqb ltb T0 _ m' t' key Hinv') as Hfind'.
    rewrite E' in Hfind'. cbn [addr] in Hfind'.
    exists s, m, z, (with_size (wrap (size_ s + 1)) s), m', (key, V0).
    split_and!; [done|done| |done|done|done| |].
    + unfold get_data, bind, load. rewrite Hn. unfold ret. by rewrite Hd.
    + intros Hst. exfalso. apply Hkeys in Hst.
      by apply (search_tree_Leaf fst eqb ltb t key Hord Hasc E).
    + intros _. split_and!; [|done|done| |done|].
      * unfold RBTree.size. cbn [with_size size_].
        destruct Hinv as [_ _ _ _ Hsize]. rewrite Hsize. unfold wrap.
        rewrite (Z.mod_small (Z.of_nat _)) by lia.
        apply Z.mod_small. lia.
      * destruct (operator_index_cells eqb ltb V0 junk _ _ _ _ _ _ Hr)
          as [Hd'|[_ Hd']]; [|done].
        exfalso. apply not_elem_of_dom in Hfree. apply Hfree.
        rewrite <- Hd'. by apply elem_of_dom.
      * exists (kleft (RBInsert.ins_path fst ltb key t [])),
          (kright (RBInsert.ins_path fst ltb key t [])).
        split.
        -- rewrite (traverse_run T0 s m t Hinv). f_equal. f_equal.
           apply (elems_ins_path fst ltb).
        -- rewrite (traverse_run T0 _ m' _ Hinv'). f_equal. f_equal.
           apply (ins_tree_elems fst ltb t z (key, V0)).
  - apply wp_run in Hw as ([p s'] & m' & Hr & [= -> ->] & ->); [|done].
    destruct (search_tree_addr fst eqb ltb T0 s m t key c l a d r Hinv E)
      as [_ Hanil].
    apply search_tree_sound in E as [Heq Hin].
    apply (eqb_eq _ _ Hord) in Heq.
    destruct (entry_lookup T0 _ _ _ _ _ Hinv Hin) as (_ & _ & n & Hn & Hd).
    exists s, m, a, s, m, d. split_and!; [done|done| |done|done|done|done|].
    + unfold get_data, bind, load. rewrite Hn. unfold ret. by rewrite Hd.
    + intros Hns. exfalso. apply Hns, Hkeys. rewrite Heq.
      by apply (entries_key fst) in Hin.
Qed.

Lemma map_index_semantics_witness :
  order_ok Z.eqb Z.ltb /\ 1%nat <> nullptr /\
  Z.of_nat (length [OpInsert (K:=Z) (4, true); OpInsert (7, true)]) + 1
    < size_type_modulus /\
  exists s m p s' m' d,
    Container.from_empty fst Z.eqb Z.ltb (0, false) (0, false) 1%nat 1%nat
      [OpInsert (4, true); OpInsert (7, true)] ∅ = Ok (s, m) /\
    operator_index Z.eqb Z.ltb false (0, false) s 5 m = Ok ((p, s'), m') /\
    get_data p m' = Ok (d, m') /\
    fst d = 5 /\
    p <> nil_ s' /\
    find fst Z.eqb Z.ltb s' 5 m' = Ok (mk_iterator (this s') p, m') /\
    (Container.stored fst [OpInsert (4, true); OpInsert (7, true)] 5 ->
       s' = s /\ m' = m) /\
    (~ Container.stored fst [OpInsert (4, true); OpInsert (7, true)] 5 ->
       RBTree.size s' = RBTree.size s + 1 /\ d = (5, false) /\ m !! p = None /\
       dom m' = {[p]} ∪ dom m /\
       find fst Z.eqb Z.ltb s 5 m = Ok (end_ s, m) /\
       exists ds1 ds2,
         traverse s m = Ok (ds1 ++ ds2, m) /\
         traverse s' m' = Ok (ds1 ++ (5, false) :: ds2, m')).
Proof.
  split; [exact Z_order_ok|]. split; [discriminate|]. split; [by vm_compute|].
  apply (map_index_semantics Z.eqb Z.ltb (0, false) (0, false) false
           1%nat 1%nat ∅ [OpInsert (4, true); OpInsert (7, true)] 5 Z_order_ok).
  - discriminate.
  - by vm_compute.
Defined.

End MapIndex.

(** * The payloads a container holds: a sorted list as reference model *)

Module Payloads.
Import RBTree RBShape RBSpec RBInsert RBInsertHelp RBIter RBOrder RBMethods.
Import RBMethods2 Container ContainerSpec Guarantees RBLive RBCells Behaviour.

Section Model.
Context {T K : Type} (key_of : T -> K) (eqb ltb : K -> K -> bool).

(** insertion into a list sorted by key; a payload whose key is there
    already is not inserted *)
Fixpoint put (v : T) (l : list T) : list T :=
  match l with
  | [] => [v]
  | x :: l' =>
      if eqb (key_of v) (key_of x) then l
      else if ltb (key_of v) (key_of x) then v :: l
      else x :: put v l'
  end.

(** removal of the payload with key [k] *)
Fixpoint drop_key (k : K) (l : list T) : list T :=
  match l with
  | [] => []
  | x :: l' => if eqb k (key_of x) then l' else x :: drop_key k l'
  end.

Definition op_payloads (o : @op T K) (l : list T) : list T :=
  match o with
  | OpInsert v => put v l
  | OpErase k => drop_key k l
  | OpClear => []
  end.

Fixpoint ops_payloads (os : list (@op T K)) (l : list T) : list T :=
  match os with
  | [] => l
  | o :: os => ops_payloads os (op_payloads o l)
  end.

Context (Hord : order_ok eqb ltb).
Local Abbreviation ascending := (RBOrder.ascending ltb).

Lemma eqb_false a b : a <> b -> eqb a b = false.
Proof using Hord.
  intros Hne. destruct (eqb a b) eqn:E; [|done].
  by apply (eqb_eq _ _ Hord) in E.
Qed.

Lemma lt_ne a b : ltb a b = true -> a <> b.
Proof using Hord. intros Hlt ->. by rewrite (ltb_irrefl _ _ Hord) in Hlt. Qed.

Lemma lt_asym a b : ltb a b = true -> ltb b a = false.
Proof using Hord.
  intros Hlt. destruct (ltb b a) eqn:E; [|done].
  pose proof (ltb_trans _ _ Hord _ _ _ Hlt E) as H.
  by rewrite (ltb_irrefl _ _ Hord) in H.
Qed.

Lemma put_split v : forall l1 l2,
  ascending (key_of <$> l1 ++ v :: l2) ->
  put v (l1 ++ l2) = l1 ++ v :: l2.
Proof using Hord.
  induction l1 as [|x l1 IH]; intros l2 Hasc; cbn [app put] in *.
  - destruct l2 as [|x l2]; [done|]. cbn [put].
    rewrite !fmap_cons in Hasc. inversion Hasc as [|? ? Hall _]; subst.
    inversion Hall as [|? ? Hlt _]; subst.
    rewrite (eqb_false _ _ (lt_ne _ _ Hlt)). by rewrite Hlt.
  - rewrite fmap_cons in Hasc. inversion Hasc as [|? ? Hall Hasc']; subst.
    assert (Hlt : ltb (key_of x) (key_of v) = true).
    { eapply Forall_forall in Hall; [exact Hall|].
      rewrite fmap_app, fmap_cons. apply elem_of_app. right. by left. }
    rewrite (eqb_false (key_of v) (key_of x))
      by (intros E; by apply (lt_ne _ _ Hlt)).
    rewrite (lt_asym _ _ Hlt). f_equal. by apply IH.
Qed.

Lemma put_present v : forall l,
  ascending (key_of <$> l) -> key_of v ∈ key_of <$> l -> put v l = l.
Proof using Hord.
  induction l as [|x l IH]; intros Hasc Hin; cbn [put].
  - by apply elem_of_nil in Hin.
  - rewrite fmap_cons in Hasc, Hin. inversion Hasc as [|? ? Hall Hasc']; subst.
    destruct (eqb (key_of v) (key_of x)) eqn:E; [done|].
    apply elem_of_cons in Hin as [Hin|Hin].
    { apply (eqb_eq _ _ Hord) in Hin. congruence. }
    assert (Hlt : ltb (key_of x) (key_of v) = true).
    { by eapply Forall_forall in Hall. }
    rewrite (lt_asym _ _ Hlt). f_equal. by apply IH.
Qed.

Lemma drop_key_absent k : forall l, k ∉ key_of <$> l -> drop_key k l = l.
Proof using Hord.
  induction l as [|x l IH]; intros Hnin; cbn [drop_key]; [done|].
  rewrite fmap_cons in Hnin. apply not_elem_of_cons in Hnin as [Hne Hnin].
  rewrite (eqb_false _ _ Hne). f_equal. by apply IH.
Qed.

Lemma drop_key_split d : forall l1 l2,
  key_of d ∉ key_of <$> l1 ->
  drop_key (key_of d) (l1 ++ d :: l2) = l1 ++ l2.
Proof using Hord.
  induction l1 as [|x l1 IH]; intros l2 Hnin; cbn [app drop_key].
  - by rewrite (proj2 (eqb_eq _ _ Hord _ _) eq_refl).
  - rewrite fmap_cons in Hnin. apply not_elem_of_cons in Hnin as [Hne Hnin].
    rewrite (eqb_false _ _ Hne). f_equal. by apply IH.
Qed.

End Model.

Section Runs.
Context {T K : Type} (key_of : T -> K) (eqb ltb : K -> K -> bool) (T0 junk : T).
Context (Hord : order_ok eqb ltb).
Implicit Types (s : set) (m : gmap ptr (@node_t T)) (t : @tree T).
Local Abbreviation Inv := (RBMethods.Inv T0).
Local Abbreviation keys := (RBOrder.keys key_of).
Local Abbreviation ascending := (RBOrder.ascending ltb).
Local Abbreviation search_tree := (RBInsertHelp.search_tree key_of eqb ltb).
Local Abbreviation run_op := (Container.run_op key_of eqb ltb junk).
Local Abbreviation run_ops := (Container.run_ops key_of eqb ltb junk).

Lemma run_op_payloads s m t o :
  Inv s m t -> ascending (keys t) ->
  exists s' m' t',
    run_op s o m = Ok (s', m') /\ Inv s' m' t' /\ ascending (keys t') /\
    elems t' = op_payloads key_of eqb ltb o (elems t).
Proof using Hord.
  intros Hinv Hasc. destruct o as [v|k|]; cbn [Container.run_op op_payloads].
  - destruct (search_tree (key_of v) t) as [|c l a d r] eqn:E.
    + destruct (insert_new_run key_of eqb ltb T0 junk s m t v Hinv E)
        as (z & m' & Hins & Hinv' & _).
      pose proof (ins_tree_ascending key_of eqb ltb Hord t z v Hasc E) as Hasc'.
      eexists _, m', _. split_and!; [|exact Hinv'|exact Hasc'|].
      * by rewrite (bind_ok _ _ _ _ _ Hins).
      * rewrite (ins_tree_elems key_of ltb).
        rewrite (elems_ins_path key_of ltb t (key_of v)).
        symmetry. apply (put_split key_of eqb ltb Hord).
        unfold RBOrder.keys in Hasc'.
        by rewrite (ins_tree_elems key_of ltb) in Hasc'.
    + pose proof (insert_spec key_of eqb ltb T0 junk s m t v
        (fun r m' => r = (mk_iterator (this s) a, false, s) /\ m' = m) Hinv)
        as Hw.
      rewrite E in Hw. apply wp_run in Hw as (res & m' & Hins & -> & ->);
        [|done].
      exists s, m, t. split_and!; [|done..|].
      * by rewrite (bind_ok _ _ _ _ _ Hins).
      * symmetry. apply (put_present key_of eqb ltb Hord); [done|].
        apply search_tree_sound in E as [Heq Hin].
        apply (eqb_eq _ _ Hord) in Heq. rewrite Heq.
        by apply (entries_key key_of) in Hin.
  - unfold Container.erase_found.
    destruct (find_cases key_of eqb ltb T0 s m t k Hord Hinv Hasc)
      as [[Hnin Hf]|(L0 & a & d & L & He & Hk & Hne & Hf)].
    + rewrite (bind_ok _ _ _ _ _ Hf).
      unfold end_ at 1. rewrite iterator_ne_end.
      rewrite bool_decide_eq_false_2 by (intros H; by apply H).
      exists s, m, t. split_and!; [done..|].
      symmetry. by apply (drop_key_absent key_of eqb ltb Hord).
    + rewrite (bind_ok _ _ _ _ _ Hf).
      rewrite iterator_ne_end, bool_decide_eq_true_2 by done.
      destruct (erase_entry_run T0 s m t L0 a d L Hinv He)
        as (m' & t' & Her & Hinv' & He').
      rewrite keys_entries, He, !fmap_app, !fmap_cons in Hasc.
      cbn [snd] in Hasc.
      exists (with_size (wrap (size_ s - 1)) s), m', t'.
      split_and!; [done|done| |].
      * rewrite keys_entries, He', !fmap_app. by eapply ascending_remove.
      * rewrite !elems_entries, He, He', !fmap_app, fmap_cons. cbn [snd].
        rewrite <- Hk. symmetry.
        apply (drop_key_split key_of eqb ltb Hord).
        apply (ascending_NoDup eqb ltb Hord) in Hasc.
        apply NoDup_app in Hasc as (_ & Hdis & _).
        intros Hin. apply (Hdis _ Hin). by left.
  - destruct (wp_run _ _ _ (clear_frees T0 s m t Hinv))
      as (s' & m' & Hcl & -> & Hinv' & _).
    exists (with_size 0 s), m', Leaf. split_and!; [done..|constructor|done].
Qed.

Lemma run_ops_payloads : forall os s m t,
  Inv s m t -> ascending (keys t) ->
  exists s' m' t',
    run_ops s os m = Ok (s', m') /\ Inv s' m' t' /\ ascending (keys t') /\
    elems t' = ops_payloads key_of eqb ltb os (elems t).
Proof using Hord.
  induction os as [|o os IH]; intros s m t Hinv Hasc;
    cbn [Container.run_ops ops_payloads].
  - by exists s, m, t.
  - destruct (run_op_payloads s m t o Hinv Hasc)
      as (s1 & m1 & t1 & Hrun1 & Hinv1 & Hasc1 & He1).
    destruct (IH s1 m1 t1 Hinv1 Hasc1)
      as (s2 & m2 & t2 & Hrun2 & Hinv2 & Hasc2 & He2).
    exists s2, m2, t2. split_and!; [|done..|by rewrite He2, He1].
    by rewrite (bind_ok _ _ _ _ _ Hrun1).
Qed.

End Runs.

(** Functional correctness against a sorted list: after any calls of insert,
    erase (of a found key) and clear on a fresh container, the walk from
    [begin()] to [end()] yields exactly the list obtained by making the same
    calls on a list sorted by key, where insert leaves the list alone when
    the key is there already. For a map this fixes the value each key maps
    to: the one of its first insertion since the key was last absent. *)
Theorem ops_sequence_payloads {T K : Type} (key_of : T -> K)
    (eqb ltb : K -> K -> bool) (T0 junk : T) (self alloc : ptr)
    (m0 : gmap ptr (@node_t T)) (os : list (@op T K)) :
  order_ok eqb ltb ->
  alloc <> nullptr ->
  exists s m,
    from_empty key_of eqb ltb T0 junk self alloc os m0 = Ok (s, m) /\
    traverse s m = Ok (ops_payloads key_of eqb ltb os [], m).
Proof.
  intros Hord Ha.
  assert (Hw : wp (construct T0 junk self alloc) m0
                 (fun s' m' => RBMethods.Inv T0 s' m' Leaf)).
  { eapply construct_spec; [exact Ha|]. by intros. }
  apply wp_run in Hw as (s0 & m1 & Hc & Hinv0).
  destruct (run_ops_payloads key_of eqb ltb T0 junk Hord os s0 m1 Leaf Hinv0)
    as (s & m & t & Hrun & Hinv & Hasc & He); [constructor|].
  exists s, m. split.
  - unfold from_empty. by rewrite (bind_ok _ _ _ _ _ Hc).
  - rewrite (traverse_run T0 s m t Hinv). by rewrite He.
Qed.

Lemma ops_sequence_payloads_witness :
  order_ok Z.eqb Z.ltb /\ 1%nat <> nullptr /\
  exists s m,
    from_empty fst Z.eqb Z.ltb (0, false) (0, false) 1%nat 1%nat
      [OpInsert (5, true); OpInsert (2, true); OpInsert (5, false);
       OpErase 2; OpInsert (2, false)] ∅ = Ok (s, m) /\
    traverse s m
    = Ok (ops_payloads fst Z.eqb Z.ltb
            [OpInsert (5, true); OpInsert (2, true); OpInsert (5, false);
             OpErase 2; OpInsert (2, false)] [], m).
Proof.
  split; [exact Z_order_ok|]. split; [discriminate|].
  apply (ops_sequence_payloads fst Z.eqb Z.ltb (0, false) (0, false)
           1%nat 1%nat ∅ _ Z_order_ok).
  discriminate.
Defined.

End Payloads.

(** * Two containers in one store: copy assignment *)

Module RBCopy.
Import RBTree RBShape RBSpec RBInsert RBInsertHelp RBIter RBOrder RBMethods.
Import RBMethods2 Container ContainerSpec Guarantees RBLive RBCells Behaviour.
Import Payloads.

(** ** Framing: code that does not allocate runs the same way beside cells
    it does not know, with any larger loop budget *)

Section Frames.
Context {T : Type}.
Implicit Types (m mf : gmap ptr (@node_t T)).

Definition frames {A} (c c' : M (T:=T) A) : Prop :=
  forall m mf a m', m ##ₘ mf -> c m = Ok (a, m') ->
    c' (m ∪ mf) = Ok (a, m' ∪ mf) /\ m' ##ₘ mf.

Lemma frames_ret {A} (a : A) : frames (ret a) (ret a).
Proof. intros m mf a' m' Hd [= <- <-]. done. Qed.

Lemma frames_fail {A} e (c' : M A) : frames (fail (T:=T) e) c'.
Proof. intros m mf a' m' Hd H. done. Qed.

Lemma frames_bind {A B} (c c' : M A) (k k' : A -> M B) :
  frames c c' -> (forall a, frames (k a) (k' a)) ->
  frames (bind c k) (bind c' k').
Proof.
  intros Hc Hk m mf b m' Hd H. unfold bind in H |- *.
  destruct (c m) as [[a m1]|e] eqn:E; [|done].
  destruct (Hc _ _ _ _ Hd E) as [-> Hd1]. by apply Hk.
Qed.

Lemma frames_load p : frames (load (T:=T) p) (load p).
Proof.
  intros m mf a m' Hd H. unfold load in H |- *.
  destruct (m !! p) as [n|] eqn:E; [|done]. injection H as <- <-.
  by rewrite (lookup_union_Some_l _ _ _ _ E).
Qed.

Lemma frames_store p (f : node_t -> node_t) :
  frames (store (T:=T) p f) (store p f).
Proof.
  intros m mf a m' Hd H. unfold store in H |- *.
  destruct (m !! p) as [n|] eqn:E; [|done]. injection H as <- <-.
  rewrite (lookup_union_Some_l _ _ _ _ E), insert_union_l. split; [done|].
  apply map_disjoint_insert_l_2; [|done].
  by eapply map_disjoint_Some_l.
Qed.

Lemma frames_with_fuel {A} (f : nat -> M A) :
  (forall fuel fuel', (fuel <= fuel')%nat -> frames (f fuel) (f fuel')) ->
  frames (with_fuel f) (with_fuel f).
Proof.
  intros Hf m mf a m' Hd H. unfold with_fuel in H |- *.
  eapply Hf; [|done|done].
  rewrite map_size_disj_union by done. lia.
Qed.

Lemma frames_free s p : frames (_free_node (T:=T) s p) (_free_node s p).
Proof.
  intros m mf a m' Hd H. unfold _free_node in H |- *.
  destruct (decide _); [done|].
  destruct (m !! p) as [nd|] eqn:E; [|done]. injection H as <- <-.
  rewrite (lookup_union_Some_l _ _ _ _ E), delete_union.
  rewrite (delete_id mf) by by eapply map_disjoint_Some_l.
  split; [done|]. by apply map_disjoint_delete_l.
Qed.

(** running code that frames on a store, by running it on the part of the
    store that [P] selects *)
Lemma frames_wp {A} (c : M A) m (P : ptr -> Prop) `{forall p, Decision (P p)}
    (Q : A -> gmap ptr (@node_t T) -> Prop) :
  frames c c ->
  wp c (filter (fun kv => P kv.1) m) Q ->
  exists a m1,
    c m = Ok (a, m1 ∪ filter (fun kv => ~ P kv.1) m) /\ Q a m1 /\
    m1 ##ₘ filter (fun kv => ~ P kv.1) m.
Proof.
  intros Hc Hw. apply wp_run in Hw as (a & m1 & Hrun & HQ).
  pose proof (map_disjoint_filter_complement (fun kv : ptr * node_t => P kv.1) m)
    as Hd.
  destruct (Hc _ _ _ _ Hd Hrun) as [Hrun' Hd'].
  rewrite map_filter_union_complement in Hrun'. by exists a, m1.
Qed.

Lemma filter_own_lookup m (P : ptr -> Prop) `{forall p, Decision (P p)} p :
  P p -> filter (fun kv => P kv.1) m !! p = m !! p.
Proof.
  intros Hp. destruct (m !! p) as [n|] eqn:E.
  - by apply map_lookup_filter_Some.
  - apply eq_None_not_Some. intros [n Hn].
    apply map_lookup_filter_Some in Hn as [Hn _]. congruence.
Qed.

Lemma filter_rest_lookup m (P : ptr -> Prop) `{forall p, Decision (P p)} p :
  ~ P p -> filter (fun kv => ~ P kv.1) m !! p = m !! p.
Proof.
  intros Hp. destruct (m !! p) as [n|] eqn:E.
  - by apply map_lookup_filter_Some.
  - apply eq_None_not_Some. intros [n Hn].
    apply map_lookup_filter_Some in Hn as [Hn _]. congruence.
Qed.

(** what is left of the store keeps its contents *)
Lemma union_rest_lookup m m1 (P : ptr -> Prop) `{forall p, Decision (P p)} p :
  m1 ##ₘ filter (fun kv => ~ P kv.1) m -> ~ P p -> p ∈ dom m ->
  (m1 ∪ filter (fun kv => ~ P kv.1) m) !! p = m !! p.
Proof.
  intros Hd Hp Hin. apply elem_of_dom in Hin as [n Hn].
  assert (Hf : filter (fun kv => ~ P kv.1) m !! p = Some n).
  { by rewrite filter_rest_lookup. }
  rewrite lookup_union_r; [by rewrite Hf, Hn|].
  by eapply map_disjoint_Some_r.
Qed.

Lemma frames_if {A} (b : bool) (c1 c2 c1' c2' : M A) :
  frames c1 c1' -> frames c2 c2' ->
  frames (if b then c1 else c2) (if b then c1' else c2').
Proof. by destruct b. Qed.

Lemma frames_if_dec {A} (P : Prop) (d : Decision P) (c1 c2 c1' c2' : M A) :
  frames c1 c1' -> frames c2 c2' ->
  frames (if d then c1 else c2) (if d then c1' else c2').
Proof. by destruct d. Qed.

End Frames.

Ltac frames_step :=
  lazymatch goal with
  | |- frames (bind _ _) (bind _ _) => apply frames_bind; [|intros ?]
  | |- frames (ret _) (ret _) => apply frames_ret
  | |- frames (fail _) _ => apply frames_fail
  | |- frames (load _) (load _) => apply frames_load
  | |- frames (store _ _) (store _ _) => apply frames_store
  | |- frames (with_fuel _) (with_fuel _) =>
      apply frames_with_fuel; intros ? ? ?
  | |- frames (_free_node _ _) (_free_node _ _) => apply frames_free
  | |- frames (if decide _ then _ else _) (if decide _ then _ else _) =>
      apply frames_if_dec
  | |- frames (if _ then _ else _) (if _ then _ else _) => apply frames_if
  | |- frames (get_parent _) _ => unfold get_parent
  | |- frames (get_left _) _ => unfold get_left
  | |- frames (get_right _) _ => unfold get_right
  | |- frames (get_red _) _ => unfold get_red
  | |- frames (get_data _) _ => unfold get_data
  | |- frames (get_grandparent _) _ => unfold get_grandparent
  | |- frames (get_left_red _) _ => unfold get_left_red
  | |- frames (get_right_red _) _ => unfold get_right_red
  | |- frames (set_parent _ _) _ => unfold set_parent
  | |- frames (set_left _ _) _ => unfold set_left
  | |- frames (set_right _ _) _ => unfold set_right
  | |- frames (set_red _ _) _ => unfold set_red
  | |- frames (set_data _ _) _ => unfold set_data
  | |- frames (_left_rotate _ _) _ => unfold _left_rotate
  | |- frames (_right_rotate _ _) _ => unfold _right_rotate
  end.

Section FramesCode.
Context {T K : Type} (key_of : T -> K) (ltb : K -> K -> bool).
Implicit Types (s : set) (m : gmap ptr (@node_t T)).

Lemma frames_insert_help_loop s z : forall fuel fuel' y x,
  (fuel <= fuel')%nat ->
  frames (_insert_help_loop key_of ltb fuel s z y x)
         (_insert_help_loop key_of ltb fuel' s z y x).
Proof.
  induction fuel as [|fuel IH]; intros fuel' y x Hle; cbn [_insert_help_loop].
  - apply frames_fail.
  - destruct fuel' as [|fuel']; [lia|]. cbn [_insert_help_loop].
    repeat first [apply IH; lia | frames_step].
Qed.

Lemma frames_insert_loop s : forall fuel fuel' x,
  (fuel <= fuel')%nat ->
  frames (_insert_loop (T:=T) fuel s x) (_insert_loop fuel' s x).
Proof.
  induction fuel as [|fuel IH]; intros fuel' x Hle; cbn [_insert_loop].
  - apply frames_fail.
  - destruct fuel' as [|fuel']; [lia|]. cbn [_insert_loop].
    repeat first [apply IH; lia | frames_step].
Qed.

Lemma frames_insert s x :
  frames (_insert key_of ltb s x) (_insert key_of ltb s x).
Proof.
  unfold _insert, _insert_help.
  repeat first [apply frames_insert_help_loop; lia
               | apply frames_insert_loop; lia | frames_step].
Qed.

Lemma frames_search_loop eqb s k : forall fuel fuel' x,
  (fuel <= fuel')%nat ->
  frames (_search_loop key_of eqb ltb fuel s k x)
         (_search_loop key_of eqb ltb fuel' s k x).
Proof.
  induction fuel as [|fuel IH]; intros fuel' x Hle; cbn [_search_loop].
  - apply frames_fail.
  - destruct fuel' as [|fuel']; [lia|]. cbn [_search_loop].
    repeat first [apply IH; lia | frames_step].
Qed.

Lemma frames_search eqb s k :
  frames (_search key_of eqb ltb s k) (_search key_of eqb ltb s k).
Proof.
  unfold _search.
  repeat first [apply frames_search_loop; lia | frames_step].
Qed.

End FramesCode.

Section FramesNodes.
Context {T : Type}.
Implicit Types (s : set) (m : gmap ptr (@node_t T)).

Lemma frames_delete_fix_up_loop s : forall fuel fuel' root x,
  (fuel <= fuel')%nat ->
  frames (_delete_fix_up_loop (T:=T) fuel s root x)
         (_delete_fix_up_loop fuel' s root x).
Proof.
  induction fuel as [|fuel IH]; intros fuel' root x Hle;
    cbn [_delete_fix_up_loop].
  - apply frames_fail.
  - destruct fuel' as [|fuel']; [lia|]. cbn [_delete_fix_up_loop].
    repeat first [apply IH; lia | frames_step].
Qed.

Lemma frames_delete_fix_up s x :
  frames (_delete_fix_up (T:=T) s x) (_delete_fix_up s x).
Proof.
  unfold _delete_fix_up.
  repeat first [apply frames_delete_fix_up_loop; lia | frames_step].
Qed.

Lemma frames_leftmost_loop nil : forall fuel fuel' y,
  (fuel <= fuel')%nat ->
  frames (_leftmost_loop (T:=T) fuel nil y) (_leftmost_loop fuel' nil y).
Proof.
  induction fuel as [|fuel IH]; intros fuel' y Hle; cbn [_leftmost_loop].
  - apply frames_fail.
  - destruct fuel' as [|fuel']; [lia|]. cbn [_leftmost_loop].
    repeat first [apply IH; lia | frames_step].
Qed.

Lemma frames_successor_climb : forall fuel fuel' x y,
  (fuel <= fuel')%nat ->
  frames (_successor_climb (T:=T) fuel x y) (_successor_climb fuel' x y).
Proof.
  induction fuel as [|fuel IH]; intros fuel' x y Hle; cbn [_successor_climb].
  - apply frames_fail.
  - destruct fuel' as [|fuel']; [lia|]. cbn [_successor_climb].
    repeat first [apply IH; lia | frames_step].
Qed.

Lemma frames_tree_successor s x :
  frames (_tree_successor (T:=T) s x) (_tree_successor s x).
Proof.
  unfold _tree_successor.
  repeat first [apply frames_leftmost_loop; lia
               | apply frames_successor_climb; lia | frames_step].
Qed.

Lemma frames_delete s z : frames (_delete (T:=T) s z) (_delete s z).
Proof.
  unfold _delete. cbn zeta.
  repeat first [apply frames_tree_successor | apply frames_delete_fix_up
               | frames_step].
Qed.

Lemma frames_destroy_helper s : forall fuel fuel' x,
  (fuel <= fuel')%nat ->
  frames (_destroy_helper (T:=T) fuel s x) (_destroy_helper fuel' s x).
Proof.
  induction fuel as [|fuel IH]; intros fuel' x Hle; cbn [_destroy_helper].
  - apply frames_fail.
  - destruct fuel' as [|fuel']; [lia|]. cbn [_destroy_helper].
    repeat first [apply IH; lia | frames_step].
Qed.

Lemma frames_erase s pos : frames (erase (T:=T) s pos) (erase s pos).
Proof.
  unfold erase. repeat first [apply frames_delete | frames_step].
Qed.

Lemma frames_clear s : frames (clear (T:=T) s) (clear s).
Proof.
  unfold clear.
  repeat first [apply frames_destroy_helper; lia | frames_step].
Qed.

End FramesNodes.

(** ** A container writes only to its own cells *)

Section Own.
Context {T K : Type} (key_of : T -> K) (eqb ltb : K -> K -> bool) (T0 junk : T).
Implicit Types (s : set) (m : gmap ptr (@node_t T)) (t : @tree T).
Local Abbreviation Inv := (RBMethods.Inv T0).
Local Abbreviation run_op := (Container.run_op key_of eqb ltb junk).
Local Abbreviation run_ops := (Container.run_ops key_of eqb ltb junk).

(** the cells of a container: the two sentinels and the nodes *)
Definition cells s t : list ptr := nil_ s :: root_ s :: addrs t.

Lemma Inv_ext s m m' t :
  (forall p, p ∈ cells s t -> m' !! p = m !! p) -> Inv s m t -> Inv s m' t.
Proof.
  clear K key_of eqb ltb junk.
  intros Hext [[np Z] Hnull Hrb Halloc Hsize]. split; try done.
  exists np. eapply Zrep_ext; [|exact Z]. intros p Hp. by apply Hext.
Qed.

Lemma Inv_dom s m t p : Inv s m t -> p ∈ cells s t -> p ∈ dom m.
Proof.
  clear K key_of eqb ltb junk.
  intros [[np Z] _ _ _ _] Hp. by eapply Zrep_dom.
Qed.

(** [erase(pos)] at a node of the container leaves all other cells alone *)
Lemma erase_frame s m t pos s' m' :
  Inv s m t -> node_ pos ∈ addrs t ->
  erase s pos m = Ok (s', m') ->
  forall p, p ∈ dom m -> p ∉ cells s t -> m' !! p = m !! p.
Proof.
  clear K key_of eqb ltb junk.
  intros Hinv Hpos Hrun p Hp Hown.
  destruct (frames_wp (erase s pos) m (fun q => q ∈ cells s t)
              (fun _ _ => True) (frames_erase s pos))
    as (s1 & m1 & Hrun1 & _ & Hd).
  { eapply erase_spec; [|exact Hpos|done].
    eapply Inv_ext; [|exact Hinv]. intros q Hq.
    exact (filter_own_lookup m (fun q => q ∈ cells s t) q Hq). }
  rewrite Hrun in Hrun1. injection Hrun1 as -> ->.
  exact (union_rest_lookup m m1 (fun q => q ∈ cells s t) p Hd Hown Hp).
Qed.

Lemma clear_frame s m t s' m' :
  Inv s m t -> clear s m = Ok (s', m') ->
  forall p, p ∈ dom m -> p ∉ cells s t -> m' !! p = m !! p.
Proof.
  clear K key_of eqb ltb junk.
  intros Hinv Hrun p Hp Hown.
  destruct (frames_wp (clear s) m (fun q => q ∈ cells s t)
              (fun _ _ => True) (frames_clear s))
    as (s1 & m1 & Hrun1 & _ & Hd).
  { eapply clear_spec; [|done].
    eapply Inv_ext; [|exact Hinv]. intros q Hq.
    exact (filter_own_lookup m (fun q => q ∈ cells s t) q Hq). }
  rewrite Hrun in Hrun1. injection Hrun1 as -> ->.
  exact (union_rest_lookup m m1 (fun q => q ∈ cells s t) p Hd Hown Hp).
Qed.

(** [_insert] of a node that is live and not yet in the tree *)
Lemma _insert_frame s m t x nx r m' :
  Inv s m t -> m !! x = Some nx -> x ∉ cells s t ->
  _insert key_of ltb s x m = Ok (r, m') ->
  forall p, p ∈ dom m -> p ∉ x :: cells s t -> m' !! p = m !! p.
Proof.
  clear eqb junk.
  intros [[np Z] Hnull [Hc Hrb] Halloc Hsize] Hx Hxn Hrun p Hp Hown.
  destruct (frames_wp (_insert key_of ltb s x) m (fun q => q ∈ x :: cells s t)
              (fun _ _ => True) (frames_insert key_of ltb s x))
    as (r1 & m1 & Hrun1 & _ & Hd).
  { eapply (_insert_spec key_of ltb T0 s _ np t x nx); [|exact Hc| |exact Hxn|done].
    - eapply Zrep_ext; [|exact Z]. intros q Hq.
      refine (filter_own_lookup m (fun q => q ∈ x :: cells s t) q _).
      by right.
    - etrans; [|exact Hx].
      refine (filter_own_lookup m (fun q => q ∈ x :: cells s t) x _).
      by left. }
  rewrite Hrun in Hrun1. injection Hrun1 as -> ->.
  exact (union_rest_lookup m m1 (fun q => q ∈ x :: cells s t) p Hd Hown Hp).
Qed.

(** allocating a node and initialising it leaves the live cells alone *)
Lemma allocate_store s f m x m1 m2 :
  _allocate_node junk s m = Ok (x, m1) ->
  store x f m1 = Ok (tt, m2) ->
  (x ∉ dom m) /\ x <> nullptr /\
  m2 !! x = Some (f (mk_node nullptr nullptr nullptr false junk)) /\
  (forall p, p <> x -> m2 !! p = m !! p) /\
  dom m2 = {[x]} ∪ dom m.
Proof.
  clear K key_of eqb ltb T0.
  intros Ha Hs. pose proof (allocate_node_dom _ _ _ _ _ Ha) as (Hx & Hn & _).
  unfold _allocate_node in Ha. destruct (decide _); [done|].
  injection Ha as <- <-. unfold store in Hs.
  rewrite lookup_insert_eq in Hs. injection Hs as <-.
  split_and!; [done|done|by rewrite lookup_insert_eq| |].
  - intros p Hp. by rewrite !lookup_insert_ne.
  - rewrite !dom_insert_L. set_solver.
Qed.

Lemma insert_frame s m t v r m' :
  Inv s m t ->
  insert key_of eqb ltb junk s v m = Ok (r, m') ->
  forall p, p ∈ dom m -> p ∉ cells s t -> m' !! p = m !! p.
Proof.
  intros Hinv Hrun p Hp Hown. unfold insert in Hrun.
  apply bind_inv in Hrun as (e & m1 & Hs & Hrun).
  assert (m1 = m) as ->.
  { destruct Hinv as [[np Z] _ _ _ _].
    pose proof (search_spec key_of eqb ltb T0 s m np t (key_of v)
                  (fun _ m1 => m1 = m) Z eq_refl) as Hw.
    unfold wp in Hw. by rewrite Hs in Hw. }
  destruct (decide _).
  { by apply ret_inv in Hrun as [_ ->]. }
  apply bind_inv in Hrun as (x & m2 & Ha & Hrun).
  apply bind_inv in Hrun as ([] & m3 & Hw & Hrun).
  destruct (allocate_store s _ m x m2 m3 Ha Hw) as (Hx & _ & Hx3 & Hfr & _).
  apply bind_inv in Hrun as (r' & m4 & Hi & Hrun).
  destruct r' as [nn s1]. apply ret_inv in Hrun as [_ ->].
  assert (Hxc : x ∉ cells s t).
  { intros Hin. apply Hx. by eapply Inv_dom. }
  rewrite <- (Hfr p) by (by intros ->).
  eapply (_insert_frame s m3 t x); [|exact Hx3|exact Hxc|exact Hi| |].
  - eapply Inv_ext; [|exact Hinv]. intros q Hq. apply Hfr. by intros ->.
  - apply elem_of_dom. rewrite Hfr by (by intros ->). by apply elem_of_dom.
  - intros Hin. apply elem_of_cons in Hin as [->|Hin]; done.
Qed.

Lemma run_op_frame s m t o s' m' :
  Inv s m t ->
  run_op s o m = Ok (s', m') ->
  forall p, p ∈ dom m -> p ∉ cells s t -> m' !! p = m !! p.
Proof.
  intros Hinv Hrun p Hp Hown. destruct o as [v|k|]; cbn [Container.run_op] in Hrun.
  - apply bind_inv in Hrun as (r & m1 & Hi & Hrun).
    apply ret_inv in Hrun as [_ ->]. by eapply insert_frame.
  - unfold erase_found in Hrun.
    rewrite (bind_ok _ _ _ _ _ (find_run key_of eqb ltb T0 s m t k Hinv))
      in Hrun.
    destruct (RBInsertHelp.search_tree key_of eqb ltb k t)
      as [|c l a d r] eqn:E; cbn [addr] in Hrun.
    + rewrite iterator_ne_end in Hrun.
      rewrite bool_decide_eq_false_2 in Hrun by (intros H; by apply H).
      by apply ret_inv in Hrun as [_ ->].
    + destruct (search_tree_addr key_of eqb ltb T0 s m t k c l a d r Hinv E)
        as [Ha Hne].
      rewrite iterator_ne_end, bool_decide_eq_true_2 in Hrun by done.
      by eapply (erase_frame s m t (mk_iterator (this s) a)).
  - by eapply clear_frame.
Qed.

(** the constructor allocates the sentinels and leaves the live cells
    alone *)
Lemma construct_frame self alloc m s m' :
  construct T0 junk self alloc m = Ok (s, m') ->
  forall p, p ∈ dom m -> m' !! p = m !! p.
Proof.
  clear K key_of eqb ltb.
  intros H p Hp. unfold construct, _make_nil_node, _make_root_node in H.
  apply bind_inv in H as (n & m3 & Hn & H).
  apply bind_inv in Hn as (n' & m1 & Ha & Hn).
  apply bind_inv in Hn as ([] & m2 & Hw & Hn).
  apply ret_inv in Hn as [-> ->].
  apply bind_inv in H as (r & m6 & Hr & H).
  apply bind_inv in Hr as (r' & m4 & Ha' & Hr).
  apply bind_inv in Hr as ([] & m5 & Hw' & Hr).
  apply ret_inv in Hr as [-> ->]. apply ret_inv in H as [_ ->].
  destruct (allocate_store _ _ _ _ _ _ Ha Hw) as (Hn & _ & _ & F1 & D1).
  destruct (allocate_store _ _ _ _ _ _ Ha' Hw') as (Hr & _ & _ & F2 & D2).
  rewrite F2, F1; [done|by intros ->|].
  intros ->. apply Hr. rewrite D1. set_solver.
Qed.

Lemma run_ops_frame D : forall os s m t s' m',
  Inv s m t -> owns D s m t ->
  run_ops s os m = Ok (s', m') ->
  forall p, p ∈ D -> m' !! p = m !! p.
Proof.
  induction os as [|o os IH]; intros s m t s' m' Hinv Hown Hrun p Hp;
    cbn [Container.run_ops] in Hrun.
  - by apply ret_inv in Hrun as [_ ->].
  - apply bind_inv in Hrun as (s1 & m1 & H1 & Hrun).
    pose proof (run_op_owns key_of eqb ltb T0 junk D s m t o Hinv Hown) as Hw.
    unfold wp in Hw. rewrite H1 in Hw. destruct Hw as (t1 & Hinv1 & Hown1).
    rewrite (IH s1 m1 t1 s' m' Hinv1 Hown1 Hrun p Hp).
    destruct Hown as [Hd Hdis].
    eapply run_op_frame; [exact Hinv|exact H1| |].
    + rewrite Hd. set_solver.
    + intros Hin. by apply (Hdis p).
Qed.

Lemma from_empty_frame self alloc os m s m' :
  alloc <> nullptr ->
  from_empty key_of eqb ltb T0 junk self alloc os m = Ok (s, m') ->
  forall p, p ∈ dom m -> m' !! p = m !! p.
Proof.
  intros Ha Hrun p Hp. unfold from_empty in Hrun.
  apply bind_inv in Hrun as (s0 & m1 & Hc & Hrun).
  assert (Hw : wp (construct T0 junk self alloc) m
                 (fun s' m' => Inv s' m' Leaf)).
  { eapply construct_spec; [exact Ha|]. by intros. }
  unfold wp in Hw. rewrite Hc in Hw.
  pose proof (construct_frame _ _ _ _ _ Hc p Hp) as F1.
  apply construct_cells in Hc as (Hn & Hr & Hd).
  assert (Hown0 : owns (dom m) s0 m1 Leaf).
  { split; cbn [addrs].
    - rewrite Hd, !list_to_set_cons. cbn [list_to_set]. set_solver.
    - intros q Hq. rewrite !elem_of_cons in Hq.
      destruct Hq as [->|[->|Hq]]; [done..|]. by apply elem_of_nil in Hq. }
  rewrite (run_ops_frame (dom m) os s0 m1 Leaf s m' Hw Hown0 Hrun p Hp).
  exact F1.
Qed.

End Own.

Section Apart.
Context {T K : Type} (key_of : T -> K) (eqb ltb : K -> K -> bool) (T0 junk : T).
Implicit Types (s : set) (m : gmap ptr (@node_t T)) (t : @tree T).
Local Abbreviation Inv := (RBMethods.Inv T0).
Local Abbreviation run_ops := (Container.run_ops key_of eqb ltb junk).

(** a container owns its cells beside all the other live cells *)
Lemma owns_rest s m t :
  Inv s m t -> owns (dom m ∖ list_to_set (cells s t)) s m t.
Proof.
  clear K key_of eqb ltb junk.
  intros Hinv. split.
  - apply set_eq. intros p. rewrite elem_of_union, elem_of_difference.
    fold (cells s t). rewrite elem_of_list_to_set. split.
    + intros Hp. destruct (decide (p ∈ cells s t)); [by right|by left].
    + intros [[Hp _]|Hp]; [done|by eapply Inv_dom].
  - fold (cells s t). intros p Hp. rewrite elem_of_difference.
    rewrite elem_of_list_to_set. tauto.
Qed.

(** further calls on one container leave the cells of another alone *)
Lemma run_ops_apart os s m t s' m' b tb :
  Inv s m t -> Inv b m tb ->
  (forall p, p ∈ cells b tb -> p ∉ cells s t) ->
  run_ops s os m = Ok (s', m') ->
  Inv b m' tb.
Proof.
  intros Hinv Hb Hapart Hrun. eapply Inv_ext; [|exact Hb].
  intros p Hp.
  eapply (run_ops_frame key_of eqb ltb T0 junk _ os s m t s' m' Hinv
            (owns_rest s m t Hinv) Hrun).
  rewrite elem_of_difference, elem_of_list_to_set. split.
  - by eapply Inv_dom.
  - by apply Hapart.
Qed.

(** two containers built one after the other on one store *)
Lemma two_reached selfa selfb alloc osa osb m0 :
  alloc <> nullptr ->
  exists a m1 b m2 ta tb,
    from_empty key_of eqb ltb T0 junk selfa alloc osa m0 = Ok (a, m1) /\
    from_empty key_of eqb ltb T0 junk selfb alloc osb m1 = Ok (b, m2) /\
    this a = selfa /\ this b = selfb /\
    Inv a m2 ta /\ Inv b m2 tb /\
    (forall p, p ∈ cells b tb -> p ∉ cells a ta) /\
    (forall p, p ∈ dom m0 ->
       (p ∉ cells a ta) /\ (p ∉ cells b tb) /\ m2 !! p = m0 !! p) /\
    (order_ok eqb ltb -> ascending ltb (keys key_of tb)).
Proof.
  intros Ha.
  destruct (from_empty_reached key_of eqb ltb T0 junk selfa alloc osa m0 Ha)
    as (a & m1 & ta & Hra & Hta & Hinva & [Hda Haparta] & _).
  destruct (from_empty_reached key_of eqb ltb T0 junk selfb alloc osb m1 Ha)
    as (b & m2 & tb & Hrb & Htb & Hinvb & [Hdb Hapartb] & _ & Hordb).
  pose proof (from_empty_frame key_of eqb ltb T0 junk _ _ _ _ _ _ Ha Hra) as Fa.
  pose proof (from_empty_frame key_of eqb ltb T0 junk _ _ _ _ _ _ Ha Hrb) as Fb.
  exists a, m1, b, m2, ta, tb. split_and!; try done.
  - eapply Inv_ext; [|exact Hinva].
    intros p Hp. apply Fb. exact (Inv_dom T0 a m1 ta p Hinva Hp).
  - intros p Hp Hpa. apply (Hapartb p Hp).
    exact (Inv_dom T0 a m1 ta p Hinva Hpa).
  - intros p Hp. split_and!.
    + intros Hpa. by apply (Haparta p Hpa).
    + intros Hpb. apply (Hapartb p Hpb). rewrite Hda. set_solver.
    + rewrite Fb, Fa; [done|done|]. rewrite Hda. set_solver.
  - intros Hord. by destruct (Hordb Hord).
Qed.

End Apart.

(** ** Assignment from another container *)

Section Assign.
Context {T K : Type} (key_of : T -> K) (eqb ltb : K -> K -> bool) (T0 junk : T).
Implicit Types (s b : set) (m : gmap ptr (@node_t T)) (t : @tree T).
Local Abbreviation Inv := (RBMethods.Inv T0).
Local Abbreviation keys := (RBOrder.keys key_of).
Local Abbreviation ascending := (RBOrder.ascending ltb).
Local Abbreviation ins_tree := (RBInsert.ins_tree key_of ltb).

Lemma cells_size s m t :
  Inv s m t ->
  base.size (list_to_set (cells s t) : gset ptr) = (2 + length (elems t))%nat.
Proof.
  clear K key_of eqb ltb junk.
  intros [[np (Hnd & _)] _ _ _ _]. cbn [kaddrs app] in Hnd.
  rewrite size_list_to_set by exact Hnd.
  unfold cells. cbn [length]. by rewrite length_addrs_elems.
Qed.

(** [_clean] keeps the identity, the allocator and the size field *)
Lemma clean_fields s m s' m' :
  _clean s m = Ok (s', m') ->
  this s' = this s /\ allocator_ s' = allocator_ s /\ size_ s' = size_ s.
Proof.
  clear K key_of eqb ltb T0 junk.
  intros H. unfold _clean in H.
  apply bind_inv in H as (s1 & m1 & H1 & H).
  assert (this s1 = this s /\ allocator_ s1 = allocator_ s /\
          size_ s1 = size_ s) as (E1 & E2 & E3).
  { destruct (decide (root_ s ≠ nullptr)).
    - repeat (apply bind_inv in H1 as (? & ? & _ & H1)).
      apply ret_inv in H1 as [E _]. by rewrite E.
    - apply ret_inv in H1 as [E _]. by rewrite E. }
  destruct (decide (nil_ s1 ≠ nullptr)).
  - apply bind_inv in H as (? & ? & _ & H).
    apply ret_inv in H as [E _]. by rewrite E.
  - apply ret_inv in H as [E _]. by rewrite E.
Qed.

(** [_clean] on a container that holds a tree: all its cells are released,
    nothing else changes *)
Lemma clean_run s m t :
  Inv s m t ->
  exists m',
    _clean s m
      = Ok (mk_set (this s) nullptr nullptr (allocator_ s) (size_ s), m') /\
    dom m' = dom m ∖ list_to_set (cells s t) /\
    forall p, p ∉ cells s t -> m' !! p = m !! p.
Proof.
  clear K key_of eqb ltb junk.
  intros Hinv.
  destruct (wp_run _ _ _ (clean_frees T0 s m t Hinv))
    as (s' & m' & Hrun & Hn & Hr & Hd & Hf).
  destruct (clean_fields _ _ _ _ Hrun) as (E1 & E2 & E3).
  exists m'. split_and!; [|done|done].
  rewrite Hrun. destruct s' as [th n r al sz]. cbn in *. by subst.
Qed.

(** [_set_by_move] on a constructed container: its old cells are released
    and it takes over the sentinels, the allocator and the size of the
    source *)
Lemma tree_set_by_move_run s m t b tb :
  Inv s m t -> Inv b m tb ->
  (forall p, p ∈ cells b tb -> p ∉ cells s t) ->
  exists m',
    _set_by_move s b m
      = Ok (mk_set (this s) (nil_ b) (root_ b) (allocator_ b) (size_ b),
            mk_set (this b) nullptr nullptr nullptr 0, m') /\
    Inv (mk_set (this s) (nil_ b) (root_ b) (allocator_ b) (size_ b)) m' tb /\
    dom m' = dom m ∖ list_to_set (cells s t) /\
    forall p, p ∉ cells s t -> m' !! p = m !! p.
Proof.
  clear K key_of eqb ltb junk.
  intros Hinv Hb Hapart.
  destruct (clean_run s m t Hinv) as (m' & Hrun & Hd & Hf).
  exists m'. split_and!; [|by eapply Inv_fields, Inv_ext; [..|exact Hb]; auto
                         |done|done].
  unfold _set_by_move. by rewrite (bind_ok _ _ _ _ _ Hrun).
Qed.

Lemma released_size s m t m' :
  Inv s m t -> dom m' = dom m ∖ list_to_set (cells s t) ->
  (base.size (dom m') + 2 + length (elems t) = base.size (dom m))%nat.
Proof.
  clear K key_of eqb ltb junk.
  intros Hinv Hd.
  assert (Hsub : (list_to_set (cells s t) : gset ptr) ⊆ dom m).
  { intros p Hp. apply elem_of_list_to_set in Hp.
    exact (Inv_dom T0 s m t p Hinv Hp). }
  pose proof (subseteq_size _ _ Hsub) as Hle.
  rewrite Hd, size_difference by exact Hsub.
  rewrite (cells_size s m t Hinv) in *. lia.
Qed.

(** a container may change its allocator reference for another set one *)
Lemma Inv_realloc s s' m t :
  nil_ s' = nil_ s -> root_ s' = root_ s -> allocator_ s' <> nullptr ->
  size_ s' = size_ s -> Inv s m t -> Inv s' m t.
Proof.
  clear K key_of eqb ltb junk.
  intros Hn Hr Ha Hs [[np Z] Hnull Hrb Halloc Hsize].
  split; rewrite ?Hn, ?Hr, ?Hs; try done.
  exists np. by eapply Zrep_sentinels; [..|exact Z].
Qed.

(** the two sentinel allocations of [_set_by_copy] are those of the
    constructor *)
Lemma make_sentinels s m :
  allocator_ s <> nullptr ->
  exists n r m1 m',
    _make_nil_node T0 junk s m = Ok (n, m1) /\
    _make_root_node T0 junk
      (mk_set (this s) n (root_ s) (allocator_ s) (size_ s)) m1 = Ok (r, m') /\
    construct T0 junk (this s) (allocator_ s) m
      = Ok (mk_set (this s) n r (allocator_ s) 0, m').
Proof.
  clear K key_of eqb ltb.
  intros Ha.
  assert (Hw : wp (construct T0 junk (this s) (allocator_ s)) m
                 (fun _ _ => True)).
  { eapply construct_spec; [exact Ha|]. by intros. }
  apply wp_run in Hw as (s0 & m' & Hrun & _).
  pose proof Hrun as Hc. unfold construct in Hc.
  apply bind_inv in Hc as (n & m1 & Hn & Hc).
  apply bind_inv in Hc as (r & m2 & Hr & Hc).
  apply ret_inv in Hc as [-> ->].
  exists n, r, m1, m2. split_and!; [exact Hn|exact Hr|exact Hrun].
Qed.

Lemma trusted_insert_frame s m t v r m' :
  Inv s m t ->
  trusted_insert key_of ltb junk s v m = Ok (r, m') ->
  forall p, p ∈ dom m -> p ∉ cells s t -> m' !! p = m !! p.
Proof.
  clear eqb.
  intros Hinv Hrun p Hp Hown. unfold trusted_insert in Hrun.
  apply bind_inv in Hrun as (x & m2 & Ha & Hrun).
  apply bind_inv in Hrun as ([] & m3 & Hw & Hrun).
  destruct (allocate_store junk s _ m x m2 m3 Ha Hw)
    as (Hx & _ & Hx3 & Hfr & _).
  apply bind_inv in Hrun as (r' & m4 & Hi & Hrun).
  destruct r' as [nn s1]. apply ret_inv in Hrun as [_ ->].
  assert (Hxc : x ∉ cells s t).
  { intros Hin. apply Hx. by eapply Inv_dom. }
  rewrite <- (Hfr p) by (by intros ->).
  eapply (_insert_frame key_of ltb T0 s m3 t x); [|exact Hx3|exact Hxc|exact Hi| |].
  - eapply Inv_ext; [|exact Hinv]. intros q Hq. apply Hfr. by intros ->.
  - apply elem_of_dom. rewrite Hfr by (by intros ->). by apply elem_of_dom.
  - intros Hin. apply elem_of_cons in Hin as [->|Hin]; done.
Qed.

Section Ordered.
Context (Hord : order_ok eqb ltb).

(** a payload whose key is above all keys of the tree goes to the end of
    the walk *)
Lemma ins_tree_last t z d :
  ascending (key_of <$> (elems t ++ [d])) ->
  elems (ins_tree t z d) = elems t ++ [d] /\
  ascending (keys (ins_tree t z d)).
Proof using Hord.
  intros Hasc.
  assert (ascending (keys t) /\ key_of d ∉ keys t) as [Ht Hd].
  { rewrite fmap_app in Hasc. split.
    - by destruct (proj1 (ascending_app ltb _ _) Hasc) as (H1 & _).
    - apply (ascending_NoDup eqb ltb Hord) in Hasc.
      apply NoDup_app in Hasc as (_ & Hd & _).
      intros Hin. apply (Hd _ Hin). cbn. by left. }
  pose proof (search_tree_absent key_of eqb ltb Hord (key_of d) t Hd) as Hs.
  pose proof (ins_tree_ascending key_of eqb ltb Hord t z d Ht Hs) as Hi.
  split; [|exact Hi].
  unfold RBOrder.keys in Hi. rewrite (ins_tree_elems key_of ltb) in Hi.
  rewrite (ins_tree_elems key_of ltb).
  rewrite <- (put_split key_of eqb ltb Hord d _ _ Hi).
  rewrite <- (elems_ins_path key_of ltb t (key_of d)).
  rewrite <- (put_split key_of eqb ltb Hord d (elems t) [] Hasc).
  by rewrite app_nil_r.
Qed.

Lemma allocate_lookup s m x m1 :
  _allocate_node junk s m = Ok (x, m1) ->
  forall p, p ∈ dom m -> m1 !! p = m !! p.
Proof.
  intros Ha p Hp.
  pose proof (allocate_node_dom _ _ _ _ _ Ha) as (Hx & _ & _).
  unfold _allocate_node in Ha. destruct (decide _); [done|].
  injection Ha as <- <-.
  rewrite lookup_insert_ne; [done|by intros <-].
Qed.

(** The copying loop: with the source walked up to [L0] and the copy holding
    the payloads of [L0], the loop ends with the copy holding all payloads of
    the source, and writes to the copy's cells only. *)
Lemma copy_loop_run b tb D : forall L L0 fuel s m ts,
  entries tb = L0 ++ L ->
  ascending (keys tb) ->
  Inv b m tb -> Inv s m ts -> owns D s m ts ->
  (forall p, p ∈ cells b tb -> p ∈ D) ->
  elems ts = L0.*2 ->
  (length L < fuel)%nat ->
  exists s' m' ts',
    _copy_loop key_of ltb junk fuel s b (mk_iterator (this b) (hd_addr b L)) m
      = Ok (s', m') /\
    Inv s' m' ts' /\ owns D s' m' ts' /\ elems ts' = elems tb /\
    this s' = this s /\ allocator_ s' = allocator_ s /\
    (forall p, p ∈ D -> m' !! p = m !! p).
Proof using Hord.
  induction L as [|[a0 d] L IH];
    intros L0 fuel s m ts He Hasc Hb Hs Hown HbD Hel Hfuel.
  - destruct fuel as [|fuel]; [simpl in Hfuel; lia|].
    cbn [_copy_loop hd_addr].
    rewrite iterator_ne_end, bool_decide_eq_false_2 by (intros H; by apply H).
    exists s, m, ts. split_and!; try done.
    by rewrite Hel, elems_entries, He, app_nil_r.
  - destruct fuel as [|fuel]; [simpl in Hfuel; lia|].
    cbn [_copy_loop hd_addr].
    assert (Hin : (a0, d) ∈ entries tb).
    { rewrite He. apply elem_of_app. right. by left. }
    destruct (entry_lookup T0 b m tb a0 d Hb Hin)
      as (Ha0 & Hne & n & Hn & Hdn).
    rewrite iterator_ne_end, bool_decide_eq_true_2 by done.
    destruct (trusted_insert_run key_of ltb T0 junk s m ts d Hs)
      as (z & m' & Htr & Hinv' & _).
    pose proof (trusted_insert_cells key_of ltb junk _ _ _ _ _ _ Htr)
      as (Hz & _ & Hd' & _). cbn [node_] in Hz, Hd'.
    pose proof (trusted_insert_frame s m ts d _ m' Hs Htr) as Hfr.
    unfold trusted_insert in Htr.
    apply bind_inv in Htr as (x & m1 & Hal & Htr).
    apply bind_inv in Htr as ([] & m2 & Hsd & Htr).
    apply bind_inv in Htr as ([nn s1] & m3 & Hi & Htr).
    apply ret_inv in Htr as [E Em]. subst m3.
    injection E as E1 E2 E3. subst nn s1.
    rewrite (bind_ok _ _ _ _ _ Hal).
    assert (Hg : get_data a0 m1 = Ok (d, m1)).
    { unfold get_data, bind, load.
      rewrite (allocate_lookup _ _ _ _ Hal) by (by apply elem_of_dom).
      by rewrite Hn, <- Hdn. }
    rewrite (bind_ok _ _ _ _ _ Hg), (bind_ok _ _ _ _ _ Hsd).
    rewrite (bind_ok _ _ _ _ _ Hi). cbn [snd].
    destruct Hown as [Hdm Hdis].
    assert (Hb' : Inv b m' tb).
    { eapply Inv_ext; [|exact Hb]. intros p Hp.
      apply Hfr; [exact (Inv_dom T0 b m tb p Hb Hp)|].
      intros Hps. apply (Hdis p Hps). by apply HbD. }
    rewrite (bind_ok _ _ _ _ _ (incr_entry T0 b m' tb L0 a0 d L Hb' He)).
    assert (Hpre : ascending (key_of <$> (elems ts ++ [d]))).
    { unfold RBOrder.keys in Hasc.
      rewrite elems_entries, He, fmap_app, fmap_cons in Hasc.
      cbn [snd] in Hasc.
      change (L0.*2 ++ d :: L.*2) with (L0.*2 ++ [d] ++ L.*2) in Hasc.
      rewrite app_assoc, fmap_app in Hasc.
      rewrite Hel.
      by destruct (proj1 (ascending_app ltb _ _) Hasc) as (H1 & _). }
    destruct (ins_tree_last ts z d Hpre) as [Hlast _].
    destruct (IH (L0 ++ [(a0, d)]) fuel (with_size (wrap (size_ s + 1)) s)
                m' (ins_tree ts z d))
      as (s' & m'' & ts' & Hrun & Hinv'' & Hown'' & Hel'' & Hth & Hal' & Hfr'').
    + by rewrite <- app_assoc.
    + exact Hasc.
    + exact Hb'.
    + exact Hinv'.
    + pose proof (ins_tree_addrs key_of ltb ts z d) as Hperm.
      split; cbn [nil_ root_ with_size].
      * rewrite Hd', Hdm, !list_to_set_cons.
        rewrite (list_to_set_perm_L _ _ Hperm), list_to_set_cons.
        set_solver.
      * intros p Hp. rewrite Hperm in Hp.
        rewrite !elem_of_cons in Hp.
        destruct Hp as [Hp|[Hp|[->|Hp]]];
          [apply Hdis; set_solver..| |apply Hdis; set_solver].
        intros Hin'. apply Hz. rewrite Hdm. set_solver.
    + exact HbD.
    + by rewrite Hlast, Hel, fmap_app.
    + simpl in Hfuel. lia.
    + exists s', m'', ts'. split_and!; try done.
      intros p Hp. rewrite (Hfr'' p Hp). apply Hfr.
      * rewrite Hdm. set_solver.
      * intros Hps. by apply (Hdis p Hps).
Qed.

(** [_set_by_copy] on a constructed container: its old cells are released,
    and it ends with a tree of its own that holds the payloads of the
    source; the cells of the source and all other live cells are as they
    were. *)
Lemma tree_set_by_copy_run s m t b tb :
  Inv s m t -> Inv b m tb -> ascending (keys tb) ->
  (forall p, p ∈ cells b tb -> p ∉ cells s t) ->
  exists s' m' t',
    _set_by_copy key_of ltb T0 junk s b m = Ok (s', m') /\
    Inv s' m' t' /\ Inv b m' tb /\ elems t' = elems tb /\
    this s' = this s /\ allocator_ s' = allocator_ b /\
    owns (dom m ∖ list_to_set (cells s t)) s' m' t' /\
    (forall p, p ∈ dom m -> p ∉ cells s t -> m' !! p = m !! p).
Proof using Hord.
  intros Hs Hb Hasc Hapart.
  destruct (clean_run s m t Hs) as (mc & Hclean & Hdc & Hfc).
  set (s0 := mk_set (this s) nullptr nullptr (allocator_ s) (size_ s)) in *.
  assert (Hal : allocator_ s0 <> nullptr) by (by destruct Hs).
  destruct (make_sentinels s0 mc Hal) as (n & r & m1 & m2 & Hn & Hr & Hc).
  cbn [this root_ allocator_ size_ s0] in Hr, Hc.
  assert (Hw : wp (construct T0 junk (this s) (allocator_ s)) mc
                 (fun s' m' => Inv s' m' Leaf)).
  { eapply construct_spec; [exact Hal|]. by intros. }
  unfold wp in Hw. rewrite Hc in Hw.
  pose proof (construct_frame T0 junk _ _ _ _ _ Hc) as Hfs.
  apply construct_cells in Hc as (Hn1 & Hr1 & Hd2). cbn [nil_ root_] in *.
  set (s2 := mk_set (this s) n r (allocator_ b) 0).
  assert (Hs2 : Inv s2 m2 Leaf).
  { eapply Inv_realloc; [..|exact Hw]; try done. by destruct Hb. }
  assert (Hown2 : owns (dom mc) s2 m2 Leaf).
  { split; cbn [addrs nil_ root_ s2].
    - rewrite Hd2, !list_to_set_cons. cbn [list_to_set]. set_solver.
    - intros q Hq. rewrite !elem_of_cons in Hq.
      destruct Hq as [->|[->|Hq]]; [done..|]. by apply elem_of_nil in Hq. }
  assert (HbD : forall p, p ∈ cells b tb -> p ∈ dom mc).
  { intros p Hp. rewrite Hdc, elem_of_difference, elem_of_list_to_set.
    split; [exact (Inv_dom T0 b m tb p Hb Hp)|by apply Hapart]. }
  assert (Hb2 : Inv b m2 tb).
  { eapply Inv_ext; [|exact Hb]. intros p Hp.
    rewrite (Hfs p (HbD p Hp)). apply Hfc. by apply Hapart. }
  assert (Hfuel : (length (entries tb) < S (base.size m2))%nat).
  { destruct Hb2 as [[np Z] _ _ _ _].
    pose proof (Zrep_size _ _ _ _ _ _ Z) as Hsz.
    rewrite addrs_entries, length_fmap in Hsz. lia. }
  destruct (copy_loop_run b tb (dom mc) (entries tb) [] _ s2 m2 Leaf
              eq_refl Hasc Hb2 Hs2 Hown2 HbD eq_refl Hfuel)
    as (s' & m' & t' & Hrun & Hinv' & Hown' & Hel & Hth & Hal' & Hfr).
  exists s', m', t'. split_and!; try done.
  - unfold _set_by_copy. rewrite (bind_ok _ _ _ _ _ Hclean).
    fold s0. rewrite (bind_ok _ _ _ _ _ Hn).
    cbn [this nil_ root_ allocator_ size_ s0 with_size].
    rewrite (bind_ok _ _ _ _ _ Hr).
    rewrite (bind_ok _ _ _ _ _ (begin_run T0 b m2 tb Hb2)).
    exact Hrun.
  - eapply Inv_ext; [|exact Hb2]. intros p Hp. by apply Hfr, HbD.
  - by rewrite <- Hdc.
  - intros p Hp Hps.
    assert (Hpc : p ∈ dom mc).
    { rewrite Hdc, elem_of_difference, elem_of_list_to_set. by split. }
    by rewrite (Hfr p Hpc), (Hfs p Hpc), (Hfc p Hps).
Qed.

End Ordered.

End Assign.

(** Two containers built one after the other on the same store do not
    disturb each other: constructing and using the second never writes to a
    cell that was live before, so the first holds the same payloads as
    before; and further calls on the first leave the payloads of the second
    as they were. *)
Theorem containers_independent {T K : Type} (key_of : T -> K)
    (eqb ltb : K -> K -> bool) (T0 junk : T) (selfa selfb alloc : ptr)
    (m0 : gmap ptr (@node_t T)) (osa osb osa' : list (@op T K)) :
  alloc <> nullptr ->
  exists a m1 b m2 a' m3 la lb,
    from_empty key_of eqb ltb T0 junk selfa alloc osa m0 = Ok (a, m1) /\
    from_empty key_of eqb ltb T0 junk selfb alloc osb m1 = Ok (b, m2) /\
    (forall p, p ∈ dom m1 -> m2 !! p = m1 !! p) /\
    traverse a m1 = Ok (la, m1) /\
    traverse a m2 = Ok (la, m2) /\
    run_ops key_of eqb ltb junk a osa' m2 = Ok (a', m3) /\
    traverse b m2 = Ok (lb, m2) /\
    traverse b m3 = Ok (lb, m3).
Proof.
  intros Ha.
  destruct (from_empty_reached key_of eqb ltb T0 junk selfa alloc osa m0 Ha)
    as (a & m1 & ta & Hra & _ & Hinva & _).
  destruct (from_empty_reached key_of eqb ltb T0 junk selfb alloc osb m1 Ha)
    as (b & m2 & tb & Hrb & _ & Hinvb & [Hdb Hapart] & _).
  pose proof (from_empty_frame key_of eqb ltb T0 junk _ _ _ _ _ _ Ha Hrb) as F.
  assert (Hinva2 : RBMethods.Inv T0 a m2 ta).
  { eapply Inv_ext; [|exact Hinva].
    intros p Hp. apply F. by eapply Inv_dom. }
  destruct (wp_run _ _ _ (run_ops_owns key_of eqb ltb T0 junk _ osa' a m2 ta
              Hinva2 (owns_rest T0 a m2 ta Hinva2)))
    as (a' & m3 & Hrun & _).
  exists a, m1, b, m2, a', m3, (elems ta), (elems tb).
  split_and!; [done|done|done|by apply (traverse_run T0)
              |by apply (traverse_run T0)|done|by apply (traverse_run T0)|].
  apply (traverse_run T0).
  eapply (run_ops_apart key_of eqb ltb T0 junk osa' a m2 ta a' m3 b tb);
    [done|done| |done].
  intros p Hp Hpa. apply (Hapart p Hp). by eapply Inv_dom.
Qed.

Lemma containers_independent_witness :
  1%nat <> nullptr /\
  exists a m1 b m2 a' m3 la lb,
    from_empty (fun x : Z => x) Z.eqb Z.ltb 0 0 1%nat 1%nat
      [OpInsert 3; OpInsert 1; OpInsert 2]
      {[7%nat := mk_node 0%nat 0%nat 0%nat false 42]} = Ok (a, m1) /\
    from_empty (fun x : Z => x) Z.eqb Z.ltb 0 0 2%nat 1%nat
      [OpInsert 7; OpInsert 1; OpErase 7; OpClear; OpInsert 4] m1
      = Ok (b, m2) /\
    (forall p, p ∈ dom m1 -> m2 !! p = m1 !! p) /\
    traverse a m1 = Ok (la, m1) /\
    traverse a m2 = Ok (la, m2) /\
    run_ops (fun x : Z => x) Z.eqb Z.ltb 0 a [OpErase 1; OpInsert 9] m2
      = Ok (a', m3) /\
    traverse b m2 = Ok (lb, m2) /\
    traverse b m3 = Ok (lb, m3).
Proof.
  split; [done|].
  apply (containers_independent (fun x : Z => x) Z.eqb Z.ltb 0 0
           1%nat 2%nat 1%nat
           {[7%nat := mk_node 0%nat 0%nat 0%nat false 42]}
           [OpInsert 3; OpInsert 1; OpInsert 2]
           [OpInsert 7; OpInsert 1; OpErase 7; OpClear; OpInsert 4]
           [OpErase 1; OpInsert 9]).
  done.
Defined.

(** Move assignment ([_set_by_move] on a constructed container): the target
    releases all its own cells, the two sentinels and one node per payload,
    and takes over the tree of the source, so that its walk yields the
    payloads the source held; the source is left with null sentinels, null
    allocator and size 0; every cell that stays live keeps its content. *)
Theorem move_assign_releases_and_takes_over {T K : Type} (key_of : T -> K)
    (eqb ltb : K -> K -> bool) (T0 junk : T) (selfa selfb alloc : ptr)
    (m0 : gmap ptr (@node_t T)) (osa osb : list (@op T K)) :
  alloc <> nullptr ->
  exists a m1 b m2 a' b' m3 la lb,
    from_empty key_of eqb ltb T0 junk selfa alloc osa m0 = Ok (a, m1) /\
    from_empty key_of eqb ltb T0 junk selfb alloc osb m1 = Ok (b, m2) /\
    traverse a m2 = Ok (la, m2) /\
    traverse b m2 = Ok (lb, m2) /\
    _set_by_move a b m2 = Ok (a', b', m3) /\
    this a' = selfa /\ RBTree.size a' = RBTree.size b /\
    traverse a' m3 = Ok (lb, m3) /\
    b' = mk_set selfb nullptr nullptr nullptr 0 /\
    (base.size (dom m3) + 2 + length la = base.size (dom m2))%nat /\
    (forall p, p ∈ dom m3 -> m3 !! p = m2 !! p) /\
    (forall p, p ∈ dom m0 -> m3 !! p = m0 !! p).
Proof.
  intros Ha.
  destruct (two_reached key_of eqb ltb T0 junk selfa selfb alloc osa osb m0 Ha)
    as (a & m1 & b & m2 & ta & tb & Hra & Hrb & Hta & Htb & Hinva & Hinvb
        & Hapart & Hm0 & _).
  destruct (tree_set_by_move_run T0 a m2 ta b tb Hinva Hinvb Hapart)
    as (m3 & Hmv & Hinv3 & Hd3 & Hf3).
  exists a, m1, b, m2,
    (mk_set (this a) (nil_ b) (root_ b) (allocator_ b) (size_ b)),
    (mk_set (this b) nullptr nullptr nullptr 0), m3, (elems ta), (elems tb).
  split_and!; [done|done|by apply (traverse_run T0)|by apply (traverse_run T0)
              |exact Hmv|done|done|by apply (traverse_run T0)
              |by rewrite Htb| | |].
  - by apply (released_size T0 a m2 ta).
  - intros p Hp. apply Hf3. rewrite Hd3 in Hp.
    apply elem_of_difference in Hp as [_ Hp].
    by rewrite elem_of_list_to_set in Hp.
  - intros p Hp. destruct (Hm0 p Hp) as (Hpa & _ & E).
    by rewrite (Hf3 p Hpa).
Qed.

Lemma move_assign_releases_and_takes_over_witness :
  1%nat <> nullptr /\
  exists a m1 b m2 a' b' m3 la lb,
    from_empty (fun x : Z => x) Z.eqb Z.ltb 0 0 1%nat 1%nat
      [OpInsert 3; OpInsert 1; OpInsert 2]
      {[7%nat := mk_node 0%nat 0%nat 0%nat false 42]} = Ok (a, m1) /\
    from_empty (fun x : Z => x) Z.eqb Z.ltb 0 0 2%nat 1%nat
      [OpInsert 7; OpInsert 4; OpErase 7; OpInsert 9] m1 = Ok (b, m2) /\
    traverse a m2 = Ok (la, m2) /\
    traverse b m2 = Ok (lb, m2) /\
    _set_by_move a b m2 = Ok (a', b', m3) /\
    this a' = 1%nat /\ RBTree.size a' = RBTree.size b /\
    traverse a' m3 = Ok (lb, m3) /\
    b' = mk_set 2%nat nullptr nullptr nullptr 0 /\
    (base.size (dom m3) + 2 + length la = base.size (dom m2))%nat /\
    (forall p, p ∈ dom m3 -> m3 !! p = m2 !! p) /\
    (forall p : ptr,
       p ∈ dom ({[7%nat := mk_node 0%nat 0%nat 0%nat false 42]}
                  : gmap ptr (@node_t Z)) ->
       m3 !! p = ({[7%nat := mk_node 0%nat 0%nat 0%nat false 42]}
                    : gmap ptr (@node_t Z)) !! p).
Proof.
  split; [done|].
  apply (move_assign_releases_and_takes_over (fun x : Z => x) Z.eqb Z.ltb 0 0
           1%nat 2%nat 1%nat
           {[7%nat := mk_node 0%nat 0%nat 0%nat false 42]}
           [OpInsert 3; OpInsert 1; OpInsert 2]
           [OpInsert 7; OpInsert 4; OpErase 7; OpInsert 9]).
  done.
Defined.

(** [_set_by_copy], the routine behind copy assignment, run on a constructed
    container whose source shares its allocator: the target releases its old
    cells and builds a tree of its own, one new node per payload of the
    source, so that both walks yield the payloads of the source in the same
    order and the sizes agree; the cells live before either container was
    built are unchanged; and the copy is deep: further calls on the copy
    leave the payloads of the source as they were. *)
Theorem set_by_copy_deep_copy {T K : Type} (key_of : T -> K)
    (eqb ltb : K -> K -> bool) (T0 junk : T) (selfa selfb alloc : ptr)
    (m0 : gmap ptr (@node_t T)) (osa osb osc : list (@op T K)) :
  order_ok eqb ltb ->
  alloc <> nullptr ->
  exists a m1 b m2 a' m3 a'' m4 la lb,
    from_empty key_of eqb ltb T0 junk selfa alloc osa m0 = Ok (a, m1) /\
    from_empty key_of eqb ltb T0 junk selfb alloc osb m1 = Ok (b, m2) /\
    traverse a m2 = Ok (la, m2) /\
    traverse b m2 = Ok (lb, m2) /\
    _set_by_copy key_of ltb T0 junk a b m2 = Ok (a', m3) /\
    this a' = selfa /\ allocator_ a' = allocator_ b /\
    RBTree.size a' = RBTree.size b /\
    traverse a' m3 = Ok (lb, m3) /\
    traverse b m3 = Ok (lb, m3) /\
    (base.size (dom m3) + length la = base.size (dom m2) + length lb)%nat /\
    (forall p, p ∈ dom m0 -> m3 !! p = m0 !! p) /\
    run_ops key_of eqb ltb junk a' osc m3 = Ok (a'', m4) /\
    traverse b m4 = Ok (lb, m4).
Proof.
  intros Hord Ha.
  destruct (two_reached key_of eqb ltb T0 junk selfa selfb alloc osa osb m0 Ha)
    as (a & m1 & b & m2 & ta & tb & Hra & Hrb & Hta & Htb & Hinva & Hinvb
        & Hapart & Hm0 & Hasc).
  destruct (tree_set_by_copy_run key_of eqb ltb T0 junk Hord a m2 ta b tb
              Hinva Hinvb (Hasc Hord) Hapart)
    as (a' & m3 & t' & Hcp & Hinv' & Hinvb3 & Hel & Hth & Hal & Hown & Hfr).
  assert (Hapart3 : forall p, p ∈ cells b tb -> p ∉ cells a' t').
  { intros p Hp Hpa. destruct Hown as [_ Hdis]. apply (Hdis p Hpa).
    rewrite elem_of_difference, elem_of_list_to_set.
    split; [exact (Inv_dom T0 b m2 tb p Hinvb Hp)|by apply Hapart]. }
  destruct (wp_run _ _ _ (run_ops_owns key_of eqb ltb T0 junk _ osc a' m3 t'
              Hinv' (owns_rest T0 a' m3 t' Hinv')))
    as (a'' & m4 & Hrun & _).
  exists a, m1, b, m2, a', m3, a'', m4, (elems ta), (elems tb).
  split_and!; [done|done|by apply (traverse_run T0)|by apply (traverse_run T0)
              |exact Hcp|congruence|done| | |by apply (traverse_run T0)
              | | |exact Hrun|].
  - unfold RBTree.size. destruct Hinv' as [_ _ _ _ ->].
    destruct Hinvb as [_ _ _ _ ->]. by rewrite Hel.
  - rewrite <- Hel. by apply (traverse_run T0).
  - pose proof (owns_size T0 _ a' m3 t' Hinv' Hown) as H3.
    pose proof (released_size T0 a m2 ta
                  (filter (fun kv => kv.1 ∉ cells a ta) m2) Hinva) as H2.
    rewrite length_addrs_elems, Hel in H3.
    assert (Hd : dom (filter (fun kv => kv.1 ∉ cells a ta) m2)
                 = dom m2 ∖ list_to_set (cells a ta)).
    { apply set_eq. intros p.
      rewrite elem_of_difference, elem_of_list_to_set, !elem_of_dom.
      split.
      - intros [nd Hnd]. apply map_lookup_filter_Some in Hnd as [Hnd Hp].
        split; [by exists nd|exact Hp].
      - intros [[nd Hnd] Hp]. exists nd. by apply map_lookup_filter_Some. }
    specialize (H2 Hd). rewrite Hd in H2. lia.
  - intros p Hp. destruct (Hm0 p Hp) as (Hpa & _ & E).
    rewrite <- E. apply Hfr; [|done].
    apply elem_of_dom. rewrite E. by apply elem_of_dom.
  - apply (traverse_run T0).
    by eapply (run_ops_apart key_of eqb ltb T0 junk osc a' m3 t' a'' m4 b tb).
Qed.

Lemma set_by_copy_deep_copy_witness :
  order_ok Z.eqb Z.ltb /\ 1%nat <> nullptr /\
  exists a m1 b m2 a' m3 a'' m4 la lb,
    from_empty (fun x : Z => x) Z.eqb Z.ltb 0 0 1%nat 1%nat
      [OpInsert 3; OpInsert 1; OpInsert 2]
      {[7%nat := mk_node 0%nat 0%nat 0%nat false 42]} = Ok (a, m1) /\
    from_empty (fun x : Z => x) Z.eqb Z.ltb 0 0 2%nat 1%nat
      [OpInsert 7; OpInsert 4; OpErase 7; OpInsert 9] m1 = Ok (b, m2) /\
    traverse a m2 = Ok (la, m2) /\
    traverse b m2 = Ok (lb, m2) /\
    _set_by_copy (fun x : Z => x) Z.ltb 0 0 a b m2 = Ok (a', m3) /\
    this a' = 1%nat /\ allocator_ a' = allocator_ b /\
    RBTree.size a' = RBTree.size b /\
    traverse a' m3 = Ok (lb, m3) /\
    traverse b m3 = Ok (lb, m3) /\
    (base.size (dom m3) + length la = base.size (dom m2) + length lb)%nat /\
    (forall p : ptr,
       p ∈ dom ({[7%nat := mk_node 0%nat 0%nat 0%nat false 42]}
                  : gmap ptr (@node_t Z)) ->
       m3 !! p = ({[7%nat := mk_node 0%nat 0%nat 0%nat false 42]}
                    : gmap ptr (@node_t Z)) !! p) /\
    run_ops (fun x : Z => x) Z.eqb Z.ltb 0 a' [OpErase 4; OpInsert 5] m3
      = Ok (a'', m4) /\
    traverse b m4 = Ok (lb, m4).
Proof.
  split; [exact Z_order_ok|]. split; [done|].
  apply (set_by_copy_deep_copy (fun x : Z => x) Z.eqb Z.ltb 0 0
           1%nat 2%nat 1%nat
           {[7%nat := mk_node 0%nat 0%nat 0%nat false 42]}
           [OpInsert 3; OpInsert 1; OpInsert 2]
           [OpInsert 7; OpInsert 4; OpErase 7; OpInsert 9]
           [OpErase 4; OpInsert 5] Z_order_ok).
  done.
Defined.

End RBCopy.

(** * The pool allocator: where its blocks lie, and its edge cases *)

Module PoolMore.
Import Pool PoolDestroy PoolSpec.

Lemma pbind_done {A B} (c : PM A) (k : A -> PM B) w a w' :
  c w = Done (a, w') -> pbind c k w = k a w'.
Proof. unfold pbind. by intros ->. Qed.

Lemma pbind_fault {A B} (c : PM A) (k : A -> PM B) w e :
  c w = Fault e -> pbind c k w = Fault e.
Proof. unfold pbind. by intros ->. Qed.

Lemma filter_all {A} (P : A -> Prop) `{forall x, Decision (P x)} (l : list A) :
  Forall P l -> filter P l = l.
Proof.
  induction 1 as [|x l Hx _ IH]; [done|].
  by rewrite filter_cons_True, IH.
Qed.

Lemma replicate_app_cons {A} k (x : A) l :
  replicate k x ++ x :: l = x :: replicate k x ++ l.
Proof. induction k as [|k IH]; [done|]. cbn. by rewrite IH. Qed.

Lemma iterator_ne_same_buffer (b : ptr) (i j : Z) :
  Vector.iterator_ne (b, i) (b, j) = bool_decide (i <> j).
Proof.
  unfold Vector.iterator_ne. cbn [fst snd].
  by rewrite (bool_decide_eq_false_2 (b ≠ b)) by (intros H; by apply H).
Qed.

Section Slabs.
Local Set Default Proof Using "Type*".
Variable sizeof_node : Z.
Variable junk : Z.
Hypothesis Hsizeof : 0 < sizeof_node.
Variables (n size : Z).
Hypothesis Hn : 0 < n.
Hypothesis Hsize : 0 <= size.
Hypothesis Hov : n * (sizeof_node + size) < size_type_modulus.
Local Abbreviation c := (sizeof_node + size).
Local Abbreviation pool_inv := (PoolSpec.pool_inv sizeof_node n size).
Local Abbreviation acquired := (PoolSpec.acquired sizeof_node n size).
Local Abbreviation allocate := (Pool.allocate sizeof_node junk).
Local Abbreviation serve_all := (Pool.serve_all sizeof_node junk).
Local Abbreviation free := (Pool.free sizeof_node).

(** every block held is the payload part of a chunk of a slab *)
Lemma held_position p w fl out q :
  pool_inv p w fl out -> q ∈ out ->
  exists b j, buffers_list p w = [b] /\ 0 <= j < n /\
              q = b + j * c + sizeof_node.
Proof.
  intros [Hnum Hvec Hcs Hfl Hperm Hnd Hval Hbrk] Hq.
  assert (Hin : q - sizeof_node ∈ all_chunks p w).
  { rewrite <- Hperm. apply elem_of_app. right.
    apply list_elem_of_fmap. by exists q. }
  destruct Hvec as [E|(vb & b & Hvb & E & Hblk)].
  - rewrite all_chunks_fresh in Hin by done. by apply elem_of_nil in Hin.
  - rewrite (all_chunks_one _ _ _ _ E Hblk), Hnum, Hcs in Hin
      by (by rewrite E).
    apply (elem_of_chunks_of sizeof_node Hsizeof n size Hn Hsize Hov) in Hin
      as (j & Hj & Eq).
    exists b, j. split; [by apply (buffers_list_one _ _ vb)|]. split; [done|lia].
Qed.

Lemma held_NoDup p w fl out : pool_inv p w fl out -> NoDup out.
Proof.
  intros [Hnum Hvec Hcs Hfl Hperm Hnd Hval Hbrk].
  rewrite <- Hperm in Hnd. apply NoDup_app in Hnd as (_ & _ & Hnd).
  by apply NoDup_fmap_1 in Hnd.
Qed.

Lemma held_apart p w fl out i j qi qj :
  pool_inv p w fl out ->
  out !! i = Some qi -> out !! j = Some qj -> i <> j ->
  qi + size <= qj - sizeof_node \/ qj + size <= qi - sizeof_node.
Proof.
  intros Hinv Hi Hj Hne.
  assert (Hq : qi <> qj).
  { intros ->. apply Hne.
    by eapply NoDup_lookup; [eapply held_NoDup|..]. }
  destruct (held_position p w fl out qi Hinv) as (b & k & Hb & Hk & ->).
  { by eapply list_elem_of_lookup_2. }
  destruct (held_position p w fl out qj Hinv) as (b' & k' & Hb' & Hk' & ->).
  { by eapply list_elem_of_lookup_2. }
  rewrite Hb in Hb'. injection Hb' as <-.
  assert (k <> k') by (intros ->; by apply Hq). nia.
Qed.

(** A block released twice makes the free list point at itself: every
    later request is answered with that same block. *)
Lemma double_free_cycle p w fl out i q :
  pool_inv p w fl out -> out !! i = Some q ->
  exists p1 w1 p2 w2,
    free p q w = Done (p1, w1) /\
    free p1 q w1 = Done (p2, w2) /\
    head_ (free_list_ p2) = q - sizeof_node /\
    cells w2 !! (q - sizeof_node) = Some (q - sizeof_node) /\
    forall k held,
      serve_all size (p2, held) (replicate k Alloc) w2
      = Done ((p2, replicate k q ++ held), w2).
Proof.
  intros Hinv Hq. pose proof Hinv as [Hnum Hvec Hcs Hfl Hperm Hnd Hval Hbrk].
  assert (Hin : q - sizeof_node ∈ all_chunks p w).
  { rewrite <- Hperm. apply elem_of_app. right.
    apply list_elem_of_fmap. exists q. split; [done|].
    by eapply list_elem_of_lookup_2. }
  destruct (Hval _ Hin) as [Hpos Hblk].
  destruct p as [n' c' [h] bufs].
  set (a := q - sizeof_node) in *.
  set (w1 := upd w a h). set (w2 := upd w1 a a).
  set (p2 := mk_pool n' c' (mk_stack a) bufs).
  assert (Hblk1 : in_block sizeof_node w1 a = true) by exact Hblk.
  assert (Hblk2 : in_block sizeof_node w2 a = true) by exact Hblk.
  exists p2, w1, p2, w2.
  assert (Hal : allocate p2 size w2 = Done ((q, p2), w2)).
  { unfold Pool.allocate, pbind, pop. cbn [free_list_ head_ p2].
    rewrite decide_True by lia. unfold pbind, get_next. rewrite Hblk2.
    cbn [cells w2 upd]. rewrite lookup_insert_eq. unfold pret.
    cbn [fst snd]. rewrite decide_False by lia.
    unfold with_free_list. cbn [num_chunks_ chunk_size_ buffers_].
    do 3 f_equal. unfold a. lia. }
  split_and!.
  - unfold Pool.free, pbind. cbn [free_list_]. fold a.
    by rewrite (push_run sizeof_node Hsizeof) by done.
  - unfold Pool.free, pbind. cbn [free_list_ p2]. fold a.
    by rewrite (push_run sizeof_node Hsizeof) by done.
  - done.
  - cbn [cells w2 upd]. by rewrite lookup_insert_eq.
  - induction k as [|k IH]; intros held; [done|].
    cbn [replicate Pool.serve_all]. unfold pbind at 1.
    unfold serve, pbind at 1.
    cbn [fst snd]. rewrite Hal. unfold pret at 1. cbn [fst snd].
    rewrite IH. by rewrite replicate_app_cons.
Qed.

(** with no free chunk left and no room for another slab, [allocate]
    throws what the system allocator throws *)
Lemma allocate_exhausted p w out :
  pool_inv p w [] out -> limit w < brk w + n * c ->
  allocate p size w = Fault BadAlloc.
Proof.
  pose proof (c_bounds sizeof_node Hsizeof n size Hn Hsize Hov) as Hc.
  intros [Hnum Hvec Hcs Hfl Hperm Hnd Hval Hbrk] Hlim.
  destruct p as [n' c' [h] bufs].
  cbn [flist free_list_ head_ num_chunks_ buffers_ chunk_size_] in *.
  subst h n'.
  unfold Pool.allocate.
  rewrite (pbind_done _ _ _ _ _ (pop_nil sizeof_node Hsizeof w)).
  cbn [fst snd]. rewrite decide_True by done.
  apply pbind_fault. unfold with_free_list.
  cbn [num_chunks_ chunk_size_ buffers_ free_list_].
  assert (Hnew : forall v,
            Pool._allocate_buffer sizeof_node junk
              (mk_pool n c (mk_stack 0) v) w = Fault BadAlloc).
  { intros v. unfold Pool._allocate_buffer. apply pbind_fault.
    unfold sys_new. cbn [num_chunks_ chunk_size_].
    rewrite (wrap_small (n * c)) by lia. by rewrite decide_False by lia. }
  destruct Hvec as [E|(vb & b & Hvb & E & Hblk)]; cbn [buffers_] in E;
    subst bufs.
  - change (Vector.empty Vector.construct_default) with true.
    unfold with_chunk_size. cbn [num_chunks_ chunk_size_ buffers_ free_list_].
    rewrite (wrap_small c) by lia. apply Hnew.
  - change (Vector.empty (Vector.mk_vector vb Vector.get_instance 1 1))
      with false.
    rewrite Hcs by done. apply Hnew.
Qed.

Lemma serve_from_construct w0 rs :
  0 < brk w0 ->
  brk w0 + n * c <= limit w0 ->
  fits (Z.to_nat n) 0 rs = true ->
  exists p out w fl,
    serve_all size (construct n, []) rs w0 = Done ((p, out), w) /\
    pool_inv p w fl out /\ acquired w0 p w.
Proof.
  intros Hbrk Hroom Hfit.
  destruct (serve_all_spec sizeof_node junk Hsizeof n size Hn Hsize Hov w0 rs
              (construct n) w0 [] []
              (pool_inv_fresh sizeof_node Hsizeof n size Hn Hsize Hov w0 Hbrk)
              (acquired_fresh sizeof_node n size w0) Hroom Hfit)
    as (p & w & fl & out & Hrun & Hinv & Hacq & _).
  by exists p, out, w, fl.
Qed.

(** the destructor releases the slab the pool acquired and the buffer of
    the vector that records it *)
Lemma destruct_acquired w0 p w :
  acquired w0 p w -> Forall (fun blk => fst blk < brk w0) (blocks w0) ->
  destruct_ p w
  = Done (tt, mk_sys (brk w) (limit w) (blocks w0) (cells w) (vstore w0)).
Proof using Type.
  intros [Hlim [(E & Hblk & Hbrk & Hvs)|(E & Hblk & Hbrk & Hvs)]] Hlow;
    unfold destruct_; rewrite E.
  - change (Vector.size Vector.construct_default) with 0.
    change (S (Z.to_nat 0)) with 1%nat. cbn [_delete_buffers].
    change (Vector.iterator_ne (Vector.begin Vector.construct_default)
              (Vector.end_ Vector.construct_default)) with false.
    rewrite (pbind_done _ _ w tt w eq_refl).
    unfold vlift, pbind, Vector.destruct_.
    unfold Vector.construct_default, Vector.construct.
    rewrite VectorSpec.clean_no_buffer. unfold pret.
    by rewrite Hblk, Hvs.
  - unfold Vector.begin, Vector.end_.
    cbn [Vector.size Vector.size_ Vector.buffer_].
    change (S (Z.to_nat 1)) with 2%nat.
    assert (Hread : vlift (Vector.iterator_deref (vbuf w0, 0)) w
                    = Done (brk w0, w)).
    { unfold vlift, Vector.iterator_deref. cbn [fst snd].
      assert (Hget : vstore w !! vbuf w0 = Some [brk w0])
        by (rewrite Hvs; apply lookup_insert_eq).
      pose proof (VectorSpec.vec_read_run (vbuf w0) 0%nat [brk w0] (brk w0)
                    (vstore w) Hget eq_refl) as Hr.
      change (Z.of_nat 0) with 0 in Hr. rewrite Hr. by destruct w. }
    assert (Hdel : sys_delete (brk w0) w
                   = Done (tt, mk_sys (brk w) (limit w) (blocks w0) (cells w)
                                      (vstore w))).
    { unfold sys_delete. rewrite Hblk. cbn [fmap list_fmap fst].
      rewrite decide_True by (by left).
      rewrite filter_cons_False by (cbn [fst]; intros H; by apply H).
      rewrite filter_all; [done|].
      eapply Forall_impl; [exact Hlow|]. intros x Hx. cbn in Hx |- *. lia. }
    assert (Hloop : _delete_buffers 2 (vbuf w0, 0) (vbuf w0, 1) w
                    = Done (tt, mk_sys (brk w) (limit w) (blocks w0) (cells w)
                                       (vstore w))).
    { cbn [_delete_buffers]. rewrite iterator_ne_same_buffer.
      rewrite bool_decide_eq_true_2 by done.
      rewrite (pbind_done _ _ _ _ _ Hread).
      rewrite (pbind_done _ _ _ _ _ Hdel).
      unfold Vector.iterator_incr. cbn [fst snd].
      rewrite iterator_ne_same_buffer.
      by change (bool_decide (0 + 1 <> 1)) with false. }
    rewrite (pbind_done _ _ _ _ _ Hloop).
    unfold vlift, pbind. cbn [vstore brk limit blocks cells].
    rewrite (VectorSpec.destruct_grown 0 Vector.get_instance (vstore w0)
               _ _ [brk w0]); [done|].
    destruct (vbuf_facts w0) as [Hnz Hfr].
    split; cbn [Vector.buffer_ Vector.allocator_ Vector.size_
                Vector.buffer_size_ length]; try done.
Qed.

End Slabs.

(** [pool_allocator(0)]: the loop of the first [allocate] pushes no chunk,
    so the request pops null again *)
Lemma allocate_zero_chunks sizeof_node junk size w :
  0 < sizeof_node -> sizeof_node < 2 ^ 32 ->
  0 < brk w -> brk w + 1 <= limit w ->
  Pool.allocate sizeof_node junk (construct 0) size w
  = Done ((sizeof_node,
           mk_pool 0 (wrap (sizeof_node + size)) (mk_stack 0)
             (Vector.mk_vector (vbuf w) Vector.get_instance 1 1)),
          grown w 0).
Proof.
  intros Hs Hs2 Hbrk Hroom.
  unfold Pool.allocate, construct. cbn [free_list_].
  rewrite (pbind_done _ _ _ _ _ (pop_nil sizeof_node Hs w)). cbn [fst snd].
  rewrite decide_True by done.
  unfold with_free_list. cbn [num_chunks_ chunk_size_ buffers_ free_list_].
  change (Vector.empty Vector.construct_default) with true.
  unfold with_chunk_size. cbn [num_chunks_ chunk_size_ buffers_ free_list_].
  rewrite (pbind_done _ _ _ _ _
             (allocate_buffer_fresh sizeof_node junk Hs 0 _ _ w Hs2
                ltac:(lia) ltac:(rewrite Z.mul_0_l; by change (wrap 0) with 0))).
  rewrite Z.mul_0_l. change (wrap 0) with 0.
  cbn [fst snd num_chunks_ Z.to_nat _push_chunks].
  rewrite (pbind_done _ _ _ _ (grown w 0) eq_refl). cbn [free_list_].
  rewrite (pbind_done _ _ _ _ _ (pop_nil sizeof_node Hs (grown w 0))).
  reflexivity.
Qed.

(** Whatever a client that never holds more blocks than a slab has chunks
    requests and releases, the blocks it holds never overlap, headers
    included, and each lies inside the slab the pool acquired, above the
    memory that was in use before and below the break of the system
    heap. *)
Theorem pool_blocks_disjoint (sizeof_node junk n size : Z) (w0 : sys)
    (rs : list request) :
  0 < sizeof_node -> 0 < n -> 0 <= size ->
  n * (sizeof_node + size) < size_type_modulus ->
  0 < brk w0 ->
  brk w0 + n * (sizeof_node + size) <= limit w0 ->
  fits (Z.to_nat n) 0 rs = true ->
  exists p out w,
    serve_all sizeof_node junk size (construct n, []) rs w0
      = Done ((p, out), w) /\
    (forall i q, out !! i = Some q ->
       exists b, b ∈ buffers_list p w /\ brk w0 <= b /\
                 b + sizeof_node <= q /\
                 q + size <= b + n * (sizeof_node + size) /\
                 b + n * (sizeof_node + size) <= brk w) /\
    (forall i j qi qj, out !! i = Some qi -> out !! j = Some qj -> i <> j ->
       qi + size <= qj - sizeof_node \/ qj + size <= qi - sizeof_node).
Proof.
  intros Hs Hn Hsize Hov Hbrk Hroom Hfit.
  destruct (serve_from_construct sizeof_node junk Hs n size Hn Hsize Hov w0 rs
              Hbrk Hroom Hfit) as (p & out & w & fl & Hrun & Hinv & Hacq).
  exists p, out, w. split; [exact Hrun|]. split.
  - intros i q Hq.
    destruct (held_position sizeof_node Hs n size Hn Hsize Hov p w fl out q
                Hinv) as (b & j & Hb & Hj & ->).
    { by eapply list_elem_of_lookup_2. }
    destruct (acquired_buffers_list sizeof_node n size _ _ _ Hacq)
      as [[_ Hbl]|[_ Hbl]]; rewrite Hbl in Hb; [done|].
    injection Hb as <-.
    destruct Hacq as [_ [(E & _)|(_ & _ & Hbrk1 & _)]].
    { rewrite (buffers_list_fresh _ _ E) in Hbl. done. }
    exists (brk w0). split_and!; [rewrite Hbl; by left|lia|nia|nia|lia].
  - intros i j qi qj Hi Hj Hne.
    by eapply (held_apart sizeof_node Hs n size Hn Hsize Hov).
Qed.

Lemma pool_blocks_disjoint_witness :
  exists p out w,
    serve_all 8 0 24 (construct 2, [])
      [Alloc; Alloc; Free 1%nat; Alloc; Free 0%nat; Alloc]
      (mk_sys 1000 100000 [] ∅ ∅) = Done ((p, out), w) /\
    (forall i q, out !! i = Some q ->
       exists b, b ∈ buffers_list p w /\ 1000 <= b /\
                 b + 8 <= q /\ q + 24 <= b + 2 * (8 + 24) /\
                 b + 2 * (8 + 24) <= brk w) /\
    (forall i j qi qj, out !! i = Some qi -> out !! j = Some qj -> i <> j ->
       qi + 24 <= qj - 8 \/ qj + 24 <= qi - 8).
Proof.
  apply (pool_blocks_disjoint 8 0 2 24 (mk_sys 1000 100000 [] ∅ ∅)
           [Alloc; Alloc; Free 1%nat; Alloc; Free 0%nat; Alloc]);
    [lia|lia|lia|by vm_compute|simpl; lia|by vm_compute|reflexivity].
Defined.

(** A block released twice is never refused: the second release makes the
    free list point at itself, and from then on every request is answered
    with that same block, the pool and the system heap staying as they
    are.  The block is any block that a client who never held more blocks
    than a slab has chunks still holds. *)
Theorem pool_double_free_cycles (sizeof_node junk n size : Z) (w0 : sys)
    (rs : list request) :
  0 < sizeof_node -> 0 < n -> 0 <= size ->
  n * (sizeof_node + size) < size_type_modulus ->
  0 < brk w0 ->
  brk w0 + n * (sizeof_node + size) <= limit w0 ->
  fits (Z.to_nat n) 0 rs = true ->
  exists p out w,
    serve_all sizeof_node junk size (construct n, []) rs w0
      = Done ((p, out), w) /\
    forall i q, out !! i = Some q ->
      exists p1 w1 p2 w2,
        free sizeof_node p q w = Done (p1, w1) /\
        free sizeof_node p1 q w1 = Done (p2, w2) /\
        head_ (free_list_ p2) = q - sizeof_node /\
        cells w2 !! (q - sizeof_node) = Some (q - sizeof_node) /\
        forall k held,
          serve_all sizeof_node junk size (p2, held) (replicate k Alloc) w2
          = Done ((p2, replicate k q ++ held), w2).
Proof.
  intros Hs Hn Hsize Hov Hbrk Hroom Hfit.
  destruct (serve_from_construct sizeof_node junk Hs n size Hn Hsize Hov w0 rs
              Hbrk Hroom Hfit) as (p & out & w & fl & Hrun & Hinv & Hacq).
  exists p, out, w. split; [exact Hrun|]. intros i q Hq.
  by eapply (double_free_cycle sizeof_node junk Hs n size Hn Hsize Hov).
Qed.

Lemma pool_double_free_cycles_witness :
  exists p out w,
    serve_all 8 0 24 (construct 2, []) [Alloc; Alloc]
      (mk_sys 1000 100000 [] ∅ ∅) = Done ((p, out), w) /\
    forall i q, out !! i = Some q ->
      exists p1 w1 p2 w2,
        free 8 p q w = Done (p1, w1) /\
        free 8 p1 q w1 = Done (p2, w2) /\
        head_ (free_list_ p2) = q - 8 /\
        cells w2 !! (q - 8) = Some (q - 8) /\
        forall k held,
          serve_all 8 0 24 (p2, held) (replicate k Alloc) w2
          = Done ((p2, replicate k q ++ held), w2).
Proof.
  apply (pool_double_free_cycles 8 0 2 24 (mk_sys 1000 100000 [] ∅ ∅)
           [Alloc; Alloc]);
    [lia|lia|lia|by vm_compute|simpl; lia|by vm_compute|reflexivity].
Defined.

(** On a system heap with room for one buffer but not for two, a fresh pool
    serves as many requests as a buffer has chunks; the next [allocate]
    finds no free chunk and throws the [bad_alloc] of the system
    allocator. *)
Theorem pool_exhausted_throws (sizeof_node junk n size : Z) (w0 : sys) :
  0 < sizeof_node -> 0 < n -> 0 <= size ->
  n * (sizeof_node + size) < size_type_modulus ->
  0 < brk w0 ->
  brk w0 + n * (sizeof_node + size) <= limit w0 ->
  limit w0 < brk w0 + 2 * (n * (sizeof_node + size)) ->
  exists p out w,
    serve_all sizeof_node junk size (construct n, [])
      (replicate (Z.to_nat n) Alloc) w0 = Done ((p, out), w) /\
    length out = Z.to_nat n /\
    allocate sizeof_node junk p size w = Fault BadAlloc.
Proof.
  intros Hs Hn Hsize Hov Hbrk Hroom Hlim.
  destruct (first_slab sizeof_node junk Hs n size Hn Hsize Hov w0 Hbrk Hroom)
    as (p & out & w & Hrun & Hinv & Hlen & _ & _ & Hbrk1 & Hlim1 & _).
  exists p, out, w. split_and!; [done|done|].
  apply (allocate_exhausted sizeof_node junk Hs n size Hn Hsize Hov _ _ _ Hinv).
  rewrite Hbrk1, Hlim1. lia.
Qed.

Lemma pool_exhausted_throws_witness :
  exists p out w,
    serve_all 8 0 24 (construct 2, []) (replicate (Z.to_nat 2) Alloc)
      (mk_sys 1000 1100 [] ∅ ∅) = Done ((p, out), w) /\
    length out = Z.to_nat 2 /\
    allocate 8 0 p 24 w = Fault BadAlloc.
Proof.
  apply (pool_exhausted_throws 8 0 2 24 (mk_sys 1000 1100 [] ∅ ∅));
    [lia|lia|lia|by vm_compute|simpl; lia|simpl; lia|simpl; lia].
Defined.

(** [pool_allocator(0)] never hands out memory: the first [allocate]
    acquires an empty buffer from the system, links no chunk and returns the
    address [sizeof(node_type)], which is the null chunk plus the header;
    the free list stays empty, so the second [allocate] acquires one more
    buffer and ends in the access outside the buffer of [buffers_]. *)
Theorem pool_zero_chunks (sizeof_node junk size : Z) (w0 : sys) :
  0 < sizeof_node -> 2 * sizeof_node < size_type_modulus ->
  0 < brk w0 -> brk w0 + 2 <= limit w0 ->
  exists p w,
    allocate sizeof_node junk (construct 0) size w0
      = Done ((sizeof_node, p), w) /\
    Vector.size (buffers_ p) = 1 /\
    buffers_list p w = [brk w0] /\
    head_ (free_list_ p) = 0 /\
    blocks w = (brk w0, 0) :: blocks w0 /\
    brk w = brk w0 + 1 /\
    allocate sizeof_node junk p size w = Fault BadAccess.
Proof.
  intros Hs Hs2 Hbrk Hroom.
  assert (Hs1 : sizeof_node < 2 ^ 32)
    by (change (2 ^ 32) with size_type_modulus; lia).
  eexists _, _. split_and!.
  - exact (allocate_zero_chunks sizeof_node junk size w0 Hs Hs1 Hbrk
             ltac:(lia)).
  - done.
  - apply (buffers_list_one _ _ (vbuf w0)); [done|].
    cbn [grown vstore]. apply lookup_insert_eq.
  - done.
  - done.
  - done.
  - unfold allocate. cbn [free_list_].
    rewrite (pbind_done _ _ _ _ _ (pop_nil sizeof_node Hs (grown w0 0))).
    cbn [fst snd]. rewrite decide_True by done.
    unfold with_free_list. cbn [num_chunks_ chunk_size_ buffers_ free_list_].
    change (Vector.empty (Vector.mk_vector (vbuf w0) Vector.get_instance 1 1))
      with false.
    apply pbind_fault.
    apply (allocate_buffer_overread sizeof_node junk Hs _ _ _ (vbuf w0)
             (brk w0)).
    + by change (2 ^ 32) with size_type_modulus.
    + cbn [grown brk]. lia.
    + rewrite Z.mul_0_l. change (wrap 0) with 0. cbn [grown brk limit]. lia.
    + apply vbuf_facts.
    + cbn [grown vstore]. apply lookup_insert_eq.
Qed.

Lemma pool_zero_chunks_witness :
  exists p w,
    allocate 8 0 (construct 0) 24 (mk_sys 1000 100000 [] ∅ ∅)
      = Done ((8, p), w) /\
    Vector.size (buffers_ p) = 1 /\
    buffers_list p w = [1000] /\
    head_ (free_list_ p) = 0 /\
    blocks w = [(1000, 0)] /\
    brk w = 1001 /\
    allocate 8 0 p 24 w = Fault BadAccess.
Proof.
  apply (pool_zero_chunks 8 0 24 (mk_sys 1000 100000 [] ∅ ∅));
    [lia|by vm_compute|simpl; lia|simpl; lia].
Defined.

(** The destructor releases the slab the pool acquired and nothing else:
    whatever a client that never held more blocks than a slab has chunks
    requested and released, the buffers of the system heap are afterwards
    those that were live before the pool was used, and the buffer of the
    vector [buffers_] is returned to the default allocator.  The blocks the
    client still holds lie in released memory. *)
Theorem pool_destructor_releases_buffers (sizeof_node junk n size : Z)
    (w0 : sys) (rs : list request) :
  0 < sizeof_node -> 0 < n -> 0 <= size ->
  n * (sizeof_node + size) < size_type_modulus ->
  0 < brk w0 ->
  Forall (fun blk => fst blk < brk w0) (blocks w0) ->
  brk w0 + n * (sizeof_node + size) <= limit w0 ->
  fits (Z.to_nat n) 0 rs = true ->
  exists p out w w',
    serve_all sizeof_node junk size (construct n, []) rs w0
      = Done ((p, out), w) /\
    length (blocks w) = (length (buffers_list p w) + length (blocks w0))%nat /\
    destruct_ p w = Done (tt, w') /\
    blocks w' = blocks w0 /\
    vstore w' = vstore w0.
Proof.
  intros Hs Hn Hsize Hov Hbrk Hlow Hroom Hfit.
  destruct (serve_from_construct sizeof_node junk Hs n size Hn Hsize Hov w0 rs
              Hbrk Hroom Hfit) as (p & out & w & fl & Hrun & Hinv & Hacq).
  exists p, out, w,
    (mk_sys (brk w) (limit w) (blocks w0) (cells w) (vstore w0)).
  split; [exact Hrun|]. split_and!.
  - destruct (acquired_buffers_list sizeof_node n size _ _ _ Hacq)
      as [[E Hbl]|[E Hbl]]; rewrite Hbl;
      destruct Hacq as [_ [(E' & Hblk & _)|(E' & Hblk & _)]];
      rewrite Hblk; try done; by rewrite E' in E.
  - by apply (destruct_acquired sizeof_node n size w0).
  - done.
  - done.
Qed.

Lemma pool_destructor_releases_buffers_witness :
  exists p out w w',
    serve_all 8 0 24 (construct 2, []) [Alloc; Alloc; Free 1%nat]
      (mk_sys 1000 100000 [(500, 100)] ∅ ∅) = Done ((p, out), w) /\
    length (blocks w)
    = (length (buffers_list p w)
       + length (blocks (mk_sys 1000%Z 100000%Z [(500%Z, 100%Z)] ∅ ∅)))%nat /\
    destruct_ p w = Done (tt, w') /\
    blocks w' = blocks (mk_sys 1000 100000 [(500, 100)] ∅ ∅) /\
    vstore w' = vstore (mk_sys 1000 100000 [(500, 100)] ∅ ∅).
Proof.
  apply (pool_destructor_releases_buffers 8 0 2 24
           (mk_sys 1000 100000 [(500, 100)] ∅ ∅)
           [Alloc; Alloc; Free 1%nat]);
    [lia|lia|lia|by vm_compute|simpl; lia| |by vm_compute|reflexivity].
  repeat constructor.
Defined.

End PoolMore.

(** * [forward_list]: the chain in the store and the calls on it *)

Module FwdListSpec.
Import FwdList.

Section Spec.
Context {T : Type} (junk : T).
Implicit Types (l : forward_list) (m : gmap ptr (@node_t T))
  (es : list (ptr * T)).
Local Abbreviation push_front := (FwdList.push_front junk).
Local Abbreviation run_op := (FwdList.run_op junk).
Local Abbreviation run_ops := (FwdList.run_ops junk).

(** [lrep m p es]: from [p] the store holds the chain of the nodes [es],
    address and payload, ended by the null pointer. *)
Fixpoint lrep m (p : ptr) es : Prop :=
  match es with
  | [] => p = nullptr
  | (a, d) :: es =>
      p = a /\ a <> nullptr /\
      exists nx, m !! a = Some (mk_node nx d) /\ lrep m nx es
  end.

(** The list object [l] holds the nodes [es]: they are distinct, the
    allocator reference is set and [size_] counts them (as an
    [unsigned int]). *)
Record Inv l m es : Prop := {
  inv_rep : lrep m (head_ l) es;
  inv_nodup : NoDup es.*1;
  inv_alloc : allocator_ l <> nullptr;
  inv_size : size_ l = wrap (Z.of_nat (Datatypes.length es))
}.

(** [Held m0 l m es]: beside, the nodes are the only cells that were not
    live in [m0], and the cells of [m0] are as they were. *)
Record Held (m0 : gmap ptr (@node_t T)) l m es : Prop := {
  held_inv : Inv l m es;
  held_dom : dom m = dom m0 ∪ list_to_set es.*1;
  held_apart : forall a, a ∈ es.*1 -> a ∉ dom m0;
  held_frame : forall p, p ∈ dom m0 -> m !! p = m0 !! p
}.

Lemma lrep_ext m m' : forall es p,
  (forall a, a ∈ es.*1 -> m' !! a = m !! a) -> lrep m p es -> lrep m' p es.
Proof.
  induction es as [|[a d] es IH]; intros p Hext; cbn [lrep]; [done|].
  intros (-> & Ha & nx & Hm & Hr). split_and!; [done..|].
  exists nx. split.
  - rewrite Hext; [done|]. cbn. by left.
  - apply IH; [|done]. intros b Hb. apply Hext. cbn. by right.
Qed.

Lemma lrep_dom m : forall es p a, lrep m p es -> a ∈ es.*1 -> a ∈ dom m.
Proof.
  induction es as [|[b d] es IH]; intros p a; cbn [lrep fmap list_fmap fst].
  - intros _ Ha. by apply elem_of_nil in Ha.
  - intros (-> & Hb & nx & Hm & Hr) Ha.
    apply elem_of_cons in Ha as [->|Ha]; [by eapply elem_of_dom_2|].
    by eapply IH.
Qed.

(** the chain from a pointer is determined by the store *)
Lemma lrep_unique m : forall es es' p, lrep m p es -> lrep m p es' -> es = es'.
Proof.
  induction es as [|[a d] es IH]; intros [|[a' d'] es'] p; cbn [lrep].
  - done.
  - intros -> (E & Ha & _). by subst.
  - intros (E & Ha & _) ->. by subst.
  - intros (-> & Ha & nx & Hm & Hr) (E & _ & nx' & Hm' & Hr'). subst a'.
    rewrite Hm in Hm'. injection Hm' as <- <-. f_equal. by eapply IH.
Qed.

Lemma wrap_id z : 0 <= z < size_type_modulus -> wrap z = z.
Proof. intros H. unfold wrap. by apply Z.mod_small. Qed.

Lemma Held_length m0 l m es :
  Held m0 l m es -> (Datatypes.length es <= base.size m)%nat.
Proof.
  intros [[_ Hnd _ _] Hd _ _].
  rewrite <- size_dom, Hd, <- (length_fmap fst es).
  rewrite <- (size_list_to_set (C:=gset ptr) es.*1) by done.
  apply subseteq_size. set_solver.
Qed.

Lemma Held_fresh m0 alloc :
  alloc <> nullptr -> Held m0 (construct alloc) m0 [].
Proof.
  intros Ha. split; [split; cbn; try done; constructor| | |done].
  - cbn. set_solver.
  - intros a Hin. by apply elem_of_nil in Hin.
Qed.

(** *** The calls *)

Lemma front_cons l m a d es :
  Inv l m ((a, d) :: es) -> front l m = Val (d, m).
Proof.
  intros [Hr _ _ _]. cbn [lrep] in Hr. destruct Hr as (E & Ha & nx & Hm & _).
  unfold front. rewrite decide_False by congruence.
  unfold get_data, bind, load. rewrite E, Hm. done.
Qed.

Lemma front_nil l m :
  Inv l m [] ->
  front l m = Exn (RangeError "Calling front() on an empty container.").
Proof.
  intros [Hr _ _ _]. cbn [lrep] in Hr. unfold front. by rewrite decide_True.
Qed.

Lemma push_front_run m0 l m es d :
  Held m0 l m es ->
  exists a m',
    push_front l d m
      = Val (mk_list a (allocator_ l) (wrap (size_ l + 1)), m') /\
    (a ∉ dom m) /\
    Held m0 (mk_list a (allocator_ l) (wrap (size_ l + 1))) m' ((a, d) :: es).
Proof.
  intros [[Hr Hnd Hal Hsz] Hd Hap Hfr].
  set (a := fresh ({[nullptr]} ∪ dom m)).
  pose proof (is_fresh ({[nullptr]} ∪ dom m)) as Hf. fold a in Hf.
  assert (Ha0 : a <> nullptr) by set_solver.
  assert (Ham : a ∉ dom m) by set_solver.
  exists a, (<[a := mk_node (head_ l) d]> m). split_and!; [|done|].
  - unfold FwdList.push_front, bind, _allocate_node.
    rewrite decide_False by done. fold a. rewrite decide_False by done.
    unfold set_data, set_next, store, ret.
    rewrite lookup_insert_eq. cbn [next data].
    rewrite lookup_insert_eq. cbn [next data].
    by rewrite !insert_insert_eq.
  - split; [split|..]; cbn [head_ allocator_ size_ lrep fmap list_fmap fst].
    + split_and!; [done..|]. exists (head_ l).
      split; [by rewrite lookup_insert_eq|].
      eapply lrep_ext; [|exact Hr]. intros b Hb.
      rewrite lookup_insert_ne; [done|]. intros <-. apply Ham.
      by eapply lrep_dom.
    + apply NoDup_cons. split; [|done]. intros Hin. apply Ham.
      by eapply lrep_dom.
    + done.
    + rewrite Hsz. unfold wrap. rewrite Zplus_mod_idemp_l. f_equal.
      cbn [Datatypes.length]. lia.
    + rewrite dom_insert_L, Hd, list_to_set_cons. set_solver.
    + intros b Hb. apply elem_of_cons in Hb as [->|Hb]; [|by apply Hap].
      intros Hin. apply Ham. rewrite Hd. set_solver.
    + intros p Hp. rewrite lookup_insert_ne; [by apply Hfr|].
      intros <-. apply Ham. rewrite Hd. set_solver.
Qed.

Lemma noexcept_val {A} (c : M (T:=T) A) m r :
  c m = Val r -> noexcept_ c m = Val r.
Proof. unfold noexcept_. by intros ->. Qed.

Lemma noexcept_access {A} (c : M (T:=T) A) m :
  c m = Exn BadAccess -> noexcept_ c m = Exn BadAccess.
Proof. unfold noexcept_. by intros ->. Qed.

Lemma noexcept_thrown {A} (c : M (T:=T) A) m msg :
  c m = Exn (RangeError msg) -> noexcept_ c m = Exn Terminated.
Proof. unfold noexcept_. by intros ->. Qed.

Lemma pop_front_cons m0 l m a d es :
  Held m0 l m ((a, d) :: es) ->
  exists nx,
    pop_front l m
      = Val (mk_list nx (allocator_ l) (wrap (size_ l - 1)), delete a m) /\
    Held m0 (mk_list nx (allocator_ l) (wrap (size_ l - 1))) (delete a m) es.
Proof.
  intros [[Hr Hnd Hal Hsz] Hd Hap Hfr].
  cbn [lrep fmap list_fmap fst] in *.
  destruct Hr as (E & Ha & nx & Hm & Hr).
  apply NoDup_cons in Hnd as [Hnin Hnd].
  exists nx. split.
  - unfold pop_front. apply noexcept_val.
    rewrite decide_True by congruence.
    unfold bind, get_next, bind, load. rewrite E, Hm. unfold ret.
    cbn [next]. unfold _free_node. cbn [allocator_].
    rewrite decide_False by done. by rewrite Hm.
  - split; [split|..]; cbn [head_ allocator_ size_].
    + eapply lrep_ext; [|exact Hr]. intros b Hb.
      rewrite lookup_delete_ne; [done|]. by intros <-.
    + done.
    + done.
    + rewrite Hsz. unfold wrap. rewrite Zminus_mod_idemp_l. f_equal.
      cbn [Datatypes.length]. lia.
    + rewrite dom_delete_L, Hd, list_to_set_cons.
      assert (a ∉ dom m0) by (apply Hap; by left).
      set_solver.
    + intros b Hb. apply Hap. by right.
    + intros p Hp. rewrite lookup_delete_ne; [by apply Hfr|].
      intros <-. by apply (Hap a); [left|].
Qed.

Lemma pop_front_nil l m : Inv l m [] -> pop_front l m = Val (l, m).
Proof.
  intros [Hr _ _ _]. cbn [lrep] in Hr. unfold pop_front.
  apply noexcept_val.
  rewrite decide_False; [done|]. intros H. by apply H.
Qed.

Lemma clear_loop_run m0 : forall es fuel l m,
  Held m0 l m es ->
  Z.of_nat (Datatypes.length es) < size_type_modulus ->
  (Datatypes.length es < fuel)%nat ->
  exists l',
    _clear_loop fuel l m = Val (l', m0) /\ Held m0 l' m0 [] /\
    allocator_ l' = allocator_ l.
Proof.
  induction es as [|[a d] es IH]; intros fuel l m Hh Hb Hf;
    (destruct fuel as [|fuel]; [simpl in Hf; lia|]); cbn [_clear_loop].
  - pose proof Hh as [[Hr Hnd Hal Hsz] Hd Hap Hfr].
    rewrite decide_False by (rewrite Hsz; intros H; by apply H).
    assert (m = m0) as ->.
    { apply map_eq. intros p. destruct (decide (p ∈ dom m0)) as [Hp|Hp].
      - by apply Hfr.
      - rewrite (not_elem_of_dom_1 m0 p Hp). apply not_elem_of_dom.
        rewrite Hd. cbn. set_solver. }
    by exists l.
  - pose proof Hh as [[Hr Hnd Hal Hsz] Hd Hap Hfr].
    cbn [Datatypes.length] in Hb, Hf.
    rewrite decide_True by (rewrite Hsz, wrap_id; cbn [Datatypes.length]; lia).
    unfold bind at 1. rewrite (front_cons l m a d es) by by destruct Hh.
    destruct (pop_front_cons m0 l m a d es Hh) as (nx & Hpop & Hh').
    unfold bind at 1. rewrite Hpop.
    destruct (IH fuel _ _ Hh') as (l' & Hrun & Hh'' & Hal'); [lia..|].
    exists l'. by split_and!.
Qed.

Lemma clear_run m0 l m es :
  Held m0 l m es ->
  Z.of_nat (Datatypes.length es) < size_type_modulus ->
  exists l',
    clear l m = Val (l', m0) /\ Held m0 l' m0 [] /\
    allocator_ l' = allocator_ l.
Proof.
  intros Hh Hb.
  destruct (clear_loop_run m0 es (S (base.size m)) l m Hh Hb)
    as (l' & Hrun & Hh' & Hal).
  { pose proof (Held_length _ _ _ _ Hh). lia. }
  exists l'. split_and!; [|done..]. unfold clear. by apply noexcept_val.
Qed.

Lemma run_op_held m0 l m es o :
  Held m0 l m es ->
  Z.of_nat (Datatypes.length es) < size_type_modulus ->
  exists l' m' es',
    run_op l o m = Val (l', m') /\ Held m0 l' m' es' /\
    es'.*2 = op_model o es.*2 /\
    allocator_ l' = allocator_ l /\
    (Datatypes.length es' <= S (Datatypes.length es))%nat.
Proof.
  intros Hh Hb. destruct o as [d| |]; cbn [FwdList.run_op op_model].
  - destruct (push_front_run m0 l m es d Hh) as (a & m' & Hrun & _ & Hh').
    eexists _, m', ((a, d) :: es). split_and!; [done..|].
    cbn [Datatypes.length]. lia.
  - destruct es as [|[a d] es].
    + exists l, m, []. split_and!; [|done..|cbn; lia].
      apply pop_front_nil. by destruct Hh.
    + destruct (pop_front_cons m0 l m a d es Hh) as (nx & Hrun & Hh').
      eexists _, _, es. split_and!; [done..|]. cbn [Datatypes.length]. lia.
  - destruct (clear_run m0 l m es Hh Hb) as (l' & Hrun & Hh' & Hal).
    exists l', m0, []. split_and!; [done..|]. cbn [Datatypes.length]. lia.
Qed.

Lemma run_ops_held m0 : forall os l m es,
  Held m0 l m es ->
  Z.of_nat (Datatypes.length es + Datatypes.length os) < size_type_modulus ->
  exists l' m' es',
    run_ops l os m = Val (l', m') /\ Held m0 l' m' es' /\
    es'.*2 = ops_model os es.*2 /\
    allocator_ l' = allocator_ l /\
    (Datatypes.length es' <= Datatypes.length es + Datatypes.length os)%nat.
Proof.
  induction os as [|o os IH]; intros l m es Hh Hb;
    cbn [FwdList.run_ops ops_model Datatypes.length] in *.
  - exists l, m, es. split_and!; [done..|lia].
  - destruct (run_op_held m0 l m es o Hh) as
      (l1 & m1 & es1 & Hrun1 & Hh1 & He1 & Hal1 & Hlen1); [lia|].
    destruct (IH l1 m1 es1 Hh1) as
      (l2 & m2 & es2 & Hrun2 & Hh2 & He2 & Hal2 & Hlen2); [lia|].
    exists l2, m2, es2. split_and!.
    + unfold bind. by rewrite Hrun1.
    + done.
    + by rewrite He2, He1.
    + congruence.
    + lia.
Qed.

(** *** Copying *)

Lemma lrep_lookup m : forall es p j a d,
  lrep m p es -> es !! j = Some (a, d) ->
  exists nx, m !! a = Some (mk_node nx d).
Proof.
  induction es as [|[b e] es IH]; intros p j a d; cbn [lrep]; [done|].
  intros (-> & Hb & nx & Hm & Hr). destruct j as [|j]; cbn.
  - intros [= <- <-]. by exists nx.
  - by eapply IH.
Qed.

(** the first loop of [_set_by_copy] writes the addresses of the nodes into
    the array, from index [i] on *)
Lemma collect_run m : forall es fuel pre rest p,
  lrep m p es ->
  (Datatypes.length es <= Datatypes.length rest)%nat ->
  (Datatypes.length es < fuel)%nat ->
  _collect fuel (pre ++ rest) (Z.of_nat (Datatypes.length pre)) p m
  = Val (pre ++ (Some <$> es.*1) ++ drop (Datatypes.length es) rest, m).
Proof.
  induction es as [|[a d] es IH]; intros fuel pre rest p Hr Hlen Hf;
    (destruct fuel as [|fuel]; [simpl in Hf; lia|]);
    cbn [_collect lrep Datatypes.length] in *.
  - subst p. rewrite decide_False by (intros H; by apply H). done.
  - destruct Hr as (-> & Ha & nx & Hm & Hr).
    rewrite decide_True by done.
    destruct rest as [|r rest]; [simpl in Hlen; lia|].
    rewrite decide_True by (rewrite length_app; cbn [Datatypes.length]; lia).
    rewrite Nat2Z.id.
    rewrite insert_app_r_alt by lia. rewrite Nat.sub_diag. cbn [insert list_insert].
    unfold bind at 1. unfold get_next, bind, load. rewrite Hm.
    unfold ret at 1. cbn [next].
    replace (pre ++ Some a :: rest) with ((pre ++ [Some a]) ++ rest)
      by by rewrite <- app_assoc.
    replace (Z.of_nat (Datatypes.length pre) + 1)
      with (Z.of_nat (Datatypes.length (pre ++ [Some a])))
      by (rewrite length_app; cbn [Datatypes.length]; lia).
    rewrite (IH fuel (pre ++ [Some a]) rest nx Hr);
      [|cbn [Datatypes.length] in Hlen; lia|lia].
    by rewrite <- app_assoc.
Qed.

(** the second loop pushes the payloads of the nodes [k - 1], ..., [0] *)
Lemma push_back_run m1 (eb : list (ptr * T)) pb : forall k fuel l m es,
  lrep m1 pb eb ->
  Held m1 l m es ->
  (k <= Datatypes.length eb)%nat ->
  (k < fuel)%nat ->
  exists l' m' es',
    _push_back_to_front junk fuel l (Some <$> eb.*1) (Z.of_nat k - 1) m
      = Val (l', m') /\
    Held m1 l' m' es' /\
    es'.*2 = (take k eb).*2 ++ es.*2 /\
    allocator_ l' = allocator_ l /\
    size_ l' = wrap (size_ l + Z.of_nat k).
Proof.
  induction k as [|k IH]; intros fuel l m es Hb Hh Hk Hf;
    (destruct fuel as [|fuel]; [lia|]); cbn [_push_back_to_front].
  - rewrite decide_False by lia. exists l, m, es. split_and!; [done..|].
    pose proof Hh as [[_ _ _ Hsz] _ _ _]. rewrite Z.add_0_r, Hsz.
    unfold wrap. by rewrite Zmod_mod.
  - rewrite decide_True by lia.
    replace (Z.to_nat (Z.of_nat (S k) - 1)) with k by lia.
    destruct (lookup_lt_is_Some_2 eb k) as [[a d] Hkd]; [lia|].
    rewrite list_lookup_fmap, list_lookup_fmap, Hkd. cbn [fmap option_fmap option_map fst].
    destruct (lrep_lookup m1 eb pb k a d Hb Hkd) as (nx & Hm1).
    assert (Hm : m !! a = Some (mk_node nx d)).
    { rewrite (held_frame _ _ _ _ Hh); [done|]. by eapply elem_of_dom_2. }
    unfold bind at 1. unfold get_data, bind, load. rewrite Hm.
    unfold ret at 1. cbn [data].
    destruct (push_front_run m1 l m es d Hh) as (a' & m' & Hrun & _ & Hh').
    rewrite Hrun.
    replace (Z.of_nat (S k) - 1 - 1) with (Z.of_nat k - 1) by lia.
    destruct (IH fuel _ m' _ Hb Hh') as
      (l2 & m2 & es2 & Hrun2 & Hh2 & He2 & Hal2 & Hsz2); [lia..|].
    exists l2, m2, es2. split_and!; [done|done| |done|].
    + rewrite He2, (take_S_r eb k (a, d) Hkd), !fmap_app, <- app_assoc. done.
    + rewrite Hsz2. cbn [size_]. unfold wrap.
      rewrite Zplus_mod_idemp_l. f_equal. lia.
Qed.

(** [_clean()] on a list whose [size_] is 0 does nothing, whatever its
    other members are *)
Lemma clean_size_zero l m : size_ l = 0 -> _clean l m = Val (l, m).
Proof.
  intros Hs. unfold _clean, clear. do 2 apply noexcept_val.
  cbn [_clear_loop].
  rewrite decide_False; [done|]. intros H. by apply H.
Qed.

(** what [_set_by_copy] does once the old nodes are released *)
Lemma copy_into_empty m1 lb eb :
  lrep m1 (head_ lb) eb ->
  allocator_ lb <> nullptr ->
  size_ lb = Z.of_nat (Datatypes.length eb) ->
  Z.of_nat (Datatypes.length eb) < 2 ^ 31 ->
  exists l' m' es',
    (if decide (size lb > 0) then
       nodes <- _collect (S (Z.to_nat (size lb)))
                  (replicate (Z.to_nat (size lb)) None) 0 (head_ lb) ;;
       _push_back_to_front junk (S (Z.to_nat (size lb)))
         (mk_list nullptr (allocator_ lb) 0) nodes
         (to_int (wrap (size lb - 1)))
     else ret (mk_list nullptr (allocator_ lb) 0)) m1
    = Val (l', m') /\
    Held m1 l' m' es' /\ es'.*2 = eb.*2 /\
    allocator_ l' = allocator_ lb /\ size_ l' = size_ lb.
Proof.
  intros Hb Hal Hsz Hlen. unfold size. rewrite Hsz.
  assert (Hh0 : Held m1 (mk_list nullptr (allocator_ lb) 0) m1 []).
  { by apply (Held_fresh m1 (allocator_ lb)). }
  destruct (decide (Z.of_nat (Datatypes.length eb) > 0)) as [Hpos|Hz].
  - rewrite Nat2Z.id.
    pose proof (collect_run m1 eb (S (Datatypes.length eb)) []
                  (replicate (Datatypes.length eb) None) (head_ lb) Hb) as Hc.
    cbn [app Datatypes.length] in Hc.
    unfold bind at 1. change (Z.of_nat 0) with 0 in Hc.
    rewrite Hc by (rewrite ?length_replicate; lia).
    rewrite drop_replicate, Nat.sub_diag. cbn [replicate]. rewrite app_nil_r.
    assert (Hi : to_int (wrap (Z.of_nat (Datatypes.length eb) - 1))
                 = Z.of_nat (Datatypes.length eb) - 1).
    { assert (2 ^ 31 < size_type_modulus) by done.
      rewrite wrap_id by lia. unfold to_int.
      by rewrite decide_True by lia. }
    rewrite Hi.
    destruct (push_back_run m1 eb (head_ lb) (Datatypes.length eb)
                (S (Datatypes.length eb)) _ m1 [] Hb Hh0)
      as (l' & m' & es' & Hrun & Hh' & He' & Hal' & Hsz'); [lia..|].
    exists l', m', es'. split_and!; [done|done| |done|].
    + by rewrite He', firstn_all, app_nil_r.
    + rewrite Hsz'. cbn [size_]. apply wrap_id.
      assert (2 ^ 31 < size_type_modulus) by done. lia.
  - exists (mk_list nullptr (allocator_ lb) 0), m1, [].
    destruct eb; [|cbn [Datatypes.length] in Hz; lia].
    by split_and!.
Qed.

Lemma set_by_copy_run m1 la m ea lb eb :
  Held m1 la m ea ->
  Z.of_nat (Datatypes.length ea) < size_type_modulus ->
  lrep m1 (head_ lb) eb ->
  allocator_ lb <> nullptr ->
  size_ lb = Z.of_nat (Datatypes.length eb) ->
  Z.of_nat (Datatypes.length eb) < 2 ^ 31 ->
  exists l' m' es',
    _set_by_copy junk la lb m = Val (l', m') /\
    Held m1 l' m' es' /\ es'.*2 = eb.*2 /\
    allocator_ l' = allocator_ lb /\ size_ l' = size_ lb.
Proof.
  intros Hh Hba Hb Hal Hsz Hlen.
  destruct (clear_run m1 la m ea Hh Hba) as (l0 & Hcl & _ & _).
  unfold _set_by_copy, bind at 1. unfold _clean.
  rewrite (noexcept_val _ _ _ Hcl).
  by apply copy_into_empty.
Qed.

Lemma from_construct_held alloc m0 os :
  alloc <> nullptr ->
  Z.of_nat (Datatypes.length os) < size_type_modulus ->
  exists l m es,
    run_ops (construct alloc) os m0 = Val (l, m) /\ Held m0 l m es /\
    es.*2 = ops_model os [] /\ allocator_ l = alloc /\
    size_ l = Z.of_nat (Datatypes.length es) /\
    (Datatypes.length es <= Datatypes.length os)%nat.
Proof.
  intros Ha Hb.
  destruct (run_ops_held m0 os (construct alloc) m0 [] (Held_fresh m0 alloc Ha))
    as (l & m & es & Hrun & Hh & He & Hal & Hlen); [done|].
  exists l, m, es. split_and!; [done..| |done].
  pose proof Hh as [[_ _ _ Hsz] _ _ _]. rewrite Hsz. apply wrap_id.
  cbn [Datatypes.length] in Hlen. lia.
Qed.

End Spec.

(** A [forward_list] is a stack: after any calls of push_front, pop_front
    (which does nothing on an empty list) and clear, the chain from [head_]
    holds the payloads pushed and not yet popped or cleared, latest first;
    [size()] is their number, [empty()] tells whether there is none, and
    [front()] is the latest one, or throws [range_error] when there is
    none. *)
Theorem forward_list_is_stack {T : Type} (junk : T) (alloc : ptr)
    (m0 : gmap ptr (@node_t T)) (os : list (@op T)) :
  alloc <> nullptr ->
  Z.of_nat (Datatypes.length os) < size_type_modulus ->
  exists l m es,
    run_ops junk (construct alloc) os m0 = Val (l, m) /\
    lrep m (head_ l) es /\ es.*2 = ops_model os [] /\
    size l = Z.of_nat (Datatypes.length (ops_model os [])) /\
    (empty l = true <-> ops_model os [] = []) /\
    front l m
    = match ops_model os [] with
      | [] => Exn (RangeError "Calling front() on an empty container.")
      | d :: _ => Val (d, m)
      end.
Proof.
  intros Ha Hb.
  destruct (from_construct_held junk alloc m0 os Ha Hb)
    as (l & m & es & Hrun & Hh & He & Hal & Hsz & Hlen).
  pose proof Hh as [Hinv _ _ _].
  exists l, m, es. split_and!; [done|by destruct Hinv|done|..].
  - unfold size. by rewrite Hsz, <- He, length_fmap.
  - unfold empty. rewrite Hsz, <- He. destruct es; cbn; [done|].
    rewrite bool_decide_eq_false_2 by lia. done.
  - rewrite <- He. destruct es as [|[a d] es]; cbn [fmap list_fmap snd].
    + by apply front_nil.
    + by eapply front_cons.
Qed.

Lemma forward_list_is_stack_witness :
  1%nat <> nullptr /\
  Z.of_nat (Datatypes.length [Push 1; Push 2; Pop; Push 3; Push 4; Pop])
    < size_type_modulus /\
  exists l m es,
    run_ops 0 (construct 1%nat) [Push 1; Push 2; Pop; Push 3; Push 4; Pop] ∅
      = Val (l, m) /\
    lrep m (head_ l) es /\
    es.*2 = ops_model [Push 1; Push 2; Pop; Push 3; Push 4; Pop] [] /\
    size l = Z.of_nat (Datatypes.length
               (ops_model [Push 1; Push 2; Pop; Push 3; Push 4; Pop] [])) /\
    (empty l = true
     <-> ops_model [Push 1; Push 2; Pop; Push 3; Push 4; Pop] [] = []) /\
    front l m
    = match ops_model [Push 1; Push 2; Pop; Push 3; Push 4; Pop] [] with
      | [] => Exn (RangeError "Calling front() on an empty container.")
      | d :: _ => Val (d, m)
      end.
Proof.
  split; [discriminate|]. split; [by vm_compute|].
  apply (forward_list_is_stack 0 1%nat ∅
           [Push 1; Push 2; Pop; Push 3; Push 4; Pop]).
  - discriminate.
  - by vm_compute.
Defined.

(** A [forward_list] leaks nothing and touches no cell of others: after any
    calls of push_front, pop_front and clear, the live cells are those live
    before plus one per element, the cells that were live before hold what
    they held, and the destructor's [_clean()] returns the store to exactly
    what it was before the list was constructed. *)
Theorem forward_list_cells {T : Type} (junk : T) (alloc : ptr)
    (m0 : gmap ptr (@node_t T)) (os : list (@op T)) :
  alloc <> nullptr ->
  Z.of_nat (Datatypes.length os) < size_type_modulus ->
  exists l m l',
    run_ops junk (construct alloc) os m0 = Val (l, m) /\
    Z.of_nat (base.size (dom m)) = Z.of_nat (base.size (dom m0)) + size l /\
    (forall p, p ∈ dom m0 -> m !! p = m0 !! p) /\
    _clean l m = Val (l', m0) /\
    head_ l' = nullptr /\ size l' = 0.
Proof.
  intros Ha Hb.
  destruct (from_construct_held junk alloc m0 os Ha Hb)
    as (l & m & es & Hrun & Hh & He & Hal & Hsz & Hlen).
  destruct (clear_run m0 l m es Hh) as (l' & Hcl & Hh' & _); [lia|].
  exists l, m, l'.
  split_and!; [done| |by destruct Hh|by apply noexcept_val|..].
  - pose proof Hh as [[_ Hnd _ _] Hd Hap _].
    unfold size. rewrite Hsz, Hd, size_union by set_solver.
    rewrite size_list_to_set, length_fmap by done. lia.
  - by destruct Hh' as [[Hr _ _ _] _ _ _].
  - by destruct Hh' as [[_ _ _ Hs] _ _ _].
Qed.

Lemma forward_list_cells_witness :
  1%nat <> nullptr /\
  Z.of_nat (Datatypes.length [Push 1; Push 2; Pop; Push 3; Push 4; Pop])
    < size_type_modulus /\
  exists l m l',
    run_ops 0 (construct 1%nat) [Push 1; Push 2; Pop; Push 3; Push 4; Pop] ∅
      = Val (l, m) /\
    Z.of_nat (base.size (dom m))
    = Z.of_nat (base.size (dom (∅ : gmap ptr (@node_t Z)))) + size l /\
    (forall p, p ∈ dom (∅ : gmap ptr (@node_t Z)) ->
               m !! p = (∅ : gmap ptr (@node_t Z)) !! p) /\
    _clean l m = Val (l', ∅) /\
    head_ l' = nullptr /\ size l' = 0.
Proof.
  split; [discriminate|]. split; [by vm_compute|].
  apply (forward_list_cells 0 1%nat ∅
           [Push 1; Push 2; Pop; Push 3; Push 4; Pop]).
  - discriminate.
  - by vm_compute.
Defined.

(** Copy assignment makes a deep copy in the same order: the target
    releases its own nodes, takes the allocator of the source and receives
    one newly allocated node per element of the source, so that its chain
    holds the same payloads front to back; the nodes of the source are left
    as they were and none is shared. (For sources of fewer than 2^31
    elements.) *)
Theorem forward_list_copy_assign_keeps_order {T : Type} (junk : T)
    (alloc1 alloc2 : ptr) (m0 : gmap ptr (@node_t T))
    (os1 os2 : list (@op T)) :
  alloc1 <> nullptr -> alloc2 <> nullptr ->
  Z.of_nat (Datatypes.length os1) < 2 ^ 31 ->
  Z.of_nat (Datatypes.length os2) < size_type_modulus ->
  exists lb m1 la m2 la' m3 eb ea,
    run_ops junk (construct alloc1) os1 m0 = Val (lb, m1) /\
    run_ops junk (construct alloc2) os2 m1 = Val (la, m2) /\
    copy_assign junk la lb m2 = Val (la', m3) /\
    lrep m3 (head_ lb) eb /\ eb.*2 = ops_model os1 [] /\
    lrep m3 (head_ la') ea /\ ea.*2 = ops_model os1 [] /\
    (forall a, a ∈ ea.*1 -> a ∉ eb.*1) /\
    size la' = size lb /\ allocator_ la' = alloc1 /\
    (forall p, p ∈ dom m1 -> m3 !! p = m1 !! p).
Proof.
  intros Ha1 Ha2 Hb1 Hb2.
  assert (H31 : 2 ^ 31 < size_type_modulus) by done.
  destruct (from_construct_held junk alloc1 m0 os1 Ha1)
    as (lb & m1 & eb & Hrun1 & Hh1 & He1 & Hal1 & Hsz1 & Hlen1); [lia|].
  destruct (from_construct_held junk alloc2 m1 os2 Ha2 Hb2)
    as (la & m2 & ea & Hrun2 & Hh2 & He2 & Hal2 & Hsz2 & Hlen2).
  pose proof Hh1 as [[Hr1 _ _ _] _ _ _].
  destruct (set_by_copy_run junk m1 la m2 ea lb eb Hh2)
    as (la' & m3 & es' & Hrun3 & Hh3 & He3 & Hal3 & Hsz3);
    [lia|done|congruence|done|lia|].
  pose proof Hh3 as [[Hr3 _ _ _] _ Hap3 Hfr3].
  exists lb, m1, la, m2, la', m3, eb, es'.
  split_and!; try done.
  - by apply noexcept_val.
  - eapply lrep_ext; [|exact Hr1]. intros a Hin. apply Hfr3.
    by eapply lrep_dom.
  - congruence.
  - intros a Hin Hin'. apply (Hap3 a Hin). by eapply lrep_dom.
  - congruence.
Qed.

Lemma forward_list_copy_assign_keeps_order_witness :
  1%nat <> nullptr /\ 2%nat <> nullptr /\
  Z.of_nat (Datatypes.length [Push 1; Push 2; Push 3; Pop; Push 4]) < 2 ^ 31 /\
  Z.of_nat (Datatypes.length [Push 7; Push 8]) < size_type_modulus /\
  exists lb m1 la m2 la' m3 eb ea,
    run_ops 0 (construct 1%nat) [Push 1; Push 2; Push 3; Pop; Push 4] ∅
      = Val (lb, m1) /\
    run_ops 0 (construct 2%nat) [Push 7; Push 8] m1 = Val (la, m2) /\
    copy_assign 0 la lb m2 = Val (la', m3) /\
    lrep m3 (head_ lb) eb /\
    eb.*2 = ops_model [Push 1; Push 2; Push 3; Pop; Push 4] [] /\
    lrep m3 (head_ la') ea /\
    ea.*2 = ops_model [Push 1; Push 2; Push 3; Pop; Push 4] [] /\
    (forall a, a ∈ ea.*1 -> a ∉ eb.*1) /\
    size la' = size lb /\ allocator_ la' = 1%nat /\
    (forall p, p ∈ dom m1 -> m3 !! p = m1 !! p).
Proof.
  split; [discriminate|]. split; [discriminate|].
  split; [by vm_compute|]. split; [by vm_compute|].
  apply (forward_list_copy_assign_keeps_order 0 1%nat 2%nat ∅
           [Push 1; Push 2; Push 3; Pop; Push 4] [Push 7; Push 8]).
  - discriminate.
  - discriminate.
  - by vm_compute.
  - by vm_compute.
Defined.

(** The copy constructor initialises no member before it calls
    [_set_by_copy], whose [_clean()] reads them. What it does depends on the
    indeterminate [size_] and [head_]: with [size_] 0 it makes the copy;
    with [size_] not 0 and a null [head_], [front()] throws inside
    [clear()], which is [noexcept], so the program is terminated and no
    exception reaches the caller; and with a [head_] that is not a live node
    it reads outside live storage. *)
Theorem forward_list_copy_construct_indeterminate {T : Type} (junk : T)
    (alloc : ptr) (m0 : gmap ptr (@node_t T)) (os : list (@op T))
    (h a : ptr) (sz : Z) :
  alloc <> nullptr ->
  Z.of_nat (Datatypes.length os) < 2 ^ 31 ->
  exists lb m1,
    run_ops junk (construct alloc) os m0 = Val (lb, m1) /\
    (sz = 0 ->
       exists l' m' es',
         copy_construct junk h a sz lb m1 = Val (l', m') /\
         lrep m' (head_ l') es' /\ es'.*2 = ops_model os [] /\
         size l' = size lb) /\
    (sz <> 0 -> h = nullptr ->
       copy_construct junk h a sz lb m1 = Exn Terminated) /\
    (sz <> 0 -> h <> nullptr -> h ∉ dom m1 ->
       copy_construct junk h a sz lb m1 = Exn BadAccess).
Proof.
  intros Ha Hb.
  assert (H31 : 2 ^ 31 < size_type_modulus) by done.
  destruct (from_construct_held junk alloc m0 os Ha)
    as (lb & m1 & eb & Hrun1 & Hh1 & He1 & Hal1 & Hsz1 & Hlen1); [lia|].
  pose proof Hh1 as [[Hr1 _ _ _] _ _ _].
  exists lb, m1. split; [done|]. split_and!.
  - intros ->.
    destruct (copy_into_empty junk m1 lb eb Hr1)
      as (l' & m' & es' & Hrun & Hh' & He' & Hal' & Hsz'); [congruence|done|lia|].
    exists l', m', es'. split_and!; [|by destruct Hh' as [[? _ _ _] _ _ _]|congruence|done].
    unfold copy_construct, _set_by_copy, bind at 1.
    rewrite clean_size_zero by done. exact Hrun.
  - intros Hsz ->. unfold copy_construct, _set_by_copy, bind at 1.
    unfold _clean, clear.
    assert (E : noexcept_
                  (noexcept_
                     (fun m => _clear_loop (S (base.size m))
                                 (mk_list nullptr a sz) m)) m1
                = Exn Terminated); [|by rewrite E].
    unfold noexcept_ at 1.
    rewrite (noexcept_thrown _ m1 "Calling front() on an empty container.");
      [done|].
    cbn [_clear_loop size_].
    rewrite decide_True by done. unfold bind at 1, front. cbn [head_].
    by rewrite decide_True.
  - intros Hsz Hh Hdom. unfold copy_construct, _set_by_copy, bind at 1.
    unfold _clean, clear.
    assert (E : noexcept_
                  (noexcept_
                     (fun m => _clear_loop (S (base.size m))
                                 (mk_list h a sz) m)) m1
                = Exn BadAccess); [|by rewrite E].
    do 2 apply noexcept_access.
    cbn [_clear_loop size_].
    rewrite decide_True by done. unfold bind at 1, front. cbn [head_].
    rewrite decide_False by done.
    unfold get_data, bind, load.
    by rewrite (not_elem_of_dom_1 m1 h Hdom).
Qed.

Lemma forward_list_copy_construct_indeterminate_witness :
  1%nat <> nullptr /\
  Z.of_nat (Datatypes.length [Push 1; Push 2; Push 3]) < 2 ^ 31 /\
  exists lb m1,
    run_ops 0 (construct 1%nat) [Push 1; Push 2; Push 3] ∅ = Val (lb, m1) /\
    (5 = 0 ->
       exists l' m' es',
         copy_construct 0 nullptr 9%nat 5 lb m1 = Val (l', m') /\
         lrep m' (head_ l') es' /\
         es'.*2 = ops_model [Push 1; Push 2; Push 3] [] /\
         size l' = size lb) /\
    (5 <> 0 -> nullptr = nullptr ->
       copy_construct 0 nullptr 9%nat 5 lb m1 = Exn Terminated) /\
    (5 <> 0 -> nullptr <> nullptr -> nullptr ∉ dom m1 ->
       copy_construct 0 nullptr 9%nat 5 lb m1 = Exn BadAccess).
Proof.
  split; [discriminate|]. split; [by vm_compute|].
  apply (forward_list_copy_construct_indeterminate 0 1%nat ∅
           [Push 1; Push 2; Push 3] nullptr 9%nat 5).
  - discriminate.
  - by vm_compute.
Defined.

End FwdListSpec.
